(* ===== verification/_CoqProject ===== *)
-Q . S2P
Prelude.v
Geometry.v
Spec.v
Aggregation.v
Style.v
Subdivide.v
Loader.v
Build.v
Pipeline.v
Builder.v
RenderPass.v
Charts.v
Dom.v
DomMatrix.v
Panes.v
Parser.v
Events.v
Session.v
Mimic.v
MimicLayer.v
