(* ===== verification/Prelude.v ===== *)
(** * StreetWeave: a verification development of the specification-to-geometry core

    StreetWeave ([src/streetweave], [src/editor]) renders a street network
    (GeoJSON line strings) enriched with point-sampled thematic data (CSV)
    according to a JSON layer specification.  This development models the
    part of the program with algorithmic content as executable Rocq
    definitions over exact rationals, file by file, and proves the
    properties that make each stage correct, or shows where it is not.

    ** The program and how its parts interact

    [TextEditor.tsx] keeps the text typed so far and hands it to [App]
    ([App.tsx]) on Apply; [parseSpecification] ([parser.ts]) parses and
    validates the document and yields the layer specs ([ParsedSpec] of
    [types/index.ts]); [App] keeps them when there is at least one and
    then shows [MapVisualization.tsx].  That component creates the map
    at the first street edge, draws the street file again as the
    "mimic" layer, and runs its render effect on every new list of
    specs: the cleanup of the previous run unbinds the [move zoom]
    listeners and removes the layers it pushed, then the body resets the
    alignment counters and calls [renderSegmentLayer] or
    [renderNodeLayer] for each layer.  A segment layer bumps the counter
    of its alignment and awaits [loadSegmentData] ([dataLoader.ts]):
    [loadPhysicalData] ([geoHelpers.ts]) cuts the line strings into
    two-point edges, [loadThematicData] reads the point table and the
    per-column min/max; [applySpatialAggregation] ([aggregation.ts])
    joins the points onto the edges (contains / nn / buffer), reduces
    them with [aggregateValues] and recomputes the edge statistics; with
    a density, [subdivideEdges] splits the edges and the join runs
    again.  When the load completes, [redraw] calls
    [buildD3Instructions] ([d3Helpers.ts]), which folds each edge's
    bearing, offsets it by the zoom's offset times the alignment counter
    ([mapHelpers.ts]), projects it, and builds its path with the style
    resolvers of [styleHelpers.ts]; [redraw] is bound to the map's
    [moveend zoomend].  The first [redraw] runs inside the layer's
    [try]: when it throws (a layer without [relation], or data whose
    statistics miss a named attribute) the [catch] only logs, and the
    layer is neither bound nor kept in [currentLayersRef].  Chart layers place Vega-Lite charts instead
    ([vegaliteHelpers.ts]), each chart binding a [move zoom] closure.

    ** Files (in the order of [_CoqProject])

    - [Prelude]: this header; JavaScript numbers as [Q] with decision
      instances and the tactics [qlra], [qcases], [qsimpl], [wdecide]; the
      [Infinity] sentinel [ext]; values [jsval] as [d3.autoType] yields
      them; objects as association lists in insertion order ([jget],
      [jset], notation [o.[k]] in [sw_scope]); the error monad [res]
      (a thrown [TypeError] is a value) with [res_foldl]; counting loops
      [for (i = 0; i < n; i++)] as [js_for] with fuel; the hint
      databases [sw] and [sw_rw].
    - [Geometry]: [SegmentData] and [PhysicalEdge]; the class [Turf], the
      geometry library as an interface, with a planar instance;
      [calculateMidpoint], [getCardinalDirection], the remainder [jsrem]
      and the bearing folds of [buildD3Instructions] ([fold_line]) and
      [drawVegaLiteEdges] ([fold_chart]), with the setoid [edge_eq].
    - [Spec]: [UnitType] and [ParsedSpec] as records and inductives.
    - [Aggregation]: [aggregateValues], [findClosestPoints] (a stable
      insertion sort, as [Array.prototype.sort] is stable), the three joins,
      the statistics loop of [applySpatialAggregation], [processEdgesToNodes].
    - [Style]: d3's [scaleLinear], [getDynamicStyleValue], [getDashArray],
      [getSquiggleParams], [applyOpacity], [getBivariateColor] (the d3
      colour ramps are parameters of a Section).
    - [Subdivide]: [subdivideEdges] and the pieces of one edge.
    - [Loader]: [loadPhysicalData] and [loadThematicData] with their
      [catch]; [d3.json] and [d3.csv] are parameters from the URL to the
      parsed file or the exception, [parseFloat] on strings another;
      both fetch [data_url].
    - [Build]: the two [vite.config.ts] objects as records, with Vite's
      defaults, and the URL prefix [base] the editor is served under.
    - [Pipeline]: [loadSegmentData] and [loadNodeData].
    - [Builder]: [getAdjustedLineWidth], [getOffsetDistance], [offsetPoint]
      and [generateSimpleWavyPath] over the class [JsMath] of [Math]
      functions, and [buildD3Instructions]: one definition per branch of
      [method] and [orientation] ([line_parallel_branch], ...,
      [matrix_branch]), the dispatch, and the in-place write-back of the
      folded edges ([build_from]); whether it throws does not depend on
      the offset distance ([build_from_throw_distance]).
    - [RenderPass]: the pass as a state machine: [start_pass] is the
      synchronous loop, [pass_step] the events that follow in any order
      (a load completing, its first [redraw] going through or caught,
      the map moving), [reachable] their closure; [segment_throws] says
      when a first [redraw] throws.
    - [Charts]: [drawVegaLiteEdges], [drawVegaLiteNodes] and
      [createAndPlaceVegaLiteSVG] over a model of the DOM they touch (the
      hidden [div]s of [document.body], the pane's chart elements by id);
      the calls of a pass and of each [move zoom] event complete in any
      order (a permutation), Vega-Lite's answer (an [svg], none, or a
      rejection that leaves the [div]) and [Number#toString] are
      parameters.
    - [Dom]: [drawSegments] and [drawD3Nodes] on the children of the
      layer's svg group: elements with identities, bound data,
      attributes and inline styles; d3's keyed join ([bindKey]: the
      first node per key, each datum claiming its node), the indexed
      join of the colour bands, enter (inserted before the next matched
      node), exit and merge; the setters run per element in data order
      and stop at the first throw, a [null] value removing the
      attribute; [redraws] is a segment layer's sequence of [redraw]s.
    - [DomMatrix]: the matrix branch of [drawSegments]: what a drawn cell
      group shows ([shows_matrix], [shows_band]), the index join of the
      bands ([draw_bands]) and the [.each] over the groups.
    - [Panes]: the map's DOM as Leaflet and the component build it
      ([mapdom]): the panes with their z-index and svg containers, the
      renderers the map holds and their [onRemove], the groups the
      layers draw into; [createPaneIfNeeded], the initializer's
      [mimicStreetPane], [renderSegmentLayer] before and after its load,
      [renderNodeLayer] with its [onRemove] override, the render
      effect's cleanup; [dom_step] and the preorder [dom_le] along which
      panes persist and containers, once detached, stay detached.
    - [Parser]: the JSON values [JSON.parse] returns, the module's Ajv
      set-up ([parser_module_init]), [parseSpecification]
      (the grammar and Ajv's schema check, with the defaults
      [useDefaults] fills into the layers, are parameters of a Section),
      the ["color-hex"] format, and [App] with [TextEditor] as one state
      machine [app_step].
    - [Events]: the map's listener registry as Leaflet keeps it
      ([map_on], [map_off_all], [map_off], [listeners]) and
      [bindMapEvents].
    - [Session]: the component across specifications: its state (the
      passes' specs, the counters ref, the zoom, the registry,
      [currentLayersRef], the loads in flight, [mimicWidth]), the render
      effect's cleanup and body ([effect_run]), the code after each
      load's [await] ([load_complete]), the handlers a pan or a zoom
      fires ([run_handler], [fire]) and the step relation
      [session_step]; the invariant [session_inv]; liveness with an
      omnisemantics-style [eventually]; the abstraction [refines] onto
      [RenderPass].
    - [Mimic]: the initial zoom and centre of the map, [initializeMap]'s
      tiles, the mimic layer's features and styling ([shouldUpdate]),
      the address effect, the width slider ([range_sanitize]: the
      browser's sanitization of a range input's value).
    - [MimicLayer]: the lifetimes of what the two awaiting effects
      create: the map initializer's runs with their [cancelled] flag
      ([init_step]) and the mimic effect's layers and ref
      ([mimic_step]: effect runs, load completions, restylings in any
      interleaving).

    ** What the theorems show

    - Joins: sum, mean, min and max are what they claim on the numeric
      values of the selection (0 on an empty one); the nearest-neighbour
      join takes the [n] closest points; the edge statistics bound every
      attribute and the [Infinity] start of the source is equivalent to
      the rational update; [processEdgesToNodes] averages per endpoint
      and keeps every attribute name of the incident edges.
    - Loaders: the edges of a [FeatureCollection] are exactly the
      consecutive [[lon, lat]] pairs of its line strings, chained, with
      Turf's bearing from start to end and no attributes; the kept rows are
      those with two parsed coordinates; the thematic statistics are tight
      over all the rows, dropped rows included.
    - Style: literals pass, attributes rescale linearly, a name missing from
      the statistics throws; dash and squiggle buckets; the channels read
      against the edge statistics never throw ([Style.edge_stats_channels])
      and [loadSegmentData] never throws and returns statistics holding
      every attribute of its edges ([Pipeline.loadSegmentData_total]).
    - Subdivision: the pieces are contiguous, cover the edge and run past
      its end by less than one target length; their lengths sum to
      [ceil(n) * 200 / density], not to the edge's length.
    - Rendering: the folds are idempotent, mirror each other and round
      trip (the line fold lands in [[0, 180)] for every bearing); the
      instruction loop stops at the first edge that throws, having
      folded the edges up to it; the matrix has a single colour; the offset dips below 6 near
      zoom 18; every left layer is offset by the total count of left
      layers; [offsetPoint] by 0 is the identity under [JsMathLaws].
    - Charts: with distinct ids every chart is drawn whatever the order;
      the moves never change what a chart shows; two edges whose screen
      midpoints have the same [x + y] share one chart element, whose data
      is that of the first call to complete; every embedding leaves a
      hidden [div] behind, [n + 1] per edge after [n] moves.
    - Editor and parser: a document that does not parse or that the
      schema rejects leaves the map as it was;
      along any edits and clicks [App] holds nothing or the truthy layers
      of an accepted document and shows the map exactly then; the
      schema's ["color-hex"] format and the renderer's colour test accept
      the same strings.
    - Session: every reachable state satisfies [session_inv]; a segment
      layer's [redraw], once bound, is never unbound, and an apply keeps
      exactly those; a load of a replaced specification still draws and
      binds when its first [redraw] goes through; each pan adds one
      [move] listener per chart of a node chart layer; every schedule of
      load completions settles a new pass with exactly the layers whose
      first [redraw] went through bound (liveness); within a pass the
      session refines [RenderPass] ([Session.session_refines_render_pass]),
      so the shared left offset holds of the real session too.
    - Mimic: the mimic features read back give the edges they came from
      (round trip); a street file without a line stops the map's
      creation with a [TypeError]; the address filter on every branch,
      a missing radius switching it off; after an apply the selected
      streets have weight [0].
    - Drawing and the map's DOM: whatever the sequence of redraws, a line
      layer's keyed join leaves one path per edge with the last
      instructions' attributes, and a matrix layer's keyed and index
      joins leave one group per edge with one path per current colour
      band (the stale bands removed); the circles' key is their index, so the
      keyed join of [drawD3Nodes] is the indexed one.  Two segment layers
      of one pane cannot both be seen (the second detaches the first
      one's container, and nothing reattaches it); a node layer's
      container and circles survive the cleanup of an apply; the mimic
      pane is always at z-index 350, so the 450 fallback is dead.
    - Lifetimes: the maps alive are exactly those of initializer runs not
      cleaned up (the [cancelled] flag works, e.g. under StrictMode's
      double mount); the mimic effect has no such flag, so two
      overlapping loads (one per run, even for the same specification)
      leave a layer on the map that nothing removes or restyles, and the
      last load to complete wins; after an apply the
      styling runs before the new layer exists, which keeps weight [0].
    - Library: the association lists refine stdpp's [gmap] for read,
      write and keys ([Prelude.jsobj_refines_gmap]); the wave loop of
      [generateSimpleWavyPath] runs [ceil(distance / wavelength)] times and
      ends at the end point ([Builder.generateSimpleWavyPath_waves]);
      [getCardinalDirection] returns [undefined], against its JSDoc,
      exactly for the bearings below [-22.5].
    - Configuration: the slider reports values in [[0, 100]], each a step
      of [Session]; the data URL [/data/...] lies outside the editor's
      [base] [/Street-Weave] ([Build.data_url_outside_base]).

    ** Bounds, fuel and limits

    A counting loop with a rational bound [n] runs [iterations n =
    ceil n] times ([0] for [n <= 0]); [js_for] is given [S (iterations n)]
    fuel and [Prelude.js_for_enough_fuel] proves that this fuel runs the
    loop to its end, so no theorem is about a truncated run.  Every other
    loop of the program iterates over a list and is a structural fold.
    JavaScript numbers are exact rationals: the theorems hold for the
    real-number semantics, not for IEEE rounding; [NaN] appears as a
    [jsval] and as [SNaN].  Trigonometry and geodesy are interfaces
    ([Turf], [JsMath]), so the theorems hold for every instance.
    JavaScript lists integer-like object keys first; the association lists
    keep insertion order only.  In [RenderPass] and [Session] a load's
    data, whether the drawing code throws on it ([draw_throws]: it
    cannot depend on the zoom, by [Builder.build_from_throw_distance])
    and a chart layer's number of charts (those whose first embedding
    resolves) are parameters, the continuations of the [await]s of one
    load run as one step (the chart closures of a layer are bound
    together), and the events of a pan
    ([move], [moveend]) and of a zoom ([zoom], [move], [zoomend],
    [moveend]) fire in Leaflet's order; every theorem holds for every
    interleaving of loads, pans, zooms and applies.  Not modelled: the
    fetches and parsing ([d3.json], [d3.csv], the geocoder's request,
    [JSON.parse]'s grammar), the Vega-Lite rendering itself, Leaflet's
    own listeners, its drawing of a renderer (size and position of the
    svg) and its tile layer, the title text [JSON.stringify] gives a
    circle (the title keeps the datum it shows), Ajv and the schema file
    (outside [src]), the layout and styling of the JSX (what it shows is
    [Parser.render_app] and [Mimic.width_slider]), Vite and its plugins,
    the commented-out code of [MapVisualization.tsx] (an area renderer
    and older handlers), and the functions nothing calls
    ([projectPoint], [calculateCentroid]).  In [Dom] element identities come from a
    counter the drawing threads; in [Panes] and [MimicLayer] a load's
    result is an argument of the step that completes it. *)

From stdpp Require Export base strings gmap list sorting.
From Stdlib Require Export QArith Qabs Qround Qminmax Lqa.

Declare Scope sw_scope.
Delimit Scope sw_scope with sw.
Create HintDb sw.
Create Rewrite HintDb sw_rw.

(** ** Numbers *)

#[export] Instance Qlt_decision (a b : Q) : Decision (a < b)%Q.
Proof. destruct (Qlt_le_dec a b); [left; done | right; by apply Qle_not_lt]. Defined.

#[export] Instance Qle_decision (a b : Q) : Decision (a <= b)%Q.
Proof. destruct (Qlt_le_dec b a); [right; by apply Qlt_not_le | left; done]. Defined.

#[export] Instance Qeq_decision (a b : Q) : Decision (a == b)%Q := Qeq_dec a b.

(** Syntactic equality of rationals, for keys in canonical ([Qred]) form. *)
#[export] Instance Q_eq_dec : EqDecision Q.
Proof. solve_decision. Defined.

(** [lra] over [Q] does not see through a division by a constant. *)
Ltac qlra :=
  unfold Qdiv in *; cbn [Qinv Qnum Qden] in *;
  try change (inject_Z 0) with 0 in *; try change (inject_Z 1) with 1 in *; lra.

(** Case analysis on every [decide] of the goal, with the negated
    conjunctions of the failed range tests split into cases. *)
Ltac qcases :=
  repeat case_decide;
  repeat match goal with H : ¬ (_ ∧ _) |- _ => apply not_and_l in H as [H|H] end.

(** A decidable side condition at a concrete input, settled by
    evaluating its [bool_decide]. *)
Ltac wdecide := first [reflexivity | apply (bool_decide_unpack _); vm_compute; reflexivity].

(** [d3.sum]: [sum += value] from 0, left to right. *)
Definition qsum (l : list Q) : Q := fold_left Qplus l 0%Q.

(** [simpl] that keeps the rational operations and [qsum] folded
    ([simpl] would unfold [Qeq] to an equation on [Z]). *)
Tactic Notation "qsimpl" :=
  cbn -[Qeq Qle Qlt Qplus Qmult Qminus Qopp Qdiv Qinv inject_Z qsum].
Tactic Notation "qsimpl" "in" hyp(H) :=
  cbn -[Qeq Qle Qlt Qplus Qmult Qminus Qopp Qdiv Qinv inject_Z qsum] in H.
Tactic Notation "qsimpl" "in" "*" :=
  cbn -[Qeq Qle Qlt Qplus Qmult Qminus Qopp Qdiv Qinv inject_Z qsum] in *.

(** The [value < acc] fold of [d3.min] / [value > acc] of [d3.max]:
    the first element is the start, later ones replace it when strictly
    smaller (larger). *)
Definition qmin_list (l : list Q) : option Q :=
  match l with
  | [] => None
  | x :: l' => Some (fold_left (fun m v => if decide (v < m)%Q then v else m) l' x)
  end.

Definition qmax_list (l : list Q) : option Q :=
  match l with
  | [] => None
  | x :: l' => Some (fold_left (fun m v => if decide (m < v)%Q then v else m) l' x)
  end.

(** ** The [Infinity] sentinel *)

Inductive ext := Fin (q : Q) | PInf | NInf.

Definition ext_lt (a b : ext) : bool :=
  match a, b with
  | Fin x, Fin y => bool_decide (x < y)%Q
  | NInf, NInf | PInf, _ | _, NInf => false
  | NInf, _ | _, PInf => true
  end.

(** ** JavaScript values, as [d3.autoType] produces them *)

Inductive jsval :=
  | JNum (q : Q) | JNaN | JStr (s : string) | JBool (b : bool) | JNull.

(** [typeof v === 'number'] (true for [NaN]). *)
Definition is_number (v : jsval) : bool :=
  match v with JNum _ | JNaN => true | _ => false end.

(** ** JavaScript objects: keys in insertion order *)

(** An object (or a [Record<K, A>] used as a map) is the list of its
    entries in insertion order; keys are compared with [EqDecision]. *)
Definition assoc (K A : Type) := list (K * A).
Abbreviation jsobj A := (assoc string A).

Fixpoint jget `{EqDecision K} {A} (k : K) (o : assoc K A) : option A :=
  match o with
  | [] => None
  | (k', v) :: o' => if decide (k = k') then Some v else jget k o'
  end.

(** [o[k] = v]: overwrite in place, or append a new key. *)
Fixpoint jset `{EqDecision K} {A} (k : K) (v : A) (o : assoc K A) : assoc K A :=
  match o with
  | [] => [(k, v)]
  | (k', v') :: o' => if decide (k = k') then (k, v) :: o' else (k', v') :: jset k v o'
  end.

Definition jkeys {K A} (o : assoc K A) : list K := fst <$> o.

(** The abstraction of an object to the finite map it denotes: the
    first entry of a key is the one read, so it is inserted last. *)
Definition jsobj_to_map `{Countable K} {A} (o : assoc K A) : gmap K A :=
  foldr (λ kv m, <[kv.1 := kv.2]> m) ∅ o.

Notation "o .[ k ]" := (jget k o) (at level 1, format "o .[ k ]") : sw_scope.
Open Scope sw_scope.


(** ** Errors: a thrown JavaScript exception is a value *)

(** The exceptions the modelled code can throw: a [TypeError] (reading a
    property of [undefined]), the [SyntaxError] of [JSON.parse] and a
    plain [Error] of a [throw new Error(...)]. *)
Inductive exn := TypeError (what : string) | SyntaxError (what : string) | Error (what : string).

Inductive res (A : Type) := Ok (a : A) | Throw (e : exn).
Arguments Ok {A} a.
Arguments Throw {A} e.

#[export] Instance res_ret : MRet res := λ _ a, Ok a.
#[export] Instance res_bind : MBind res :=
  λ _ _ f m, match m with Ok a => f a | Throw e => Throw e end.
#[export] Instance res_fmap : FMap res :=
  λ _ _ f m, match m with Ok a => Ok (f a) | Throw e => Throw e end.

(** Case analysis on every computation a chain of [res] binds waits on. *)
Ltac res_cases := unfold mbind, res_bind, mret, res_ret; repeat case_match.

(** A loop whose body may throw, threading its state: the first throw
    ends it. *)
Fixpoint res_foldl {A B} (f : B → A → res B) (l : list A) (b : B) : res B :=
  match l with
  | [] => Ok b
  | x :: l => b' ← f b x; res_foldl f l b'
  end.

(** ** Counting loops [for (let i = 0; i < n; i++)] *)

(** [for (let i = startIndex; i < endIndex; i++) body(i)], run with at
    most [fuel] iterations. *)
Fixpoint js_for {A} (fuel : nat) (i : nat) (endIndex : Q) (body : nat → A) : list A :=
  match fuel with
  | O => []
  | S fuel' =>
      if decide (inject_Z (Z.of_nat i) < endIndex)
      then body i :: js_for fuel' (S i) endIndex body
      else []
  end.

(** The number of iterations: the naturals below [n]. *)
Definition iterations (n : Q) : nat := Z.to_nat (Qceiling n).

(** * Lemmas *)

(** ** Numbers *)

Lemma inject_Z_minus (a b : Z) : inject_Z (a - b) == inject_Z a - inject_Z b.
Proof. unfold Qminus. rewrite <- inject_Z_opp, <- inject_Z_plus. reflexivity. Qed.

Lemma inject_Z_S i : inject_Z (Z.of_nat (S i)) == inject_Z (Z.of_nat i) + 1.
Proof. rewrite Nat2Z.inj_succ, <- Z.add_1_r, inject_Z_plus. reflexivity. Qed.

(** ** Objects *)

Section jsobj_lemmas.
Context `{EqDecision K} {A : Type}.
Implicit Types o : assoc K A.
Implicit Types k : K.

Lemma jget_jset_eq o k v : (jset k v o).[k] = Some v.
Proof. induction o as [|[k' v'] o IH]; simpl; repeat case_decide; simpl; try case_decide; naive_solver. Qed.

Lemma jget_jset_ne o k k' v : k ≠ k' → (jset k v o).[k'] = o.[k'].
Proof.
  intros Hne. induction o as [|[k'' v'] o IH]; simpl;
    repeat (case_decide; simplify_eq/=); try done.
Qed.

Lemma jget_Some_keys o k v : o.[k] = Some v → k ∈ jkeys o.
Proof.
  induction o as [|[k' v'] o IH]; simpl; [done|].
  case_decide; intros; subst; set_solver.
Qed.

Lemma jget_None_keys o k : k ∉ jkeys o → o.[k] = None.
Proof. destruct (o.[k]) eqn:E; [|done]. intros []. by eapply jget_Some_keys. Qed.

Lemma jkeys_jset o k v :
  jkeys (jset k v o) = if bool_decide (k ∈ jkeys o) then jkeys o else jkeys o ++ [k].
Proof.
  induction o as [|[k' v'] o IH]; simpl; [done|].
  destruct (decide (k = k')) as [->|Hne]; simpl.
  - rewrite bool_decide_true; [done | set_solver].
  - rewrite IH. case_bool_decide; case_bool_decide; set_solver.
Qed.

Lemma jkeys_jset_NoDup o k v : NoDup (jkeys o) → NoDup (jkeys (jset k v o)).
Proof.
  rewrite jkeys_jset. case_bool_decide; [done|].
  intros. apply NoDup_app. split_and!; [done| |by apply NoDup_singleton]. set_solver.
Qed.

Lemma jget_map {B} (f : A → B) o k :
  ((λ kv, (kv.1, f kv.2)) <$> o).[k] = f <$> o.[k].
Proof. induction o as [|[k' v'] o IH]; simpl; [done|]. by case_decide. Qed.

Lemma jkeys_map {B} (f : A → B) o : jkeys ((λ kv, (kv.1, f kv.2)) <$> o) = jkeys o.
Proof. unfold jkeys. rewrite <- list_fmap_compose. done. Qed.

Lemma jget_Some_elem o k v : o.[k] = Some v → (k, v) ∈ o.
Proof.
  induction o as [|[k' v'] o IH]; simpl; [done|].
  case_decide; [intros [= ->]; subst; set_solver | intros; set_solver].
Qed.

Lemma jget_elem_of o k v : NoDup (jkeys o) → (k, v) ∈ o → o.[k] = Some v.
Proof.
  induction o as [|[k' v'] o IH]; simpl; intros Hnd Hin; [set_solver|].
  apply NoDup_cons in Hnd as [Hk' Hnd]. apply elem_of_cons in Hin as [[= -> ->]|Hin].
  - by rewrite decide_True.
  - rewrite decide_False; [by apply IH|]. intros ->. apply Hk'.
    apply list_elem_of_fmap. by exists (k', v).
Qed.
(** Writing [o[k] = f(k)] for each [k] of [ks], in order. *)
Lemma jget_fold_jset (f : K → A) ks o k :
  (fold_left (λ acc k', jset k' (f k') acc) ks o).[k] =
  if decide (k ∈ ks) then Some (f k) else o.[k].
Proof.
  revert o. induction ks as [|k' ks IH]; intros o; simpl; [destruct (decide (k ∈ [])); [set_solver | done]|].
  rewrite IH. destruct (decide (k = k')) as [->|Hne].
  - rewrite jget_jset_eq. destruct (decide (k' ∈ ks)); rewrite decide_True by set_solver; done.
  - rewrite jget_jset_ne by congruence.
    destruct (decide (k ∈ ks)); [rewrite decide_True | rewrite decide_False]; set_solver.
Qed.

Lemma jkeys_fold_jset (f : K → A) ks o :
  NoDup ks → (∀ k, k ∈ ks → k ∉ jkeys o) →
  jkeys (fold_left (λ acc k', jset k' (f k') acc) ks o) = jkeys o ++ ks.
Proof.
  revert o. induction ks as [|k' ks IH]; intros o Hnd Hdis; simpl; [by rewrite app_nil_r|].
  apply NoDup_cons in Hnd as [Hk' Hnd].
  rewrite IH; [| done |].
  - rewrite jkeys_jset, bool_decide_false by set_solver. by rewrite <- app_assoc.
  - intros k Hk. rewrite jkeys_jset, bool_decide_false by set_solver. set_solver.
Qed.
End jsobj_lemmas.

#[export] Hint Rewrite @jget_jset_eq @jget_map @jkeys_map : sw_rw.
#[export] Hint Resolve jkeys_jset_NoDup jget_Some_keys : sw.

(** ** Objects refine finite maps *)

Section jsobj_refinement.
Context `{Countable K} {A : Type}.
Implicit Types o : assoc K A.

Lemma jsobj_to_map_lookup o k : (jsobj_to_map o) !! k = o.[k].
Proof.
  induction o as [|[k' v'] o IH]; simpl; [by rewrite lookup_empty|].
  case_decide as E; [subst; by rewrite lookup_insert_eq|]. by rewrite lookup_insert_ne, IH.
Qed.

Lemma jsobj_to_map_jset o k v : jsobj_to_map (jset k v o) = <[k := v]> (jsobj_to_map o).
Proof.
  induction o as [|[k' v'] o IH]; simpl; [done|].
  case_decide as E; simpl; [subst; by rewrite insert_insert_eq|].
  rewrite IH. by apply insert_insert_ne.
Qed.

Lemma jsobj_to_map_dom o : dom (jsobj_to_map o) = list_to_set (jkeys o).
Proof. induction o as [|[k v] o IH]; simpl; [by rewrite dom_empty_L|]. by rewrite dom_insert_L, IH. Qed.

(** The insertion-ordered object model refines stdpp's finite map:
    reading a key is looking it up in the map the object denotes,
    writing a key is inserting it there, and the keys the object lists
    are exactly the map's domain.  Every theorem about [jget], [jset]
    and [jkeys] is therefore a theorem about the abstract map, whatever
    order the entries were written in. *)
Theorem jsobj_refines_gmap o k k' v :
  (jsobj_to_map o) !! k = o.[k] ∧
  jsobj_to_map (jset k v o) = <[k := v]> (jsobj_to_map o) ∧
  (k' ∈ jkeys o ↔ k' ∈ dom (jsobj_to_map o)).
Proof.
  split_and!; [apply jsobj_to_map_lookup | apply jsobj_to_map_jset |].
  rewrite jsobj_to_map_dom. set_solver.
Qed.
End jsobj_refinement.

Lemma default_Some {A} (d x : A) : default d (Some x) = x.
Proof. reflexivity. Qed.

Lemma default_None {A} (d : A) : default d None = d.
Proof. reflexivity. Qed.

(** ** Errors *)


Lemma res_bind_Ok {A B} (f : A → res B) m b : (m ≫= f) = Ok b ↔ ∃ a, m = Ok a ∧ f a = Ok b.
Proof. destruct m; simpl; naive_solver. Qed.

(** [forEach] over a list with a body that may throw: it completes when
    every element's body does, and throws when one element's body does. *)
Lemma mapM_res_Ok {A B} (f : A → res B) l :
  (∀ x, x ∈ l → ∃ y, f x = Ok y) → ∃ ys, mapM f l = Ok ys.
Proof.
  induction l as [|x l IH]; intros Hf; [by eexists|].
  destruct (Hf x) as [y Hy]; [left|]. destruct IH as [ys Hys]; [intros; apply Hf; by right|].
  exists (y :: ys). simpl. by rewrite Hy, Hys.
Qed.

Lemma mapM_res_Throw {A B} (f : A → res B) l x e :
  x ∈ l → f x = Throw e → ∃ e', mapM f l = Throw e'.
Proof.
  induction l as [|x' l IH]; intros Hx He; [set_solver|]. simpl.
  destruct (f x') as [y|e'] eqn:Hx'; [|by eexists].
  apply elem_of_cons in Hx as [->|Hx]; [congruence|].
  destruct (IH Hx He) as [e'' ->]. by eexists.
Qed.

(** Every result of a completed [mapM] comes from an element. *)
Lemma mapM_res_elem {A B} (f : A → res B) l ys y :
  mapM f l = Ok ys → y ∈ ys → ∃ x, x ∈ l ∧ f x = Ok y.
Proof.
  revert ys. induction l as [|x l IH]; intros ys; simpl.
  - intros [= <-]. set_solver.
  - destruct (f x) as [y0|e] eqn:Hx; simpl; [|done].
    destruct (mapM f l) as [ys0|e] eqn:Hl; simpl; [|done].
    intros [= <-] [->|Hin]%elem_of_cons; [by exists x; split; [left|]|].
    destruct (IH ys0 eq_refl Hin) as (x' & ? & ?). exists x'. split; [by right|done].
Qed.

(** Every element a counting loop produces is the body at some index. *)
Lemma js_for_elem {A} fuel i n (body : nat → A) x :
  x ∈ js_for fuel i n body → ∃ j, x = body j.
Proof.
  revert i. induction fuel as [|fuel IH]; intros i; simpl; [set_solver|].
  case_decide; [|set_solver]. intros [->|Hin]%elem_of_cons; [by eexists|]. by apply (IH (S i)).
Qed.

(** ** Generic list lemmas *)

Lemma elem_of_concat {A} (x : A) (ls : list (list A)) :
  x ∈ concat ls ↔ ∃ l, l ∈ ls ∧ x ∈ l.
Proof.
  rewrite list_elem_of_In, in_concat. setoid_rewrite list_elem_of_In. naive_solver.
Qed.

Lemma filter_Forall_id {A} (P : A → Prop) `{∀ x, Decision (P x)} l :
  Forall P l → filter P l = l.
Proof. induction 1 as [|x l Hx _ IH]; [done|]. rewrite filter_cons, decide_True by done. by f_equal. Qed.

(** Filtering commutes with [omap] when the two tests agree on every
    element [f] keeps. *)
Lemma omap_filter {A B} (f : A → option B) (P : A → Prop) (Q : B → Prop)
    `{∀ x, Decision (P x)} `{∀ y, Decision (Q y)} (l : list A) :
  (∀ x y, f x = Some y → P x ↔ Q y) → omap f (filter P l) = filter Q (omap f l).
Proof.
  intros Hf. induction l as [|x l IH]; [done|]. rewrite filter_cons.
  destruct (f x) as [y|] eqn:E; [pose proof (Hf x y E)|];
    case_decide; cbn [omap list_omap]; rewrite ?E, ?IH, ?filter_cons; try case_decide; naive_solver.
Qed.

Lemma filter_neq_notin {A} `{EqDecision A} (x : A) (l : list A) : x ∉ l → filter (λ y, y ≠ x) l = l.
Proof. intros Hx. apply filter_Forall_id, Forall_forall. set_solver. Qed.

(** An element of a list without duplicates occurs in it once. *)
Lemma length_filter_eq_NoDup {A} `{EqDecision A} (x : A) (l : list A) :
  NoDup l → x ∈ l → length (filter (λ y, y = x) l) = 1%nat.
Proof.
  assert (Hnil : ∀ l', x ∉ l' → filter (λ y, y = x) l' = []).
  { induction l' as [|y l' IH]; intros Hn; [done|].
    rewrite filter_cons_False; [apply IH; set_solver|]. intros ->. set_solver. }
  intros Hnd (l1 & l2 & ->)%list_elem_of_split.
  apply NoDup_app in Hnd as (_ & Hx & Hnd2). apply NoDup_cons in Hnd2 as [Hx2 _].
  rewrite filter_app, filter_cons_True, length_app by done. simpl.
  rewrite !Hnil; [done|done|]. intros Hx1. by apply (Hx x Hx1); left.
Qed.

Lemma NoDup_fmap_split {A B} (f : A → B) l1 x l2 :
  NoDup (f <$> l1 ++ x :: l2) → Forall (λ y, f y ≠ f x) l1 ∧ Forall (λ y, f y ≠ f x) l2.
Proof.
  rewrite fmap_app, fmap_cons. intros H. apply NoDup_app in H as (_ & Hdis & H2).
  apply NoDup_cons in H2 as [Hx _].
  split; apply Forall_forall; intros y Hy Heq.
  - apply (Hdis (f y)); [by apply list_elem_of_fmap_2 | rewrite Heq; left].
  - apply Hx. rewrite <- Heq. by apply list_elem_of_fmap_2.
Qed.

(** The first element of a list that satisfies a decidable predicate. *)
Lemma list_first_split {A} (P : A → Prop) `{∀ x, Decision (P x)} l :
  (∃ x, x ∈ l ∧ P x) → ∃ l1 x l2, l = l1 ++ x :: l2 ∧ P x ∧ Forall (λ y, ¬ P y) l1.
Proof.
  induction l as [|y l IH]; intros (x & Hx & Px); [set_solver|].
  destruct (decide (P y)) as [Py|Py]; [by exists [], y, l|].
  destruct IH as (l1 & z & l2 & -> & Pz & Hl1).
  { apply elem_of_cons in Hx as [->|Hx]; [done | eauto]. }
  exists (y :: l1), z, l2. split_and!; [done | done | by constructor].
Qed.

(** ** Generic list lemmas on the reductions *)

Lemma qsum_acc l a : fold_left Qplus l a == a + qsum l.
Proof.
  unfold qsum. revert a. induction l as [|x l IH]; intros a; cbn [fold_left]; [ring|].
  rewrite (IH (a + x)), (IH (0 + x)). ring.
Qed.

Lemma qsum_nil : qsum [] = 0.
Proof. reflexivity. Qed.

Lemma qsum_cons x l : qsum (x :: l) == x + qsum l.
Proof. unfold qsum at 1. cbn [fold_left]. rewrite qsum_acc. ring. Qed.

Lemma qsum_singleton x : qsum [x] == x.
Proof. unfold qsum. simpl. ring. Qed.

Lemma qsum_app l1 l2 : qsum (l1 ++ l2) == qsum l1 + qsum l2.
Proof.
  unfold qsum at 1. rewrite fold_left_app, (qsum_acc l2 (fold_left Qplus l1 0)). done.
Qed.

#[export] Hint Rewrite qsum_nil qsum_cons qsum_singleton qsum_app : sw_rw.

Lemma qmin_fold_bounds l x :
  let m := fold_left (λ m v, if decide (v < m)%Q then v else m) l x in
  (m <= x)%Q ∧ Forall (λ v, m <= v)%Q l ∧ (m = x ∨ m ∈ l).
Proof.
  revert x. induction l as [|y l IH]; intros x; simpl.
  - split_and!; [apply Qle_refl | constructor | by left].
  - set (x' := if decide (y < x)%Q then y else x).
    assert (Hx : (x' <= x)%Q ∧ (x' <= y)%Q ∧ (x' = x ∨ x' = y)).
    { subst x'. case_decide as Hlt; [|apply Qnot_lt_le in Hlt]; split_and!; auto; qlra. }
    destruct (IH x') as (H1 & H2 & H3), Hx as (Hx1 & Hx2 & Hx3).
    split_and!; [qlra | constructor; [qlra | done] |].
    destruct H3 as [->|]; [destruct Hx3 as [->| ->]|]; set_solver.
Qed.

Lemma qmax_fold_bounds l x :
  let m := fold_left (λ m v, if decide (m < v)%Q then v else m) l x in
  (x <= m)%Q ∧ Forall (λ v, v <= m)%Q l ∧ (m = x ∨ m ∈ l).
Proof.
  revert x. induction l as [|y l IH]; intros x; simpl.
  - split_and!; [apply Qle_refl | constructor | by left].
  - set (x' := if decide (x < y)%Q then y else x).
    assert (Hx : (x <= x')%Q ∧ (y <= x')%Q ∧ (x' = x ∨ x' = y)).
    { subst x'. case_decide as Hlt; [|apply Qnot_lt_le in Hlt]; split_and!; auto; qlra. }
    destruct (IH x') as (H1 & H2 & H3), Hx as (Hx1 & Hx2 & Hx3).
    split_and!; [qlra | constructor; [qlra | done] |].
    destruct H3 as [->|]; [destruct Hx3 as [->| ->]|]; set_solver.
Qed.

Lemma qmin_list_spec l m :
  qmin_list l = Some m → Forall (λ v, m <= v)%Q l ∧ m ∈ l.
Proof.
  destruct l as [|x l]; simpl; [done|]. intros [= <-].
  destruct (qmin_fold_bounds l x) as (H1 & H2 & H3).
  split; [by constructor|]. destruct H3 as [->|]; set_solver.
Qed.

Lemma qmax_list_spec l m :
  qmax_list l = Some m → Forall (λ v, v <= m)%Q l ∧ m ∈ l.
Proof.
  destruct l as [|x l]; simpl; [done|]. intros [= <-].
  destruct (qmax_fold_bounds l x) as (H1 & H2 & H3).
  split; [by constructor|]. destruct H3 as [->|]; set_solver.
Qed.

(** ** Counting loops terminate within their fuel *)

Lemma lt_iterations (x : Q) (j : nat) :
  inject_Z (Z.of_nat j) < x ↔ (j < iterations x)%nat.
Proof.
  unfold iterations. pose proof (Qle_ceiling x). pose proof (Qceiling_lt x).
  rewrite inject_Z_minus in *. change (inject_Z 1) with 1 in *.
  split; intros Hj.
  - assert (Z.of_nat j < Qceiling x)%Z by (rewrite Zlt_Qlt; qlra). lia.
  - assert (Z.of_nat j + 1 <= Qceiling x)%Z by lia.
    rewrite Zle_Qle, inject_Z_plus in H1. change (inject_Z 1) with 1 in H1. qlra.
Qed.

(** With fuel reaching past the last index the loop runs exactly the
    indices [i .. iterations x - 1]. *)
Theorem js_for_enough_fuel {A} fuel i x (body : nat → A) :
  (iterations x <= i + fuel)%nat →
  js_for fuel i x body = body <$> seq i (iterations x - i).
Proof.
  revert i. induction fuel as [|fuel IH]; intros i Hf; simpl.
  - by replace (iterations x - i)%nat with 0%nat by lia.
  - case_decide as Hi.
    + apply lt_iterations in Hi. rewrite IH by lia.
      replace (iterations x - i)%nat with (S (iterations x - S i)) by lia. done.
    + rewrite lt_iterations in Hi. by replace (iterations x - i)%nat with 0%nat by lia.
Qed.

Lemma iterations_bounds x :
  0 <= x → x <= inject_Z (Z.of_nat (iterations x)) < x + 1.
Proof.
  intros Hx. unfold iterations. pose proof (Qle_ceiling x). pose proof (Qceiling_lt x).
  assert (0 <= Qceiling x)%Z by (rewrite Zle_Qle; qlra).
  rewrite Z2Nat.id by done. rewrite inject_Z_minus in *. change (inject_Z 1) with 1 in *. qlra.
Qed.

(** ** Loops whose body may throw *)

Lemma res_foldl_mret {A B} (f : B → A → B) l b :
  res_foldl (λ b a, mret (f b a)) l b = Ok (fold_left f l b).
Proof. revert b. induction l as [|x l IH]; intros b; [done|]. apply IH. Qed.

Lemma res_foldl_throw {A B} (f : B → A → res B) l b e :
  (∀ b a, f b a = Throw e) → l ≠ [] → res_foldl f l b = Throw e.
Proof. destruct l as [|x l]; [done|]. intros Hf _. simpl. by rewrite Hf. Qed.

Lemma res_foldl_ext {A B} (f g : B → A → res B) l b :
  (∀ b a, f b a = g b a) → res_foldl f l b = res_foldl g l b.
Proof.
  intros Hfg. revert b. induction l as [|x l IH]; intros b; [done|]. simpl.
  rewrite Hfg. destruct (g b x); [apply IH|done].
Qed.

