(* ===== verification/Geometry.v ===== *)
(** * Geometry: data records, the turf interface, bearing folds

    The records of [src/streetweave/src/types/index.ts] ([SegmentData],
    [PhysicalEdge]); the geometry library the sources call (turf) as the
    class [Turf]; the helpers of [geoHelpers.ts] that do not need
    trigonometry ([calculateMidpoint], [getCardinalDirection]); the
    JavaScript remainder [jsrem]; and the two ways the renderers fold an
    edge's bearing onto a half circle, [fold_line] ([buildD3Instructions],
    [d3Helpers.ts]) and [fold_chart] ([drawVegaLiteEdges],
    [vegaliteHelpers.ts]), with the edge setoid [edge_eq] they respect. *)

From S2P Require Import Prelude.
Open Scope Q_scope.

(** ** Records *)

(** [SegmentData = {lat, lon}] *)
Record coord := mkCoord { lat : Q; lon : Q }.

(** [PhysicalEdge]: [attributes] is [undefined] ([None]) until a join
    assigns an object. *)
Record edge := mkEdge {
  point0 : coord;
  point1 : coord;
  bearing : Q;
  length : Q;
  attributes : option (jsobj Q)
}.

(** A GeoJSON position [[x, y]] as turf reads it. *)
Abbreviation position := (Q * Q)%type.

(** ** The geometry library (turf), as an interface *)

(** Every operation of [@turf/turf] the sources call.  The one law is
    turf's documented range of [bearing] ([atan2] in degrees). *)
Class Turf := {
  turf_poly : Type;
  (** [turf.bearing(point(a), point(b))] *)
  turf_bearing : position → position → Q;
  (** [turf.length(lineString([a, b]), {units: 'meters'})] *)
  turf_length : position → position → Q;
  (** [turf.distance(a, b, {units: 'kilometers'})] *)
  turf_distance : position → position → Q;
  (** [turf.buffer(point(c), r, {units: 'meters'})], [None] when the
      result is not a (multi)polygon; the radius may be [undefined]. *)
  turf_buffer_point : position → option Q → option turf_poly;
  (** [turf.buffer(lineString([a, b]), r, {units: 'meters'})] *)
  turf_buffer_line : position → position → Q → option turf_poly;
  (** [turf.booleanPointInPolygon(point(p), poly)] *)
  turf_inside : position → turf_poly → bool;
  turf_bearing_range a b : -180 <= turf_bearing a b <= 180
}.

(** A planar instance used by the witnesses: positions are metres on a
    plane, distances are taxicab distances and buffers are boxes. *)
Definition box := (Q * Q * Q * Q)%type.

Definition in_box (p : position) (b : box) : bool :=
  let '(x0, y0, x1, y1) := b in
  bool_decide (x0 <= p.1 <= x1) && bool_decide (y0 <= p.2 <= y1).

#[export] Program Instance planar_turf : Turf := {
  turf_poly := box;
  turf_bearing _ _ := 0;
  turf_length a b := Qabs (b.1 - a.1) + Qabs (b.2 - a.2);
  turf_distance a b := Qabs (b.1 - a.1) + Qabs (b.2 - a.2);
  turf_buffer_point c r :=
    match r with
    | Some r => Some (c.1 - r, c.2 - r, c.1 + r, c.2 + r)
    | None => None
    end;
  turf_buffer_line a b r :=
    Some (Qmin a.1 b.1 - r, Qmin a.2 b.2 - r, Qmax a.1 b.1 + r, Qmax a.2 b.2 + r);
  turf_inside := in_box
}.
Next Obligation. intros. split; discriminate. Qed.

(** ** [geoHelpers.ts] helpers *)

Definition calculateMidpoint (c1 c2 : coord) : coord :=
  {| lat := (lat c1 + lat c2) / 2; lon := (lon c1 + lon c2) / 2 |}.

(** JavaScript [x % y] on numbers: the sign of the dividend. *)
Definition Qtrunc (q : Q) : Z := if decide (0 <= q) then Qfloor q else Qceiling q.

Definition jsrem (x y : Q) : Q := x - y * inject_Z (Qtrunc (x / y)).

Definition directions : list string :=
  ["north"; "northeast"; "east"; "southeast"; "south"; "southwest"; "west"; "northwest"]%string.

(** [directions[Math.floor((bearing + 22.5) / 45) % 8]]; a negative
    index reads [undefined]. *)
Definition getCardinalDirection (b : Q) : option string :=
  let index := Z.rem (Qfloor ((b + (45 # 2)) / 45)) 8 in
  if decide (index < 0)%Z then None else directions !! Z.to_nat index.

(** ** The two bearing folds *)

(** [((Bearing % 360) + 360) % 360] *)
Definition norm360 (b : Q) : Q := jsrem (jsrem b 360 + 360) 360.

(** [buildD3Instructions], lines 35-49: swap the endpoints when the
    bearing is at least 180 and subtract 180. *)
Definition fold_line (e : edge) : edge :=
  let B := norm360 (bearing e) in
  if decide (180 <= B) then
    {| point0 := point1 e; point1 := point0 e; bearing := B - 180;
       length := length e; attributes := attributes e |}
  else
    {| point0 := point0 e; point1 := point1 e; bearing := B;
       length := length e; attributes := attributes e |}.

(** [drawVegaLiteEdges], lines 26-37: the opposite fold, swapping when
    the bearing is below 180, then [(Bearing - 180 + 360) % 360]. *)
Definition fold_chart (e : edge) : edge :=
  let B := norm360 (bearing e) in
  if decide (B < 180) then
    {| point0 := point1 e; point1 := point0 e; bearing := jsrem (B - 180 + 360) 360;
       length := length e; attributes := attributes e |}
  else
    {| point0 := point0 e; point1 := point1 e; bearing := B;
       length := length e; attributes := attributes e |}.

(** The reverse of an edge: endpoints swapped, bearing turned by 180. *)
Definition mirror (e : edge) : edge :=
  {| point0 := point1 e; point1 := point0 e; bearing := bearing e + 180;
     length := length e; attributes := attributes e |}.

(** Syntactic equality of records, for the decision procedures. *)
#[export] Instance coord_eq_dec : EqDecision coord.
Proof. solve_decision. Defined.
#[export] Instance edge_eq_dec : EqDecision edge.
Proof. solve_decision. Defined.

(** Reorienting a folded edge: swap it back when the fold swapped it. *)
Definition unfold_line (swapped : bool) (f : edge) : edge :=
  if swapped then mirror f else f.

(** ** The edge setoid: numbers compared as numbers *)

Definition coord_eq (a b : coord) : Prop := lat a == lat b ∧ lon a == lon b.

Definition edge_eq (e f : edge) : Prop :=
  coord_eq (point0 e) (point0 f) ∧ coord_eq (point1 e) (point1 f) ∧
  bearing e == bearing f ∧ length e == length f ∧ attributes e = attributes f.

#[export] Instance coord_eq_equiv : Equivalence coord_eq.
Proof.
  split; unfold coord_eq.
  - intros ?; split; reflexivity.
  - intros ?? []; split; by symmetry.
  - intros ??? [] []; split; etransitivity; eauto.
Qed.

#[export] Instance edge_eq_equiv : Equivalence edge_eq.
Proof.
  split; unfold edge_eq.
  - intros ?; split_and!; reflexivity.
  - intros ?? (?&?&?&?&?); split_and!; by symmetry.
  - intros ??? (?&?&?&?&?) (?&?&?&?&?); split_and!; etransitivity; eauto.
Qed.

(** ** Arithmetic of the remainder *)

Lemma Qfloor_unique (z : Z) (x : Q) :
  inject_Z z <= x < inject_Z (z + 1) → Qfloor x = z.
Proof.
  intros [H1 H2]. pose proof (Qfloor_le x). pose proof (Qlt_floor x).
  rewrite !inject_Z_plus in *.
  assert (Qfloor x < z + 1)%Z by (rewrite Zlt_Qlt, inject_Z_plus; lra).
  assert (z < Qfloor x + 1)%Z by (rewrite Zlt_Qlt, inject_Z_plus; lra).
  lia.
Qed.

#[export] Instance Qtrunc_proper : Proper (Qeq ==> eq) Qtrunc.
Proof.
  intros x y Hxy. unfold Qtrunc.
  destruct (decide (0 <= x)), (decide (0 <= y)); try (exfalso; rewrite Hxy in *; done).
  - by apply Qfloor_comp.
  - by apply Qceiling_comp.
Qed.

#[export] Instance jsrem_proper : Proper (Qeq ==> Qeq ==> Qeq) jsrem.
Proof.
  intros x x' Hx y y' Hy. unfold jsrem.
  assert (Qtrunc (x / y) = Qtrunc (x' / y')) as -> by (apply Qtrunc_proper; by rewrite Hx, Hy).
  by rewrite Hx, Hy.
Qed.

#[export] Instance norm360_proper : Proper (Qeq ==> Qeq) norm360.
Proof. intros x y Hxy. unfold norm360. by rewrite Hxy. Qed.

Lemma jsrem_nonneg x y : 0 < y → 0 <= x → 0 <= jsrem x y < y.
Proof.
  intros Hy Hx. unfold jsrem, Qtrunc.
  assert (Hq : 0 <= x / y) by (apply Qle_shift_div_l; [done | lra]).
  rewrite decide_True by done.
  pose proof (Qfloor_le (x / y)). pose proof (Qlt_floor (x / y)).
  assert (Hxy : y * (x / y) == x) by (apply Qmult_div_r; lra).
  rewrite inject_Z_plus in *. change (inject_Z 1) with 1 in *.
  set (t := inject_Z (Qfloor (x / y))) in *. set (q := x / y) in *.
  split; nra.
Qed.

Lemma jsrem_neg x y : 0 < y → x < 0 → - y < jsrem x y <= 0.
Proof.
  intros Hy Hx. unfold jsrem, Qtrunc.
  assert (Hq : x / y < 0) by (apply Qlt_shift_div_r; [done | lra]).
  rewrite decide_False by (intros ?; lra).
  pose proof (Qle_ceiling (x / y)). pose proof (Qceiling_lt (x / y)).
  assert (Hxy : y * (x / y) == x) by (apply Qmult_div_r; lra).
  rewrite inject_Z_minus in *. change (inject_Z 1) with 1 in *.
  set (t := inject_Z (Qceiling (x / y))) in *. set (q := x / y) in *.
  split; nra.
Qed.

Lemma jsrem_bound x y : 0 < y → - y < jsrem x y < y.
Proof.
  intros Hy. destruct (Qlt_le_dec x 0).
  - pose proof (jsrem_neg x y Hy); lra.
  - pose proof (jsrem_nonneg x y Hy); lra.
Qed.

(** On [[k y, (k+1) y)] the remainder subtracts [k y]. *)
Lemma jsrem_shift x y (k : Z) :
  0 < y → (0 <= k)%Z → inject_Z k * y <= x < (inject_Z k + 1) * y →
  jsrem x y == x - inject_Z k * y.
Proof.
  intros Hy Hk [H1 H2]. unfold jsrem, Qtrunc.
  assert (Hq : inject_Z k <= x / y < inject_Z (k + 1)).
  { rewrite inject_Z_plus. change (inject_Z 1) with 1. split.
    - apply Qle_shift_div_l; lra.
    - apply Qlt_shift_div_r; lra. }
  rewrite decide_True; [rewrite (Qfloor_unique k); [ring | done]|].
  rewrite Zle_Qle in Hk. change (inject_Z 0) with 0 in Hk. lra.
Qed.

Lemma jsrem_small x y : 0 < y → 0 <= x < y → jsrem x y == x.
Proof. intros Hy Hx. rewrite (jsrem_shift x y 0); [ring | done | lia | qlra]. Qed.

Lemma jsrem_congr x y : ∃ k : Z, jsrem x y == x - y * inject_Z k.
Proof. exists (Qtrunc (x / y)). reflexivity. Qed.

Lemma norm360_range b : 0 <= norm360 b < 360.
Proof.
  unfold norm360. pose proof (jsrem_bound b 360 ltac:(done)).
  apply jsrem_nonneg; [done | lra].
Qed.

Lemma norm360_small b : 0 <= b < 360 → norm360 b == b.
Proof.
  intros Hb. unfold norm360. rewrite (jsrem_small b) by (done || lra).
  rewrite (jsrem_shift _ _ 1); [change (inject_Z 1) with 1; ring | done | lia | qlra].
Qed.

(** The fold keeps the direction modulo a full turn. *)
Lemma norm360_congr b : ∃ k : Z, norm360 b == b + 360 * inject_Z k.
Proof.
  unfold norm360. destruct (jsrem_congr b 360) as [k1 H1].
  destruct (jsrem_congr (jsrem b 360 + 360) 360) as [k2 H2].
  exists (1 - k1 - k2)%Z. rewrite H2, H1, !inject_Z_minus. simpl. ring.
Qed.

#[export] Hint Resolve norm360_range jsrem_bound : sw.

(** ** The folds *)

Lemma fold_line_range e : 0 <= bearing (fold_line e) < 180.
Proof.
  unfold fold_line. pose proof (norm360_range (bearing e)) as Hr.
  destruct (decide _) as [H|H]; simpl; [|apply Qnot_le_lt in H]; qlra.
Qed.

(** An edge already in the half circle is left as it is. *)
Lemma fold_line_id e : 0 <= bearing e < 180 → edge_eq (fold_line e) e.
Proof.
  intros Hb. unfold fold_line. pose proof (norm360_small (bearing e) ltac:(qlra)) as Hn.
  rewrite decide_False by (rewrite Hn; qlra).
  repeat split; simpl; try reflexivity; done.
Qed.

Lemma fold_chart_range e : 180 <= bearing (fold_chart e) < 360.
Proof.
  unfold fold_chart. pose proof (norm360_range (bearing e)) as Hr.
  destruct (decide _) as [H|H]; simpl; [|apply Qnot_lt_le in H; qlra].
  rewrite jsrem_small; qlra.
Qed.

Lemma fold_chart_id e : 180 <= bearing e < 360 → edge_eq (fold_chart e) e.
Proof.
  intros Hb. unfold fold_chart. pose proof (norm360_small (bearing e) ltac:(qlra)) as Hn.
  rewrite decide_False by (rewrite Hn; qlra).
  repeat split; simpl; try reflexivity; done.
Qed.

#[export] Instance fold_line_proper : Proper (edge_eq ==> edge_eq) fold_line.
Proof.
  intros e f (H0 & H1 & Hb & Hl & Ha). unfold fold_line.
  pose proof (norm360_proper _ _ Hb) as Hn.
  do 2 case_decide; try (exfalso; rewrite Hn in *; done);
    repeat split; simpl; try apply H0; try apply H1; try done; by rewrite Hn.
Qed.


(** ** Properties of the folds *)

(** The line fold of [buildD3Instructions] is idempotent: the renderer
    writes the folded endpoints and bearing back into the shared edge on
    every redraw, and folding again changes nothing. *)
Theorem fold_line_idempotent e : edge_eq (fold_line (fold_line e)) (fold_line e).
Proof. apply fold_line_id, fold_line_range. Qed.

(** The chart fold of [drawVegaLiteEdges] is the exact mirror of the
    line fold: same edge with endpoints swapped and bearing turned by 180,
    landing in [[180, 360)] where the line fold lands in [[0, 180)]. *)
Theorem fold_chart_mirror e : edge_eq (fold_chart e) (mirror (fold_line e)).
Proof.
  unfold fold_chart, fold_line, mirror. pose proof (norm360_range (bearing e)) as Hr.
  destruct (decide (norm360 (bearing e) < 180)) as [H|H].
  - rewrite decide_False by qlra.
    repeat split; simpl; try reflexivity. rewrite jsrem_small; qlra.
  - apply Qnot_lt_le in H. rewrite decide_True by done.
    repeat split; simpl; try reflexivity. ring.
Qed.

(** C37: Round trip: the fold of [buildD3Instructions] puts every bearing,
    negative ones as turf reports them included, on the half circle
    [[0, 180)], and the folded edge with the swap flag gives back the
    original oriented edge: the same endpoints in the same order, and
    its bearing up to a whole number of turns. *)
Theorem fold_line_roundtrip e :
  0 <= bearing (fold_line e) < 180 ∧
  ∃ k : Z, edge_eq (unfold_line (bool_decide (180 <= norm360 (bearing e))) (fold_line e))
             {| point0 := point0 e; point1 := point1 e; bearing := bearing e + 360 * inject_Z k;
                length := length e; attributes := attributes e |}.
Proof.
  split; [apply fold_line_range|].
  destruct (norm360_congr (bearing e)) as [k Hk]. exists k.
  unfold unfold_line, fold_line, mirror.
  case_bool_decide; [rewrite decide_True by done | rewrite decide_False by done];
    repeat split; simpl; try reflexivity; rewrite Hk; ring.
Qed.

(** The sectors of [getCardinalDirection]: a non-negative bearing
    within 22.5 degrees of [45 k] maps to direction [k mod 8]. *)
Theorem getCardinalDirection_sector (b : Q) (k : Z) :
  0 <= b → inject_Z (45 * k) - (45 # 2) <= b < inject_Z (45 * k) + (45 # 2) →
  getCardinalDirection b = directions !! Z.to_nat (k mod 8).
Proof.
  intros Hb [H1 H2]. rewrite inject_Z_mult in H1, H2. change (inject_Z 45) with 45 in H1, H2.
  unfold getCardinalDirection.
  rewrite (Qfloor_unique k).
  2: { rewrite inject_Z_plus. change (inject_Z 1) with 1.
       split; [apply Qle_shift_div_l | apply Qlt_shift_div_r]; qlra. }
  assert (-1 < k)%Z by (rewrite Zlt_Qlt; change (inject_Z (-1)) with (-1); qlra).
  rewrite Z.rem_mod_nonneg by lia. destruct (decide _) as [Hm|]; [|done]. pose proof (Z.mod_pos_bound k 8). lia.
Qed.

(** C39: [getCardinalDirection] breaks its contract (its JSDoc promises
    "one of 8 cardinal directions", its type a [string]) on half of
    turf's range: over the bearings [[-180, 360)] it returns
    [undefined], read from [directions] at a negative index, exactly for
    those below [-22.5], that is every bearing turf reports west of
    north-north-west. *)
Theorem getCardinalDirection_negative (b : Q) :
  -180 <= b < 360 → getCardinalDirection b = None ↔ b < - (45 # 2).
Proof.
  intros [H1 H3]. split; [|intros H2].
  - intros HN. destruct (Qlt_le_dec b (- (45 # 2))) as [|Hge]; [done|exfalso].
    revert HN. unfold getCardinalDirection.
    set (q := (b + (45 # 2)) / 45).
    assert (Hq : 0 <= q < 9) by (subst q; split; [apply Qle_shift_div_l | apply Qlt_shift_div_r]; qlra).
    pose proof (Qlt_floor q). rewrite inject_Z_plus in *. change (inject_Z 1) with 1 in *.
    assert (-1 < Qfloor q)%Z by (rewrite Zlt_Qlt; change (inject_Z (-1)) with (-1); lra).
    rewrite decide_False by (pose proof (Z.rem_nonneg (Qfloor q) 8); lia).
    destruct (lookup_lt_is_Some_2 directions (Z.to_nat (Z.rem (Qfloor q) 8))) as [x Hx];
      [pose proof (Z.rem_bound_pos (Qfloor q) 8 ltac:(lia) ltac:(lia)); change (List.length directions) with 8%nat; lia|].
    by rewrite Hx.
  - unfold getCardinalDirection.
  set (q := (b + (45 # 2)) / 45).
  assert (Hq : -4 <= q < 0) by (subst q; split; [apply Qle_shift_div_l | apply Qlt_shift_div_r]; qlra).
  pose proof (Qfloor_le q). pose proof (Qlt_floor q).
  rewrite inject_Z_plus in *. change (inject_Z 1) with 1 in *.
  assert (-5 < Qfloor q)%Z by (rewrite Zlt_Qlt; change (inject_Z (-5)) with (-5); lra).
  assert (Qfloor q < 0)%Z by (rewrite Zlt_Qlt; change (inject_Z 0) with 0; lra).
  rewrite decide_True; [done|].
  rewrite <- (Z.opp_involutive (Qfloor q)), Z.rem_opp_l, Z.rem_small; lia.
Qed.

(** ** Witnesses *)

(** A bearing of 100 degrees lies in the sector of [45 * 2]: east. *)
Lemma getCardinalDirection_sector_witness :
  getCardinalDirection 100 = directions !! Z.to_nat (2 mod 8) ∧
  directions !! Z.to_nat (2 mod 8) = Some "east"%string.
Proof.
  split; [|reflexivity].
  apply (getCardinalDirection_sector 100 2); [wdecide | split; wdecide].
Defined.

(** A bearing of [-90] (due west, as turf reports it) has no direction. *)
Lemma getCardinalDirection_negative_witness : getCardinalDirection (-90) = None.
Proof. refine (proj2 (getCardinalDirection_negative (-90) _) _); [split|]; wdecide. Defined.
