(* ===== verification/Spec.v ===== *)
(** * Spec: the layer specification ([ParsedSpec], [UnitType])

    The types of [src/streetweave/src/types/index.ts] that describe one
    layer of the document: the rendering unit, the data sources, the
    spatial relation and the map overrides.  String enumerations become
    inductive types; an optional field is an [option]; a field typed
    [string | number] is a [specval]. *)

From S2P Require Import Prelude.
Open Scope Q_scope.

(** [AggregationType = 'sum' | 'mean' | 'min' | 'max'] *)
Inductive aggtype := AggSum | AggMean | AggMin | AggMax.

(** [SpatialRelationType = 'buffer' | 'nn' | 'contains'] *)
Inductive spatial := SContains | SNN | SBuffer.

Inductive unit_kind := USegment | UNode.
Inductive method := MLine | MRect | MMatrix.
Inductive orientation := OParallel | OPerpendicular | OFixed.
Inductive alignment := ALeft | ACenter | ARight.

(** A style channel: [string | number]. *)
Inductive specval := SVNum (q : Q) | SVStr (s : string).

(** The Vega-Lite template of [unit.chart]: only its presence matters
    to the code modelled here; the template is handed to the renderer
    unchanged. *)
Inductive chart := Chart (template : string).

(** [UnitType] *)
Record unit_spec := mkUnit {
  u_type : unit_kind;
  u_density : option specval;
  u_method : option method;
  u_opacity : option specval;
  u_color : option string;
  u_squiggle : option string;
  u_dash : option string;
  u_width : option specval;
  u_height : option specval;
  u_chart : option chart;
  u_rows : option Q;
  u_columns : option Q;
  u_orientation : option orientation;
  u_alignment : option alignment
}.

(** [ParsedSpec.relation] *)
Record relation_spec := mkRelation {
  r_spatial : option spatial;
  r_value : option Q;
  r_type : option aggtype
}.

(** [ParsedSpec] *)
Record layer_spec := mkLayer {
  l_name : option string;
  l_unit : unit_spec;
  l_physical_path : string;
  l_thematic_path : string;
  l_lat_column : string;
  l_lon_column : string;
  l_relation : option relation_spec;
  l_zoom : option (Q * Q);
  l_street_color : option string;
  l_street_width : option Q;
  l_query_address : option string;
  l_query_radius : option Q
}.

(** [layerSpec.relation?.spatial] and [layerSpec.relation.type!] *)
Definition spec_spatial (l : layer_spec) : option spatial := l_relation l ≫= r_spatial.
Definition spec_aggtype (l : layer_spec) : option aggtype := l_relation l ≫= r_type.
Definition spec_value (l : layer_spec) : option Q := l_relation l ≫= r_value.

#[export] Instance unit_kind_eq_dec : EqDecision unit_kind.
Proof. solve_decision. Defined.
#[export] Instance aggtype_eq_dec : EqDecision aggtype.
Proof. solve_decision. Defined.
#[export] Instance spatial_eq_dec : EqDecision spatial.
Proof. solve_decision. Defined.
#[export] Instance method_eq_dec : EqDecision method.
Proof. solve_decision. Defined.
#[export] Instance orientation_eq_dec : EqDecision orientation.
Proof. solve_decision. Defined.
#[export] Instance alignment_eq_dec : EqDecision alignment.
Proof. solve_decision. Defined.
