(* ===== verification/Aggregation.v ===== *)
(** * Aggregation: the spatial join engine ([aggregation.ts])

    [aggregateValues] reduces the points a join selects to one number
    per attribute, with d3's [sum], [mean], [min] and [max]; the three
    joins ([aggregationContainsSegment], [aggregateSegmentNearestNeighbor]
    with [findClosestPoints] and [calculateDistances] of [geoHelpers.ts],
    [aggregateSegmentBuffer] with [createBuffer] and
    [filterPointsInBuffer]) assign the result to each edge;
    [applySpatialAggregation] dispatches on the relation and recomputes
    the per-attribute statistics over the edges; [processEdgesToNodes]
    averages edge attributes onto their endpoints.  The joins are proved
    for every instance of the [Turf] interface. *)

From S2P Require Import Prelude Geometry Spec.
Open Scope Q_scope.

(** ** Thematic points *)

(** A loaded CSV row ([ThematicPoint]): the row object, whose [lat] and
    [lon] entries the loader has set to the parsed coordinates. *)
Record tpoint := mkTPoint { tp_lat : Q; tp_lon : Q; tp_row : jsobj jsval }.

(** [turf.point([point.lon, point.lat])] *)
Definition tp_pos (p : tpoint) : position := (tp_lon p, tp_lat p).

(** ** [aggregateValues] *)

(** [Object.keys(thematicData[0]).filter(k => k !== 'lat' && k !== 'lon')],
    or no key when there is no point. *)
Definition attr_keys (thematicData : list tpoint) : list string :=
  match thematicData with
  | [] => []
  | p :: _ => filter (λ k, k ≠ "lat"%string ∧ k ≠ "lon"%string) (jkeys (tp_row p))
  end.

(** [points.map(point => point[attr]).filter(val => typeof val === 'number')]:
    a missing key reads [undefined] and is dropped with the non-numbers. *)
Definition attr_values (points : list tpoint) (attr : string) : list jsval :=
  filter (λ v, is_number v = true) (omap (λ p, (tp_row p).[attr]) points).

(** The numbers d3's reducers take into account: [NaN] is skipped. *)
Definition finite_nums (vs : list jsval) : list Q :=
  omap (λ v, match v with JNum q => Some q | _ => None end) vs.

(** [d3.mean]: [undefined] when no value is a number. *)
Definition d3_mean (vs : list jsval) : option Q :=
  match finite_nums vs with
  | [] => None
  | ns => Some (qsum ns / inject_Z (Z.of_nat (List.length ns)))
  end.

(** The [switch] of [aggregateValues] followed by [if(!value) value = 0]
    ([!value] holds for [undefined] and for [0], where writing [0]
    changes nothing). *)
Definition aggregate_one (t : option aggtype) (values : list jsval) : Q :=
  let value :=
    match t with
    | Some AggSum => Some (qsum (finite_nums values))
    | Some AggMean => if bool_decide (values = []) then Some 0 else d3_mean values
    | Some AggMin => if bool_decide (values = []) then Some 0 else qmin_list (finite_nums values)
    | Some AggMax => if bool_decide (values = []) then Some 0 else qmax_list (finite_nums values)
    | None => Some 0
    end in
  default 0 value.

(** [aggregateValues(points, aggregationType, thematicData)]: one entry
    per attribute key, written in key order. *)
Definition aggregateValues (points : list tpoint) (t : option aggtype)
    (thematicData : list tpoint) : jsobj Q :=
  fold_left (λ acc attr, jset attr (aggregate_one t (attr_values points attr)) acc)
    (attr_keys thematicData) [].

(** The number stored under [k] in a point's row, if it is one. *)
Definition num_at (k : string) (p : tpoint) : option Q :=
  match (tp_row p).[k] with Some (JNum q) => Some q | _ => None end.

(** The numeric values of attribute [k] over a point set. *)
Definition point_nums (pts : list tpoint) (k : string) : list Q := omap (num_at k) pts.

(** ** Nearest neighbours ([geoHelpers.ts]) *)

(** [[...distances].sort((a, b) => a.distance - b.distance)]: the sort
    of [Array.prototype.sort] is stable, so its result is the stable
    sorted order, computed here by insertion: an element goes before the
    first one at least as far. *)
Fixpoint insert_by_distance (d : nat * Q) (l : list (nat * Q)) : list (nat * Q) :=
  match l with
  | [] => [d]
  | d' :: l' => if decide (d.2 <= d'.2) then d :: d' :: l' else d' :: insert_by_distance d l'
  end.

Fixpoint sort_by_distance (l : list (nat * Q)) : list (nat * Q) :=
  match l with
  | [] => []
  | d :: l' => insert_by_distance d (sort_by_distance l')
  end.

Section Joins.
Context `{Turf}.

(** [calculateDistance(point1, point2)]: [turf.distance] in kilometres. *)
Definition calculateDistance (point1 point2 : position) : Q := turf_distance point1 point2.

(** [calculateDistances(centroid, thematicData)] *)
Definition calculateDistances (centroid : position) (thematicData : list tpoint) : list (nat * Q) :=
  imap (λ index p, (index, calculateDistance centroid (tp_pos p))) thematicData.

(** [findClosestPoints(distances, thematicData, numberOfPoints)]:
    the first [n] of the sorted list, mapped back to their points. *)
Definition findClosestPoints (distances : list (nat * Q)) (thematicData : list tpoint)
    (numberOfPoints : nat) : list tpoint :=
  omap (λ d, thematicData !! d.1) (take numberOfPoints (sort_by_distance distances)).

(** [createBuffer] and [filterPointsInBuffer] *)
Definition createBuffer (p : position) (bufferDistance : option Q) : option turf_poly :=
  turf_buffer_point p bufferDistance.

Definition filterPointsInBuffer (buffer : turf_poly) (points : list tpoint) : list tpoint :=
  filter (λ p, turf_inside (tp_pos p) buffer = true) points.

(** The edge with its [attributes] field replaced. *)
Definition with_attributes (e : edge) (a : option (jsobj Q)) : edge :=
  {| point0 := point0 e; point1 := point1 e; bearing := bearing e;
     length := length e; attributes := a |}.

(** [aggregationContainsSegment]: a 5000 m buffer around the segment;
    note the positions are passed as [[lat, lon]] while the points are
    tested as [[lon, lat]]. *)
Definition aggregationContainsSegment (edgesData : list edge) (thematicData : list tpoint)
    (aggregationType : option aggtype) : list edge :=
  (λ e,
    let pointA := (lat (point0 e), lon (point0 e)) in
    let pointB := (lat (point1 e), lon (point1 e)) in
    match turf_buffer_line pointA pointB 5000 with
    | None =>
        {| point0 := point0 e; point1 := point1 e; bearing := 0; length := 0;
           attributes := Some [] |}
    | Some bbox =>
        let pointsInBoundingBox :=
          filter (λ p, turf_inside (tp_pos p) bbox = true) thematicData in
        with_attributes e (Some (aggregateValues pointsInBoundingBox aggregationType thematicData))
    end) <$> edgesData.

(** [aggregateSegmentNearestNeighbor]: the 100 points closest to the
    midpoint. *)
Definition aggregateSegmentNearestNeighbor (edgesData : list edge)
    (environmentalData : list tpoint) (aggregationType : option aggtype) : list edge :=
  (λ e,
    let midpointCoords := calculateMidpoint (point0 e) (point1 e) in
    let centroid := (lon midpointCoords, lat midpointCoords) in
    let distances := calculateDistances centroid environmentalData in
    let closestPoints := findClosestPoints distances environmentalData 100 in
    with_attributes e (Some (aggregateValues closestPoints aggregationType environmentalData)))
  <$> edgesData.

(** [aggregateSegmentBuffer]: a buffer of [relation.value] metres
    around the midpoint. *)
Definition aggregateSegmentBuffer (edgesData : list edge) (environmentalData : list tpoint)
    (bufferDistance : option Q) (aggregationType : option aggtype) : list edge :=
  (λ e,
    let midpoint := calculateMidpoint (point0 e) (point1 e) in
    match createBuffer (lon midpoint, lat midpoint) bufferDistance with
    | None =>
        {| point0 := point0 e; point1 := point1 e; bearing := 0; length := 0;
           attributes := None |}
    | Some buffer =>
        let pointsInBuffer := filterPointsInBuffer buffer environmentalData in
        with_attributes e (Some (aggregateValues pointsInBuffer aggregationType environmentalData))
    end) <$> edgesData.
End Joins.

(** The order of the sorted distances. *)
Definition dist_le (a b : nat * Q) : Prop := a.2 <= b.2.

(** ** [applySpatialAggregation] and the edge statistics *)

(** An entry of [attributeStats]. *)
Record stat := mkStat { smin : Q; smax : Q }.

(** One iteration of the inner loop (lines 194-206 of [aggregation.ts]) for a key and its
    value.  The source creates a missing entry as
    [{min: Infinity, max: -Infinity}] and then compares; the first value
    always replaces both bounds, so a new entry is [{min: v, max: v}]
    ([stat_update_sentinel] below proves the two agree). *)
Definition stat_update (s : option stat) (v : Q) : stat :=
  match s with
  | None => {| smin := v; smax := v |}
  | Some s =>
      {| smin := if decide (v < smin s) then v else smin s;
         smax := if decide (smax s < v) then v else smax s |}
  end.

(** [for (const key in edge.attributes)], with [finalValue = value]:
    the values are numbers ([value ? value : 0] changes only [0]). *)
Definition edge_stats_step (st : gmap string stat) (e : edge) : gmap string stat :=
  fold_left (λ st kv, <[kv.1 := stat_update (st !! kv.1) kv.2]> st) (default [] (attributes e)) st.

Definition edge_stats (edgesData : list edge) : gmap string stat :=
  fold_left edge_stats_step edgesData ∅.

(** [AggregatedEdges] *)
Record aggregated := mkAggregated { ag_edges : list edge; ag_stats : gmap string stat }.

(** [applySpatialAggregation(physicalData, thematicData, layerSpec)].
    [unit.type] is [segment] or [node] by its type, so the last
    [return] of the source is unreachable. *)
Definition applySpatialAggregation `{Turf} (physicalData : list edge)
    (thematicData : list tpoint) (layerSpec : layer_spec) : aggregated :=
  let joined :=
    match spec_spatial layerSpec with
    | Some SContains =>
        Some (aggregationContainsSegment physicalData thematicData (spec_aggtype layerSpec))
    | Some SNN =>
        Some (aggregateSegmentNearestNeighbor physicalData thematicData (spec_aggtype layerSpec))
    | Some SBuffer =>
        Some (aggregateSegmentBuffer physicalData thematicData (spec_value layerSpec)
                (spec_aggtype layerSpec))
    | None => None
    end in
  match joined with
  | None => {| ag_edges := physicalData; ag_stats := ∅ |}
  | Some edgesData => {| ag_edges := edgesData; ag_stats := edge_stats edgesData |}
  end.

(** *** The [Infinity] sentinel *)

Record xstat := mkXStat { xmin : ext; xmax : ext }.

Definition xstat_init : xstat := {| xmin := PInf; xmax := NInf |}.

(** The update of the source on a sentinel-initialised entry. *)
Definition xstat_update (s : xstat) (v : Q) : xstat :=
  {| xmin := if ext_lt (Fin v) (xmin s) then Fin v else xmin s;
     xmax := if ext_lt (xmax s) (Fin v) then Fin v else xmax s |}.

Definition to_xstat (s : stat) : xstat := {| xmin := Fin (smin s); xmax := Fin (smax s) |}.

(** *** The statistics invariant *)

(** [st] bounds every value [P] admits, and each bound is such a value. *)
Definition stats_inv (P : string → Q → Prop) (st : gmap string stat) : Prop :=
  (∀ k v, P k v → ∃ s, st !! k = Some s ∧ smin s <= v <= smax s) ∧
  (∀ k s, st !! k = Some s → smin s <= smax s ∧ P k (smin s) ∧ P k (smax s)).

(** ** [processEdgesToNodes] *)

(** An entry of [NodesMap]: [{lat, lon, sums, count}]. *)
Record node_acc := mkNodeAcc { na_lat : Q; na_lon : Q; na_sums : jsobj Q; na_count : nat }.

(** An emitted node [{lat, lon, attributes}]. *)
Record node := mkNode { n_lat : Q; n_lon : Q; n_attributes : jsobj Q }.

(** The key [`${node.lat},${node.lon}`]: two coordinates print the same
    exactly when they are equal numbers, which [Qred] decides. *)
Definition node_key (c : coord) : Q * Q := (Qred (lat c), Qred (lon c)).

(** [if (!sums[k]) sums[k] = 0; sums[k] += v;] *)
Definition add_attr (sums : jsobj Q) (kv : string * Q) : jsobj Q :=
  let sums1 :=
    match sums.[kv.1] with
    | Some x => if decide (x == 0) then jset kv.1 0 sums else sums
    | None => jset kv.1 0 sums
    end in
  jset kv.1 (default 0 sums1.[kv.1] + kv.2) sums1.

(** One endpoint of one edge: create the entry if the key is new (it is
    appended, [jset] on a missing key), add the edge's attributes and
    count the incidence. *)
Definition visit_node (NodesMap : assoc (Q * Q) node_acc) (n : coord)
    (aggregatedAttributes : option (jsobj Q)) : assoc (Q * Q) node_acc :=
  let key := node_key n in
  let acc :=
    match NodesMap.[key] with
    | Some a => a
    | None => {| na_lat := lat n; na_lon := lon n; na_sums := []; na_count := 0 |}
    end in
  jset key {| na_lat := na_lat acc; na_lon := na_lon acc;
              na_sums := fold_left add_attr (default [] aggregatedAttributes) (na_sums acc);
              na_count := S (na_count acc) |} NodesMap.

(** [processEdgesToNodes(aggregatedEdges)]: both endpoints of every edge,
    then one node per key with each sum divided by the incidence count. *)
Definition processEdgesToNodes (aggregatedEdges : list edge) : list node :=
  let NodesMap :=
    fold_left (λ m e, visit_node (visit_node m (point0 e) (attributes e)) (point1 e) (attributes e))
      aggregatedEdges [] in
  (λ kv, let a := kv.2 in
     {| n_lat := na_lat a; n_lon := na_lon a;
        n_attributes := (λ sv, (sv.1, sv.2 / inject_Z (Z.of_nat (na_count a)))) <$> na_sums a |})
  <$> NodesMap.

(** *** Specification: sums and counts over the endpoints *)

Definition endpoints (es : list edge) : list (coord * option (jsobj Q)) :=
  es ≫= (λ e, [(point0 e, attributes e); (point1 e, attributes e)]).

(** The total of the entries named [k] of one attribute object. *)
Definition attr_total (kvs : jsobj Q) (k : string) : Q :=
  qsum (omap (λ kv, if decide (kv.1 = k) then Some kv.2 else None) kvs).

Definition at_key (q : Q * Q) (eps : list (coord * option (jsobj Q))) :=
  filter (λ ca, node_key ca.1 = q) eps.

Definition incidence (eps : list (coord * option (jsobj Q))) (q : Q * Q) : nat :=
  List.length (at_key q eps).

Definition attr_sum (eps : list (coord * option (jsobj Q))) (q : Q * Q) (k : string) : Q :=
  qsum ((λ ca, attr_total (default [] ca.2) k) <$> at_key q eps).

Definition node_coord (n : node) : coord := {| lat := n_lat n; lon := n_lon n |}.

(** The invariant of [NodesMap] after visiting the endpoints [eps]. *)
Definition nodes_inv (eps : list (coord * option (jsobj Q))) (m : assoc (Q * Q) node_acc) : Prop :=
  NoDup (jkeys m) ∧
  (∀ c a, (c, a) ∈ eps → is_Some (m.[node_key c])) ∧
  ∀ q acc, m.[q] = Some acc →
    node_key {| lat := na_lat acc; lon := na_lon acc |} = q ∧
    (0 < na_count acc)%nat ∧ na_count acc = incidence eps q ∧
    ∀ k, match (na_sums acc).[k] with
         | Some s => s == attr_sum eps q k
         | None => attr_sum eps q k == 0
         end.

(** Every attribute name of an endpoint's edge has a sum in the entry
    of the endpoint's key. *)
Definition keys_inv (eps : list (coord * option (jsobj Q))) (m : assoc (Q * Q) node_acc) : Prop :=
  ∀ c a k, (c, a) ∈ eps → k ∈ jkeys (default [] a) →
    ∃ acc, m.[node_key c] = Some acc ∧ is_Some ((na_sums acc).[k]).

(** An edge without attributes: an empty object, or [undefined]. *)
Definition no_attributes (e : edge) : Prop := attributes e = Some [] ∨ attributes e = None.

(** ** The end-to-end scenario of the specification *)

Definition scenario_unit : unit_spec :=
  {| u_type := USegment; u_density := None; u_method := Some MLine; u_opacity := None;
     u_color := None; u_squiggle := None; u_dash := None; u_width := None; u_height := None;
     u_chart := None; u_rows := None; u_columns := None;
     u_orientation := Some OParallel; u_alignment := Some ACenter |}.

Definition scenario_spec (rel : relation_spec) : layer_spec :=
  {| l_name := None; l_unit := scenario_unit; l_physical_path := "streets.geojson";
     l_thematic_path := "sensors.csv"; l_lat_column := "lat"; l_lon_column := "lon";
     l_relation := Some rel; l_zoom := None; l_street_color := None; l_street_width := None;
     l_query_address := None; l_query_radius := None |}.

(** A loaded row [{count, lat, lon}]. *)
Definition scenario_point (la lo c : Q) : tpoint :=
  {| tp_lat := la; tp_lon := lo; tp_row := [("count", JNum c); ("lat", JNum la); ("lon", JNum lo)] |}.

(** A 100 m two-vertex street (planar metres). *)
Definition scenario_edge : edge :=
  {| point0 := {| lat := 0; lon := 0 |}; point1 := {| lat := 100; lon := 0 |};
     bearing := 0; length := 100; attributes := None |}.

(** The two points of the scenario. *)
Definition scenario_points : list tpoint := [scenario_point 50 10 3; scenario_point 60 (-20) 7].

(** * Properties *)

(** ** [aggregateValues] *)

Lemma finite_nums_attr_values pts k : finite_nums (attr_values pts k) = point_nums pts k.
Proof.
  induction pts as [|p pts IH]; [done|].
  unfold attr_values, point_nums, num_at in *. simpl.
  destruct ((tp_row p).[k]) as [[]|]; simpl; try (f_equal; done); done.
Qed.

Lemma finite_nums_nil vs : vs = [] → finite_nums vs = [].
Proof. by intros ->. Qed.

Lemma aggregateValues_lookup pts t data k :
  (aggregateValues pts t data).[k] =
  if decide (k ∈ attr_keys data) then Some (aggregate_one t (attr_values pts k)) else None.
Proof. unfold aggregateValues. by rewrite jget_fold_jset. Qed.

Lemma aggregateValues_Some pts t data k v :
  (aggregateValues pts t data).[k] = Some v →
  k ∈ attr_keys data ∧ v = aggregate_one t (attr_values pts k).
Proof. rewrite aggregateValues_lookup. case_decide; naive_solver. Qed.

(** C9: [sum]: the value is the exact sum of the attribute's numeric values
    over the selected points, for every attribute of the first row. *)
Theorem aggregateValues_sum pts data k :
  k ∈ attr_keys data →
  (aggregateValues pts (Some AggSum) data).[k] = Some (qsum (point_nums pts k)).
Proof.
  intros Hk. rewrite aggregateValues_lookup, decide_True by done.
  unfold aggregate_one. by rewrite finite_nums_attr_values.
Qed.

(** [mean]: the arithmetic mean of the numeric values, and [0] (not
    [undefined]) when there is none. *)
Theorem aggregateValues_mean pts data k :
  k ∈ attr_keys data →
  (aggregateValues pts (Some AggMean) data).[k] =
  Some (match point_nums pts k with
        | [] => 0
        | ns => qsum ns / inject_Z (Z.of_nat (List.length ns))
        end).
Proof.
  intros Hk. rewrite aggregateValues_lookup, decide_True by done. f_equal.
  unfold aggregate_one, d3_mean. rewrite finite_nums_attr_values.
  case_bool_decide as Hv.
  - by rewrite <- finite_nums_attr_values, finite_nums_nil.
  - by destruct (point_nums pts k).
Qed.

(** [min] and [max]: [0] when no value is numeric, otherwise a value
    that occurs and bounds all the others. *)
Theorem aggregateValues_min_max pts data k vmin vmax :
  (aggregateValues pts (Some AggMin) data).[k] = Some vmin →
  (aggregateValues pts (Some AggMax) data).[k] = Some vmax →
  (point_nums pts k = [] ∧ vmin = 0 ∧ vmax = 0) ∨
  (vmin ∈ point_nums pts k ∧ Forall (λ x, vmin <= x) (point_nums pts k) ∧
   vmax ∈ point_nums pts k ∧ Forall (λ x, x <= vmax) (point_nums pts k)).
Proof.
  intros [_ ->]%aggregateValues_Some [_ ->]%aggregateValues_Some. unfold aggregate_one.
  rewrite <- finite_nums_attr_values.
  case_bool_decide as Hv; [left; by rewrite finite_nums_nil|].
  destruct (finite_nums (attr_values pts k)) as [|x ns] eqn:E; [by left|right].
  destruct (qmin_list_spec (x :: ns) _ eq_refl), (qmax_list_spec (x :: ns) _ eq_refl).
  simpl in *. done.
Qed.

(** A join that selects no point yields [0] for every attribute and
    every aggregation type. *)
Theorem aggregateValues_empty_selection t data k v :
  (aggregateValues [] t data).[k] = Some v → v = 0.
Proof.
  intros [_ ->]%aggregateValues_Some. unfold aggregate_one.
  by destruct t as [[]|]; simpl.
Qed.

(** The attributes of an aggregated edge are exactly the first thematic
    row's keys other than [lat] and [lon], in their order.  Coordinate
    columns named otherwise (the spec's [latColumn]) are aggregated too. *)
Theorem aggregateValues_keys pts t data :
  NoDup (attr_keys data) → jkeys (aggregateValues pts t data) = attr_keys data.
Proof. intros Hnd. unfold aggregateValues. rewrite jkeys_fold_jset; [done | done | set_solver]. Qed.

(** ** The nearest-neighbour selection *)

Lemma insert_by_distance_perm d l : insert_by_distance d l ≡ₚ d :: l.
Proof.
  induction l as [|d' l IH]; simpl; [done|].
  case_decide; [done|]. rewrite IH. apply perm_swap.
Qed.

Lemma sort_by_distance_perm l : sort_by_distance l ≡ₚ l.
Proof. induction l as [|d l IH]; simpl; [done|]. by rewrite insert_by_distance_perm, IH. Qed.

Lemma insert_by_distance_sorted d l :
  StronglySorted dist_le l → StronglySorted dist_le (insert_by_distance d l).
Proof.
  unfold dist_le. induction l as [|d' l IH]; simpl; intros Hs.
  - by repeat constructor.
  - apply StronglySorted_cons in Hs as [Hf Hs]. rewrite Forall_forall in Hf.
    case_decide as Hle.
    + apply StronglySorted_cons. split; [|apply StronglySorted_cons; split; [by apply Forall_forall | done]].
      apply Forall_forall. intros x [->|Hx]%elem_of_cons; [done|].
      specialize (Hf x Hx). qlra.
    + apply Qnot_le_lt in Hle. apply StronglySorted_cons. split; [|by apply IH].
      rewrite insert_by_distance_perm. apply Forall_forall.
      intros x [->|Hx]%elem_of_cons; [qlra | by apply Hf].
Qed.

Lemma sort_by_distance_sorted l : StronglySorted dist_le (sort_by_distance l).
Proof. induction l; simpl; [constructor | by apply insert_by_distance_sorted]. Qed.

Lemma calculateDistances_fst `{Turf} c data : fst <$> calculateDistances c data = seq 0 (List.length data).
Proof.
  unfold calculateDistances. rewrite fmap_imap.
  rewrite (imap_ext _ (λ j _, id j)) by done. rewrite imap_seq_0. apply list_fmap_id.
Qed.

Lemma calculateDistances_elem `{Turf} c data d :
  d ∈ calculateDistances c data →
  ∃ p, data !! d.1 = Some p ∧ d.2 = turf_distance c (tp_pos p).
Proof. intros (i & p & -> & Hp)%elem_of_lookup_imap_1. eauto. Qed.

Lemma omap_lookup_length {A} (data : list A) (ix : list nat) :
  Forall (λ i, (i < List.length data)%nat) ix → List.length (omap (λ i, data !! i) ix) = List.length ix.
Proof.
  induction 1 as [|i ix Hi _ IH]; [done|]. simpl.
  destruct (lookup_lt_is_Some_2 data i Hi) as [x Hx]. simpl. rewrite Hx. simpl. f_equal. exact IH.
Qed.

Lemma omap_fmap_comm {A B C} (f : B → option C) (g : A → B) (l : list A) :
  omap f (g <$> l) = omap (f ∘ g) l.
Proof.
  induction l as [|x l IH]; [done|]. simpl. unfold compose.
  destruct (f (g x)); [f_equal|]; exact IH.
Qed.

Lemma elem_of_take_l {A} (x : A) n l : x ∈ take n l → x ∈ l.
Proof. rewrite <- (take_drop n l) at 2. set_solver. Qed.

Lemma elem_of_drop_l {A} (x : A) n l : x ∈ drop n l → x ∈ l.
Proof. rewrite <- (take_drop n l) at 2. set_solver. Qed.

(** C8: [findClosestPoints(calculateDistances(c, data), data, n)] takes
    [min n |data|] points, and none of them is farther from [c] than a
    point it leaves out: the indices split into the selected and the
    rest, and every selected distance is at most every other one. *)
Theorem findClosestPoints_nearest `{Turf} (c : position) (data : list tpoint) (n : nat) :
  let sorted := sort_by_distance (calculateDistances c data) in
  let sel := fst <$> take n sorted in
  let rest := fst <$> drop n sorted in
  sel ++ rest ≡ₚ seq 0 (List.length data) ∧
  findClosestPoints (calculateDistances c data) data n = omap (λ i, data !! i) sel ∧
  List.length (findClosestPoints (calculateDistances c data) data n) = Nat.min n (List.length data) ∧
  ∀ i j p q, i ∈ sel → j ∈ rest → data !! i = Some p → data !! j = Some q →
    turf_distance c (tp_pos p) <= turf_distance c (tp_pos q).
Proof.
  intros sorted sel rest.
  assert (Hperm : sel ++ rest ≡ₚ seq 0 (List.length data)).
  { subst sel rest. rewrite <- fmap_app, take_drop, <- (calculateDistances_fst c data).
    apply fmap_Permutation, sort_by_distance_perm. }
  assert (Hin : ∀ d, d ∈ sorted → ∃ p, data !! d.1 = Some p ∧ d.2 = turf_distance c (tp_pos p)).
  { intros d Hd. apply (calculateDistances_elem c data d). by rewrite <- (sort_by_distance_perm). }
  assert (Hsel : findClosestPoints (calculateDistances c data) data n = omap (λ i, data !! i) sel).
  { unfold findClosestPoints. subst sel. by rewrite omap_fmap_comm. }
  split_and!; [done | done | |].
  - rewrite Hsel, omap_lookup_length.
    + subst sel. rewrite length_fmap, length_take. f_equal.
      unfold sorted. rewrite (Permutation_length (sort_by_distance_perm _)), <- (length_fmap fst),
        (calculateDistances_fst c data), length_seq. done.
    + apply Forall_forall. intros i Hi.
      assert (Hs : i ∈ seq 0 (List.length data)) by (rewrite <- Hperm; set_solver).
      apply elem_of_seq in Hs. lia.
  - intros i j p q (di & -> & Hdi)%list_elem_of_fmap_1 (dj & -> & Hdj)%list_elem_of_fmap_1 Hp Hq.
    assert (Hs : StronglySorted dist_le (take n sorted ++ drop n sorted))
      by (rewrite take_drop; apply sort_by_distance_sorted).
    pose proof (StronglySorted_app_1_elem_of dist_le _ _ _ _ Hs Hdi Hdj) as Hle.
    destruct (Hin di) as (p' & Hp' & Hd1); [by eapply elem_of_take_l|].
    destruct (Hin dj) as (q' & Hq' & Hd2); [by eapply elem_of_drop_l|].
    unfold dist_le in Hle. simplify_eq. by rewrite <- Hd1, <- Hd2.
Qed.

(** ** The statistics of the joined edges *)

(** The rational model of the loop computes exactly what the source
    computes with its [Infinity] / [-Infinity] start values, on a new
    entry as on an existing one. *)
Theorem stat_update_sentinel (s : option stat) (v : Q) :
  to_xstat (stat_update s v) = xstat_update (default xstat_init (to_xstat <$> s)) v.
Proof.
  destruct s as [s|]; [|done].
  unfold xstat_update, to_xstat; simpl.
  destruct (decide (v < smin s)), (decide (smax s < v));
    repeat case_bool_decide; done.
Qed.

#[export] Instance stats_inv_proper :
  Proper (pointwise_relation string (pointwise_relation Q iff) ==> eq ==> iff) stats_inv.
Proof.
  intros P P' HP st ? <-. unfold stats_inv.
  split; intros [H1 H2]; split; intros k.
  - intros v Hv. apply H1, HP, Hv.
  - intros s Hs. destruct (H2 k s Hs) as (? & ? & ?). split_and!; [done | by apply HP..].
  - intros v Hv. apply H1, HP, Hv.
  - intros s Hs. destruct (H2 k s Hs) as (? & ? & ?). split_and!; [done | by apply HP..].
Qed.

Lemma stats_inv_empty : stats_inv (λ _ _, False) ∅.
Proof. split; [done|]. intros k s. by rewrite lookup_empty. Qed.

Lemma stats_inv_update P st k v :
  stats_inv P st →
  stats_inv (λ k' v', P k' v' ∨ (k', v') = (k, v)) (<[k := stat_update (st !! k) v]> st).
Proof.
  intros [H1 H2]. split.
  - intros k' v' [Hv|[= -> ->]].
    + destruct (H1 k' v' Hv) as (s & Hs & Hb).
      destruct (decide (k = k')) as [->|Hne]; [|rewrite lookup_insert_ne by done; eauto].
      rewrite lookup_insert_eq, Hs. eexists; split; [done|]. simpl.
      repeat case_decide; qlra.
    + rewrite lookup_insert_eq. eexists; split; [done|].
      destruct (st !! k) as [s|]; simpl; [repeat case_decide|]; qlra.
  - intros k' s. destruct (decide (k = k')) as [->|Hne].
    + rewrite lookup_insert_eq. intros [= <-].
      destruct (st !! k') as [s|] eqn:Hs; simpl; [|split_and!; [qlra | by right..]].
      destruct (H2 k' s Hs) as (Hle & Hmin & Hmax).
      split_and!; [repeat case_decide; qlra | case_decide; auto | case_decide; auto].
    + rewrite lookup_insert_ne by done. intros Hs. destruct (H2 k' s Hs) as (? & ? & ?). auto.
Qed.

Lemma stats_inv_step P st e :
  stats_inv P st →
  stats_inv (λ k v, P k v ∨ (k, v) ∈ default [] (attributes e)) (edge_stats_step st e).
Proof.
  unfold edge_stats_step. generalize (default [] (attributes e)) as kvs.
  intros kvs. revert P st. induction kvs as [|[k v] kvs IH]; intros P st Hinv; simpl.
  - eapply stats_inv_proper; [|done|exact Hinv]. intros ??. set_solver.
  - eapply stats_inv_proper; [|done|apply IH, stats_inv_update, Hinv].
    intros k' v'. simpl. rewrite elem_of_cons. naive_solver.
Qed.

(** [applySpatialAggregation]'s statistics are sound and tight: every
    attribute value of every edge lies within its key's [[min, max]],
    and each bound is the value of some edge. *)
Theorem edge_stats_spec (edgesData : list edge) :
  stats_inv (λ k v, ∃ e, e ∈ edgesData ∧ (k, v) ∈ default [] (attributes e))
    (edge_stats edgesData).
Proof.
  unfold edge_stats. rewrite <- (rev_involutive edgesData).
  generalize (rev edgesData) as es. intros es.
  induction es as [|e es IH]; simpl.
  - eapply stats_inv_proper; [|done|apply stats_inv_empty]. intros ??. set_solver.
  - rewrite fold_left_app. simpl.
    eapply stats_inv_proper; [|done|apply stats_inv_step, IH].
    intros k v. simpl. setoid_rewrite elem_of_app. setoid_rewrite list_elem_of_singleton.
    naive_solver.
Qed.

(** ** [processEdgesToNodes] *)

Lemma attr_total_cons k' v kvs k :
  attr_total ((k', v) :: kvs) k == (if decide (k' = k) then v else 0) + attr_total kvs k.
Proof. unfold attr_total. qsimpl. case_decide; [apply qsum_cons | ring]. Qed.

Lemma add_attr_eq sums k v :
  ∃ y, (add_attr sums (k, v)).[k] = Some y ∧ y == default 0 sums.[k] + v.
Proof.
  unfold add_attr; simpl. rewrite jget_jset_eq. eexists; split; [done|].
  destruct (sums.[k]) as [x|] eqn:Hx; simpl; [|by rewrite jget_jset_eq].
  case_decide as Hx0; [rewrite jget_jset_eq; simpl; rewrite Hx0 | rewrite Hx]; reflexivity.
Qed.

Lemma add_attr_ne sums k k' v : k ≠ k' → (add_attr sums (k, v)).[k'] = sums.[k'].
Proof.
  intros Hne. unfold add_attr; simpl. rewrite jget_jset_ne by done.
  destruct (sums.[k]); [case_decide|]; rewrite ?jget_jset_ne; done.
Qed.

Lemma add_attr_fold kvs sums k :
  match (fold_left add_attr kvs sums).[k] with
  | Some x => x == default 0 sums.[k] + attr_total kvs k
  | None => sums.[k] = None ∧ attr_total kvs k == 0
  end.
Proof.
  revert sums. induction kvs as [|[k' v] kvs IH]; intros sums; simpl.
  - unfold attr_total. qsimpl. rewrite qsum_nil. destruct (sums.[k]); qsimpl; [ring | split; [done | reflexivity]].
  - specialize (IH (add_attr sums (k', v))).
    destruct ((fold_left add_attr kvs (add_attr sums (k', v))).[k]) as [x|].
    + destruct (decide (k' = k)) as [->|Hne].
      * destruct (add_attr_eq sums k v) as (y & Hy & Hyv). rewrite Hy in IH. qsimpl in IH.
        rewrite IH, Hyv, attr_total_cons, decide_True by done. ring.
      * rewrite add_attr_ne in IH by done. rewrite IH, attr_total_cons, decide_False by done. ring.
    + destruct (decide (k' = k)) as [->|Hne].
      * destruct (add_attr_eq sums k v) as (y & Hy & _). rewrite Hy in IH. by destruct IH.
      * rewrite add_attr_ne in IH by done. destruct IH as [? Ht].
        rewrite attr_total_cons, decide_False by done. split; [done|]. rewrite Ht. ring.
Qed.

Lemma at_key_snoc q eps c a :
  at_key q (eps ++ [(c, a)]) = at_key q eps ++ (if decide (node_key c = q) then [(c, a)] else []).
Proof. unfold at_key. rewrite filter_app, filter_cons, filter_nil. done. Qed.

Lemma at_key_absent eps (m : assoc (Q * Q) node_acc) q :
  (∀ c a, (c, a) ∈ eps → is_Some (m.[node_key c])) → m.[q] = None → at_key q eps = [].
Proof.
  intros Hcov Hq. destruct (at_key q eps) as [|[c a] l] eqn:E; [done|].
  assert (Hin : (c, a) ∈ at_key q eps) by (rewrite E; set_solver).
  unfold at_key in Hin. apply list_elem_of_filter in Hin as [Hk Hin]. simpl in Hk. subst q.
  destruct (Hcov c a Hin) as [? Hs]. congruence.
Qed.

Lemma incidence_snoc eps c a q :
  incidence (eps ++ [(c, a)]) q = (incidence eps q + if decide (node_key c = q) then 1 else 0)%nat.
Proof. unfold incidence. rewrite at_key_snoc, length_app. by case_decide. Qed.

Lemma attr_sum_snoc eps c a q k :
  attr_sum (eps ++ [(c, a)]) q k ==
  attr_sum eps q k + if decide (node_key c = q) then attr_total (default [] a) k else 0.
Proof.
  unfold attr_sum. rewrite at_key_snoc, fmap_app, qsum_app.
  case_decide; [by rewrite fmap_cons, fmap_nil, qsum_singleton | by rewrite fmap_nil, qsum_nil].
Qed.

Lemma attr_sum_absent eps q k : at_key q eps = [] → attr_sum eps q k == 0.
Proof. intros Hq. unfold attr_sum. by rewrite Hq. Qed.

Lemma nodes_inv_visit eps m c a :
  nodes_inv eps m → nodes_inv (eps ++ [(c, a)]) (visit_node m c a).
Proof.
  intros (Hnd & Hcov & Hacc). unfold visit_node.
  split_and!.
  - by apply jkeys_jset_NoDup.
  - intros c' a' [Hin|[= -> ->]%list_elem_of_singleton]%elem_of_app.
    + destruct (decide (node_key c = node_key c')) as [<-|Hne];
        [rewrite jget_jset_eq | rewrite jget_jset_ne]; eauto.
    + rewrite jget_jset_eq. eauto.
  - intros q acc'. destruct (decide (node_key c = q)) as [<-|Hne].
    + rewrite jget_jset_eq. intros [= <-]. cbn [na_lat na_lon na_sums na_count].
      rewrite incidence_snoc, decide_True by done.
      destruct (m.[node_key c]) as [a0|] eqn:Ha0.
      * destruct (Hacc _ _ Ha0) as (Hkey & Hpos & Hcnt & Hsum).
        split_and!; [done | lia | lia |].
        intros k. specialize (Hsum k). pose proof (add_attr_fold (default [] a) (na_sums a0) k) as Hf.
        destruct ((fold_left add_attr (default [] a) (na_sums a0)).[k]), ((na_sums a0).[k]);
          cbv beta iota in *; rewrite ?default_Some, ?default_None in *;
          try (by destruct Hf); destruct_and?;
          rewrite attr_sum_snoc, decide_True by done; qlra.
      * pose proof (at_key_absent eps m (node_key c) Hcov Ha0) as Habs.
        cbn [na_lat na_lon na_sums na_count].
        split_and!; [done | lia | unfold incidence; rewrite Habs; done |].
        intros k. pose proof (add_attr_fold (default [] a) [] k) as Hf.
        change ([].[k]) with (@None Q) in Hf.
        destruct ((fold_left add_attr (default [] a) []).[k]);
          cbv beta iota in *; rewrite ?default_Some, ?default_None in *; destruct_and?;
          rewrite attr_sum_snoc, decide_True, (attr_sum_absent _ _ _ Habs) by done; qlra.
    + rewrite jget_jset_ne by done. intros Hq.
      destruct (Hacc q acc' Hq) as (Hkey & Hpos & Hcnt & Hsum).
      rewrite incidence_snoc, decide_False by done.
      split_and!; [done | done | lia |]. intros k. specialize (Hsum k).
      destruct ((na_sums acc').[k]); rewrite attr_sum_snoc, decide_False by done; qlra.
Qed.

Lemma nodes_inv_nil : nodes_inv [] [].
Proof. split_and!; [constructor | set_solver | done]. Qed.

Lemma nodes_inv_fold es eps m :
  nodes_inv eps m →
  nodes_inv (eps ++ endpoints es)
    (fold_left (λ m e, visit_node (visit_node m (point0 e) (attributes e)) (point1 e) (attributes e))
       es m).
Proof.
  revert eps m. induction es as [|e es IH]; intros eps m Hinv; cbn [fold_left].
  - unfold endpoints. simpl. by rewrite app_nil_r.
  - replace (eps ++ endpoints (e :: es)) with
      (((eps ++ [(point0 e, attributes e)]) ++ [(point1 e, attributes e)]) ++ endpoints es).
    + apply IH. by apply nodes_inv_visit, nodes_inv_visit.
    + unfold endpoints. simpl. by rewrite <- !app_assoc.
Qed.

Lemma add_attr_fold_keys kvs sums k :
  is_Some (sums.[k]) ∨ k ∈ jkeys kvs → is_Some ((fold_left add_attr kvs sums).[k]).
Proof.
  revert sums. induction kvs as [|[k' v] kvs IH]; intros sums Hk; simpl.
  - destruct Hk as [?|Hk]; [done|set_solver].
  - apply IH. destruct (decide (k' = k)) as [->|Hne].
    + left. destruct (add_attr_eq sums k v) as (y & -> & _). by eexists.
    + rewrite add_attr_ne by done. destruct Hk as [?|Hk]; [by left|]. right.
      unfold jkeys in *. set_solver.
Qed.

Lemma keys_inv_visit eps m c a :
  keys_inv eps m → keys_inv (eps ++ [(c, a)]) (visit_node m c a).
Proof.
  intros Hk c' a' k Hin Hkey. unfold visit_node.
  destruct (decide (node_key c = node_key c')) as [Heq|Hne].
  - rewrite <- Heq, jget_jset_eq. eexists; split; [done|]. cbn [na_sums].
    apply add_attr_fold_keys.
    apply elem_of_app in Hin as [Hin|[= -> ->]%list_elem_of_singleton]; [|by right].
    left. destruct (Hk c' a' k Hin Hkey) as (acc & Hacc & Hs). rewrite <- Heq in Hacc. by rewrite Hacc.
  - rewrite jget_jset_ne by done.
    apply elem_of_app in Hin as [Hin|[= -> ->]%list_elem_of_singleton]; [by apply (Hk c' a' k)|congruence].
Qed.

Lemma keys_inv_fold es eps m :
  keys_inv eps m →
  keys_inv (eps ++ endpoints es)
    (fold_left (λ m e, visit_node (visit_node m (point0 e) (attributes e)) (point1 e) (attributes e))
       es m).
Proof.
  revert eps m. induction es as [|e es IH]; intros eps m Hinv; cbn [fold_left].
  - unfold endpoints. simpl. by rewrite app_nil_r.
  - replace (eps ++ endpoints (e :: es)) with
      (((eps ++ [(point0 e, attributes e)]) ++ [(point1 e, attributes e)]) ++ endpoints es).
    + apply IH. by apply keys_inv_visit, keys_inv_visit.
    + unfold endpoints. simpl. by rewrite <- !app_assoc.
Qed.

(** C7: [processEdgesToNodes] emits one node per distinct endpoint (exact
    coordinate identity, no snapping), covers every endpoint, and each
    attribute of a node is the sum of that attribute over the edges
    incident to it divided by the number of incidences (an incident edge
    without the attribute still counts in the divisor); every attribute
    name of an incident edge is an attribute of the node. *)
Theorem processEdgesToNodes_average (es : list edge) :
  let eps := endpoints es in
  let nodes := processEdgesToNodes es in
  NoDup ((node_key ∘ node_coord) <$> nodes) ∧
  (∀ c a, (c, a) ∈ eps → ∃ n, n ∈ nodes ∧ node_key (node_coord n) = node_key c) ∧
  ∀ n, n ∈ nodes →
    (0 < incidence eps (node_key (node_coord n)))%nat ∧
    (∀ k v, (n_attributes n).[k] = Some v →
      v == attr_sum eps (node_key (node_coord n)) k /
           inject_Z (Z.of_nat (incidence eps (node_key (node_coord n))))) ∧
    ∀ c a k, (c, a) ∈ eps → node_key c = node_key (node_coord n) → k ∈ jkeys (default [] a) →
      is_Some ((n_attributes n).[k]).
Proof.
  intros eps nodes. unfold nodes, processEdgesToNodes.
  pose proof (nodes_inv_fold es [] [] nodes_inv_nil) as (Hnd & Hcov & Hacc).
  pose proof (keys_inv_fold es [] [] (λ c a k Hin, ltac:(set_solver))) as Hkeys.
  rewrite app_nil_l in Hkeys. fold eps in Hkeys.
  rewrite app_nil_l in Hcov, Hacc. fold eps in Hcov, Hacc.
  match type of Hnd with NoDup (jkeys ?X) => set (M := X) in * end.
  assert (HM : ∀ kv, kv ∈ M → M.[kv.1] = Some kv.2) by (intros [k v] ?; by apply jget_elem_of).
  split_and!.
  - rewrite <- list_fmap_compose.
    rewrite (list_fmap_ext _ fst); [done|].
    intros i [q acc] Hi. apply list_elem_of_lookup_2, HM in Hi. simpl in Hi |- *.
    unfold compose, node_coord. simpl. by destruct (Hacc _ _ Hi) as [Hk _].
  - intros c a Hin. destruct (Hcov c a Hin) as [acc Hacc'].
    exists {| n_lat := na_lat acc; n_lon := na_lon acc;
         n_attributes := (λ sv, (sv.1, sv.2 / inject_Z (Z.of_nat (na_count acc)))) <$> na_sums acc |}.
    split.
    + apply list_elem_of_fmap. exists (node_key c, acc). split; [done|]. by apply jget_Some_elem.
    + unfold node_coord. cbn [n_lat n_lon]. by destruct (Hacc _ _ Hacc') as [-> _].
  - intros n ([q acc] & -> & Hkv)%list_elem_of_fmap_1. apply HM in Hkv. simpl in Hkv.
    destruct (Hacc _ _ Hkv) as (Hkey & Hpos & Hcnt & Hsum). unfold node_coord. simpl. rewrite Hkey.
    split_and!; [lia| |].
    + intros k v. rewrite (jget_map (λ x, x / inject_Z (Z.of_nat (na_count acc)))).
      specialize (Hsum k). destruct ((na_sums acc).[k]) as [s|]; simpl; [|done].
      intros [= <-]. by rewrite Hsum, Hcnt.
    + intros c a k Hin Hck Hk. rewrite (jget_map (λ x, x / inject_Z (Z.of_nat (na_count acc)))).
      destruct (Hkeys c a k Hin Hk) as (acc' & Hacc' & Hs). rewrite Hck, Hkv in Hacc'.
      injection Hacc' as <-. by destruct Hs as [? ->].
Qed.

(** ** Whole-join behaviours *)

Lemma aggregateValues_no_data pts t : aggregateValues pts t [] = [].
Proof. reflexivity. Qed.

Lemma edge_stats_fold_id es st :
  Forall (λ e, default [] (attributes e) = []) es → fold_left edge_stats_step es st = st.
Proof.
  intros Hes. revert st. induction Hes as [|e es He _ IH]; intros st; [done|].
  simpl. unfold edge_stats_step at 2. rewrite He. apply IH.
Qed.

Lemma no_attributes_default e : no_attributes e → default [] (attributes e) = [].
Proof. by intros [-> | ->]. Qed.

(** C31: With an empty thematic dataset every join leaves each edge without
    any attribute (an empty object, or [undefined] where the buffer
    failed) and the statistics empty: no attribute reads [0] and there
    is no [{min: 0, max: 0}] entry, whatever the relation and the
    aggregation function. *)
Theorem applySpatialAggregation_no_thematic `{Turf} physicalData layerSpec :
  spec_spatial layerSpec ≠ None →
  let r := applySpatialAggregation physicalData [] layerSpec in
  ag_stats r = ∅ ∧ Forall no_attributes (ag_edges r).
Proof.
  intros Hsp r.
  assert (Hj : Forall no_attributes (ag_edges r)).
  { subst r. unfold applySpatialAggregation, no_attributes.
    destruct (spec_spatial layerSpec) as [[]|]; [| | | done]; simpl;
      apply Forall_fmap, Forall_forall; intros e _; simpl;
      repeat case_match; simpl; auto. }
  split; [|done]. subst r. revert Hj. unfold applySpatialAggregation.
  destruct (spec_spatial layerSpec) as [[]|]; [| | | done]; simpl; intros Hj;
    apply edge_stats_fold_id; eapply Forall_impl; [exact Hj | apply no_attributes_default|
      exact Hj | apply no_attributes_default | exact Hj | apply no_attributes_default].
Qed.

(** ** The scenario of the specification, and witnesses *)

(** The scenario of the specification, run on the planar instance: a
    [buffer] join of radius 50 m with [sum] over two points inside the
    buffer with [count] 3 and 7 gives the edge [count = 10], and the
    edge statistics [{min: 10, max: 10}]. *)
Example scenario_buffer_sum :
  let r := applySpatialAggregation [scenario_edge]
             [scenario_point 50 10 3; scenario_point 60 (-20) 7]
             (scenario_spec {| r_spatial := Some SBuffer; r_value := Some 50; r_type := Some AggSum |}) in
  ag_edges r = [with_attributes scenario_edge (Some [("count", 10)])] ∧
  ag_stats r !! "count" = Some {| smin := 10; smax := 10 |}.
Proof. vm_compute. split; reflexivity. Qed.

(** The [sum] of [count] over the two scenario points. *)
Lemma aggregateValues_sum_witness :
  (aggregateValues scenario_points (Some AggSum) scenario_points).["count"%string] =
  Some (qsum (point_nums scenario_points "count")).
Proof. apply aggregateValues_sum. wdecide. Defined.

Lemma aggregateValues_mean_witness :
  (aggregateValues scenario_points (Some AggMean) scenario_points).["count"%string] =
  Some (match point_nums scenario_points "count" with
        | [] => 0
        | ns => qsum ns / inject_Z (Z.of_nat (List.length ns))
        end).
Proof. apply aggregateValues_mean. wdecide. Defined.

(** [min] and [max] of [count] over the scenario points are 3 and 7,
    values of the points. *)
Lemma aggregateValues_min_max_witness :
  (point_nums scenario_points "count" = [] ∧ 3 = 0 ∧ 7 = 0) ∨
  (3 ∈ point_nums scenario_points "count" ∧ Forall (λ x, 3 <= x) (point_nums scenario_points "count") ∧
   7 ∈ point_nums scenario_points "count" ∧ Forall (λ x, x <= 7) (point_nums scenario_points "count")).
Proof. apply (aggregateValues_min_max scenario_points scenario_points "count"); reflexivity. Defined.

(** A [buffer] join against no point at all: no statistics, no attribute. *)
Lemma applySpatialAggregation_no_thematic_witness :
  let r := applySpatialAggregation [scenario_edge] []
             (scenario_spec {| r_spatial := Some SBuffer; r_value := Some 50; r_type := Some AggMean |}) in
  ag_stats r = ∅ ∧ Forall no_attributes (ag_edges r).
Proof. apply applySpatialAggregation_no_thematic. discriminate. Defined.
