(* ===== verification/Style.v ===== *)
(** * Style: the style resolvers ([styleHelpers.ts])

    [getDynamicStyleValue] maps a channel of the spec (a number, a hex
    colour or an attribute name) to a value, rescaling attributes with
    d3's [scaleLinear]; [getDashArray] and [getSquiggleParams] bucket an
    attribute into three dash patterns and four wave frequencies;
    [getBivariateColor] averages two colour ramps; [applyOpacity] picks
    the opacity literal or a default.  A [TypeError] thrown by reading
    [domain[name].min] of a missing entry is the [Throw] of [res]. *)

From S2P Require Import Prelude Geometry Spec Aggregation.
From Stdlib Require Import Ascii.
Open Scope Q_scope.

(** ** Values *)

(** An RGB colour, as d3 formats it ([rgb(r, g, b)]). *)
Record rgb := mkRgb { red : Z; green : Z; blue : Z }.

(** What a resolver returns: a number, a string literal, a colour
    produced by interpolation, or [undefined]; [SNaN] is what the
    builder's arithmetic makes of a value that is not a number. *)
Inductive sval := SNum (q : Q) | SStr (s : string) | SRgb (c : rgb) | SUndef | SNaN.

(** The [range] argument of [getDynamicStyleValue].  With a two-point
    domain d3's [scaleLinear] builds a [bimap] that reads only
    [range[0]] and [range[1]], so a range is its first two entries. *)
Inductive srange := RangeNum (r0 r1 : Q) | RangeColor (c0 c1 : rgb).

(** ** The hex literal test *)

Definition is_hex_digit (c : ascii) : bool :=
  let n := nat_of_ascii c in
  ((48 <=? n) && (n <=? 57)) || ((65 <=? n) && (n <=? 70)) || ((97 <=? n) && (n <=? 102)).

Fixpoint all_hex (s : string) : bool :=
  match s with
  | EmptyString => true
  | String c s' => is_hex_digit c && all_hex s'
  end.

(** [/^#([0-9A-F]{3}|[0-9A-F]{6})$/i.test(name)] *)
Definition is_hex_color (s : string) : bool :=
  match s with
  | String c rest =>
      bool_decide (c = "#"%char) &&
      (Nat.eqb (String.length rest) 3 || Nat.eqb (String.length rest) 6) && all_hex rest
  | EmptyString => false
  end.

(** ** d3's linear scale *)

(** [normalize(a, b)]: [(x - a) / (b - a)], or the constant [0.5] when
    the domain is a single point. *)
Definition d3_normalize (a b x : Q) : Q :=
  if decide (b - a == 0) then 1 # 2 else (x - a) / (b - a).

(** [interpolateNumber(a, b)(t) = a * (1 - t) + b * t] *)
Definition interpolateNumber (a b t : Q) : Q := a * (1 - t) + b * t.

(** [Math.round] and d3-color's channel clamp [clampi]. *)
Definition js_round (x : Q) : Z := Qfloor (x + (1 # 2)).
Definition clampi (x : Q) : Z := Z.max 0 (Z.min 255 (js_round x)).

(** [interpolateRgb(a, b)(t)] followed by the colour's [toString]:
    channel by channel [a + t * (b - a)], rounded and clamped. *)
Definition interpolateRgb (a b : rgb) (t : Q) : rgb :=
  let ch x y := clampi (inject_Z x + t * (inject_Z y - inject_Z x)) in
  {| red := ch (red a) (red b); green := ch (green a) (green b); blue := ch (blue a) (blue b) |}.

(** [d3.scaleLinear().domain([min, max]).range(range)(x)]; without a
    range d3's default range is [[0, 1]]. *)
Definition scaleLinear (dmin dmax : Q) (range : option srange) (x : Q) : sval :=
  let t := d3_normalize dmin dmax x in
  match range with
  | None => SNum (interpolateNumber 0 1 t)
  | Some (RangeNum r0 r1) => SNum (interpolateNumber r0 r1 t)
  | Some (RangeColor c0 c1) => SRgb (interpolateRgb c0 c1 t)
  end.

Definition missing_min : exn := TypeError "Cannot read properties of undefined (reading 'min')".

(** ** [getDynamicStyleValue(name, attributes, domain, range)] *)

(** The numeric and hex-literal branches return the name itself; an
    attribute present in [attributes] is rescaled from its domain entry,
    whose absence throws; anything else is [undefined]. *)
Definition getDynamicStyleValue (name : option specval) (attributes : option (jsobj Q))
    (domain : gmap string stat) (range : option srange) : res sval :=
  match name with
  | Some (SVNum q) => Ok (SNum q)
  | Some (SVStr s) =>
      if is_hex_color s then Ok (SStr s) else
      match attributes ≫= jget s with
      | Some v =>
          match domain !! s with
          | Some d => Ok (scaleLinear (smin d) (smax d) range v)
          | None => Throw missing_min
          end
      | None => Ok SUndef
      end
  | None => Ok SUndef
  end.

(** ** [getDashArray] *)

Definition dash_bucket (minValue maxValue attributeValue : Q) : string :=
  if decide (attributeValue < minValue + (maxValue - minValue) / 3) then "5, 3"
  else if decide (minValue + (maxValue - minValue) / 3 <= attributeValue ∧
                  attributeValue < minValue + (2 * (maxValue - minValue)) / 3) then "7, 5"
  else "12, 8".

(** [name && domain]: the empty name is falsy; [hasOwnProperty(name)]. *)
Definition getDashArray (name : option string) (attributes : option (jsobj Q))
    (domain : gmap string stat) : res string :=
  match name with
  | Some n =>
      if bool_decide (n = "") then Ok "" else
      match attributes ≫= jget n with
      | Some attributeValue =>
          match domain !! n with
          | Some d => Ok (dash_bucket (smin d) (smax d) attributeValue)
          | None => Throw missing_min
          end
      | None => Ok ""
      end
  | None => Ok ""
  end.

(** ** [getSquiggleParams] *)

Record squiggle := mkSquiggle { amplitude : Q; frequency : Q }.

Definition squiggle_frequency (min max attributeValue : Q) : Q :=
  let range := max - min in
  let stepSize := range / 4 in
  let boundary1 := min + stepSize in
  let boundary2 := min + 2 * stepSize in
  let boundary3 := min + 3 * stepSize in
  if decide (min <= attributeValue ∧ attributeValue < boundary1) then 5
  else if decide (boundary1 <= attributeValue ∧ attributeValue < boundary2) then 20
  else if decide (boundary2 <= attributeValue ∧ attributeValue < boundary3) then 40
  else 60.

Definition getSquiggleParams (name : option string) (attributes : option (jsobj Q))
    (domain : gmap string stat) : res squiggle :=
  let unmapped := {| amplitude := 0; frequency := 1 |} in
  match name with
  | Some n =>
      if bool_decide (n = "") then Ok unmapped else
      match attributes ≫= jget n with
      | Some attributeValue =>
          match domain !! n with
          | Some d =>
              Ok {| amplitude := 25; frequency := squiggle_frequency (smin d) (smax d) attributeValue |}
          | None => Throw missing_min
          end
      | None => Ok unmapped
      end
  | None => Ok unmapped
  end.

(** ** [applyOpacity] *)

Inductive opacity_kind := OFill | OStroke | OLine.

Definition applyOpacity (type : opacity_kind) (layerSpec : layer_spec) : Q :=
  match u_opacity (l_unit layerSpec) with
  | Some (SVNum q) => q
  | _ => match type with OLine => 1 | OFill => 7 # 10 | OStroke => 1 end
  end.

(** ** [getBivariateColor] *)

(** A CSS colour string as [getBivariateColor] returns it. *)
Inductive css_color := Gray | RgbColor (c : rgb).

(** A style value used as a number ([as number] then arithmetic): a
    number is itself, [undefined] and strings are [NaN] ([None]). *)
Definition sval_num (v : sval) : option Q :=
  match v with SNum q => Some q | _ => None end.

#[export] Instance rgb_eq_dec : EqDecision rgb.
Proof. solve_decision. Defined.
#[export] Instance css_color_eq_dec : EqDecision css_color.
Proof. solve_decision. Defined.

Section Bivariate.
(** [d3.color(d3.interpolateBuGn(v))] and [d3.color(d3.interpolateOrRd(v))]
    for a number [v] ([None]: [NaN]); the result is [None] when
    [d3.color] cannot parse the ramp's output. *)
Context (colorBuGn colorOrRd : option Q → option rgb).

(** [if (!color1 || !color2) return "gray"], else the channel-wise
    average of the two colours, rounded. *)
Definition getBivariateColor (val1 val2 : option Q) : css_color :=
  match colorBuGn val1, colorOrRd val2 with
  | Some color1, Some color2 =>
      RgbColor {| red := js_round ((inject_Z (red color1) + inject_Z (red color2)) / 2);
                  green := js_round ((inject_Z (green color1) + inject_Z (green color2)) / 2);
                  blue := js_round ((inject_Z (blue color1) + inject_Z (blue color2)) / 2) |}
  | _, _ => Gray
  end.
End Bivariate.

(** ** Witness data *)

Definition ndvi_stats : gmap string stat := {[ "NDVI"%string := {| smin := 0; smax := 1 |} ]}.

(** * Properties *)

Lemma scaleLinear_num dmin dmax r0 r1 x :
  ¬ (dmax - dmin == 0) →
  scaleLinear dmin dmax (Some (RangeNum r0 r1)) x =
  SNum (interpolateNumber r0 r1 ((x - dmin) / (dmax - dmin))).
Proof. intros Hd. unfold scaleLinear, d3_normalize. by rewrite decide_False. Qed.

Lemma getDynamicStyleValue_attr s attrs domain range v :
  is_hex_color s = false → attrs.[s] = Some v →
  getDynamicStyleValue (Some (SVStr s)) (Some attrs) domain range =
  match domain !! s with
  | Some d => Ok (scaleLinear (smin d) (smax d) range v)
  | None => Throw missing_min
  end.
Proof. intros Hhex Hv. simpl. by rewrite Hhex, Hv. Qed.

(** An attribute name is rescaled linearly from its domain entry
    [[min, max]] onto the range [[r0, r1]] (no clamping: a value outside
    the domain lands outside the range). *)
Theorem getDynamicStyleValue_rescale s attrs domain d v r0 r1 :
  is_hex_color s = false → attrs.[s] = Some v → domain !! s = Some d → smin d < smax d →
  ∃ y, getDynamicStyleValue (Some (SVStr s)) (Some attrs) domain (Some (RangeNum r0 r1)) = Ok (SNum y) ∧
       y == r0 + (v - smin d) / (smax d - smin d) * (r1 - r0).
Proof.
  intros Hhex Hv Hd Hlt. rewrite (getDynamicStyleValue_attr s attrs domain _ v Hhex Hv), Hd.
  rewrite scaleLinear_num by qlra. eexists; split; [done|].
  unfold interpolateNumber. field. qlra.
Qed.

(** When every value of the attribute is the same ([min = max]) d3
    maps it to the middle of the range. *)
Theorem getDynamicStyleValue_degenerate s attrs domain d v r0 r1 :
  is_hex_color s = false → attrs.[s] = Some v → domain !! s = Some d → smin d == smax d →
  ∃ y, getDynamicStyleValue (Some (SVStr s)) (Some attrs) domain (Some (RangeNum r0 r1)) = Ok (SNum y) ∧
       y == (r0 + r1) / 2.
Proof.
  intros Hhex Hv Hd Heq. rewrite (getDynamicStyleValue_attr s attrs domain _ v Hhex Hv), Hd.
  unfold scaleLinear, d3_normalize. rewrite decide_True by qlra.
  eexists; split; [done|]. unfold interpolateNumber. field.
Qed.

(** Without a range the value is the normalised position in the
    domain, d3's default range [[0, 1]], not the value itself. *)
Theorem getDynamicStyleValue_no_range s attrs domain d v :
  is_hex_color s = false → attrs.[s] = Some v → domain !! s = Some d → smin d < smax d →
  ∃ y, getDynamicStyleValue (Some (SVStr s)) (Some attrs) domain None = Ok (SNum y) ∧
       y == (v - smin d) / (smax d - smin d).
Proof.
  intros Hhex Hv Hd Hlt. rewrite (getDynamicStyleValue_attr s attrs domain _ v Hhex Hv), Hd.
  unfold scaleLinear, d3_normalize. rewrite decide_False by qlra.
  eexists; split; [done|]. unfold interpolateNumber. ring.
Qed.

(** A channel naming an attribute the edge has but the chosen statistics
    table lacks throws [TypeError] instead of being left unmapped. *)
Theorem getDynamicStyleValue_missing_domain s attrs domain v range :
  is_hex_color s = false → attrs.[s] = Some v → domain !! s = None →
  getDynamicStyleValue (Some (SVStr s)) (Some attrs) domain range = Throw missing_min.
Proof. intros Hhex Hv Hd. by rewrite (getDynamicStyleValue_attr s attrs domain _ v Hhex Hv), Hd. Qed.

Lemma getDashArray_attr n attrs domain d v :
  n ≠ ""%string → attrs.[n] = Some v → domain !! n = Some d →
  getDashArray (Some n) (Some attrs) domain = Ok (dash_bucket (smin d) (smax d) v).
Proof. intros Hn Hv Hd. simpl. rewrite bool_decide_false by done. by rewrite Hv, Hd. Qed.

(** Dash buckets on a proper domain: the minimum gets the short dash,
    the midpoint the medium dash and the maximum the long dash. *)
Theorem getDashArray_buckets n attrs domain d :
  n ≠ ""%string → domain !! n = Some d → smin d < smax d →
  (attrs.[n] = Some (smin d) → getDashArray (Some n) (Some attrs) domain = Ok "5, 3") ∧
  (attrs.[n] = Some ((smin d + smax d) / 2) → getDashArray (Some n) (Some attrs) domain = Ok "7, 5") ∧
  (attrs.[n] = Some (smax d) → getDashArray (Some n) (Some attrs) domain = Ok "12, 8").
Proof.
  intros Hn Hd Hlt. split_and!; intros Hv; rewrite (getDashArray_attr _ _ _ _ _ Hn Hv Hd);
    unfold dash_bucket; f_equal.
  - by rewrite decide_True by qlra.
  - rewrite decide_False by qlra. rewrite decide_True by (split; qlra). done.
  - rewrite !decide_False; [done | intros []; qlra | qlra].
Qed.

(** On a single-point domain the minimum gets the long dash, not the
    short one. *)
Theorem getDashArray_degenerate n attrs domain d :
  n ≠ ""%string → domain !! n = Some d → smin d == smax d → attrs.[n] = Some (smin d) →
  getDashArray (Some n) (Some attrs) domain = Ok "12, 8".
Proof.
  intros Hn Hd Heq Hv. rewrite (getDashArray_attr _ _ _ _ _ Hn Hv Hd).
  unfold dash_bucket. rewrite !decide_False; [done | intros []; qlra | qlra].
Qed.

(** Inside the domain the squiggle frequency grows with the value. *)
Theorem squiggle_frequency_monotone mn mx v1 v2 :
  mn < mx → mn <= v1 → v1 <= v2 →
  squiggle_frequency mn mx v1 <= squiggle_frequency mn mx v2.
Proof. intros. unfold squiggle_frequency. repeat case_decide; qlra. Qed.

(** A value below the domain's minimum falls through every bucket and
    gets the highest frequency, 60. *)
Theorem squiggle_frequency_below_min mn mx v :
  v < mn → squiggle_frequency mn mx v = 60.
Proof.
  intros Hv. unfold squiggle_frequency.
  rewrite !decide_False; [done | intros []; qlra ..].
Qed.

Lemma applySpatialAggregation_stats `{Turf} physicalData thematicData layerSpec :
  spec_spatial layerSpec ≠ None →
  let r := applySpatialAggregation physicalData thematicData layerSpec in
  ag_stats r = edge_stats (ag_edges r).
Proof.
  intros Hsp. unfold applySpatialAggregation. by destruct (spec_spatial layerSpec) as [[]|].
Qed.

(** The channels [buildD3Instructions] resolves against the aggregated
    edges' own statistics (squiggle, dash, opacity, width) never throw
    on an attribute of an aggregated edge, and see it inside its domain:
    the squiggle and dash buckets are the in-range ones. *)
Theorem edge_stats_channels `{Turf} physicalData thematicData layerSpec e n v :
  spec_spatial layerSpec ≠ None →
  let r := applySpatialAggregation physicalData thematicData layerSpec in
  e ∈ ag_edges r → n ≠ ""%string → is_hex_color n = false →
  (default [] (attributes e)).[n] = Some v →
  ∃ d, ag_stats r !! n = Some d ∧ smin d <= v <= smax d ∧
    getSquiggleParams (Some n) (attributes e) (ag_stats r) =
      Ok {| amplitude := 25; frequency := squiggle_frequency (smin d) (smax d) v |} ∧
    getDashArray (Some n) (attributes e) (ag_stats r) = Ok (dash_bucket (smin d) (smax d) v) ∧
    ∀ range, getDynamicStyleValue (Some (SVStr n)) (attributes e) (ag_stats r) range =
             Ok (scaleLinear (smin d) (smax d) range v).
Proof.
  intros Hsp r He Hn Hhex Hv.
  assert (Hin : (n, v) ∈ default [] (attributes e)) by by apply jget_Some_elem.
  destruct (edge_stats_spec (ag_edges r)) as [Hcov _].
  destruct (Hcov n v (ex_intro _ e (conj He Hin))) as (d & Hd & Hb).
  assert (Hst : ag_stats r = edge_stats (ag_edges r)) by exact (applySpatialAggregation_stats _ _ _ Hsp).
  rewrite <- Hst in Hd.
  exists d. refine (conj Hd (conj Hb (conj _ (conj _ _)))).
  - destruct (attributes e) as [attrs|]; [|done]. simpl in *.
    rewrite bool_decide_false by done. by rewrite Hv, Hd.
  - destruct (attributes e) as [attrs|]; [|done]. simpl in Hv. by rewrite (getDashArray_attr _ _ _ _ _ Hn Hv Hd).
  - intros range. destruct (attributes e) as [attrs|]; [|done]. simpl in Hv.
    by rewrite (getDynamicStyleValue_attr n attrs _ range v Hhex Hv), Hd.
Qed.

(** ** Witnesses *)

(** The specification's example: [NDVI = 0.5] in [[0, 1]] onto [[0, 10]] is 5. *)
Lemma getDynamicStyleValue_rescale_witness :
  ∃ y, getDynamicStyleValue (Some (SVStr "NDVI")) (Some [("NDVI"%string, 1 # 2)]) ndvi_stats
         (Some (RangeNum 0 10)) = Ok (SNum y) ∧
       y == 0 + ((1 # 2) - 0) / (1 - 0) * (10 - 0) ∧ y == 5.
Proof.
  destruct (getDynamicStyleValue_rescale "NDVI" [("NDVI"%string, 1 # 2)] ndvi_stats
              {| smin := 0; smax := 1 |} (1 # 2) 0 10) as (y & Hy & Heq); [wdecide..|].
  exists y. split; [done|]. split; [done|]. rewrite Heq. reflexivity.
Defined.

(** [NDVI] on an edge while the table lacks it: [TypeError]. *)
Lemma getDynamicStyleValue_missing_domain_witness :
  getDynamicStyleValue (Some (SVStr "NDVI")) (Some [("NDVI"%string, 1 # 2)]) ∅ None = Throw missing_min.
Proof. apply (getDynamicStyleValue_missing_domain _ _ _ (1 # 2)); wdecide. Defined.

(** The specification's dash example on [[0, 1]]. *)
Lemma getDashArray_buckets_witness :
  getDashArray (Some "NDVI"%string) (Some [("NDVI"%string, 0)]) ndvi_stats = Ok "5, 3".
Proof.
  apply (getDashArray_buckets "NDVI" [("NDVI"%string, 0)] ndvi_stats {| smin := 0; smax := 1 |});
    wdecide.
Defined.

(** The scenario's joined edge: its [count] of 10 has the statistics
    entry [{10, 10}] and resolves without throwing. *)
Lemma edge_stats_channels_witness :
  let r := applySpatialAggregation [scenario_edge] scenario_points
             (scenario_spec {| r_spatial := Some SBuffer; r_value := Some 50; r_type := Some AggSum |}) in
  ∃ d, ag_stats r !! "count"%string = Some d ∧ smin d <= 10 <= smax d.
Proof.
  destruct (edge_stats_channels [scenario_edge] scenario_points
              (scenario_spec {| r_spatial := Some SBuffer; r_value := Some 50; r_type := Some AggSum |})
              (with_attributes scenario_edge (Some [("count"%string, 10)])) "count" 10)
    as (d & Hd & Hb & _); [discriminate | vm_compute; left | wdecide | wdecide | wdecide |].
  exists d. split; [exact Hd | exact Hb].
Defined.

Lemma squiggle_frequency_monotone_witness :
  squiggle_frequency 0 100 30 <= squiggle_frequency 0 100 80.
Proof. apply squiggle_frequency_monotone; wdecide. Defined.
