(* ===== verification/Subdivide.v ===== *)
(** * Subdivide: density subdivision ([subdivideEdges], [dataLoader.ts])

    Each aggregated edge gets a density from the spec (a literal or an
    attribute rescaled to [[0, 100]]).  A positive density splits the
    edge into pieces of target length [200 / density]: the loop
    [for (i = 0; i < numSplits; i++)] runs [ceil numSplits] times, each
    piece interpolating the endpoints at [i / numSplits] and
    [(i + 1) / numSplits] (inside the window [[0.2, 0.8]] for
    perpendicular lines and rectangles).  A non-positive or missing
    density keeps the edge only for parallel lines and chart layers.
    The loop is the prelude's [js_for], whose fuel
    [subdivide_edge] sets to one more than the iteration count. *)

From S2P Require Import Prelude Geometry Spec Aggregation Style.
Open Scope Q_scope.

(** The piece [i] of an edge: the parameters [t0], [t1] along the edge,
    in the shrink window when [shrink] holds. *)
Definition sub_edge (e : edge) (length' numSplits : Q) (shrink : bool) (i : nat) : edge :=
  let lat0 := lat (point0 e) in
  let lon0 := lon (point0 e) in
  let dLat := lat (point1 e) - lat0 in
  let dLon := lon (point1 e) - lon0 in
  let shrinkStart := 1 # 5 in
  let shrinkSpan := (4 # 5) - (1 # 5) in
  let fi := inject_Z (Z.of_nat i) in
  let t0 := if shrink then shrinkStart + (fi / numSplits) * shrinkSpan else fi / numSplits in
  let t1 := if shrink then shrinkStart + ((fi + 1) / numSplits) * shrinkSpan else (fi + 1) / numSplits in
  {| point0 := {| lat := lat0 + dLat * t0; lon := lon0 + dLon * t0 |};
     point1 := {| lat := lat0 + dLat * t1; lon := lon0 + dLon * t1 |};
     bearing := bearing e; length := length'; attributes := attributes e |}.

(** [(method === 'line' && orientation === 'perpendicular') || method === 'rect'] *)
Definition shrinks (m : option method) (o : option orientation) : bool :=
  bool_decide ((m = Some MLine ∧ o = Some OPerpendicular) ∨ m = Some MRect).

(** [density > 0]: only a positive number passes (a colour string
    compares as [NaN], [undefined] is not greater than [0]). *)
Definition positive_density (d : sval) : option Q :=
  match d with
  | SNum q => if decide (0 < q) then Some q else None
  | _ => None
  end.

(** The body of [aggregation.edges.forEach] for one edge. *)
Definition subdivide_edge (attributeStats : gmap string stat) (layerSpecDensity : option specval)
    (layerSpecMethod : option method) (layerSpecOrientation : option orientation)
    (layerChart : option chart) (e : edge) : res (list edge) :=
  density ← getDynamicStyleValue layerSpecDensity (attributes e) attributeStats
              (Some (RangeNum 0 100));
  match positive_density density with
  | Some density =>
      let length' := 200 / density in
      let numSplits := length e / length' in
      mret (js_for (S (iterations numSplits)) 0 numSplits
              (sub_edge e length' numSplits (shrinks layerSpecMethod layerSpecOrientation)))
  | None =>
      if bool_decide ((layerSpecMethod = Some MLine ∧ layerSpecOrientation = Some OParallel)
                      ∨ is_Some layerChart)
      then mret [e] else mret []
  end.

(** [subdivideEdges(aggregation, attributeStats, density, method,
    orientation, chart)]: a thrown [TypeError] aborts the whole call. *)
Definition subdivideEdges (aggregation : aggregated) (attributeStats : gmap string stat)
    (layerSpecDensity : option specval) (layerSpecMethod : option method)
    (layerSpecOrientation : option orientation) (layerChart : option chart) : res aggregated :=
  subdivided ← mapM (subdivide_edge attributeStats layerSpecDensity layerSpecMethod
                       layerSpecOrientation layerChart) (ag_edges aggregation);
  mret {| ag_edges := concat subdivided; ag_stats := ag_stats aggregation |}.

(** The pieces of an edge whose density resolves to a positive [d]. *)
Definition pieces (e : edge) (d : Q) (m : option method) (o : option orientation) : list edge :=
  sub_edge e (200 / d) (length e / (200 / d)) (shrinks m o) <$>
    seq 0 (iterations (length e / (200 / d))).

(** ** Witness data *)

(** The 250 m edge of [pieces_overshoot]. *)
Definition edge250 : edge :=
  {| point0 := {| lat := 0; lon := 0 |}; point1 := {| lat := 0; lon := 250 |};
     bearing := 90; length := 250; attributes := None |}.

(** * Properties *)

Lemma subdivide_edge_positive st dens m o ch e d :
  getDynamicStyleValue dens (attributes e) st (Some (RangeNum 0 100)) = Ok (SNum d) → 0 < d →
  subdivide_edge st dens m o ch e = Ok (pieces e d m o).
Proof.
  intros Hg Hd. unfold subdivide_edge. rewrite Hg. cbn -[js_for iterations Qdiv].
  rewrite decide_True by done. rewrite js_for_enough_fuel by lia.
  by rewrite Nat.sub_0_r.
Qed.

Lemma pieces_lookup e d m o i p :
  pieces e d m o !! i = Some p ↔
  (i < iterations (length e / (200 / d)))%nat ∧
  p = sub_edge e (200 / d) (length e / (200 / d)) (shrinks m o) i.
Proof. unfold pieces. rewrite list_lookup_fmap_Some. setoid_rewrite lookup_seq. naive_solver. Qed.

Lemma fmap_seq_const {A} (c : A) j n : (λ _, c) <$> seq j n = replicate n c.
Proof. revert j. induction n as [|n IH]; intros j; [done|]. simpl. by rewrite IH. Qed.

Lemma qsum_replicate n c : qsum (replicate n c) == inject_Z (Z.of_nat n) * c.
Proof.
  induction n as [|n IH]; [done|]. cbn [replicate]. rewrite qsum_cons, IH.
  rewrite Nat2Z.inj_succ, <- Z.add_1_r, inject_Z_plus. ring.
Qed.

(** ** Properties of the pieces *)

(** C2: Every piece carries the target length [200 / d], so the pieces'
    [length] fields add up to [ceil(numSplits) * 200 / d]: at least the
    edge's length, and short of it plus one target length. *)
Theorem pieces_total_length e d m o :
  0 < d → 0 <= length e →
  length e <= qsum (length <$> pieces e d m o) < length e + 200 / d.
Proof.
  intros Hd Hl. unfold pieces. rewrite <- list_fmap_compose.
  rewrite (fmap_seq_const (200 / d)), qsum_replicate.
  assert (Hc : 0 < 200 / d) by (apply Qlt_shift_div_l; qlra).
  set (c := 200 / d) in *. set (x := length e / c).
  assert (Hx : length e == x * c) by (unfold x; field; qlra).
  assert (0 <= x) by (unfold x; apply Qle_shift_div_l; qlra).
  destruct (iterations_bounds x) as [Hlo Hhi]; [done|].
  set (n := inject_Z _) in *. rewrite Hx. nra.
Qed.

(** Consecutive pieces meet: the end of piece [i] is the start of piece
    [i + 1], in both the full-length and the shrunk layout. *)
Theorem pieces_contiguous e d m o i p q :
  pieces e d m o !! i = Some p → pieces e d m o !! S i = Some q →
  coord_eq (point1 p) (point0 q).
Proof.
  rewrite !pieces_lookup. intros [_ ->] [_ ->].
  unfold sub_edge, coord_eq. cbn [point0 point1 lat lon].
  destruct (shrinks m o); rewrite inject_Z_S; split; reflexivity.
Qed.

(** C3: Outside the shrink window the first piece starts at the edge's
    start, and the last piece ends at parameter [t = ceil(numSplits) /
    numSplits] along the edge, with [1 <= t < 1 + 200 / (d * length)]: so
    it runs past [point1] whenever [numSplits] is not a whole number. *)
Theorem pieces_span e d m o :
  shrinks m o = false → 0 < d → 0 < length e →
  ∃ p q t, head (pieces e d m o) = Some p ∧ last (pieces e d m o) = Some q ∧
    coord_eq (point0 p) (point0 e) ∧
    coord_eq (point1 q) {| lat := lat (point0 e) + (lat (point1 e) - lat (point0 e)) * t;
                           lon := lon (point0 e) + (lon (point1 e) - lon (point0 e)) * t |} ∧
    1 <= t < 1 + 200 / (d * length e) ∧
    t == inject_Z (Z.of_nat (iterations (length e / (200 / d)))) / (length e / (200 / d)).
Proof.
  intros Hs Hd Hl. unfold pieces. rewrite Hs.
  set (x := length e / (200 / d)).
  assert (Hx0 : 0 < x) by (apply Qlt_shift_div_l; [apply Qlt_shift_div_l|]; qlra).
  destruct (iterations_bounds x) as [Hlo Hhi]; [qlra|].
  destruct (iterations x) as [|k]; [change (Z.of_nat 0) with 0%Z in Hlo; qlra|].
  rewrite inject_Z_S in Hlo, Hhi.
  exists (sub_edge e (200 / d) x false 0), (sub_edge e (200 / d) x false k),
    ((inject_Z (Z.of_nat k) + 1) / x).
  split_and!; [done | rewrite seq_S, fmap_app; cbn [fmap list_fmap Nat.add]; by rewrite last_snoc | | | | |].
  - unfold coord_eq; qsimpl. split; unfold Qdiv; ring.
  - unfold coord_eq; qsimpl. split; reflexivity.
  - apply Qle_shift_div_l; qlra.
  - apply Qlt_shift_div_r; [done|].
    assert (Hxe : (1 + 200 / (d * length e)) * x == x + 1)
      by (unfold x; field; split; qlra).
    rewrite Hxe. qlra.
  - by rewrite inject_Z_S.
Qed.

Lemma getDynamicStyleValue_Ok name attrs domain range :
  (∀ s v, attrs ≫= jget s = Some v → is_Some (domain !! s)) →
  ∃ y, getDynamicStyleValue name attrs domain range = Ok y.
Proof.
  intros Hdom. destruct name as [[q|s]|]; simpl; [by eexists| |by eexists].
  destruct (is_hex_color s); [by eexists|].
  destruct (attrs ≫= jget s) as [v|] eqn:Hv; [|by eexists].
  destruct (Hdom s v Hv) as [d ->]. by eexists.
Qed.

Lemma subdivideEdges_Ok ag st dens m o ch :
  (∀ e s v, e ∈ ag_edges ag → attributes e ≫= jget s = Some v → is_Some (st !! s)) →
  ∃ es, subdivideEdges ag st dens m o ch = Ok {| ag_edges := es; ag_stats := ag_stats ag |}.
Proof.
  intros Hst. unfold subdivideEdges.
  destruct (mapM_res_Ok (subdivide_edge st dens m o ch) (ag_edges ag)) as [ys ->].
  - intros e He. unfold subdivide_edge.
    destruct (getDynamicStyleValue_Ok dens (attributes e) st (Some (RangeNum 0 100)))
      as [y ->]; [intros s v; by apply Hst|].
    simpl. destruct (positive_density y); [by eexists|]. case_bool_decide; by eexists.
  - by eexists.
Qed.

(** Every piece keeps the attributes of the edge it was cut from. *)
Lemma subdivideEdges_attributes ag st dens m o ch r :
  subdivideEdges ag st dens m o ch = Ok r →
  ∀ e', e' ∈ ag_edges r → ∃ e, e ∈ ag_edges ag ∧ attributes e' = attributes e.
Proof.
  unfold subdivideEdges. destruct (mapM _ (ag_edges ag)) as [ys|x] eqn:Hm; simpl; [|done].
  intros [= <-] e' (es & Hes & He')%elem_of_concat. simpl in *.
  destruct (mapM_res_elem _ _ _ _ Hm Hes) as (e & He & Hsub). exists e. split; [done|].
  revert Hsub. unfold subdivide_edge, mbind, res_bind, mret, res_ret.
  destruct (getDynamicStyleValue _ _ _ _) as [d|]; [|done].
  destruct (positive_density d) as [q|].
  { intros [= <-]. set (n := length e / (200 / q)).
    by destruct (js_for_elem (S (iterations n)) 0 n (sub_edge e (200 / q) n (shrinks m o)) e' He') as [j ->]. }
  case_bool_decide; intros [= <-]; [by apply list_elem_of_singleton in He' as ->|set_solver].
Qed.

(** C32: An edge of length [0] (such as the one [aggregateSegmentBuffer]
    emits when the buffer fails) yields no piece under a positive
    density: it disappears from the layer, whatever the method. *)
Theorem subdivide_edge_zero_length st dens m o ch e d :
  getDynamicStyleValue dens (attributes e) st (Some (RangeNum 0 100)) = Ok (SNum d) → 0 < d →
  length e == 0 → subdivide_edge st dens m o ch e = Ok [].
Proof.
  intros Hg Hd Hl. rewrite (subdivide_edge_positive _ _ _ _ _ _ _ Hg Hd). unfold pieces.
  assert (Hx : length e / (200 / d) == 0) by (rewrite Hl; reflexivity).
  unfold iterations. rewrite (Qceiling_comp _ _ Hx). done.
Qed.

(** A 250 m edge under density [1] (target length 200 m) becomes two
    200 m pieces: their lengths add up to 400 m and the second one ends
    400 m along the edge's direction, 150 m beyond its end point. *)
Example pieces_overshoot :
  let e := {| point0 := {| lat := 0; lon := 0 |}; point1 := {| lat := 0; lon := 250 |};
              bearing := 90; length := 250; attributes := None |} in
  List.length (pieces e 1 None None) = 2%nat ∧
  Qred (qsum (length <$> pieces e 1 None None)) = 400 ∧
  (λ p, Qred (lon (point1 p))) <$> last (pieces e 1 None None) = Some 400.
Proof. vm_compute. split_and!; reflexivity. Qed.

(** ** Witnesses *)

Lemma pieces_total_length_witness :
  250 <= qsum (length <$> pieces edge250 1 None None) < 250 + 200 / 1.
Proof. apply (pieces_total_length edge250 1 None None); wdecide. Defined.

Lemma pieces_contiguous_witness :
  coord_eq (point1 (sub_edge edge250 (200 / 1) (250 / (200 / 1)) false 0))
           (point0 (sub_edge edge250 (200 / 1) (250 / (200 / 1)) false 1)).
Proof. apply (pieces_contiguous edge250 1 None None 0); reflexivity. Defined.

Lemma pieces_span_witness :
  ∃ p q t, head (pieces edge250 1 None None) = Some p ∧ last (pieces edge250 1 None None) = Some q ∧
    coord_eq (point0 p) (point0 edge250) ∧
    coord_eq (point1 q) {| lat := lat (point0 edge250) + (lat (point1 edge250) - lat (point0 edge250)) * t;
                           lon := lon (point0 edge250) + (lon (point1 edge250) - lon (point0 edge250)) * t |} ∧
    1 <= t < 1 + 200 / (1 * length edge250) ∧
    t == inject_Z (Z.of_nat (iterations (length edge250 / (200 / 1)))) / (length edge250 / (200 / 1)).
Proof. apply pieces_span; wdecide. Defined.

(** The zero-length edge a failed buffer leaves, under density 1. *)
Lemma subdivide_edge_zero_length_witness :
  subdivide_edge ∅ (Some (SVNum 1)) (Some MLine) (Some OParallel) None
    {| point0 := {| lat := 0; lon := 0 |}; point1 := {| lat := 0; lon := 100 |};
       bearing := 0; length := 0; attributes := None |} = Ok [].
Proof. apply (subdivide_edge_zero_length _ _ _ _ _ _ 1); wdecide. Defined.
