(* ===== verification/Loader.v ===== *)
(** * Loader: turning the parsed files into edges and points ([geoHelpers.ts])

    [loadPhysicalData] cuts every [LineString] feature of a GeoJSON
    document into the edges between consecutive positions, with Turf's
    bearing and length; [loadThematicData] keeps the CSV rows whose
    coordinate columns parse, and tracks the minimum and maximum of every
    numeric column over all rows.  The fetch and the CSV/JSON parsing
    ([d3.json], [d3.csv] with [d3.autoType]) are parameters from the URL
    to the parsed result or the exception; the [_core] functions start
    from that result, [None] when the fetch failed or returned nothing. *)

From S2P Require Import Prelude Geometry Spec Aggregation.
Open Scope Q_scope.

(** [`/data/${path}`]: both loaders fetch from [/data] at the root of
    the site. *)
Definition data_url (path : string) : string := "/data/" +:+ path.

(** ** [loadPhysicalData] *)

(** A GeoJSON geometry: its [type] and, when present, the positions of
    its [coordinates] as [[lon, lat]] pairs. *)
Record geometry := mkGeometry { g_type : string; g_coordinates : option (list position) }.

(** [GeoJSONFeature]: the geometry may be missing. *)
Record feature := mkFeature { f_geometry : option geometry }.

(** The parsed document: a [FeatureCollection] (whose [features] may be
    missing), a single [Feature], or any other object. *)
Inductive geojson :=
  | FeatureCollection (features : option (list feature))
  | Feature (f : feature)
  | OtherGeoJSON.

Section Physical.
Context `{Turf}.

(** The [PhysicalEdge] between [coords[i]] and [coords[i + 1]]. *)
Definition segment_edge (startCoord endCoord : position) : edge :=
  {| point0 := {| lat := startCoord.2; lon := startCoord.1 |};
     point1 := {| lat := endCoord.2; lon := endCoord.1 |};
     bearing := turf_bearing startCoord endCoord;
     length := turf_length startCoord endCoord;
     attributes := None |}.

(** [for (let i = 0; i < coords.length - 1; i++)]: the body reads
    [coords[i]] and [coords[i + 1]], both in range. *)
Definition line_edges (coords : list position) : list edge :=
  omap (λ i, startCoord ← coords !! i; endCoord ← coords !! S i;
             Some (segment_edge startCoord endCoord))
    (seq 0 (List.length coords - 1)).

(** The body of [for (const feature of featuresToProcess)]. *)
Definition feature_edges (f : feature) : list edge :=
  match f_geometry f with
  | Some g =>
      if decide (g_type g = "LineString"%string) then
        match g_coordinates g with
        | Some coords => if decide (2 <= List.length coords)%nat then line_edges coords else []
        | None => []
        end
      else []
  | None => []
  end.

(** [loadPhysicalData(path)] once [d3.json] has answered. *)
Definition loadPhysicalData_core (geojsonData : option geojson) : list edge :=
  let featuresToProcess :=
    match geojsonData with
    | Some (FeatureCollection (Some fs)) => fs
    | Some (Feature f) => [f]
    | _ => []
    end in
  concat (feature_edges <$> featuresToProcess).

(** [loadPhysicalData(path)]: [d3.json(`/data/${path}`)], whose
    rejection the [catch] turns into [[]]; the parsed document
    ([undefined] is [None]) then goes through [loadPhysicalData_core]. *)
Definition loadPhysicalData (json : string → res (option geojson)) (path : string) : list edge :=
  match json (data_url path) with
  | Ok geojsonData => loadPhysicalData_core geojsonData
  | Throw _ => []
  end.

End Physical.

(** ** [loadThematicData] *)

Section Thematic.
(** [parseFloat] of a string: the number its longest numeric prefix
    denotes, [None] for [NaN].  [d3.autoType] has already turned the
    cells that are numbers into numbers, so this only sees the others. *)
Context (parseFloat_str : string → option Q).

(** [parseFloat(v)]: a number is itself, [NaN] and booleans are [NaN]. *)
Definition parseFloat (v : jsval) : option Q :=
  match v with
  | JNum q => Some q
  | JStr s => parseFloat_str s
  | _ => None
  end.

(** [if (d[col] !== undefined && d[col] !== null) { parsed = parseFloat(d[col]);
    if (!isNaN(parsed)) ... }] *)
Definition parse_coord (v : option jsval) : option Q :=
  match v with
  | None | Some JNull => None
  | Some v => parseFloat v
  end.

(** [if (attributeMins[key] === undefined || finalValue < attributeMins[key])] *)
Definition update_min (mins : jsobj Q) (key : string) (v : Q) : jsobj Q :=
  match mins.[key] with
  | None => jset key v mins
  | Some m => if decide (v < m) then jset key v mins else mins
  end.

Definition update_max (maxs : jsobj Q) (key : string) (v : Q) : jsobj Q :=
  match maxs.[key] with
  | None => jset key v maxs
  | Some m => if decide (m < v) then jset key v maxs else maxs
  end.

(** One iteration of [for (const key in newRow)]: the coordinate columns
    are skipped, a number that is not [NaN] updates both tables. *)
Definition track_attr (latColumnName lonColumnName : string) (newRow : jsobj jsval)
    (acc : jsobj Q * jsobj Q) (key : string) : jsobj Q * jsobj Q :=
  if decide (key = "lat" ∨ key = "lon" ∨ key = latColumnName ∨ key = lonColumnName)%string
  then acc
  else match newRow.[key] with
       | Some (JNum v) => (update_min acc.1 key v, update_max acc.2 key v)
       | _ => acc
       end.

(** The loop's state: [processedData], [attributeMins], [attributeMaxs]. *)
Record loader_state := mkLoader {
  processedData : list tpoint;
  attributeMins : jsobj Q;
  attributeMaxs : jsobj Q
}.

(** The body of [for (const d of thematicData)]: the attributes are
    tracked before the row is kept or skipped. *)
Definition load_row (latColumnName lonColumnName : string) (s : loader_state)
    (d : jsobj jsval) : loader_state :=
  let lat := parse_coord d.[latColumnName] in
  let lon := parse_coord d.[lonColumnName] in
  let '(mins, maxs) := fold_left (track_attr latColumnName lonColumnName d)
                         (jkeys d) (attributeMins s, attributeMaxs s) in
  let data :=
    match lat, lon with
    | Some la, Some lo =>
        processedData s ++ [mkTPoint la lo (jset "lon" (JNum lo) (jset "lat" (JNum la) d))]
    | _, _ => processedData s
    end in
  {| processedData := data; attributeMins := mins; attributeMaxs := maxs |}.

(** [for (const key in attributeMins) if (hasOwnProperty ...) attributeStats[key] = {min, max}] *)
Definition collect_stats (mins maxs : jsobj Q) : gmap string stat :=
  fold_left (λ st key, match mins.[key], maxs.[key] with
                       | Some a, Some b => <[key := {| smin := a; smax := b |}]> st
                       | _, _ => st
                       end) (jkeys mins) ∅.

(** [ThematicData] *)
Record thematic_data := mkThematic { td_data : list tpoint; td_stats : gmap string stat }.

(** [loadThematicData(path, latColumnName, lonColumnName)] once [d3.csv]
    has answered ([None]: the fetch threw). *)
Definition loadThematicData_core (rows : option (list (jsobj jsval)))
    (latColumnName lonColumnName : string) : thematic_data :=
  match rows with
  | None => {| td_data := []; td_stats := ∅ |}
  | Some rows =>
      let s := fold_left (load_row latColumnName lonColumnName) rows
                 {| processedData := []; attributeMins := []; attributeMaxs := [] |} in
      {| td_data := processedData s; td_stats := collect_stats (attributeMins s) (attributeMaxs s) |}
  end.

(** [loadThematicData(path, latColumnName, lonColumnName)]:
    [d3.csv(`/data/${path}`, d3.autoType)], a rejection giving
    [{data: [], attributeStats: {}}]. *)
Definition loadThematicData (csv : string → res (list (jsobj jsval))) (path latColumnName lonColumnName : string)
    : thematic_data :=
  match csv (data_url path) with
  | Ok rows => loadThematicData_core (Some rows) latColumnName lonColumnName
  | Throw _ => loadThematicData_core None latColumnName lonColumnName
  end.

End Thematic.

(** A numeric, non-coordinate cell [k] of row [d] holding [v]. *)
Definition row_num (latColumnName lonColumnName : string) (d : jsobj jsval) (k : string) (v : Q) : Prop :=
  ¬ (k = "lat" ∨ k = "lon" ∨ k = latColumnName ∨ k = lonColumnName)%string ∧ d.[k] = Some (JNum v).

(** The two tables are the projections of one table of [stat]s. *)
Definition tables_proj (mins maxs : jsobj Q) (G : gmap string stat) : Prop :=
  ∀ k, mins.[k] = smin <$> G !! k ∧ maxs.[k] = smax <$> G !! k.

(** ** Witness data *)

Definition three_points : list position := [(0, 0); (0, 100); (50, 100)].

(** * Properties *)

(** ** Properties of [loadPhysicalData] *)

Section PhysicalProps.
Context `{Turf}.

(** The indexed loop is the pairing of each position with the next one. *)
Theorem line_edges_zip (coords : list position) :
  line_edges coords = zip_with segment_edge coords (tail coords).
Proof.
  unfold line_edges. induction coords as [|a coords IH]; [done|].
  destruct coords as [|b coords]; [done|].
  cbn [List.length]. rewrite Nat.sub_succ, Nat.sub_0_r. cbn [seq].
  rewrite <- seq_shift. change (map S ?l) with (S <$> l).
  cbn [omap list_omap lookup list_lookup mbind option_bind]. cbn [tail zip_with].
  f_equal. rewrite omap_fmap_comm. cbn [tail List.length] in IH.
  replace (S (List.length coords) - 1)%nat with (List.length coords) in IH by lia.
  transitivity (zip_with segment_edge (b :: coords) coords); [|reflexivity].
  rewrite <- IH. apply list_omap_ext, Forall_Forall2_diag, Forall_forall. done.
Qed.

(** A [LineString] of [n] positions gives [n - 1] edges. *)
Theorem line_edges_length (coords : list position) :
  List.length (line_edges coords) = (List.length coords - 1)%nat.
Proof. rewrite line_edges_zip, length_zip_with. destruct coords; cbn [tail List.length]; lia. Qed.

(** Consecutive edges of a line are chained: each ends where the next
    one starts. *)
Theorem line_edges_chain (coords : list position) i e1 e2 :
  line_edges coords !! i = Some e1 → line_edges coords !! S i = Some e2 →
  point1 e1 = point0 e2.
Proof.
  rewrite line_edges_zip, !lookup_zip_with, !lookup_tail.
  destruct (coords !! i), (coords !! S i) as [b|], (coords !! S (S i)); simpl;
    intros; simplify_eq; done.
Qed.

Lemma feature_edges_elem f e :
  e ∈ feature_edges f → ∃ a b, e = segment_edge a b.
Proof.
  unfold feature_edges. repeat case_match; try set_solver.
  rewrite line_edges_zip. intros (a & b & -> & _)%elem_of_zip_with. eauto.
Qed.

Lemma loadPhysicalData_core_elem g e :
  e ∈ loadPhysicalData_core g → ∃ a b, e = segment_edge a b.
Proof.
  unfold loadPhysicalData_core. rewrite elem_of_concat.
  intros (l & (f & -> & _)%list_elem_of_fmap_1 & He). by apply (feature_edges_elem f e).
Qed.

(** The edges of a line are the segments between consecutive positions. *)
Lemma line_edges_spec coords e :
  e ∈ line_edges coords ↔
  ∃ i a b, coords !! i = Some a ∧ coords !! S i = Some b ∧ e = segment_edge a b.
Proof.
  unfold line_edges. rewrite list_elem_of_omap. split.
  - intros (i & _ & Hi). destruct (coords !! i) as [a|] eqn:Ha; [|done].
    destruct (coords !! S i) as [b|] eqn:Hb; [|done]. simpl in Hi. injection Hi as <-. by exists i, a, b.
  - intros (i & a & b & Ha & Hb & ->). exists i. split.
    + apply elem_of_seq. apply lookup_lt_Some in Hb. lia.
    + by rewrite Ha, Hb.
Qed.

(** C38: [loadPhysicalData] on a [FeatureCollection]: its edges are exactly
    the segments between consecutive positions [[lon, lat]] of the
    features whose geometry is a [LineString], each from [coords[i]] to
    [coords[i + 1]], with [lat] read from the second number and [lon]
    from the first, Turf's bearing and length from the start to the
    end, and no attributes yet.  Other geometries, and lines of fewer
    than two positions, give nothing. *)
Theorem loadPhysicalData_core_edges fs e :
  e ∈ loadPhysicalData_core (Some (FeatureCollection (Some fs))) ↔
  ∃ f coords i a b, f ∈ fs ∧
    f_geometry f = Some {| g_type := "LineString"; g_coordinates := Some coords |} ∧
    coords !! i = Some a ∧ coords !! S i = Some b ∧
    e = {| point0 := {| lat := a.2; lon := a.1 |}; point1 := {| lat := b.2; lon := b.1 |};
           bearing := turf_bearing a b; length := turf_length a b; attributes := None |}.
Proof.
  unfold loadPhysicalData_core. rewrite elem_of_concat. split.
  - intros (l & (f & -> & Hf)%list_elem_of_fmap_1 & He). revert He. unfold feature_edges.
    destruct (f_geometry f) as [[t [coords|]]|] eqn:Hg; simpl; [|case_decide; set_solver|set_solver].
    case_decide as Ht; [subst t|set_solver]. case_decide; [|set_solver].
    intros (i & a & b & Ha & Hb & ->)%line_edges_spec. by exists f, coords, i, a, b.
  - intros (f & coords & i & a & b & Hf & Hg & Ha & Hb & ->).
    exists (feature_edges f). split; [by apply list_elem_of_fmap_2|].
    unfold feature_edges. rewrite Hg. cbn [g_type g_coordinates]. rewrite decide_True by done.
    rewrite decide_True by (apply lookup_lt_Some in Hb; lia).
    apply line_edges_spec. by exists i, a, b.
Qed.

End PhysicalProps.

(** ** Properties of [loadThematicData] *)

Section ThematicProps.
Context (parseFloat_str : string → option Q).

Lemma tables_proj_empty : tables_proj [] [] ∅.
Proof. intros k. by rewrite lookup_empty. Qed.

(** Updating both tables is [stat_update], the step the edge statistics
    of [applySpatialAggregation] use. *)
Lemma tables_proj_update mins maxs G k v :
  tables_proj mins maxs G →
  tables_proj (update_min mins k v) (update_max maxs k v) (<[k := stat_update (G !! k) v]> G).
Proof.
  intros Hp k'. destruct (Hp k) as [Hmin Hmax]. destruct (Hp k') as [Hmin' Hmax'].
  unfold update_min, update_max. rewrite Hmin, Hmax.
  destruct (decide (k = k')) as [<-|Hne].
  - rewrite lookup_insert_eq. destruct (G !! k) as [s|]; simpl;
      [|by rewrite !jget_jset_eq].
    split; case_decide; by rewrite ?jget_jset_eq, ?Hmin, ?Hmax.
  - rewrite lookup_insert_ne by done.
    destruct (G !! k) as [s|]; simpl; [|by rewrite !jget_jset_ne].
    split; case_decide; by rewrite ?jget_jset_ne.
Qed.

Lemma row_num_fun lc oc d k v v' : row_num lc oc d k v → row_num lc oc d k v' → v = v'.
Proof. intros [_ H1] [_ H2]. congruence. Qed.

Lemma track_attr_cases lc oc d mins maxs k :
  ((¬ ∃ v, row_num lc oc d k v) ∧ track_attr lc oc d (mins, maxs) k = (mins, maxs)) ∨
  (∃ v, row_num lc oc d k v ∧
        track_attr lc oc d (mins, maxs) k = (update_min mins k v, update_max maxs k v)).
Proof.
  unfold track_attr, row_num. case_decide as Hex; [left; naive_solver|].
  destruct (d.[k]) as [[v| | | |]|]; [right; eauto|left; split; [naive_solver|done] ..].
Qed.

Lemma track_attr_fold lc oc d ks mins maxs G P :
  tables_proj mins maxs G → stats_inv P G →
  ∃ G', tables_proj (fold_left (track_attr lc oc d) ks (mins, maxs)).1
                    (fold_left (track_attr lc oc d) ks (mins, maxs)).2 G' ∧
        stats_inv (λ k v, P k v ∨ (k ∈ ks ∧ row_num lc oc d k v)) G'.
Proof.
  revert mins maxs G P. induction ks as [|k ks IH]; intros mins maxs G P Hp Hinv; cbn [fold_left].
  - exists G. split; [done|]. eapply stats_inv_proper; [|done|exact Hinv]. intros ??. set_solver.
  - destruct (track_attr_cases lc oc d mins maxs k) as [[Hn ->]|(v & Hr & ->)].
    + destruct (IH mins maxs G P Hp Hinv) as (G' & Hp' & Hinv'). exists G'. split; [done|].
      eapply stats_inv_proper; [|done|exact Hinv']. intros k' v'.
      rewrite elem_of_cons. naive_solver.
    + destruct (IH _ _ _ _ (tables_proj_update mins maxs G k v Hp) (stats_inv_update P G k v Hinv))
        as (G' & Hp' & Hinv').
      exists G'. split; [done|]. eapply stats_inv_proper; [|done|exact Hinv'].
      intros k' v'. rewrite elem_of_cons.
      split; [|intros [[|[= -> ->]]|]; naive_solver].
      intros [|[[->|] Hk]]; [naive_solver| |naive_solver].
      left. right. by rewrite (row_num_fun _ _ _ _ _ _ Hk Hr).
Qed.

Lemma load_rows_stats lc oc rows s G P :
  tables_proj (attributeMins s) (attributeMaxs s) G → stats_inv P G →
  ∃ G', tables_proj (attributeMins (fold_left (load_row parseFloat_str lc oc) rows s))
                    (attributeMaxs (fold_left (load_row parseFloat_str lc oc) rows s)) G' ∧
        stats_inv (λ k v, P k v ∨ ∃ d, d ∈ rows ∧ row_num lc oc d k v) G'.
Proof.
  revert s G P. induction rows as [|d rows IH]; intros s G P Hp Hinv; cbn [fold_left].
  - exists G. split; [done|]. eapply stats_inv_proper; [|done|exact Hinv]. intros ??. set_solver.
  - destruct (track_attr_fold lc oc d (jkeys d) _ _ G P Hp Hinv) as (G1 & Hp1 & Hinv1).
    assert (Hp1' : tables_proj (attributeMins (load_row parseFloat_str lc oc s d))
                     (attributeMaxs (load_row parseFloat_str lc oc s d)) G1).
    { unfold load_row. destruct (fold_left (track_attr lc oc d) (jkeys d) _). exact Hp1. }
    destruct (IH _ G1 _ Hp1' Hinv1) as (G' & Hp' & Hinv'). exists G'. split; [done|].
    eapply stats_inv_proper; [|done|exact Hinv']. intros k v.
    setoid_rewrite elem_of_cons. split; [|naive_solver].
    intros [HP|(d' & [->|Hd'] & Hr)]; [naive_solver| |naive_solver].
    left; right. split; [|done]. destruct Hr as [_ Hr]. by eapply jget_Some_keys.
Qed.

Lemma collect_stats_fold (mins maxs : jsobj Q) (ks : list string) (G0 : gmap string stat) k :
  fold_left (λ st (key : string), match mins.[key], maxs.[key] with
                       | Some a, Some b => <[key := {| smin := a; smax := b |}]> st
                       | _, _ => st
                       end) ks G0 !! k =
  match mins.[k], maxs.[k] with
  | Some a, Some b => if decide (k ∈ ks) then Some {| smin := a; smax := b |} else G0 !! k
  | _, _ => G0 !! k
  end.
Proof.
  revert G0. induction ks as [|k' ks IH]; intros G0; cbn [fold_left]; [|rewrite IH].
  - destruct (mins.[k]), (maxs.[k]); rewrite ?decide_False by set_solver; done.
  - destruct (decide (k = k')) as [<-|Hne].
    + destruct (mins.[k]), (maxs.[k]); rewrite ?lookup_insert_eq;
        repeat case_decide; set_solver.
    + destruct (mins.[k']), (maxs.[k']); rewrite ?lookup_insert_ne by done;
        destruct (mins.[k]), (maxs.[k]); repeat case_decide; set_solver.
Qed.

Lemma collect_stats_lookup mins maxs G :
  tables_proj mins maxs G → collect_stats mins maxs = G.
Proof.
  intros Hp. apply map_eq. intros k. unfold collect_stats. rewrite collect_stats_fold.
  destruct (Hp k) as [Hmin Hmax]. rewrite Hmin, Hmax.
  destruct (G !! k) as [[a b]|] eqn:Hk; simpl; [|by rewrite lookup_empty].
  rewrite decide_True; [done|]. by eapply jget_Some_keys.
Qed.

(** C6: [loadThematicData]'s statistics are sound and tight over all the
    rows of the file: every numeric cell outside the coordinate columns
    lies within its column's [[min, max]], and each bound is such a
    cell, including the cells of the rows the loader drops for their
    coordinates. *)
Theorem loadThematicData_stats rows lc oc :
  stats_inv (λ k v, ∃ d, d ∈ rows ∧ row_num lc oc d k v)
    (td_stats (loadThematicData_core parseFloat_str (Some rows) lc oc)).
Proof.
  simpl. destruct (load_rows_stats lc oc rows
                     {| processedData := []; attributeMins := []; attributeMaxs := [] |}
                     ∅ (λ _ _, False) tables_proj_empty stats_inv_empty) as (G & Hp & Hinv).
  rewrite (collect_stats_lookup _ _ _ Hp).
  eapply stats_inv_proper; [|done|exact Hinv]. intros ??. naive_solver.
Qed.

(** The points kept are exactly the rows whose two coordinate cells
    parse, in file order, each with [lat] and [lon] set to the parsed
    numbers. *)
Lemma load_rows_points rows lc oc s :
  processedData (fold_left (load_row parseFloat_str lc oc) rows s) =
  processedData s ++
  omap (λ d, la ← parse_coord parseFloat_str d.[lc]; lo ← parse_coord parseFloat_str d.[oc];
             Some (mkTPoint la lo (jset "lon" (JNum lo) (jset "lat" (JNum la) d)))) rows.
Proof.
  revert s. induction rows as [|d rows IH]; intros s; cbn [fold_left]; [by rewrite app_nil_r|].
  rewrite IH. unfold load_row. destruct (fold_left _ _ _). cbn [processedData].
  cbn [omap list_omap].
  destruct (parse_coord parseFloat_str d.[lc]), (parse_coord parseFloat_str d.[oc]); simpl;
    by rewrite <- ?app_assoc.
Qed.

(** [loadThematicData] keeps exactly the rows whose latitude and
    longitude cells both parse, in file order, each with [lat] and [lon]
    overwritten by the parsed numbers. *)
Theorem loadThematicData_points rows lc oc :
  td_data (loadThematicData_core parseFloat_str (Some rows) lc oc) =
  omap (λ d, la ← parse_coord parseFloat_str d.[lc]; lo ← parse_coord parseFloat_str d.[oc];
             Some (mkTPoint la lo (jset "lon" (JNum lo) (jset "lat" (JNum la) d)))) rows.
Proof. simpl. rewrite load_rows_points. done. Qed.

(** The attribute keys [aggregateValues] reads from the loaded points
    include the latitude column when it is not named [lat]: the
    coordinate column is aggregated as if it were data. *)
Theorem loadThematicData_coordinate_attribute d rows lc oc la lo :
  parse_coord parseFloat_str d.[lc] = Some la → parse_coord parseFloat_str d.[oc] = Some lo →
  lc ≠ "lat"%string → lc ≠ "lon"%string →
  lc ∈ attr_keys (td_data (loadThematicData_core parseFloat_str (Some (d :: rows)) lc oc)).
Proof.
  intros Hla Hlo Hlat Hlon. unfold loadThematicData_core. cbn [td_data]. rewrite load_rows_points.
  cbn [processedData app omap list_omap].
  rewrite Hla, Hlo. simpl. apply list_elem_of_filter. split; [done|].
  assert (Hk : lc ∈ jkeys d) by (destruct (d.[lc]) eqn:Hd; [by eapply jget_Some_keys|done]).
  rewrite !jkeys_jset. repeat case_bool_decide; set_solver.
Qed.

End ThematicProps.

(** A row dropped for its missing latitude still widens the column's
    statistics: the loaded table has one point, whose [v] is [5], and
    [v]'s range is [[5, 100]]. *)
Example loadThematicData_dropped_row_stats :
  let rows := [[("lat", JNum 1); ("lon", JNum 2); ("v", JNum 5)];
               [("lat", JNull); ("lon", JNum 2); ("v", JNum 100)]]%string in
  let td := loadThematicData_core (λ _, None) (Some rows) "lat" "lon" in
  List.length (td_data td) = 1%nat ∧ td_stats td !! "v"%string = Some {| smin := 5; smax := 100 |}.
Proof. vm_compute. split; reflexivity. Qed.

(** ** Witnesses *)

(** The two edges of a three-point line meet at its middle point. *)
Lemma line_edges_chain_witness :
  point1 (segment_edge (0, 0) (0, 100)) = point0 (segment_edge (0, 100) (50, 100)).
Proof. apply (line_edges_chain three_points 0); reflexivity. Defined.

(** A CSV whose coordinate columns are [Latitude] and [Longitude]: the
    loaded points carry [Latitude] as an attribute key. *)
Lemma loadThematicData_coordinate_attribute_witness :
  "Latitude"%string ∈
    attr_keys (td_data (loadThematicData_core (λ _, None)
                 (Some [[("Latitude", JNum 40); ("Longitude", JNum (-74)); ("pm25", JNum 12)]]%string)
                 "Latitude" "Longitude")).
Proof. apply (loadThematicData_coordinate_attribute _ _ _ _ _ 40 (-74)); wdecide. Defined.
