(* ===== verification/Build.v ===== *)
(** * Build: the two Vite configurations ([vite.config.ts])

    [src/editor/vite.config.ts] builds the editor application and
    [src/streetweave/vite.config.ts] the [streetweave] library.  Their
    exported objects are records here, with Vite's defaults for the
    fields they leave out.  What a configuration does at run time is
    small: the editor's [base] decides under which URL prefix the
    built application and its public files are served, and
    [resolve.alias] names the sibling directories (no source imports
    through it).  The loaders of
    [geoHelpers.ts] fetch [`/data/${path}`] ([Loader.data_url]); the
    theorem at the end relates that URL to [base]. *)

From S2P Require Import Prelude Loader.
Open Scope string_scope.

(** ** The configuration objects *)

(** [build.lib]: the entry module and the global name of the bundle. *)
Record lib_options := mkLib { lib_entry : string; lib_name : string }.

Record build_options := mkBuild {
  outDir : string;
  sourcemap : bool;
  lib : option lib_options;
  copyPublicDir : bool;
  emptyOutDir : bool
}.

Record vite_config := mkVite {
  root : string;
  build : build_options;
  plugins : list string;
  base : string;
  alias : list (string * string)
}.

(** [path.resolve(dir, rel)] for a relative [rel]: its segments from
    [dir], [..] going up and [.] staying. *)
Definition path_resolve (dir rel : list string) : list string :=
  foldl (λ acc seg, if decide (seg = "..") then removelast acc
                    else if decide (seg = ".") then acc else (acc ++ [seg])%list) dir rel.

(** [__dirname] of each configuration, from the repository root. *)
Definition editor_dir : list string := ["src"; "editor"].
Definition streetweave_dir : list string := ["src"; "streetweave"].

Definition join_path (segs : list string) : string :=
  foldl (λ acc seg, if decide (acc = "") then seg else acc +:+ "/" +:+ seg) "" segs.

(** [src/editor/vite.config.ts]: the options it gives; [emptyOutDir] and
    [copyPublicDir] keep Vite's default [true]. *)
Definition editor_vite_config : vite_config :=
  {| root := ".";
     build := {| outDir := "dist"; sourcemap := true; lib := None; copyPublicDir := true; emptyOutDir := true |};
     plugins := ["react"];
     base := "/Street-Weave";
     alias := [("@streetweave", join_path (path_resolve editor_dir [".."; "streetweave"]));
               ("@data", join_path (path_resolve editor_dir [".."; "data"]));
               ("@examples", join_path (path_resolve editor_dir [".."; "examples"]))] |}.

(** [src/streetweave/vite.config.ts]: library mode, [outDir] and [base]
    left at Vite's defaults ["dist"] and ["/"]. *)
Definition streetweave_vite_config : vite_config :=
  {| root := ".";
     build := {| outDir := "dist"; sourcemap := true;
                 lib := Some {| lib_entry := join_path (path_resolve streetweave_dir ["src"; "index.ts"]);
                                lib_name := "streetweave" |};
                 copyPublicDir := false; emptyOutDir := false |};
     plugins := ["dts"];
     base := "/";
     alias := [] |}.

(** ** What the configuration does *)

(** An absolute URL path under [base], the prefix the application and
    its public files are served under (with or without the final slash
    Vite may add, the test below gives the same answer on [/data/...]). *)
Definition served_under_base (c : vite_config) (url : string) : bool :=
  String.prefix (base c) url.

(** ** Properties *)

(** The aliases of the editor point at the sibling directories of
    [src/editor]. *)
Lemma editor_aliases :
  alias editor_vite_config = [("@streetweave", "src/streetweave"); ("@data", "src/data"); ("@examples", "src/examples")].
Proof. reflexivity. Qed.

(** The data the loaders fetch is not under the editor's [base]: a build
    served under [/Street-Weave/] requests [/data/...] from the root of
    the site, outside the application, whatever the file. *)
Theorem data_url_outside_base path : served_under_base editor_vite_config (data_url path) = false.
Proof. reflexivity. Qed.
