(* ===== verification/Pipeline.v ===== *)
(** * Pipeline: [loadSegmentData] and [loadNodeData] ([dataLoader.ts])

    A segment layer loads its network and its point table, joins them
    ([applySpatialAggregation]), and, when the unit has a density,
    subdivides the joined edges with the statistics of that first join
    and joins the pieces again.  A node layer joins once and averages
    the joined edges onto their endpoints.  The fetches are the parsed
    files handed in; Turf and [parseFloat] on strings are parameters. *)

From S2P Require Import Prelude Geometry Spec Aggregation Style Subdivide Loader.
Open Scope Q_scope.

Section Pipeline.
Context `{Turf} (parseFloat_str : string → option Q).

(** [loadSegmentData(layerSpec)] *)
Definition loadSegmentData (geojsonData : option geojson) (csvRows : option (list (jsobj jsval)))
    (layerSpec : layer_spec) : res (aggregated * thematic_data) :=
  let physicalData := loadPhysicalData_core geojsonData in
  let thematicData := loadThematicData_core parseFloat_str csvRows
                        (l_lat_column layerSpec) (l_lon_column layerSpec) in
  let edges := physicalData in
  let processedEdges := applySpatialAggregation edges (td_data thematicData) layerSpec in
  processedEdges ←
    match u_density (l_unit layerSpec) with
    | Some _ =>
        sub ← subdivideEdges processedEdges (ag_stats processedEdges)
                (u_density (l_unit layerSpec)) (u_method (l_unit layerSpec))
                (u_orientation (l_unit layerSpec)) (u_chart (l_unit layerSpec));
        mret (applySpatialAggregation (ag_edges sub) (td_data thematicData) layerSpec)
    | None => mret processedEdges
    end;
  mret (processedEdges, thematicData).

(** [loadNodeData(layerSpec)] *)
Definition loadNodeData (geojsonData : option geojson) (csvRows : option (list (jsobj jsval)))
    (layerSpec : layer_spec) : list node * thematic_data :=
  let physicalData := loadPhysicalData_core geojsonData in
  let thematicData := loadThematicData_core parseFloat_str csvRows
                        (l_lat_column layerSpec) (l_lon_column layerSpec) in
  let aggregatedEdges := applySpatialAggregation physicalData (td_data thematicData) layerSpec in
  let nodesList := processEdgesToNodes (ag_edges aggregatedEdges) in
  (nodesList, thematicData).

End Pipeline.

(** ** Properties *)

Section PipelineProps.
Context `{Turf} (parseFloat_str : string → option Q).

(** Every attribute an edge of a join carries has an entry in the join's
    statistics, as long as, without a spatial relation, the edges given
    carry none. *)
Lemma applySpatialAggregation_stats_cover physicalData thematicData layerSpec :
  (spec_spatial layerSpec = None → ∀ e, e ∈ physicalData → attributes e = None) →
  let r := applySpatialAggregation physicalData thematicData layerSpec in
  ∀ e s v, e ∈ ag_edges r → attributes e ≫= jget s = Some v → is_Some (ag_stats r !! s).
Proof.
  intros Hpd r e s v He Hv.
  destruct (spec_spatial layerSpec) eqn:Hsp.
  - assert (Hst : ag_stats r = edge_stats (ag_edges r))
      by (apply applySpatialAggregation_stats; congruence).
    rewrite Hst. destruct (edge_stats_spec (ag_edges r)) as [Hcov _].
    destruct (attributes e) as [attrs|] eqn:Ha; [|done].
    destruct (Hcov s v) as (d & -> & _); [|done].
    exists e. split; [done|]. rewrite Ha. by apply jget_Some_elem.
  - unfold r, applySpatialAggregation in He. rewrite Hsp in He. simpl in He.
    by rewrite (Hpd eq_refl e He) in Hv.
Qed.

(** C35: [loadSegmentData] never throws, and the statistics it returns
    hold every attribute its edges carry.  The only [throw] on its path
    is the [TypeError] of [getDynamicStyleValue] ([domain[name].min] on
    a [domain] without [name], [styleHelpers.ts]) when [subdivideEdges]
    resolves the density: the name must be an attribute of the edge,
    and every attribute of an edge of the first join has its entry in
    that join's statistics ([edge_stats]), while without a relation
    the loaded edges carry none.  The fetches catch their own errors
    ([loadPhysicalData], [loadThematicData] return empty data).  The
    second conjunct is what the renderer's lookups in the edge
    statistics rely on. *)
Theorem loadSegmentData_total geojsonData csvRows layerSpec :
  ∃ r, loadSegmentData parseFloat_str geojsonData csvRows layerSpec = Ok r ∧
       ∀ e s v, e ∈ ag_edges r.1 → attributes e ≫= jget s = Some v → is_Some (ag_stats r.1 !! s).
Proof.
  unfold loadSegmentData.
  set (td := loadThematicData_core parseFloat_str csvRows _ _).
  set (pd := loadPhysicalData_core geojsonData).
  assert (Hpd : ∀ e, e ∈ pd → attributes e = None)
    by (intros e He; by destruct (loadPhysicalData_core_elem geojsonData e He) as (a & b & ->)).
  set (r := applySpatialAggregation pd (td_data td) layerSpec).
  assert (Hcov : ∀ e s v, e ∈ ag_edges r → attributes e ≫= jget s = Some v → is_Some (ag_stats r !! s))
    by (apply applySpatialAggregation_stats_cover; auto).
  destruct (u_density (l_unit layerSpec)) as [dens|]; [|by eexists].
  destruct (subdivideEdges_Ok r (ag_stats r) (Some dens) (u_method (l_unit layerSpec))
              (u_orientation (l_unit layerSpec)) (u_chart (l_unit layerSpec)) Hcov) as [es Hsub].
  rewrite Hsub. eexists. split; [done|]. simpl.
  apply applySpatialAggregation_stats_cover. intros Hsp e He.
  destruct (subdivideEdges_attributes _ _ _ _ _ _ _ Hsub e He) as (e0 & He0 & ->).
  unfold r, applySpatialAggregation in He0. rewrite Hsp in He0. by apply Hpd.
Qed.

End PipelineProps.

(** The scenario of the specification end to end, on the planar
    instance: a one-feature GeoJSON street from [(0, 0)] to [(0, 100)]
    and a CSV of two sensors with [count] 3 and 7, joined by a 50 m
    buffer with [sum], load as one edge with [count = 10]. *)
Example loadSegmentData_scenario :
  let geo := Feature {| f_geometry := Some {| g_type := "LineString";
                                              g_coordinates := Some [(0, 0); (0, 100)] |} |} in
  let rows := [[("count", JNum 3); ("lat", JNum 50); ("lon", JNum 10)];
               [("count", JNum 7); ("lat", JNum 60); ("lon", JNum (-20))]]%string in
  (λ r, attributes <$> ag_edges r.1) <$>
    loadSegmentData (λ _, None) (Some geo) (Some rows)
      (scenario_spec {| r_spatial := Some SBuffer; r_value := Some 50; r_type := Some AggSum |}) =
  Ok [Some [("count", 10)]]%string.
Proof. vm_compute. reflexivity. Qed.
