(* ===== verification/Builder.v ===== *)
(** * Builder: the SVG instructions of a segment layer ([d3Helpers.ts], [mapHelpers.ts])

    [buildD3Instructions] turns every aggregated edge into one drawing
    instruction: it folds the edge's bearing into [[0, 180)] (writing
    the folded edge back), offsets it sideways for a left or right
    alignment, projects it to the screen and, by [unit.method] and
    [unit.orientation], builds a straight or wavy line, a perpendicular
    tick, a rectangle, a thick parallel bar, or a matrix of cells whose
    paths are grouped by colour.  The style channels come from
    [Style.v]; the zoom-dependent widths and offsets from [mapHelpers.ts].

    The [Math] functions ([sqrt], [atan2], [sin], [cos], [asin], [PI])
    and Leaflet's map (zoom and projection) are parameters: the
    theorems hold for any of them.  An SVG path string is modelled as
    the list of commands it prints. *)

From S2P Require Import Prelude Geometry Spec Aggregation Style.
Open Scope Q_scope.

(** ** The interfaces the builder calls *)

(** The [Math] functions, on the model's numbers. *)
Class JsMath := {
  js_sqrt : Q → Q;
  js_atan2 : Q → Q → Q;
  js_sin : Q → Q;
  js_cos : Q → Q;
  js_asin : Q → Q;
  js_PI : Q
}.

(** What the zero-distance property of [offsetPoint] needs of them: the
    values of [sin] and [cos] at [0], [asin] inverting [sin] on
    [[-PI/2, PI/2]], [atan2(0, x) = 0] for [x >= 0], [|sin| <= 1], and
    that they are functions of the number (they respect [==]). *)
Class JsMathLaws `{JsMath} := {
  js_PI_pos : 0 < js_PI;
  js_sin_0 : js_sin 0 == 0;
  js_cos_0 : js_cos 0 == 1;
  js_asin_sin x : - (js_PI / 2) <= x <= js_PI / 2 → js_asin (js_sin x) == x;
  js_atan2_0 x : 0 <= x → js_atan2 0 x == 0;
  js_sin_sq x : js_sin x * js_sin x <= 1;
  js_sin_proper :: Proper (Qeq ==> Qeq) js_sin;
  js_cos_proper :: Proper (Qeq ==> Qeq) js_cos;
  js_asin_proper :: Proper (Qeq ==> Qeq) js_asin;
  js_atan2_proper :: Proper (Qeq ==> Qeq ==> Qeq) js_atan2
}.

(** A rational stand-in used by the witnesses: [sin] clamps to
    [[-1, 1]], [cos] is [1], [asin] is the identity, [atan2(y, x)] is
    [y], [PI] is [2].  It meets [JsMathLaws]. *)
#[export] Instance rational_math : JsMath := {
  js_sqrt x := x;
  js_atan2 y _ := y;
  js_sin x := Qmax (-1) (Qmin 1 x);
  js_cos _ := 1;
  js_asin x := x;
  js_PI := 2
}.

(** A screen point [L.Point]. *)
Record point := mkPoint { px : Q; py : Q }.

(** The Leaflet map the layer is drawn on: [getZoom()] and
    [latLngToLayerPoint([lat, lon])]. *)
Record leaflet_map := mkMap {
  getZoom : Q;
  latLngToLayerPoint : Q → Q → point
}.

(** ** [mapHelpers.ts] *)

(** [getAdjustedLineWidth(map, baseWidth)] *)
Definition getAdjustedLineWidth (mapInstance : leaflet_map) (baseWidth : Q) : Q :=
  let zoom := getZoom mapInstance in
  if decide (zoom <= 12) then baseWidth * (1 # 2)
  else if decide (12 < zoom ∧ zoom <= 14) then baseWidth
  else if decide (14 < zoom ∧ zoom <= 16) then baseWidth * (6 # 5)
  else if decide (16 < zoom ∧ zoom <= 17) then baseWidth * (3 # 2)
  else if decide (17 < zoom ∧ zoom <= 18) then baseWidth * 2
  else baseWidth * 3.

(** [getOffsetDistance(map)] *)
Definition getOffsetDistance (mapInstance : leaflet_map) : Q :=
  let zoom := getZoom mapInstance in
  if decide (18 <= zoom) then 6
  else if decide (zoom <= 16) then 15
  else ((18 - zoom) / (18 - 16)) * 15.

(** ** SVG paths *)

(** The commands the builder prints: [M x,y], [L x,y], [Q cx,cy x,y],
    [h dx], [v dy] and [Z]; [PLNaN] is an [L] whose coordinates print as
    [NaN] (arithmetic on a height that is not a number). *)
Inductive pathcmd :=
  | PM (x y : Q)
  | PL (x y : Q)
  | PLNaN
  | PQ (cx cy x y : Q)
  | Ph (dx : Q)
  | Pv (dy : Q)
  | PZ.

Section WithMath.
Context `{JsMath}.

(** [offsetPoint(lat, lon, bearing, distance)] of [geoHelpers.ts]: the
    point [distance] metres away along [bearing] on the sphere of radius
    [6378137]. *)
Definition offsetPoint (lat lon bearing distance : Q) : Q * Q :=
  let R := 6378137 in
  let toRad := js_PI / 180 in
  let toDeg := 180 / js_PI in
  let lat1 := lat * toRad in
  let lon1 := lon * toRad in
  let brng := bearing * toRad in
  let dR := distance / R in
  let lat2 := js_asin (js_sin lat1 * js_cos dR + js_cos lat1 * js_sin dR * js_cos brng) in
  let lon2 := lon1 + js_atan2 (js_sin brng * js_sin dR * js_cos lat1)
                              (js_cos dR - js_sin lat1 * js_sin lat2) in
  (lat2 * toDeg, lon2 * toDeg).

(** [generateSimpleWavyPath(start, end, amplitude, wavelength)] of
    [styleHelpers.ts]: [M start] then one quadratic curve per wave. *)
Definition generateSimpleWavyPath (start end_ : point) (amplitude wavelength : Q) : list pathcmd :=
  let dx := px end_ - px start in
  let dy := py end_ - py start in
  let distance := js_sqrt (dx * dx + dy * dy) in
  let angle := js_atan2 dy dx in
  let numWaves := inject_Z (Qceiling (distance / wavelength)) in
  PM (px start) (py start) ::
  js_for (S (iterations numWaves)) 0 numWaves (λ i,
    let fi := inject_Z (Z.of_nat i) in
    let t := (fi + (1 # 2)) / numWaves in
    let xMid := px start + t * dx in
    let yMid := py start + t * dy in
    let offsetX := amplitude * js_sin ((fi + (1 # 2)) * js_PI) in
    let controlX := xMid + offsetX * js_cos (angle + js_PI / 2) in
    let controlY := yMid + offsetX * js_sin (angle + js_PI / 2) in
    let xNext := px start + ((fi + 1) / numWaves) * dx in
    let yNext := py start + ((fi + 1) / numWaves) * dy in
    PQ controlX controlY xNext yNext).

End WithMath.

(** ** The instructions *)

(** The colour range of every colour channel: d3 reads the first two of
    the five colours [#feb24c, #fd8d3c, ...] (see [srange]). *)
Definition color_range : srange :=
  RangeColor {| red := 254; green := 178; blue := 76 |} {| red := 253; green := 141; blue := 60 |}.

(** The object of a line or rectangle: [null] fields are [None]. *)
Record path_instr := mkPathInstr {
  pi_id : nat;
  pi_d : option (list pathcmd);
  pi_stroke : option sval;
  pi_fill : option sval;
  pi_stroke_width : option sval;
  pi_stroke_opacity : option sval;
  pi_stroke_dasharray : option string;
  pi_stroke_linecap : option string;
  pi_opacity : option sval
}.

(** The object of a matrix: the cell paths by fill colour, in the order
    the colours first appear, and the [translate] / [rotate] transform. *)
Record matrix_instr := mkMatrixInstr {
  mi_id : nat;
  mi_dByColor : assoc css_color (list pathcmd);
  mi_translate : point;
  mi_rotate : Q
}.

Inductive instruction := IPath (p : path_instr) | IMatrix (m : matrix_instr).

(** [unit.columns || 1]: [undefined] and [0] give [1]. *)
Definition or_one (v : option Q) : Q :=
  match v with Some q => if decide (q == 0) then 1 else q | None => 1 end.

(** [unit.squiggle] as a condition: set and not the empty string. *)
Definition truthy_string (v : option string) : bool :=
  match v with Some s => bool_decide (s ≠ ""%string) | None => false end.

(** [offsetAngle]: [-90] for [left], [90] for [right], else [0]. *)
Definition offsetAngle (a : option alignment) : Q :=
  match a with Some ALeft => -90 | Some ARight => 90 | _ => 0 end.

(** One matrix cell: [M x,y h w v h h -w Z]. *)
Definition cell_path (cellWidthAligned cellHeightAligned totalHeight : Q) (r c : nat) : list pathcmd :=
  let x := inject_Z (Z.of_nat c) * cellWidthAligned in
  let y := - totalHeight / 2 + inject_Z (Z.of_nat r) * cellHeightAligned in
  [PM x y; Ph cellWidthAligned; Pv cellHeightAligned; Ph (- cellWidthAligned); PZ].

(** [dByColor[cellColor] = (dByColor[cellColor] || "") + subpath] *)
Definition add_cell (dByColor : assoc css_color (list pathcmd)) (cellColor : css_color)
    (subpath : list pathcmd) : assoc css_color (list pathcmd) :=
  jset cellColor (default [] (jget cellColor dByColor) ++ subpath) dByColor.

Section Build.
Context `{JsMath} (colorBuGn colorOrRd : option Q → option rgb) (map : leaflet_map).

Definition project (c : coord) : point := latLngToLayerPoint map (lat c) (lon c).

Definition offset_coord (c : coord) (b distance : Q) : coord :=
  let '(la, lo) := offsetPoint (lat c) (lon c) b distance in {| lat := la; lon := lo |}.

(** [getAdjustedLineWidth(map, baseWidth)] on whatever the width channel
    gave: between zoom 12 and 14 the value comes back as it is (the
    [return baseWidth] branch does no arithmetic); at the other zooms a
    value that is not a number is multiplied into [NaN]. *)
Definition adjusted_width (baseWidth : sval) : sval :=
  match baseWidth with
  | SNum q => SNum (getAdjustedLineWidth map q)
  | _ => if decide (12 < getZoom map ∧ getZoom map <= 14) then baseWidth else SNaN
  end.

(** The unit normal of the screen segment [p0 p1], flipped for [right]. *)
Definition screen_normal (p0 p1 : point) (a : option alignment) : Q * Q :=
  let dx := px p1 - px p0 in
  let dy := py p1 - py p0 in
  let segmentLength := js_sqrt (dx * dx + dy * dy) in
  let n := (dy / segmentLength, - dx / segmentLength) in
  if decide (a = Some ARight) then (- n.1, - n.2) else n.

(** [L] to [p + n * height] for a height used as a number. *)
Definition extrude (p : point) (n : Q * Q) (height : sval) : pathcmd :=
  match sval_num height with
  | Some h => PL (px p + n.1 * h) (py p + n.2 * h)
  | None => PLNaN
  end.

(** The fields every branch leaves [null]. *)
Definition empty_instr (i : nat) : path_instr :=
  {| pi_id := i; pi_d := None; pi_stroke := None; pi_fill := None; pi_stroke_width := None;
     pi_stroke_opacity := None; pi_stroke_dasharray := None; pi_stroke_linecap := None;
     pi_opacity := None |}.

(** The [height] channel of the perpendicular branches: range [[0, 1]]
    under [sum], [[0, 10]] otherwise, against the thematic statistics. *)
Definition perpendicular_height (unit : unit_spec) (attrs : option (jsobj Q))
    (thematicStats : gmap string stat) (aggregationType : option aggtype) : res sval :=
  if decide (aggregationType = Some AggSum)
  then getDynamicStyleValue (u_height unit) attrs thematicStats (Some (RangeNum 0 1))
  else getDynamicStyleValue (u_height unit) attrs thematicStats (Some (RangeNum 0 10)).

(** The [matrix] branch: [rows || 1] by [columns || 1] cells, named
    the other way round as in the source, each coloured by the blend of
    the [width] and [height] attributes. *)
Definition matrix_branch (unit : unit_spec) (attrs : option (jsobj Q))
    (thematicStats : gmap string stat) (i : nat) (e : edge) : res instruction :=
  let p0 := project (point0 e) in
  let p1 := project (point1 e) in
  let numRows := or_one (u_columns unit) in
  let numColumns := or_one (u_rows unit) in
  let colorVar1Name := u_width unit in
  let colorVar2Name := u_height unit in
  let dx_segment := px p1 - px p0 in
  let dy_segment := py p1 - py p0 in
  let segmentLength := js_sqrt (dx_segment * dx_segment + dy_segment * dy_segment) in
  let angleDeg := js_atan2 dy_segment dx_segment * (180 / js_PI) in
  let totalMatrixPerpendicularHeight := 25 in
  let cellWidthAligned := segmentLength / numColumns in
  let cellHeightAligned := totalMatrixPerpendicularHeight / numRows in
  let cells := concat ((λ r, js_for (S (iterations numColumns)) 0 numColumns (λ c, (r, c))) <$>
                         js_for (S (iterations numRows)) 0 numRows (λ r, r)) in
  dByColor ← res_foldl (λ dByColor (rc : nat * nat),
      value1 ← getDynamicStyleValue colorVar1Name attrs thematicStats (Some (RangeNum 0 5));
      value2 ← getDynamicStyleValue colorVar2Name attrs thematicStats (Some (RangeNum 0 5));
      let cellColor := getBivariateColor colorBuGn colorOrRd (sval_num value1) (sval_num value2) in
      mret (add_cell dByColor cellColor
              (cell_path cellWidthAligned cellHeightAligned totalMatrixPerpendicularHeight rc.1 rc.2)))
    cells [];
  mret (IMatrix {| mi_id := i; mi_dByColor := dByColor; mi_translate := p0; mi_rotate := angleDeg |}).

(** The [line] / [parallel] branch: a wavy path when [unit.squiggle]
    is set, else a straight segment with the dash channel. *)
Definition line_parallel_branch (unit : unit_spec) (attrs : option (jsobj Q)) (edgeStats : gmap string stat)
    (color : res sval) (baseWidth : sval) (i : nat) (p0 p1 : point) : res instruction :=
  if truthy_string (u_squiggle unit) then
    sq ← getSquiggleParams (u_squiggle unit) attrs edgeStats;
    stroke ← color;
    strokeOpacity ← getDynamicStyleValue (u_opacity unit) attrs edgeStats (Some (RangeNum 0 1));
    mret (IPath {| pi_id := i;
                   pi_d := Some (generateSimpleWavyPath p0 p1 (amplitude sq) (frequency sq));
                   pi_stroke := Some stroke; pi_fill := None;
                   pi_stroke_width := Some (adjusted_width baseWidth);
                   pi_stroke_opacity := Some strokeOpacity; pi_stroke_dasharray := None;
                   pi_stroke_linecap := None; pi_opacity := None |})
  else
    stroke ← color;
    strokeOpacity ← getDynamicStyleValue (u_opacity unit) attrs edgeStats (Some (RangeNum 0 1));
    strokeDasharray ← getDashArray (u_dash unit) attrs edgeStats;
    mret (IPath {| pi_id := i; pi_d := Some [PM (px p0) (py p0); PL (px p1) (py p1)];
                   pi_stroke := Some stroke; pi_fill := None;
                   pi_stroke_width := Some (adjusted_width baseWidth);
                   pi_stroke_opacity := Some strokeOpacity;
                   pi_stroke_dasharray := Some strokeDasharray;
                   pi_stroke_linecap := None; pi_opacity := None |}).

(** The [line] / [perpendicular] branch: a tick of length [height] from
    the midpoint of the edge offset by 8, along the screen normal. *)
Definition line_perpendicular_branch (unit : unit_spec) (attrs : option (jsobj Q))
    (thematicStats edgeStats : gmap string stat) (aggregationType : option aggtype)
    (color : res sval) (baseWidth : sval) (i : nat) (oA : Q) (edge : edge) : res instruction :=
  height ← perpendicular_height unit attrs thematicStats aggregationType;
  let q0 := project (offset_coord (point0 edge) (bearing edge + oA) 8) in
  let q1 := project (offset_coord (point1 edge) (bearing edge + oA) 8) in
  let mid := {| px := (px q0 + px q1) / 2; py := (py q0 + py q1) / 2 |} in
  let n := screen_normal q0 q1 (u_alignment unit) in
  stroke ← color;
  strokeOpacity ← getDynamicStyleValue (u_opacity unit) attrs edgeStats (Some (RangeNum 0 1));
  mret (IPath {| pi_id := i; pi_d := Some [PM (px mid) (py mid); extrude mid n height];
                 pi_stroke := Some stroke; pi_fill := None;
                 pi_stroke_width := Some (adjusted_width baseWidth);
                 pi_stroke_opacity := Some strokeOpacity; pi_stroke_dasharray := None;
                 pi_stroke_linecap := None; pi_opacity := None |}).

(** The [rect] / [perpendicular] branch: the edge offset by 10 and its
    copy moved by [height] along the screen normal, as a closed
    quadrilateral filled with the colour. *)
Definition rect_perpendicular_branch (unit : unit_spec) (attrs : option (jsobj Q))
    (thematicStats edgeStats : gmap string stat) (aggregationType : option aggtype)
    (color : res sval) (i : nat) (oA : Q) (edge : edge) : res instruction :=
  height ← perpendicular_height unit attrs thematicStats aggregationType;
  let q0 := project (offset_coord (point0 edge) (bearing edge + oA) 10) in
  let q1 := project (offset_coord (point1 edge) (bearing edge + oA) 10) in
  let n := screen_normal q0 q1 (u_alignment unit) in
  fill ← color;
  opacity ← getDynamicStyleValue (u_opacity unit) attrs edgeStats (Some (RangeNum (1 # 2) 1));
  mret (IPath {| pi_id := i;
                 pi_d := Some [PM (px q0) (py q0); PL (px q1) (py q1);
                               extrude q1 n height; extrude q0 n height; PZ];
                 pi_stroke := None; pi_fill := Some fill; pi_stroke_width := None;
                 pi_stroke_opacity := None; pi_stroke_dasharray := None;
                 pi_stroke_linecap := None; pi_opacity := Some opacity |}).

(** The [rect] / [parallel] branch: the edge offset by 10, stroked with
    the [height] channel as width and a [butt] line cap. *)
Definition rect_parallel_branch (unit : unit_spec) (attrs : option (jsobj Q))
    (thematicStats edgeStats : gmap string stat) (color : res sval) (i : nat) (oA : Q) (edge : edge)
    : res instruction :=
  let q0 := project (offset_coord (point0 edge) (bearing edge + oA) 10) in
  let q1 := project (offset_coord (point1 edge) (bearing edge + oA) 10) in
  stroke ← color;
  strokeWidth ← getDynamicStyleValue (u_height unit) attrs thematicStats (Some (RangeNum 0 20));
  opacity ← getDynamicStyleValue (u_opacity unit) attrs edgeStats (Some (RangeNum 0 1));
  mret (IPath {| pi_id := i; pi_d := Some [PM (px q0) (py q0); PL (px q1) (py q1)];
                 pi_stroke := Some stroke; pi_fill := None; pi_stroke_width := Some strokeWidth;
                 pi_stroke_opacity := None; pi_stroke_dasharray := None;
                 pi_stroke_linecap := Some "butt"%string; pi_opacity := Some opacity |}).

(** The body of [edges.map((edge, i) => ...)]: the edge as folded and
    written back by lines 35-49, and its instruction. *)
Definition buildD3Instruction (unit : unit_spec) (processedEdges : aggregated)
    (thematicStats : gmap string stat) (distance : Q) (aggregationType : option aggtype)
    (i : nat) (edge0 : edge) : res (edge * instruction) :=
  let oA := offsetAngle (u_alignment unit) in
  let edge := fold_line edge0 in
  let sideways := bool_decide (u_alignment unit = Some ALeft ∨ u_alignment unit = Some ARight) in
  let point0' := if sideways then offset_coord (point0 edge) (bearing edge + oA) distance else point0 edge in
  let point1' := if sideways then offset_coord (point1 edge) (bearing edge + oA) distance else point1 edge in
  let p0 := project point0' in
  let p1 := project point1' in
  let attrs := attributes edge in
  let edgeStats := ag_stats processedEdges in
  let m := u_method unit in
  let o := u_orientation unit in
  let color := getDynamicStyleValue (SVStr <$> u_color unit) attrs thematicStats (Some color_range) in
  baseWidth ← getDynamicStyleValue (u_width unit) attrs edgeStats (Some (RangeNum 0 10));
  instr ←
    if decide (m = Some MLine ∧ o = Some OParallel) then
      line_parallel_branch unit attrs edgeStats color baseWidth i p0 p1
    else if decide (m = Some MLine ∧ o = Some OPerpendicular) then
      line_perpendicular_branch unit attrs thematicStats edgeStats aggregationType color baseWidth i oA edge
    else if decide (m = Some MMatrix) then
      matrix_branch unit attrs thematicStats i edge
    else if decide (m = Some MRect ∧ o = Some OPerpendicular) then
      rect_perpendicular_branch unit attrs thematicStats edgeStats aggregationType color i oA edge
    else if decide (m = Some MRect ∧ o = Some OParallel) then
      rect_parallel_branch unit attrs thematicStats edgeStats color i oA edge
    else mret (IPath (empty_instr i));
  mret (edge, instr).

(** [edges.map(...)] from index [i]: the edges as the loop leaves them
    (every edge it reaches is folded in place, the one that throws
    included) and the instructions, or the exception. *)
Fixpoint build_from (unit : unit_spec) (processedEdges : aggregated)
    (thematicStats : gmap string stat) (distance : Q) (aggregationType : option aggtype)
    (i : nat) (edges : list edge) : list edge * res (list instruction) :=
  match edges with
  | [] => ([], Ok [])
  | e :: es =>
      match buildD3Instruction unit processedEdges thematicStats distance aggregationType i e with
      | Ok (e', instr) =>
          let '(es', r) := build_from unit processedEdges thematicStats distance aggregationType (S i) es in
          (e' :: es', (λ l, instr :: l) <$> r)
      | Throw x => (fold_line e :: es, Throw x)
      end
  end.

(** [buildD3Instructions(edges, unit, processedEdges, thematicData,
    distance, aggregationType, map)] *)
Definition buildD3Instructions (edges : list edge) (unit : unit_spec) (processedEdges : aggregated)
    (thematicStats : gmap string stat) (distance : Q) (aggregationType : option aggtype)
    : list edge * res (list instruction) :=
  build_from unit processedEdges thematicStats distance aggregationType 0 edges.

End Build.

(** The cells of an [R] by [C] matrix, row by row. *)
Definition matrix_cells (R C : nat) : list (nat * nat) :=
  concat ((λ r, (λ c, (r, c)) <$> seq 0 C) <$> seq 0 R).

(** ** Witness data *)

Definition witness_map : leaflet_map :=
  {| getZoom := 17; latLngToLayerPoint := λ la lo, {| px := lo; py := la |} |}.

Definition matrix_unit : unit_spec :=
  {| u_type := USegment; u_density := None; u_method := Some MMatrix; u_opacity := None;
     u_color := None; u_squiggle := None; u_dash := None; u_width := Some (SVStr "a");
     u_height := Some (SVStr "b"); u_chart := None; u_rows := Some 2; u_columns := Some 3;
     u_orientation := None; u_alignment := None |}.

Definition matrix_stats : gmap string stat :=
  {[ "a"%string := {| smin := 0; smax := 4 |}; "b"%string := {| smin := 0; smax := 4 |} ]}.

(** * Properties *)

(** ** Properties of [mapHelpers.ts] *)

(** C5: Between zoom 16 and 18 the offset is interpolated from 15 down to
    [0], not to the [6] used from zoom 18 on: above zoom 17.2 it is
    below [6], so zooming in to 18 widens the offset again. *)
Theorem getOffsetDistance_between (m : leaflet_map) :
  16 < getZoom m < 18 →
  getOffsetDistance m == (18 - getZoom m) * (15 # 2) ∧
  (86 # 5 < getZoom m → getOffsetDistance m < 6).
Proof.
  intros Hz. unfold getOffsetDistance. rewrite !decide_False by qlra.
  assert (E : (18 - getZoom m) / (18 - 16) * 15 == (18 - getZoom m) * (15 # 2)) by field.
  rewrite E. split; [reflexivity | intros; qlra].
Qed.

(** The zoom-adjusted width grows with the zoom for a non-negative base
    width. *)
Theorem getAdjustedLineWidth_monotone (m1 m2 : leaflet_map) (b : Q) :
  0 <= b → getZoom m1 <= getZoom m2 →
  getAdjustedLineWidth m1 b <= getAdjustedLineWidth m2 b.
Proof.
  intros Hb Hz. unfold getAdjustedLineWidth. qcases; qlra.
Qed.

(** ** The write-back of the folded edges *)

Section BuildProps.
Context `{JsMath} (colorBuGn colorOrRd : option Q → option rgb) (map : leaflet_map).

Lemma buildD3Instruction_edge unit pe ts distance agg i e e' instr :
  buildD3Instruction colorBuGn colorOrRd map unit pe ts distance agg i e = Ok (e', instr) →
  e' = fold_line e.
Proof.
  unfold buildD3Instruction. intros (bw & _ & (ins & _ & [= <- _])%res_bind_Ok)%res_bind_Ok.
  done.
Qed.

Lemma fold_line_points_stable e :
  point0 (fold_line (fold_line e)) = point0 (fold_line e) ∧
  point1 (fold_line (fold_line e)) = point1 (fold_line e).
Proof.
  pose proof (fold_line_range e) as Hr. generalize dependent (fold_line e). intros f Hr.
  unfold fold_line. rewrite decide_False; [split; reflexivity|]. rewrite norm360_small by qlra. qlra.
Qed.

(** C36: The loop folds in place every edge it reaches, and stops at the
    first edge whose instruction throws: when it completes, every edge
    went through, the caller's edges are all folded and there is one
    instruction per edge; when it throws, the exception is that of the
    first edge [j] that throws, the edges up to and including [j] are
    folded and the rest are untouched. *)
Theorem build_from_writeback unit pe ts distance agg i edges :
  let r := build_from colorBuGn colorOrRd map unit pe ts distance agg i edges in
  let ok j e := ∃ p, buildD3Instruction colorBuGn colorOrRd map unit pe ts distance agg (i + j) e = Ok p in
  ∃ k, r.1 = (fold_line <$> take k edges) ++ drop k edges ∧
    match r.2 with
    | Ok instrs =>
        k = List.length edges ∧ List.length instrs = List.length edges ∧
        ∀ j e, edges !! j = Some e → ok j e
    | Throw x =>
        ∃ j e, k = S j ∧ edges !! j = Some e ∧
          buildD3Instruction colorBuGn colorOrRd map unit pe ts distance agg (i + j) e = Throw x ∧
          ∀ j' e', (j' < j)%nat → edges !! j' = Some e' → ok j' e'
    end.
Proof.
  cbv zeta. revert i. induction edges as [|e es IH]; intros i; simpl.
  - exists 0%nat. split_and!; [done|done|done|by intros ? ? ?].
  - destruct (buildD3Instruction _ _ _ _ _ _ _ _ i e) as [[e' instr]|x] eqn:He.
    + pose proof He as He'. apply buildD3Instruction_edge in He' as ->.
      destruct (IH (S i)) as (k & Hk & Hr).
      destruct (build_from _ _ _ _ _ _ _ _ (S i) es) as [es' [instrs|x]]; simpl in *;
        exists (S k); rewrite Hk; (split; [done|]).
      * destruct Hr as (-> & Hl & Hok). split_and!; [done|by rewrite Hl|].
        intros [|j] e0; simpl; [intros [= <-]; rewrite Nat.add_0_r; by eexists|].
        intros Hj. rewrite <- Nat.add_succ_comm. by apply Hok.
      * destruct Hr as (j & e0 & -> & Hj & Hx & Hbefore). exists (S j), e0.
        rewrite <- Nat.add_succ_comm. split_and!; [done|done|done|].
        intros [|j'] e' Hlt; simpl; [intros [= <-]; rewrite Nat.add_0_r; by eexists|].
        intros Hj'. rewrite <- Nat.add_succ_comm. apply Hbefore; [lia|done].
    + exists 1%nat. split; [done|]. exists 0%nat, e. rewrite Nat.add_0_r.
      split_and!; [done|done|done|lia].
Qed.

(** Whether an edge's instruction throws does not depend on the distance
    the edges are offset by: the distance only moves the two projected
    points, which the branches print and never look up.  A segment
    layer's [redraw] that went through once at some zoom goes through at
    every zoom. *)
Lemma line_parallel_branch_throw unit attrs st color bw i p0 p1 q0 q1 x :
  line_parallel_branch map unit attrs st color bw i p0 p1 = Throw x ↔
  line_parallel_branch map unit attrs st color bw i q0 q1 = Throw x.
Proof.
  unfold line_parallel_branch. res_cases; split; congruence.
Qed.

Lemma buildD3Instruction_throw_distance unit pe ts d1 d2 agg i e x :
  buildD3Instruction colorBuGn colorOrRd map unit pe ts d1 agg i e = Throw x ↔
  buildD3Instruction colorBuGn colorOrRd map unit pe ts d2 agg i e = Throw x.
Proof.
  unfold buildD3Instruction, mbind, res_bind, mret, res_ret. cbn zeta.
  destruct (getDynamicStyleValue (u_width unit) _ _ _); [|done].
  case_decide; [|done].
  match goal with
  | |- context [line_parallel_branch map ?u ?aa ?st ?c ?b ?ii ?p0 ?p1] =>
      destruct (line_parallel_branch map u aa st c b ii p0 p1) as [|y] eqn:E1
  end;
  match goal with
  | |- context [line_parallel_branch map ?u ?aa ?st ?c ?b ?ii ?p0 ?p1] =>
      destruct (line_parallel_branch map u aa st c b ii p0 p1) as [|z] eqn:E2
  end; try (split; congruence);
  match goal with
  | E : line_parallel_branch _ ?u ?aa ?st ?c ?b ?ii ?p0 ?p1 = Throw ?w,
    F : line_parallel_branch _ _ _ _ _ _ _ ?q0 ?q1 = _ |- _ =>
      rewrite (line_parallel_branch_throw u aa st c b ii p0 p1 q0 q1 w) in E; split; congruence
  end.
Qed.

Lemma build_from_throw_distance unit pe ts d1 d2 agg i edges x :
  (build_from colorBuGn colorOrRd map unit pe ts d1 agg i edges).2 = Throw x ↔
  (build_from colorBuGn colorOrRd map unit pe ts d2 agg i edges).2 = Throw x.
Proof.
  revert i. induction edges as [|e es IH]; intros i; simpl; [done|].
  pose proof (buildD3Instruction_throw_distance unit pe ts d1 d2 agg i e) as Hd.
  destruct (buildD3Instruction _ _ _ _ _ _ d1 _ i e) as [[e1 in1]|y] eqn:E1;
    destruct (buildD3Instruction _ _ _ _ _ _ d2 _ i e) as [[e2 in2]|z] eqn:E2; simpl.
  - specialize (IH (S i)).
    destruct (build_from _ _ _ _ _ _ d1 _ (S i) es) as [? [|]],
             (build_from _ _ _ _ _ _ d2 _ (S i) es) as [? [|]]; simpl in *; destruct IH; split; intros; simplify_eq; naive_solver.
  - discriminate (proj2 (Hd z) eq_refl).
  - discriminate (proj1 (Hd y) eq_refl).
  - by injection (proj1 (Hd y) eq_refl) as ->.
Qed.

(** ** The matrix *)

Lemma matrix_cells_js_for R C :
  concat ((λ r, js_for (S (iterations C)) 0 C (λ c, (r, c))) <$>
            js_for (S (iterations R)) 0 R (λ r, r)) =
  matrix_cells (iterations R) (iterations C).
Proof.
  rewrite js_for_enough_fuel, Nat.sub_0_r, list_fmap_id by lia. unfold matrix_cells.
  f_equal. apply list_fmap_ext. intros _ r _. rewrite js_for_enough_fuel by lia.
  by rewrite Nat.sub_0_r.
Qed.

Lemma matrix_cells_nil R C : (R * C = 0)%nat → matrix_cells R C = [].
Proof.
  intros HRC. unfold matrix_cells. destruct R as [|R]; [done|]. destruct C; [|lia].
  generalize (seq 0 (S R)). intros l. induction l; simpl; auto.
Qed.

Lemma matrix_cells_cons R C : (R * C ≠ 0)%nat → ∃ rest, matrix_cells R C = (0, 0)%nat :: rest.
Proof. intros HRC. destruct R, C; try lia. by eexists. Qed.

Lemma add_cell_fold col (g : nat * nat → list pathcmd) xs acc :
  fold_left (λ d rc, add_cell d col (g rc)) xs [(col, acc)] = [(col, acc ++ concat (g <$> xs))].
Proof.
  revert acc. induction xs as [|x xs IH]; intros acc; simpl; [by rewrite app_nil_r|].
  unfold add_cell at 2. simpl. rewrite decide_True by done. simpl.
  rewrite decide_True by done. rewrite IH. by rewrite app_assoc.
Qed.

(** C1: Every cell of a matrix gets the same colour: the two attributes are
    resolved once per edge, not per cell, so [dByColor] holds a single
    colour with all the cells.  The cells form [columns || 1] rows of
    height [25 / (columns || 1)] and [rows || 1] columns: the source
    swaps the two spec fields. *)
Theorem matrix_branch_single_colour unit attrs ts i e mi :
  matrix_branch colorBuGn colorOrRd map unit attrs ts i e = Ok (IMatrix mi) →
  let R := iterations (or_one (u_columns unit)) in
  let C := iterations (or_one (u_rows unit)) in
  ∃ col w, mi_dByColor mi =
    if decide (R * C = 0)%nat then []
    else [(col, concat ((λ rc, cell_path w (25 / or_one (u_columns unit)) 25 rc.1 rc.2) <$>
                          matrix_cells R C))].
Proof.
  intros Hm R C. unfold matrix_branch in Hm. cbv zeta in Hm. rewrite matrix_cells_js_for in Hm.
  apply res_bind_Ok in Hm as (dBy & Hf & [= <-]). cbn [mi_dByColor].
  set (w := js_sqrt _ / or_one (u_rows unit)) in Hf.
  set (cell := λ rc : nat * nat, cell_path w (25 / or_one (u_columns unit)) 25 rc.1 rc.2) in Hf.
  fold R C in Hf. destruct (decide (R * C = 0)%nat) as [HRC|HRC].
  - rewrite matrix_cells_nil in Hf by done. injection Hf as <-. by exists Gray, w.
  - destruct (matrix_cells_cons R C HRC) as [rest Hc]. rewrite Hc in Hf |- *.
    destruct (getDynamicStyleValue (u_width unit) attrs ts (Some (RangeNum 0 5))) as [v1|x] eqn:E1;
      [|rewrite (res_foldl_throw _ _ _ x) in Hf; [done | intros; reflexivity | done]].
    destruct (getDynamicStyleValue (u_height unit) attrs ts (Some (RangeNum 0 5))) as [v2|x] eqn:E2;
      [|rewrite (res_foldl_throw _ _ _ x) in Hf; [done | intros; reflexivity | done]].
    set (col := getBivariateColor colorBuGn colorOrRd (sval_num v1) (sval_num v2)).
    rewrite (res_foldl_ext _ (λ d rc, mret (add_cell d col (cell rc)))) in Hf
      by (intros; reflexivity).
    rewrite res_foldl_mret in Hf. injection Hf as <-. exists col, w. cbn [add_cell jset jget app default].
    rewrite add_cell_fold. reflexivity.
Qed.

End BuildProps.

(** ** [generateSimpleWavyPath] *)

Section WavyProps.
Context `{JsMath}.

(** C30: The wave loop [for (let i = 0; i < numWaves; i++)] terminates
    after exactly [ceil(distance / wavelength)] iterations (none when
    that is not positive): the path is [M start] followed by that many
    quadratic curves, and the last one ends exactly at [end]. *)
Theorem generateSimpleWavyPath_waves start end_ amplitude wavelength :
  let dx := px end_ - px start in
  let dy := py end_ - py start in
  let n := Qceiling (js_sqrt (dx * dx + dy * dy) / wavelength) in
  ∃ qs, generateSimpleWavyPath start end_ amplitude wavelength = PM (px start) (py start) :: qs ∧
    List.length qs = Z.to_nat n ∧
    (qs = [] ∨ ∃ cx cy x y, last qs = Some (PQ cx cy x y) ∧ x == px end_ ∧ y == py end_).
Proof.
  intros dx dy n. unfold generateSimpleWavyPath. fold dx dy. fold n.
  rewrite js_for_enough_fuel by lia. rewrite Nat.sub_0_r.
  unfold iterations. rewrite Qceiling_Z.
  eexists; split; [reflexivity|]. rewrite length_fmap, length_seq. split; [done|].
  destruct (Z.to_nat n) as [|k] eqn:Hk; [by left|right].
  rewrite seq_S, fmap_app. cbn [fmap list_fmap Nat.add]. rewrite last_snoc.
  do 4 eexists. split; [reflexivity|].
  assert (Hn : inject_Z (Z.of_nat k) + 1 == inject_Z n).
  { rewrite <- inject_Z_S, <- Hk, Z2Nat.id; [reflexivity | lia]. }
  assert (Hpos : 0 < inject_Z n) by (rewrite <- Hn; pose proof (Zle_0_nat k) as Hz;
    rewrite Zle_Qle in Hz; change (inject_Z 0) with 0 in Hz; qlra).
  rewrite Hn. unfold dx, dy. split; field; qlra.
Qed.

End WavyProps.

(** ** [offsetPoint] *)

#[export] Instance rational_math_laws : JsMathLaws (H := rational_math).
Proof.
  split; cbn.
  - reflexivity.
  - reflexivity.
  - reflexivity.
  - intros x Hx. rewrite Q.min_r by qlra. rewrite Q.max_r by qlra. reflexivity.
  - intros. reflexivity.
  - intros x. pose proof (Q.le_max_l (-1) (Qmin 1 x)).
    assert (Qmax (-1) (Qmin 1 x) <= 1) by (apply Q.max_lub; [qlra | apply Q.le_min_l]). nra.
  - intros x y Hxy. by rewrite Hxy.
  - intros x y Hxy. reflexivity.
  - intros x y Hxy. exact Hxy.
  - intros x y Hxy x' y' _. exact Hxy.
Qed.

(** Moving a point by [0] metres leaves it where it is, whatever the
    bearing (for a latitude in [[-90, 90]]). *)
Theorem offsetPoint_zero `{JsMathLaws} lat lon bearing :
  -90 <= lat <= 90 →
  (offsetPoint lat lon bearing 0).1 == lat ∧ (offsetPoint lat lon bearing 0).2 == lon.
Proof.
  intros Hlat. pose proof js_PI_pos as Hpi. unfold offsetPoint. cbn [fst snd].
  assert (Hd : 0 / 6378137 == 0) by reflexivity. rewrite Hd, js_sin_0, js_cos_0.
  assert (Hl : - (js_PI / 2) <= lat * (js_PI / 180) <= js_PI / 2).
  { unfold Qdiv; cbn [Qinv Qnum Qden]. split; nra. }
  assert (Ha : js_asin (js_sin (lat * (js_PI / 180)) * 1 +
                        js_cos (lat * (js_PI / 180)) * 0 * js_cos (bearing * (js_PI / 180)))
               == lat * (js_PI / 180)).
  { assert (Hin : js_sin (lat * (js_PI / 180)) * 1 +
                  js_cos (lat * (js_PI / 180)) * 0 * js_cos (bearing * (js_PI / 180))
                  == js_sin (lat * (js_PI / 180))) by ring.
    rewrite Hin. exact (js_asin_sin _ Hl). }
  rewrite Ha. split.
  - field. qlra.
  - assert (Hy : js_sin (bearing * (js_PI / 180)) * 0 * js_cos (lat * (js_PI / 180)) == 0) by ring.
    rewrite Hy, js_atan2_0.
    + field. qlra.
    + pose proof (js_sin_sq (lat * (js_PI / 180))). qlra.
Qed.

(** ** Witnesses *)

(** A 3-by-2 matrix on a 100-unit edge: one colour for all six cells. *)
Lemma matrix_branch_single_colour_witness :
  ∃ mi, matrix_branch (λ _, Some {| red := 0; green := 100; blue := 200 |})
          (λ _, Some {| red := 200; green := 100; blue := 0 |}) witness_map matrix_unit
          (Some [("a", 1); ("b", 2)]%string) matrix_stats 0 scenario_edge = Ok (IMatrix mi) ∧
  ∃ col w, mi_dByColor mi =
    if decide (iterations (or_one (u_columns matrix_unit)) * iterations (or_one (u_rows matrix_unit)) = 0)%nat
    then []
    else [(col, concat ((λ rc, cell_path w (25 / or_one (u_columns matrix_unit)) 25 rc.1 rc.2) <$>
                          matrix_cells (iterations (or_one (u_columns matrix_unit)))
                                       (iterations (or_one (u_rows matrix_unit)))))].
Proof.
  eexists. split; [reflexivity|].
  apply (matrix_branch_single_colour (λ _, Some {| red := 0; green := 100; blue := 200 |})
           (λ _, Some {| red := 200; green := 100; blue := 0 |}) witness_map matrix_unit
           (Some [("a", 1); ("b", 2)]%string) matrix_stats 0 scenario_edge).
  reflexivity.
Defined.

(** Between zoom 17.5 and 18 the offset grows from 3.75 to 6. *)
Lemma getOffsetDistance_dip_witness :
  getOffsetDistance {| getZoom := 35 # 2; latLngToLayerPoint := latLngToLayerPoint witness_map |} < 6.
Proof.
  apply (getOffsetDistance_between {| getZoom := 35 # 2; latLngToLayerPoint := latLngToLayerPoint witness_map |});
    [split; wdecide | wdecide].
Defined.

Lemma getAdjustedLineWidth_monotone_witness :
  getAdjustedLineWidth {| getZoom := 12; latLngToLayerPoint := latLngToLayerPoint witness_map |} 4 <=
  getAdjustedLineWidth witness_map 4.
Proof. apply getAdjustedLineWidth_monotone; wdecide. Defined.

Lemma offsetPoint_zero_witness :
  (offsetPoint (H := rational_math) 45 10 90 0).1 == 45 ∧ (offsetPoint (H := rational_math) 45 10 90 0).2 == 10.
Proof. apply (offsetPoint_zero (H0 := rational_math_laws)). split; wdecide. Defined.
