(* ===== verification/RenderPass.v ===== *)
(** * RenderPass: the render pass and its alignment counters ([MapVisualization.tsx])

    A pass resets the two alignment counters, then runs a synchronous
    [for] loop that starts every layer: a segment layer bumps the
    counter of its alignment and suspends on [await loadSegmentData].
    Only after the loop has finished can a load complete; the layer then
    draws ([redraw]) and binds [redraw] to the map's [moveend zoomend]
    events, a chart layer draws its charts instead.  [redraw] reads the
    counter when it runs.  The pass is a state machine: [start_pass] is
    the synchronous part, [pass_step] the events that may follow in any
    order (a load completing, the map moving).

    The [redraw] of a segment layer can throw, and the first one runs
    inside the [try] of [renderSegmentLayer]: it reads
    [layerSpec.relation.type] without a guard, so a layer without a
    [relation] throws there, and [buildD3Instructions] throws on data
    whose statistics miss an attribute a channel names.  The [catch]
    only logs: the layer is then neither bound nor pushed.  Whether the
    data makes it throw is the parameter [draw_throws]; it does not
    depend on the zoom ([Builder.build_from_throw_distance]), so a
    [redraw] that went through once goes through at every later event. *)

From S2P Require Import Prelude Geometry Spec Style Builder.
Open Scope Q_scope.

(** The [alignmentCounters] ref. *)
Record counters := mkCounters { c_left : nat; c_right : nat }.

(** [if (alignment === 'left') left++; if (alignment === 'right') right++] *)
Definition bump (c : counters) (a : option alignment) : counters :=
  match a with
  | Some ALeft => {| c_left := S (c_left c); c_right := c_right c |}
  | Some ARight => {| c_left := c_left c; c_right := S (c_right c) |}
  | _ => c
  end.

(** [getOffsetDistance(map) * (alignment === "left" ? left : right)] *)
Definition dynamicDistance (zoom : Q) (c : counters) (a : option alignment) : Q :=
  getOffsetDistance {| getZoom := zoom; latLngToLayerPoint := λ _ _, {| px := 0; py := 0 |} |} *
  inject_Z (Z.of_nat (if decide (a = Some ALeft) then c_left c else c_right c)).

(** Whether the first [redraw()] of a segment layer throws:
    [layerSpec.relation.type] with no [relation], or the drawing code on
    the layer's data. *)
Definition segment_throws (draw_throws : layer_spec → bool) (l : layer_spec) : bool :=
  bool_decide (l_relation l = None) || draw_throws l.

(** The state of a pass: the counters, the map's zoom, the layers still
    loading, the layers whose [redraw] is bound, and every [redraw] that
    ran: the layer, the zoom, the distance it offset the edges by. *)
Record pass_state := mkPass {
  ps_counters : counters;
  ps_zoom : Q;
  ps_pending : list nat;
  ps_bound : list nat;
  ps_draws : list (nat * Q * Q)
}.

Section Pass.
Context (parsedSpec : list layer_spec) (draw_throws : layer_spec → bool).

Definition layer_alignment (k : nat) : option alignment :=
  (parsedSpec !! k) ≫= λ l, u_alignment (l_unit l).

(** The synchronous part of [renderSegmentLayer] up to its [await]:
    the counter bump and the pending load. *)
Definition start_layer (s : pass_state) (k : nat) : pass_state :=
  match parsedSpec !! k with
  | Some l =>
      if decide (u_type (l_unit l) = USegment) then
        {| ps_counters := bump (ps_counters s) (u_alignment (l_unit l)); ps_zoom := ps_zoom s;
           ps_pending := ps_pending s ++ [k]; ps_bound := ps_bound s; ps_draws := ps_draws s |}
      else s
  | None => s
  end.

(** The effect's body: the counters reset, then
    [for (let index = 0; index < parsedSpec.length; index++)]. *)
Definition start_pass (zoom : Q) : pass_state :=
  fold_left start_layer (seq 0 (List.length parsedSpec))
    {| ps_counters := {| c_left := 0; c_right := 0 |}; ps_zoom := zoom;
       ps_pending := []; ps_bound := []; ps_draws := [] |}.

(** [redraw()] of layer [k]: it reads the counters now. *)
Definition redraw (s : pass_state) (k : nat) : nat * Q * Q :=
  (k, ps_zoom s, dynamicDistance (ps_zoom s) (ps_counters s) (layer_alignment k)).

Definition has_chart (k : nat) : bool :=
  match parsedSpec !! k with Some l => bool_decide (is_Some (u_chart (l_unit l))) | None => false end.

Definition redraw_throws (k : nat) : bool :=
  match parsedSpec !! k with Some l => segment_throws draw_throws l | None => true end.

(** What may happen once the loop is over, in any order. *)
Inductive pass_step : pass_state → pass_state → Prop :=
  | load_done s k :
      k ∈ ps_pending s → has_chart k = false → redraw_throws k = false →
      pass_step s {| ps_counters := ps_counters s; ps_zoom := ps_zoom s;
                     ps_pending := filter (λ k', k' ≠ k) (ps_pending s);
                     ps_bound := ps_bound s ++ [k]; ps_draws := ps_draws s ++ [redraw s k] |}
  | load_caught s k :
      k ∈ ps_pending s → has_chart k = false → redraw_throws k = true →
      pass_step s {| ps_counters := ps_counters s; ps_zoom := ps_zoom s;
                     ps_pending := filter (λ k', k' ≠ k) (ps_pending s);
                     ps_bound := ps_bound s; ps_draws := ps_draws s |}
  | load_done_chart s k :
      k ∈ ps_pending s → has_chart k = true →
      pass_step s {| ps_counters := ps_counters s; ps_zoom := ps_zoom s;
                     ps_pending := filter (λ k', k' ≠ k) (ps_pending s);
                     ps_bound := ps_bound s; ps_draws := ps_draws s |}
  | map_moved s z :
      let s' := {| ps_counters := ps_counters s; ps_zoom := z; ps_pending := ps_pending s;
                   ps_bound := ps_bound s; ps_draws := ps_draws s |} in
      pass_step s {| ps_counters := ps_counters s; ps_zoom := z; ps_pending := ps_pending s;
                     ps_bound := ps_bound s; ps_draws := ps_draws s ++ (redraw s' <$> ps_bound s) |}.

(** The states a pass started at [zoom] can reach. *)
Inductive reachable (zoom : Q) : pass_state → Prop :=
  | reach_start : reachable zoom (start_pass zoom)
  | reach_step s s' : reachable zoom s → pass_step s s' → reachable zoom s'.

(** The number of segment layers with a given alignment. *)
Definition count_aligned (a : alignment) : nat :=
  List.length (filter (λ l, u_type (l_unit l) = USegment ∧ u_alignment (l_unit l) = Some a) parsedSpec).

End Pass.

(** Two left-aligned parallel line layers, as the witnesses use them. *)
Definition left_layer : layer_spec :=
  {| l_name := None;
     l_unit := {| u_type := USegment; u_density := None; u_method := Some MLine; u_opacity := None;
                  u_color := None; u_squiggle := None; u_dash := None; u_width := None;
                  u_height := None; u_chart := None; u_rows := None; u_columns := None;
                  u_orientation := Some OParallel; u_alignment := Some ALeft |};
     l_physical_path := "streets.geojson"; l_thematic_path := "sensors.csv";
     l_lat_column := "lat"; l_lon_column := "lon";
     l_relation := Some {| r_spatial := Some SBuffer; r_value := Some 50; r_type := Some AggMean |};
     l_zoom := None;
     l_street_color := None; l_street_width := None; l_query_address := None;
     l_query_radius := None |}.

Definition two_left_layers : list layer_spec := [left_layer; left_layer].

(** ** Properties *)

Lemma segment_throws_false draw_throws l :
  segment_throws draw_throws l = false ↔ l_relation l ≠ None ∧ draw_throws l = false.
Proof. unfold segment_throws. rewrite orb_false_iff, bool_decide_eq_false. done. Qed.

Section PassProps.
Context (parsedSpec : list layer_spec).

Lemma start_layers_counters n s :
  (n <= List.length parsedSpec)%nat →
  ps_counters (fold_left (start_layer parsedSpec) (seq 0 n) s) =
  {| c_left := c_left (ps_counters s) +
       List.length (filter (λ l, u_type (l_unit l) = USegment ∧ u_alignment (l_unit l) = Some ALeft)
                      (take n parsedSpec));
     c_right := c_right (ps_counters s) +
       List.length (filter (λ l, u_type (l_unit l) = USegment ∧ u_alignment (l_unit l) = Some ARight)
                      (take n parsedSpec)) |}.
Proof.
  induction n as [|n IH]; intros Hn.
  - destruct s as [[cl cr] ? ? ? ?]; simpl. f_equal; lia.
  - rewrite seq_S, fold_left_app. cbn [fold_left Nat.add].
    destruct (lookup_lt_is_Some_2 parsedSpec n) as [l Hl]; [lia|].
    rewrite (take_S_r _ _ l Hl), !filter_app, !length_app.
    specialize (IH ltac:(lia)). set (X := fold_left _ (seq 0 n) s) in *.
    unfold start_layer. rewrite Hl.
    destruct (decide (u_type (l_unit l) = USegment)) as [Hs|Hs]; cbn [ps_counters]; rewrite IH;
      rewrite !filter_cons, !filter_nil;
      destruct (u_alignment (l_unit l)) as [[]|]; simpl; repeat case_decide; simpl;
      f_equal; try lia; naive_solver.
Qed.
Lemma start_pass_counters zoom :
  ps_counters (start_pass parsedSpec zoom) =
  {| c_left := count_aligned parsedSpec ALeft; c_right := count_aligned parsedSpec ARight |}.
Proof.
  unfold start_pass. rewrite start_layers_counters by lia. simpl.
  by rewrite firstn_all.
Qed.

Lemma start_pass_draws zoom : ps_draws (start_pass parsedSpec zoom) = [] ∧ ps_bound (start_pass parsedSpec zoom) = [].
Proof.
  unfold start_pass. generalize (seq 0 (List.length parsedSpec)).
  assert (∀ l s, ps_draws s = [] → ps_bound s = [] →
            ps_draws (fold_left (start_layer parsedSpec) l s) = [] ∧
            ps_bound (fold_left (start_layer parsedSpec) l s) = []) as Hgen.
  { induction l as [|k l IH]; intros s Hd Hb; [done|]. simpl. apply IH;
      unfold start_layer; repeat case_match; done. }
  intros l. by apply Hgen.
Qed.

Context (draw_throws : layer_spec → bool).

(** Every state a pass reaches keeps the counters the loop left, and
    each [redraw] so far used them at the zoom of its time. *)
Lemma reachable_inv zoom s :
  reachable parsedSpec draw_throws zoom s →
  ps_counters s = ps_counters (start_pass parsedSpec zoom) ∧
  ∀ k z d, (k, z, d) ∈ ps_draws s → d = dynamicDistance z (ps_counters s) (layer_alignment parsedSpec k).
Proof.
  induction 1 as [|s s' _ [Hc Hd] Hstep].
  - split; [done|]. rewrite (proj1 (start_pass_draws zoom)). set_solver.
  - destruct Hstep as [s k _ _ _|s k _ _ _|s k _ _|s z]; cbn [ps_counters ps_draws]; split; try done.
    + intros k' z d [Hin|Hin%list_elem_of_singleton]%elem_of_app; [by apply Hd|].
      unfold redraw in Hin. by simplify_eq.
    + intros k' z' d [Hin|(k'' & Heq & _)%list_elem_of_fmap]%elem_of_app; [by apply Hd|].
      unfold redraw in Heq. simplify_eq. done.
Qed.

(** C4: Every left-aligned layer is offset by the same distance: whenever
    its [redraw] runs, at whatever zoom, it multiplies the zoom's offset
    by the number of left-aligned segment layers of the pass, not by its
    own rank among them.  The counters are all bumped by the synchronous
    loop before any load can complete. *)
Theorem left_layers_share_offset zoom s k z d :
  reachable parsedSpec draw_throws zoom s → (k, z, d) ∈ ps_draws s → layer_alignment parsedSpec k = Some ALeft →
  d = getOffsetDistance {| getZoom := z; latLngToLayerPoint := λ _ _, {| px := 0; py := 0 |} |} *
      inject_Z (Z.of_nat (count_aligned parsedSpec ALeft)).
Proof.
  intros Hr Hin Ha. destruct (reachable_inv zoom s Hr) as [Hc Hd].
  rewrite (Hd k z d Hin), Hc, start_pass_counters, Ha. unfold dynamicDistance.
  by rewrite decide_True.
Qed.

End PassProps.

(** The first of two left-aligned layers, loaded first at zoom 17, is
    drawn at twice the zoom's offset ([2 * 7.5]), not at its rank [1]. *)
Lemma left_layers_share_offset_witness :
  ∃ s d, reachable two_left_layers (λ _, false) 17 s ∧ (0%nat, 17, d) ∈ ps_draws s ∧
         d = getOffsetDistance {| getZoom := 17; latLngToLayerPoint := λ _ _, {| px := 0; py := 0 |} |} *
             inject_Z (Z.of_nat (count_aligned two_left_layers ALeft)) ∧
         count_aligned two_left_layers ALeft = 2%nat.
Proof.
  assert (Hr : reachable two_left_layers (λ _, false) 17
                 {| ps_counters := ps_counters (start_pass two_left_layers 17);
                    ps_zoom := ps_zoom (start_pass two_left_layers 17);
                    ps_pending := filter (λ k', k' ≠ 0%nat) (ps_pending (start_pass two_left_layers 17));
                    ps_bound := ps_bound (start_pass two_left_layers 17) ++ [0%nat];
                    ps_draws := ps_draws (start_pass two_left_layers 17) ++
                                [redraw two_left_layers (start_pass two_left_layers 17) 0] |}).
  { eapply reach_step; [apply reach_start|]. apply (load_done two_left_layers (λ _, false) _ 0%nat); [|reflexivity|reflexivity].
    vm_compute. left. }
  eexists _, _. split; [exact Hr|]. split; [vm_compute; left|]. split; [|reflexivity].
  apply (left_layers_share_offset two_left_layers (λ _, false) 17 _ 0%nat 17 _ Hr); [vm_compute; left|reflexivity].
Defined.

