(* ===== verification/Charts.v ===== *)
(** * Charts: placing the Vega-Lite charts of a chart layer ([vegaliteHelpers.ts])

    A layer with a [unit.chart] template draws no path: [drawVegaLiteEdges]
    folds each edge's bearing the chart way ([fold_chart], written back
    into the edge), computes the chart's data ([{category, value}] per
    attribute), its placement at the screen midpoint and the element id
    [tempID], then awaits [createAndPlaceVegaLiteSVG] and binds the same
    call, with a recomputed placement, to the map's [move zoom] events.
    [drawVegaLiteNodes] does the same at each node.

    [createAndPlaceVegaLiteSVG] appends a hidden [div] to [document.body],
    embeds the chart in it and, when an [svg] came out, either appends a
    new [svg] with the chart to the pane or, when the pane already has an
    element with that id, only moves it.  The DOM is modelled as the
    [div] ids in the body and the pane's charts by id ([dom]); the
    embedding itself is a parameter ([embeds]: whether [vegaEmbed]
    resolves with an [svg] for the data, resolves without one, or
    rejects), as is JavaScript's [Number.prototype.toString]
    ([num_to_string]).  A rejected [vegaEmbed] leaves the hidden [div]
    in the body and the pane as it was; the promise of the call then
    rejects, which the [async] callbacks of the callers do not catch.  The calls of one pass complete in the order the
    embeddings resolve, which is not the order of the edges: the
    theorems hold for every permutation of the calls. *)

From stdpp Require Import pretty.
From Stdlib Require Import Ascii.
From S2P Require Import Prelude Geometry Spec Aggregation Builder.
Open Scope Q_scope.

(** ** Data, placement and ids *)

(** An entry of [dataValues]: [{category, value}]. *)
Record datum := mkDatum { category : string; value : Q }.

(** [Object.entries(aggregatedAttrs || {}).map(([key, value]) => ({category: key, value}))] *)
Definition edge_chart_data (aggregatedAttrs : option (jsobj Q)) : list datum :=
  (λ kv, mkDatum kv.1 kv.2) <$> default [] aggregatedAttrs.

(** [Object.entries(node.attributes).filter(([key]) => key !== 'lat' && key !== 'lon')] *)
Definition node_chart_data (attrs : jsobj Q) : list datum :=
  (λ kv, mkDatum kv.1 kv.2) <$> filter (λ kv, kv.1 ≠ "lat"%string ∧ kv.1 ≠ "lon"%string) attrs.

(** [OrientationAngle]: [90] for a perpendicular unit, else [0]. *)
Definition OrientationAngle (o : option orientation) : Q :=
  if decide (o = Some OPerpendicular) then 90 else 0.

(** [Math.abs(edge.bearing % 180 - 90) < 45] *)
Definition isHorizontal (bearing : Q) : bool := bool_decide (Qabs (jsrem bearing 180 - 90) < 45).

(** [xOffset], [yOffset]: left [undefined] for a [fixed] or missing
    orientation. *)
Definition chart_offsets (o : option orientation) (bearing : Q) : option (Q * Q) :=
  match o with
  | Some OParallel => if isHorizontal bearing then Some (-100, 0) else Some (-180, 20)
  | Some OPerpendicular => Some (-200, 25)
  | _ => None
  end.

(** The [transform] attribute: [translate(x,y) rotate(a,cx,cy)] for an
    edge chart ([NaN] coordinates when an offset is [undefined]),
    [translate(x,y)] for a node chart. *)
Inductive transform :=
  | TranslateRotate (x y angle cx cy : Q)
  | TranslateNaNRotate (angle cx cy : Q)
  | Translate (x y : Q).

(** [translate(midpoint.x - svgChartWidth / 2 + xOffset, ...) rotate(angle, w / 2, h / 2)]
    with [svgChartWidth = 250] and [svgChartHeight = 150]. *)
Definition edge_transform (midpoint : point) (off : option (Q * Q)) (angle : Q) : transform :=
  match off with
  | Some (xOffset, yOffset) =>
      TranslateRotate (px midpoint - 250 / 2 + xOffset) (py midpoint - 150 / 2 + yOffset)
        angle (250 / 2) (150 / 2)
  | None => TranslateNaNRotate angle (250 / 2) (150 / 2)
  end.

(** [s.replace(c, '')] with a one-character pattern: the first
    occurrence only. *)
Fixpoint replace_first (c : ascii) (s : string) : string :=
  match s with
  | EmptyString => EmptyString
  | String c' s' => if decide (c = c') then s' else String c' (replace_first c s')
  end.

(** What one call of [createAndPlaceVegaLiteSVG] is given. *)
Record chart_call := mkCall { cc_id : string; cc_transform : transform; cc_data : list datum }.

(** What an edge's [move zoom] handler keeps: the folded edge, the
    offsets, the angle, the id and the data, all fixed at the first draw. *)
Record edge_handler := mkHandler {
  h_edge : edge;
  h_offsets : option (Q * Q);
  h_angle : Q;
  h_id : string;
  h_data : list datum
}.

(** The DOM the charts touch: the ids of the [div]s appended to
    [document.body], and the pane's chart elements by id, in document
    order, each with its [transform] and the data it was embedded with. *)
Record chart_svg := mkSvg { svg_transform : transform; svg_data : list datum }.
Record dom := mkDom { body : list string; pane : assoc string chart_svg }.

(** What [await vegaEmbed(...)] gives: a view whose element holds an
    [svg], one without, or a rejection. *)
Inductive embed_result := EmbedSvg | EmbedNoSvg | EmbedRejected.

#[export] Instance embed_result_eq_dec : EqDecision embed_result.
Proof. solve_decision. Defined.
#[export] Instance datum_eq_dec : EqDecision datum.
Proof. solve_decision. Defined.
#[export] Instance transform_eq_dec : EqDecision transform.
Proof. solve_decision. Defined.
#[export] Instance chart_call_eq_dec : EqDecision chart_call.
Proof. solve_decision. Defined.
#[export] Instance chart_svg_eq_dec : EqDecision chart_svg.
Proof. solve_decision. Defined.
#[export] Instance edge_handler_eq_dec : EqDecision edge_handler.
Proof. solve_decision. Defined.

Section Charts.
Context (num_to_string : Q → string) (embeds : list datum → embed_result).

(** [tempID = 't' + (key + '').replace('.', '').replace('-', '') + 'svg'] *)
Definition tempID (key : Q) : string :=
  "t" +:+ replace_first "-" (replace_first "." (num_to_string key)) +:+ "svg".

(** The screen midpoint of an edge. *)
Definition chart_midpoint (map : leaflet_map) (e : edge) : point :=
  let p0 := latLngToLayerPoint map (lat (point0 e)) (lon (point0 e)) in
  let p1 := latLngToLayerPoint map (lat (point1 e)) (lon (point1 e)) in
  {| px := (px p0 + px p1) / 2; py := (py p0 + py p1) / 2 |}.

(** The synchronous part of the [forEach] callback of
    [drawVegaLiteEdges] for one edge: the fold written back, then the
    values the two calls of [createAndPlaceVegaLiteSVG] share. *)
Definition edge_chart (map : leaflet_map) (o : option orientation) (edge0 : edge) : edge_handler :=
  let dataValues := edge_chart_data (attributes edge0) in
  let edge := fold_chart edge0 in
  let midpoint := chart_midpoint map edge in
  {| h_edge := edge; h_offsets := chart_offsets o (bearing edge);
     h_angle := bearing edge + 90 + OrientationAngle o;
     h_id := tempID (px midpoint + py midpoint); h_data := dataValues |}.

(** The call a handler makes on a map in a given state: the placement is
    recomputed, the id and the data are not. *)
Definition handler_call (map : leaflet_map) (h : edge_handler) : chart_call :=
  {| cc_id := h_id h; cc_transform := edge_transform (chart_midpoint map (h_edge h)) (h_offsets h) (h_angle h);
     cc_data := h_data h |}.

(** [drawVegaLiteNodes]: the call for one node. *)
Definition node_call (map : leaflet_map) (n : node) : chart_call :=
  let pt := latLngToLayerPoint map (n_lat n) (n_lon n) in
  {| cc_id := tempID (n_lat n + n_lon n); cc_transform := Translate (px pt - 150 / 2) (py pt - 150 / 2);
     cc_data := node_chart_data (n_attributes n) |}.

(** [createAndPlaceVegaLiteSVG]: the hidden [div] stays in the body
    unless the embedding resolved without an [svg]; an id already in the
    pane only gets its [transform] updated; a rejection ends the call
    after the [div] was appended. *)
Definition createAndPlaceVegaLiteSVG (d : dom) (c : chart_call) : dom :=
  match embeds (cc_data c) with
  | EmbedSvg =>
      let existing := (pane d).[cc_id c] in
      {| body := body d ++ ["vg-temp-" +:+ cc_id c];
         pane := match existing with
                 | None => jset (cc_id c) {| svg_transform := cc_transform c; svg_data := cc_data c |} (pane d)
                 | Some s => jset (cc_id c) {| svg_transform := cc_transform c; svg_data := svg_data s |} (pane d)
                 end |}
  | EmbedNoSvg => d
  | EmbedRejected => {| body := body d ++ ["vg-temp-" +:+ cc_id c]; pane := pane d |}
  end.

(** The calls of one batch, in the order their embeddings complete. *)
Definition place_all (d : dom) (calls : list chart_call) : dom :=
  fold_left createAndPlaceVegaLiteSVG calls d.

(** [drawVegaLiteEdges(processedEdges, layerSpec, map)]: the edges as
    folded in place, and the handlers whose first calls the pass makes. *)
Definition drawVegaLiteEdges (map : leaflet_map) (o : option orientation) (edges : list edge)
    : list edge * list edge_handler :=
  let hs := edge_chart map o <$> edges in
  (h_edge <$> hs, hs).

(** One [move zoom] event: every handler of the layer calls
    [createAndPlaceVegaLiteSVG] again, on the moved map, the calls
    completing in [order]. *)
Definition move_zoom (d : dom) (map : leaflet_map) (order : list edge_handler) : dom :=
  place_all d (handler_call map <$> order).

(** What the pane shows under one id after a batch: the first call with
    that id embeds its data, every later one moves it. *)
Definition svg_step (k : string) (s : option chart_svg) (c : chart_call) : option chart_svg :=
  if bool_decide (embeds (cc_data c) = EmbedSvg) && bool_decide (cc_id c = k) then
    Some {| svg_transform := cc_transform c; svg_data := default (cc_data c) (svg_data <$> s) |}
  else s.

(** Every handler whose data embeds has its chart in the pane. *)
Definition charts_present (hs : list edge_handler) (d : dom) : Prop :=
  ∀ h, h ∈ hs → embeds (h_data h) = EmbedSvg → is_Some ((pane d).[h_id h]).

End Charts.

(** A stand-in for [Number.prototype.toString] used by the witnesses:
    integers in decimal, other numbers as a reduced fraction. *)
Definition q_to_string (q : Q) : string :=
  let q := Qred q in
  if decide (Qden q = 1%positive) then pretty (Qnum q) else pretty (Qnum q) +:+ "/" +:+ pretty (Qden q).

(** ** Witness data *)

(** An empty pane and body, as after [d3.selectAll('.vega-lite-svg').remove()]. *)
Definition empty_dom : dom := {| body := []; pane := [] |}.

(** Two streets whose screen midpoints are [(100, 200)] and [(200, 100)]. *)
Definition chart_edge1 : edge :=
  {| point0 := {| lat := 0; lon := 0 |}; point1 := {| lat := 400; lon := 200 |};
     bearing := 30; length := 450; attributes := Some [("pm25"%string, 12)] |}.
Definition chart_edge2 : edge :=
  {| point0 := {| lat := 0; lon := 0 |}; point1 := {| lat := 200; lon := 400 |};
     bearing := 60; length := 450; attributes := Some [("pm25"%string, 35)] |}.

Definition chart_handlers : list edge_handler :=
  (drawVegaLiteEdges q_to_string witness_map (Some OParallel) [chart_edge1; chart_edge2]).2.

(** A third street, midpoint [(100, 100)]: its id differs from the first's. *)
Definition chart_edge3 : edge :=
  {| point0 := {| lat := 0; lon := 0 |}; point1 := {| lat := 200; lon := 200 |};
     bearing := 45; length := 280; attributes := Some [("pm25"%string, 20)] |}.

Definition distinct_calls : list chart_call :=
  handler_call witness_map <$>
    (drawVegaLiteEdges q_to_string witness_map (Some OParallel) [chart_edge1; chart_edge3]).2.

(** The map after a zoom: the projection doubles. *)
Definition zoomed_map : leaflet_map :=
  {| getZoom := 18; latLngToLayerPoint := λ la lo, {| px := 2 * lo; py := 2 * la |} |}.

(** * Properties *)

Section ChartProps.
Context (num_to_string : Q → string) (embeds : list datum → embed_result).

(** The pane under one id is the per-id fold of the batch. *)
Lemma place_all_lookup d cs k :
  (pane (place_all embeds d cs)).[k] = fold_left (svg_step embeds k) cs ((pane d).[k]).
Proof.
  revert d. induction cs as [|c cs IH]; intros d; [done|]. simpl. rewrite IH. f_equal.
  unfold createAndPlaceVegaLiteSVG, svg_step. destruct (embeds (cc_data c)); simpl; try done.
  case_bool_decide as E.
  - subst k. by destruct ((pane d).[cc_id c]); rewrite jget_jset_eq.
  - by destruct ((pane d).[cc_id c]); rewrite jget_jset_ne.
Qed.

(** Every call whose embedding does not resolve without an [svg] leaves
    its [div] in the body. *)
Lemma place_all_body d cs :
  body (place_all embeds d cs) =
  body d ++ ((λ c, "vg-temp-" +:+ cc_id c) <$> filter (λ c, embeds (cc_data c) ≠ EmbedNoSvg) cs).
Proof.
  revert d. induction cs as [|c cs IH]; intros d; simpl; [by rewrite app_nil_r|].
  rewrite IH. unfold createAndPlaceVegaLiteSVG. rewrite filter_cons.
  destruct (embeds (cc_data c)); simpl; rewrite ?decide_True, ?decide_False by done; simpl;
    by rewrite <- ?app_assoc.
Qed.

Lemma svg_fold_miss k cs s :
  Forall (λ c, embeds (cc_data c) = EmbedSvg → cc_id c ≠ k) cs → fold_left (svg_step embeds k) cs s = s.
Proof.
  revert s. induction cs as [|c cs IH]; intros s Hcs; [done|]. inv Hcs. simpl.
  unfold svg_step at 2. destruct (embeds (cc_data c)) eqn:He; simpl; [|by apply IH..].
  rewrite bool_decide_false by auto. by apply IH.
Qed.

(** An id without a chart after a batch had none before, and no
    embedded call of the batch carried it. *)
Lemma svg_fold_none k cs s :
  fold_left (svg_step embeds k) cs s = None →
  s = None ∧ Forall (λ c, embeds (cc_data c) = EmbedSvg → cc_id c ≠ k) cs.
Proof.
  revert s. induction cs as [|c cs IH]; intros s Hf; [done|]. simpl in Hf.
  destruct (IH _ Hf) as [Hs Hcs]. unfold svg_step in Hs.
  destruct (embeds (cc_data c)) eqn:He; simpl in Hs; [case_bool_decide; [done|]|..];
    (split; [done | constructor; [congruence | done]]).
Qed.

(** Once an id has a chart, later calls only move it. *)
Lemma svg_fold_some k cs s0 :
  ∃ s, fold_left (svg_step embeds k) cs (Some s0) = Some s ∧ svg_data s = svg_data s0.
Proof.
  revert s0. induction cs as [|c cs IH]; intros s0; [by eexists|]. simpl.
  unfold svg_step at 2. destruct (_ && _); simpl; [|apply IH].
  destruct (IH {| svg_transform := cc_transform c; svg_data := svg_data s0 |}) as (s & -> & Hs).
  by eexists.
Qed.

(** The first embedded call with an id decides the data of its chart. *)
Lemma svg_fold_first k l1 c l2 :
  Forall (λ c', cc_id c' ≠ k) l1 → cc_id c = k → embeds (cc_data c) = EmbedSvg →
  ∃ s, fold_left (svg_step embeds k) (l1 ++ c :: l2) None = Some s ∧ svg_data s = cc_data c.
Proof.
  intros H1 <- He. rewrite fold_left_app, (svg_fold_miss _ l1) by (eapply Forall_impl; [done | auto]).
  simpl.
  unfold svg_step at 2. rewrite He, !bool_decide_true by done. apply svg_fold_some.
Qed.

(** Whatever the completion order, the chart shown under an id is the
    one embedded by the first call with that id; the later calls only
    move it. *)
Lemma place_all_first d order k :
  (pane d).[k] = None → Forall (λ c, embeds (cc_data c) = EmbedSvg) order →
  (∃ c, c ∈ order ∧ cc_id c = k) →
  ∃ s l1 c l2, (pane (place_all embeds d order)).[k] = Some s ∧ order = l1 ++ c :: l2 ∧
    cc_id c = k ∧ Forall (λ c', cc_id c' ≠ k) l1 ∧ svg_data s = cc_data c.
Proof.
  intros Hk He Hex. destruct (list_first_split (λ c, cc_id c = k) order Hex) as (l1 & c & l2 & Ho & Hc & Hl1).
  rewrite place_all_lookup, Hk, Ho.
  destruct (svg_fold_first k l1 c l2 Hl1 Hc) as (s & -> & Hs).
  { rewrite Forall_forall in He. apply He. rewrite Ho. set_solver. }
  by exists s, l1, c, l2.
Qed.

Lemma place_all_keeps_data hs d map order k :
  order ≡ₚ hs → charts_present embeds hs d →
  svg_data <$> (pane (place_all embeds d (handler_call map <$> order))).[k] = svg_data <$> (pane d).[k].
Proof.
  intros Hp Hpres. rewrite place_all_lookup.
  destruct ((pane d).[k]) as [s0|] eqn:Hk.
  - destruct (svg_fold_some k (handler_call map <$> order) s0) as (s & -> & Hs). simpl. by rewrite Hs.
  - rewrite svg_fold_miss; [done|]. apply Forall_forall. intros c Hc He Hid.
    apply list_elem_of_fmap in Hc as (h & -> & Hh). rewrite Hp in Hh.
    destruct (Hpres h Hh He) as [? Hs]. simpl in Hid. congruence.
Qed.

Lemma place_all_present hs d map order :
  order ≡ₚ hs → charts_present embeds hs (place_all embeds d (handler_call map <$> order)).
Proof.
  intros Hp h Hh He. rewrite place_all_lookup.
  destruct (fold_left _ _ _) eqn:Hf; [done|].
  apply svg_fold_none in Hf as [_ Hcs]. rewrite Forall_forall in Hcs.
  exfalso. apply (Hcs (handler_call map h)); [|done|done].
  apply list_elem_of_fmap_2. by rewrite Hp.
Qed.

(** The pass draws every chart of a layer whose ids are pairwise
    distinct, each with its own data and
    placement, whatever order the embeddings complete in. *)
Theorem charts_distinct_ids_drawn d calls order :
  order ≡ₚ calls → NoDup (cc_id <$> calls) → Forall (λ c, embeds (cc_data c) = EmbedSvg) calls →
  Forall (λ c, (pane d).[cc_id c] = None) calls →
  Forall (λ c, (pane (place_all embeds d order)).[cc_id c] =
               Some {| svg_transform := cc_transform c; svg_data := cc_data c |}) calls.
Proof.
  intros Hp Hnd He Hfree. apply Forall_forall. intros c Hc.
  rewrite Forall_forall in He, Hfree. rewrite place_all_lookup, Hfree by done.
  assert (Hco : c ∈ order) by by rewrite Hp.
  apply list_elem_of_split in Hco as (l1 & l2 & Ho).
  assert (Hnd' : NoDup (cc_id <$> order)) by by rewrite Hp.
  rewrite Ho in Hnd'. destruct (NoDup_fmap_split cc_id l1 c l2 Hnd') as [H1 H2].
  rewrite Ho, fold_left_app, (svg_fold_miss _ l1) by (eapply Forall_impl; [done | auto]). simpl.
  unfold svg_step at 2. rewrite (He c Hc), !bool_decide_true by done. simpl.
  rewrite svg_fold_miss; [done|]. eapply Forall_impl; [done | auto].
Qed.

(** C34: On every [move zoom] event each handler embeds its chart again and
    leaves another hidden [div] in [document.body]: after the pass and
    [n] events the body has grown by [(n + 1)] [div]s per edge. *)
Theorem charts_body_leak d0 map0 hs order0 (moves : list (leaflet_map * list edge_handler)) :
  order0 ≡ₚ hs → Forall (λ mv, mv.2 ≡ₚ hs) moves → Forall (λ h, embeds (h_data h) = EmbedSvg) hs →
  let d1 := place_all embeds d0 (handler_call map0 <$> order0) in
  let dn := fold_left (λ d mv, move_zoom embeds d mv.1 mv.2) moves d1 in
  List.length (body dn) = (List.length (body d0) + S (List.length moves) * List.length hs)%nat.
Proof.
  intros Hp Hmv He d1 dn.
  assert (Hb : ∀ d map order, order ≡ₚ hs →
            List.length (body (place_all embeds d (handler_call map <$> order))) =
            (List.length (body d) + List.length hs)%nat).
  { intros d map order Ho. rewrite place_all_body, length_app, length_fmap.
    rewrite filter_Forall_id; [by rewrite length_fmap, Ho|].
    rewrite Forall_forall in He. apply Forall_forall.
    intros c [h [-> Hh]]%list_elem_of_fmap. simpl. rewrite He; [done|]. by rewrite <- Ho. }
  assert (Hm : ∀ d, List.length (body (fold_left (λ d mv, move_zoom embeds d mv.1 mv.2) moves d)) =
                  (List.length (body d) + List.length moves * List.length hs)%nat).
  { clear Hp. induction Hmv as [|mv moves Hmv _ IH]; intros d; simpl; [lia|].
    rewrite IH. unfold move_zoom. rewrite Hb by done. lia. }
  subst dn d1. rewrite Hm, Hb by done. simpl. lia.
Qed.

(** The [move zoom] events only move the charts of a pass: after any
    sequence of events, the pane shows under every id the data it showed
    after the pass. *)
Theorem charts_moves_keep_data d0 map0 hs order0 (moves : list (leaflet_map * list edge_handler)) :
  order0 ≡ₚ hs → Forall (λ mv, mv.2 ≡ₚ hs) moves →
  let d1 := place_all embeds d0 (handler_call map0 <$> order0) in
  let dn := fold_left (λ d mv, move_zoom embeds d mv.1 mv.2) moves d1 in
  ∀ k, svg_data <$> (pane dn).[k] = svg_data <$> (pane d1).[k].
Proof.
  intros Hp Hmv d1 dn k. subst dn.
  assert (Hpres : charts_present embeds hs d1) by (by apply place_all_present).
  clearbody d1. revert d1 Hpres. induction Hmv as [|mv moves Hmv _ IH]; intros d1 Hpres; [done|].
  simpl. unfold move_zoom at 2. rewrite IH by (by eapply place_all_present).
  by eapply place_all_keeps_data.
Qed.

(** C33: Two edges of a chart layer whose screen midpoints have the same
    coordinate sum [x + y] get the same element id, so the pane holds
    one chart for both: whatever the completion order, it shows the
    data of the first call with that id to complete, and the other
    edge's chart is never drawn. *)
Theorem charts_collision d map o edges order e1 e2 :
  let hs := (drawVegaLiteEdges num_to_string map o edges).2 in
  let k := h_id (edge_chart num_to_string map o e1) in
  order ≡ₚ handler_call map <$> hs → Forall (λ c, embeds (cc_data c) = EmbedSvg) order →
  e1 ∈ edges → e2 ∈ edges →
  px (chart_midpoint map (fold_chart e1)) + py (chart_midpoint map (fold_chart e1)) =
  px (chart_midpoint map (fold_chart e2)) + py (chart_midpoint map (fold_chart e2)) →
  (pane d).[k] = None →
  h_id (edge_chart num_to_string map o e2) = k ∧
  ∃ s l1 c l2, (pane (place_all embeds d order)).[k] = Some s ∧ order = l1 ++ c :: l2 ∧
    cc_id c = k ∧ Forall (λ c', cc_id c' ≠ k) l1 ∧ svg_data s = cc_data c.
Proof.
  intros hs k Hp He H1 H2 Hsum Hk.
  assert (Hid : h_id (edge_chart num_to_string map o e2) = k) by (subst k; unfold edge_chart; cbv zeta; cbn [h_id]; by rewrite Hsum).
  split; [done|]. apply place_all_first; [done | done |].
  exists (handler_call map (edge_chart num_to_string map o e1)). split; [|done].
  rewrite Hp. apply list_elem_of_fmap_2. subst hs. simpl. by apply list_elem_of_fmap_2.
Qed.

End ChartProps.

(** ** Witnesses *)

(** The two charts land in one element, which shows the first edge's data. *)
Example charts_collision_example :
  let d := place_all (λ _, EmbedSvg) empty_dom (handler_call witness_map <$> chart_handlers) in
  List.length (pane d) = 1%nat ∧ (svg_data ∘ snd) <$> pane d = [[mkDatum "pm25" 12]].
Proof. vm_compute. split; reflexivity. Qed.

(** Two streets with distinct ids, their embeddings completing in the
    reverse order: both charts are drawn. *)
Lemma charts_distinct_ids_drawn_witness :
  Forall (λ c, (pane (place_all (λ _, EmbedSvg) empty_dom (reverse distinct_calls))).[cc_id c] =
               Some {| svg_transform := cc_transform c; svg_data := cc_data c |}) distinct_calls.
Proof. apply (charts_distinct_ids_drawn (λ _, EmbedSvg)); wdecide. Defined.

(** The colliding streets of [charts_collision_example]. *)
Lemma charts_collision_witness :
  let hs := (drawVegaLiteEdges q_to_string witness_map (Some OParallel) [chart_edge1; chart_edge2]).2 in
  let k := h_id (edge_chart q_to_string witness_map (Some OParallel) chart_edge1) in
  h_id (edge_chart q_to_string witness_map (Some OParallel) chart_edge2) = k ∧
  ∃ s l1 c l2, (pane (place_all (λ _, EmbedSvg) empty_dom (handler_call witness_map <$> hs))).[k] = Some s ∧
    handler_call witness_map <$> hs = l1 ++ c :: l2 ∧
    cc_id c = k ∧ Forall (λ c', cc_id c' ≠ k) l1 ∧ svg_data s = cc_data c.
Proof.
  apply (charts_collision q_to_string (λ _, EmbedSvg) empty_dom witness_map (Some OParallel)
           [chart_edge1; chart_edge2] _ chart_edge1 chart_edge2);
    [reflexivity | wdecide | constructor | do 2 constructor | reflexivity | reflexivity].
Defined.

(** A pass and one zoom over the two colliding streets: four hidden [div]s. *)
Lemma charts_body_leak_witness :
  List.length (body (fold_left (λ d mv, move_zoom (λ _, EmbedSvg) d mv.1 mv.2)
                       [(zoomed_map, reverse chart_handlers)]
                       (place_all (λ _, EmbedSvg) empty_dom (handler_call witness_map <$> chart_handlers)))) =
  (List.length (body empty_dom) + S (List.length [(zoomed_map, reverse chart_handlers)]) *
     List.length chart_handlers)%nat.
Proof. apply (charts_body_leak (λ _, EmbedSvg)); wdecide. Defined.

(** After the zoom the shared chart still shows the first street's data. *)
Lemma charts_moves_keep_data_witness :
  svg_data <$> (pane (fold_left (λ d mv, move_zoom (λ _, EmbedSvg) d mv.1 mv.2)
                        [(zoomed_map, reverse chart_handlers)]
                        (place_all (λ _, EmbedSvg) empty_dom (handler_call witness_map <$> chart_handlers)))).[
                  h_id (edge_chart q_to_string witness_map (Some OParallel) chart_edge1)] =
  svg_data <$> (pane (place_all (λ _, EmbedSvg) empty_dom (handler_call witness_map <$> chart_handlers))).[
                  h_id (edge_chart q_to_string witness_map (Some OParallel) chart_edge1)].
Proof. apply (charts_moves_keep_data (λ _, EmbedSvg) _ _ chart_handlers); wdecide. Defined.

(** Two embeddings that reject: two hidden [div]s stay in the body and no
    chart reaches the pane. *)
Example charts_rejected_embeddings :
  let d := place_all (λ _, EmbedRejected) empty_dom (handler_call witness_map <$> chart_handlers) in
  List.length (body d) = 2%nat ∧ pane d = [].
Proof. vm_compute. split; reflexivity. Qed.
