(* ===== verification/Dom.v ===== *)
(** * Dom: the SVG drawing of a layer ([d3Helpers.ts]: [drawSegments], [drawD3Nodes])

    A layer draws into one [<g>] element.  [drawSegments] joins the
    builder's instructions to the group's [path] elements (or, for a
    matrix, to its [g.matrix-edge] groups, each holding one [path] per
    colour band) by the key [d.id]; [drawD3Nodes] joins the projected
    nodes to the group's [circle.nodeShape] elements by [d.id ?? i].

    The group's children are a list of elements with an identity
    ([e_id], fresh from a counter the drawing threads), a bound datum
    ([__data__]), attributes and inline styles.  d3's keyed join
    ([bindKey] of [selection.data]) and index join ([bindIndex]) are
    written out as d3-selection computes them: the first node of each key
    is matched, the first datum of each key claims it, the rest of the
    data enter and the rest of the nodes exit; an entering element is
    inserted before the next matched node in data order.  A setter
    ([selection.attr], [selection.style]) runs over the selection in
    data order, removes the attribute on [null] or [undefined], and stops
    at the first callback that throws, leaving the nodes before it set. *)

From stdpp Require Import pretty.
From S2P Require Import Prelude Geometry Spec Aggregation Style Builder.
Open Scope Q_scope.

(** ** Elements *)

(** What d3 binds to an element: an instruction, a colour band of a
    matrix cell group ([Object.entries(d.dByColor)]), a projected node
    ([{...node, projected}]) with its index. *)
Inductive bound_datum :=
  | DNull
  | DInstr (i : instruction)
  | DBand (c : css_color) (d : list pathcmd)
  | DNode (n : node) (projected : point).

(** An attribute or inline-style value. *)
Inductive attr :=
  | AStr (s : string)
  | ANum (q : Q)
  | AVal (v : sval)
  | APath (d : list pathcmd)
  | AColor (c : css_color)
  | ATransform (translate : point) (rotate : Q).

Inductive elem := El {
  e_id : nat;
  e_tag : string;
  e_class : option string;
  e_datum : bound_datum;
  e_attrs : assoc string attr;
  e_styles : assoc string attr;
  e_children : list elem
}.

(** [document.createElement]: a fresh element, bound to its datum. *)
Definition new_elem (id : nat) (tag : string) (d : bound_datum) : elem :=
  El id tag None d [] [] [].

(** [delete o[k]] *)
Definition jdel {A} (k : string) (o : list (string * A)) : list (string * A) :=
  filter (λ p, p.1 ≠ k) o.

(** [setAttribute] on a value, [removeAttribute] on [null] or
    [undefined]. *)
Definition set_prop (k : string) (v : option attr) (o : assoc string attr) : assoc string attr :=
  match v with
  | Some (AVal SUndef) | None => jdel k o
  | Some a => jset k a o
  end.

Definition set_attr (k : string) (v : option attr) (e : elem) : elem :=
  El (e_id e) (e_tag e) (e_class e) (e_datum e) (set_prop k v (e_attrs e)) (e_styles e) (e_children e).

Definition set_style (k : string) (v : option attr) (e : elem) : elem :=
  El (e_id e) (e_tag e) (e_class e) (e_datum e) (e_attrs e) (set_prop k v (e_styles e)) (e_children e).

Definition set_datum (d : bound_datum) (e : elem) : elem :=
  El (e_id e) (e_tag e) (e_class e) d (e_attrs e) (e_styles e) (e_children e).

Definition set_children (ch : list elem) (e : elem) : elem :=
  El (e_id e) (e_tag e) (e_class e) (e_datum e) (e_attrs e) (e_styles e) ch.

(** Apply [f] to the child with identity [id] (identities are unique:
    d3 holds the node itself). *)
Fixpoint modify_res (id : nat) (f : elem → res elem) (ch : list elem) : res (list elem) :=
  match ch with
  | [] => Ok []
  | c :: ch' =>
      c' ← (if decide (e_id c = id) then f c else Ok c);
      ch'' ← modify_res id f ch';
      mret (c' :: ch'')
  end.

(** The same with a callback that cannot throw. *)
Definition modify_elem (id : nat) (f : elem → elem) (ch : list elem) : list elem :=
  (λ c, if decide (e_id c = id) then f c else c) <$> ch.

(** [parent.insertBefore(x, next)], or [appendChild] when [next] is
    [null]. *)
Fixpoint insert_before (anchor : nat) (x : elem) (ch : list elem) : list elem :=
  match ch with
  | [] => [x]
  | c :: ch' => if decide (e_id c = anchor) then x :: c :: ch' else c :: insert_before anchor x ch'
  end.

Definition insert_at (next : option nat) (x : elem) (ch : list elem) : list elem :=
  match next with Some a => insert_before a x ch | None => ch ++ [x] end.

(** ** The data join ([selection.data]) *)

Section Join.
Context (key : bound_datum → nat → string).

(** The first pass of [bindKey]: [nodeByKeyValue], the first node of
    each key value; a later node with the same key exits. *)
Fixpoint first_by_key (i : nat) (seen : assoc string elem) (group : list elem) : assoc string elem :=
  match group with
  | [] => seen
  | n :: g =>
      let k := key (e_datum n) i in
      match jget k seen with
      | Some _ => first_by_key (S i) seen g
      | None => first_by_key (S i) (seen ++ [(k, n)]) g
      end
  end.

(** The second pass: the datum [i] takes the node of its key, which is
    then deleted; a datum whose key has no node left enters ([None]). *)
Fixpoint bind_data (i : nat) (nodeByKeyValue : assoc string elem) (data : list bound_datum) : list (option elem) :=
  match data with
  | [] => []
  | d :: ds =>
      let k := key d i in
      match jget k nodeByKeyValue with
      | Some n => Some n :: bind_data (S i) (jdel k nodeByKeyValue) ds
      | None => None :: bind_data (S i) nodeByKeyValue ds
      end
  end.

(** [update]: for every datum the node it is bound to, or [None] for an
    entering datum. *)
Definition bindKey (group : list elem) (data : list bound_datum) : list (option elem) :=
  bind_data 0 (first_by_key 0 [] group) data.

End Join.

(** [bindIndex]: the node at the datum's index, if any. *)
Definition bindIndex (group : list elem) (data : list bound_datum) : list (option elem) :=
  imap (λ i _, group !! i) data.

(** [exit]: the nodes of the selection that no datum took. *)
Definition exit_nodes (group : list elem) (update : list (option elem)) : list elem :=
  filter (λ n, e_id n ∉ e_id <$> omap id update) group.

(** [EnterNode._next]: the next node of [update] after an entering datum. *)
Fixpoint next_update (update : list (option elem)) : option nat :=
  match update with
  | [] => None
  | Some n :: _ => Some (e_id n)
  | None :: u => next_update u
  end.

(** [enter.append(tag)] after the join: the matched nodes take their new
    datum; each entering datum gets a fresh element, inserted before the
    next matched node.  Returns the children, the next fresh identity and
    the merged selection [enter.merge(update)] in data order. *)
Fixpoint enter_append (tag : string) (cls : option string) (fresh : nat) (ch : list elem)
    (data : list bound_datum) (update : list (option elem)) : list elem * nat * list (nat * bound_datum) :=
  match data, update with
  | d :: ds, Some n :: us =>
      let ch1 := modify_elem (e_id n) (set_datum d) ch in
      let '(ch2, fresh2, sel) := enter_append tag cls fresh ch1 ds us in
      (ch2, fresh2, (e_id n, d) :: sel)
  | d :: ds, None :: us =>
      let x := El fresh tag cls d [] [] [] in
      let '(ch2, fresh2, sel) := enter_append tag cls (S fresh) (insert_at (next_update us) x ch) ds us in
      (ch2, fresh2, (fresh, d) :: sel)
  | _, _ => (ch, fresh, [])
  end.

(** ** Setters *)

(** The callback of one [.attr(name, d => ...)] or [.style(...)], on the
    datum and the element. *)
Definition setter := bound_datum → elem → res elem.

(** [selection.attr(name, f)]: [f] on every node in order; a throw
    leaves the nodes before it set. *)
Fixpoint run_setter (s : setter) (sel : list (nat * bound_datum)) (ch : list elem) : list elem * option exn :=
  match sel with
  | [] => (ch, None)
  | (id, d) :: sel' =>
      match modify_res id (s d) ch with
      | Ok ch' => run_setter s sel' ch'
      | Throw e => (ch, Some e)
      end
  end.

(** A chain of setters on one selection: the first throw ends it. *)
Fixpoint run_chain (ss : list setter) (sel : list (nat * bound_datum)) (ch : list elem) : list elem * option exn :=
  match ss with
  | [] => (ch, None)
  | s :: ss' =>
      match run_setter s sel ch with
      | (ch', None) => run_chain ss' sel ch'
      | r => r
      end
  end.

(** A callback that cannot throw. *)
Definition pure (f : bound_datum → elem → elem) : setter := λ d e, Ok (f d e).

(** The updates [.attr(k, f)] and [.style(k, f)] make to one element. *)
Definition attr_fn (k : string) (f : bound_datum → option attr) : bound_datum → elem → elem := λ d, set_attr k (f d).
Definition style_fn (k : string) (f : bound_datum → option attr) : bound_datum → elem → elem := λ d, set_style k (f d).

Definition attr_of (k : string) (f : bound_datum → option attr) : setter := pure (attr_fn k f).

(** [selection.remove()] on the exit nodes. *)
Definition remove_nodes (ex : list elem) (ch : list elem) : list elem :=
  filter (λ c, e_id c ∉ e_id <$> ex) ch.

Definition find_elem (id : nat) (ch : list elem) : option elem :=
  head (filter (λ c, e_id c = id) ch).

(** The nodes [enter] created: those numbered from [fresh] on. *)
Definition entered (fresh : nat) (sel : list (nat * bound_datum)) : list (nat * bound_datum) :=
  filter (λ p, fresh ≤ p.1)%nat sel.

(** ** [drawSegments(method, svgGroup, instructions)] *)

(** [`edge-${i}`], the [id] the builder gives the instruction of edge [i]. *)
Definition edge_key (i : nat) : string := "edge-" +:+ pretty i.

(** The key [d => d.id], read off the bound datum. *)
Definition instr_key (d : bound_datum) (_ : nat) : string :=
  match d with
  | DInstr (IPath p) => edge_key (pi_id p)
  | DInstr (IMatrix m) => edge_key (mi_id m)
  | _ => "undefined"
  end.

Definition is_path (e : elem) : bool := bool_decide (e_tag e = "path").

Definition is_matrix_edge (e : elem) : bool :=
  bool_decide (e_tag e = "g" ∧ e_class e = Some "matrix-edge").

(** A field of a line or rectangle instruction: [d.d], [d.fill], ...;
    a matrix instruction has none ([undefined]). *)
Definition path_field (f : path_instr → option attr) (d : bound_datum) : option attr :=
  match d with DInstr (IPath p) => f p | _ => None end.

(** [.attr('d', d => d.d).style('fill', d => d.fill)
    .style('fill-opacity', d => d["fill-opacity"]).style('opacity', ...)
    .style('stroke', ...).style('stroke-width', ...)
    .style('stroke-opacity', ...).style('stroke-dasharray', ...)]: no
    instruction has a [fill-opacity], so that style is removed. *)
Definition path_fns : list (bound_datum → elem → elem) :=
  [attr_fn "d" (path_field (λ p, APath <$> pi_d p));
   style_fn "fill" (path_field (λ p, AVal <$> pi_fill p));
   style_fn "fill-opacity" (λ _, None);
   style_fn "opacity" (path_field (λ p, AVal <$> pi_opacity p));
   style_fn "stroke" (path_field (λ p, AVal <$> pi_stroke p));
   style_fn "stroke-width" (path_field (λ p, AVal <$> pi_stroke_width p));
   style_fn "stroke-opacity" (path_field (λ p, AVal <$> pi_stroke_opacity p));
   style_fn "stroke-dasharray" (path_field (λ p, AStr <$> pi_stroke_dasharray p))].

(** [d => d.transform] *)
Definition instr_transform (d : bound_datum) : option attr :=
  match d with DInstr (IMatrix m) => Some (ATransform (mi_translate m) (mi_rotate m)) | _ => None end.

(** [.attr('d', ([, dStr]) => dStr).attr('fill', ([color]) => color)
    .attr('stroke-width', 0)] on the band paths. *)
Definition band_fns : list (bound_datum → elem → elem) :=
  [attr_fn "d" (λ d, match d with DBand _ p => Some (APath p) | _ => None end);
   attr_fn "fill" (λ d, match d with DBand c _ => Some (AColor c) | _ => None end);
   attr_fn "stroke-width" (λ _, Some (ANum 0))].

(** The body of [.each(function(d) {...})] on one cell group:
    [g.selectAll('path').data(bands)] joined by index, the entering
    bands appended, every band path set, the extra paths removed. *)
Definition draw_bands (fresh : nat) (g : elem) (bands : assoc css_color (list pathcmd)) : elem * nat :=
  let data := (λ b, DBand b.1 b.2) <$> bands in
  let group := filter is_path (e_children g) in
  let update := bindIndex group data in
  let '(ch1, fresh1, sel) := enter_append "path" None fresh (e_children g) data update in
  let ch2 := (run_chain (pure <$> band_fns) sel ch1).1 in
  (set_children (remove_nodes (exit_nodes group update) ch2) g, fresh1).

(** [.each(...)] over the merged cell groups in data order: [if (d)]
    holds for every instruction; [Object.entries(d.dByColor)] throws on
    an instruction that has no [dByColor]. *)
Fixpoint each_matrix (sel : list (nat * bound_datum)) (fresh : nat) (ch : list elem) : list elem * nat * option exn :=
  match sel with
  | [] => (ch, fresh, None)
  | (id, DNull) :: sel' => each_matrix sel' fresh ch
  | (id, DInstr (IMatrix m)) :: sel' =>
      match find_elem id ch with
      | Some g =>
          let '(g', fresh') := draw_bands fresh g (mi_dByColor m) in
          each_matrix sel' fresh' (modify_elem id (λ _, g') ch)
      | None => each_matrix sel' fresh ch
      end
  | _ :: _ => (ch, fresh, Some (TypeError "Cannot convert undefined or null to object"))
  end.

(** [drawSegments(method, svgGroup, instructions)] on the children of
    [svgGroup]: the new children, the next fresh identity, and the
    exception if one escaped.  The enter selection's own
    [.attr('transform', ...)] is the merged one's, which overwrites it
    with the same value. *)
Definition drawSegments (method : option method) (fresh : nat) (ch : list elem)
    (instructions : list instruction) : list elem * nat * option exn :=
  let data := DInstr <$> instructions in
  if decide (method = Some MMatrix) then
    let group := filter is_matrix_edge ch in
    let update := bindKey instr_key group data in
    let '(ch1, fresh1, sel) := enter_append "g" (Some "matrix-edge") fresh ch data update in
    let ch2 := remove_nodes (exit_nodes group update) ch1 in
    let ch3 := (run_chain [attr_of "transform" instr_transform] sel ch2).1 in
    each_matrix sel fresh1 ch3
  else
    let group := filter is_path ch in
    let update := bindKey instr_key group data in
    let '(ch1, fresh1, sel) := enter_append "path" None fresh ch data update in
    let ch2 := (run_setter (attr_of "fill" (λ _, Some (AStr "none"))) (entered fresh sel) ch1).1 in
    let '(ch3, e) := run_chain (pure <$> path_fns) sel ch2 in
    (ch3, fresh1, e).

(** The [redraw()]s of a segment layer without chart
    ([MapVisualization.tsx]): the first one, then one on every [moveend]
    and [zoomend], each drawing into the same group the instructions the
    builder gives at that moment; a throw ends the handler. *)
Fixpoint redraws (method : option method) (fresh : nat) (ch : list elem)
    (rounds : list (list instruction)) : list elem * nat * option exn :=
  match rounds with
  | [] => (ch, fresh, None)
  | instructions :: rounds' =>
      match drawSegments method fresh ch instructions with
      | (ch', fresh', None) => redraws method fresh' ch' rounds'
      | r => r
      end
  end.

(** ** [drawD3Nodes(nodesList, svgGroup, unit, attributeStats, map)] *)

(** [d3.schemeBuGn[9]] as a range: d3's linear scale reads its first two
    colours, [#f7fcfd] and [#e5f5f9]. *)
Definition schemeBuGn9 : srange :=
  RangeColor {| red := 247; green := 252; blue := 253 |} {| red := 229; green := 245; blue := 249 |}.

(** [value / 2] on a style value: a number halves, anything else is
    [NaN]. *)
Definition sval_half (v : sval) : sval :=
  match v with SNum q => SNum (q / 2) | _ => SNaN end.

(** The key [(d, i) => d.id ?? i]: a node of [processEdgesToNodes] has
    no [id], so the key is the index. *)
Definition circle_key (_ : bound_datum) (i : nat) : string := pretty i.

Definition is_node_shape (e : elem) : bool :=
  bool_decide (e_tag e = "circle" ∧ e_class e = Some "nodeShape").

(** A setter whose callback reads [d.projected] and may throw. *)
Definition node_attr (k : string) (f : node → point → res (option attr)) : setter := λ d e,
  match d with
  | DNode n p => v ← f n p; mret (set_attr k v e)
  | _ => Throw (TypeError "Cannot read properties of undefined (reading 'x')")
  end.

(** [.attr('cx', ...).attr('cy', ...).attr('r', ...).attr('fill', ...)
    .attr('fill-opacity', ...).attr('stroke', '#333')
    .attr('stroke-width', 0.5)] *)
Definition node_setters (unit : unit_spec) (attributeStats : gmap string stat) : list setter :=
  [node_attr "cx" (λ _ p, Ok (Some (ANum (px p))));
   node_attr "cy" (λ _ p, Ok (Some (ANum (py p))));
   node_attr "r" (λ n _, v ← getDynamicStyleValue (u_width unit) (Some (n_attributes n)) attributeStats
                              (Some (RangeNum 5 30)); mret (Some (AVal (sval_half v))));
   node_attr "fill" (λ n _, v ← getDynamicStyleValue (SVStr <$> u_color unit) (Some (n_attributes n))
                                 attributeStats (Some schemeBuGn9); mret (Some (AVal v)));
   node_attr "fill-opacity" (λ n _, v ← getDynamicStyleValue (u_opacity unit) (Some (n_attributes n))
                                         attributeStats (Some (RangeNum 0 1)); mret (Some (AVal v)));
   attr_of "stroke" (λ _, Some (AStr "#333"));
   attr_of "stroke-width" (λ _, Some (ANum (1 # 2)))].

(** [circlesEnter.append('title').text(d => `Node Data: ${JSON.stringify(d)}`)]:
    the title's text is a function of the datum the circle entered with. *)
Fixpoint append_titles (fresh : nat) (sel : list (nat * bound_datum)) (ch : list elem) : list elem * nat :=
  match sel with
  | [] => (ch, fresh)
  | (id, d) :: sel' =>
      append_titles (S fresh) sel'
        (modify_elem id (λ c, set_children (e_children c ++ [El fresh "title" None d [] [] []]) c) ch)
  end.

(** [drawD3Nodes(nodesList, svgGroup, unit, attributeStats, map)] on
    the children of [svgGroup]: the nodes projected with
    [map.latLngToLayerPoint], joined to the circles, the extra circles
    removed, the new ones appended, every circle set, and a title
    appended to each new circle once the chain has run. *)
Definition drawD3Nodes (map : leaflet_map) (unit : unit_spec) (attributeStats : gmap string stat)
    (nodesList : list node) (fresh : nat) (ch : list elem) : list elem * nat * option exn :=
  let data := (λ n, DNode n (latLngToLayerPoint map (n_lat n) (n_lon n))) <$> nodesList in
  let group := filter is_node_shape ch in
  let update := bindKey circle_key group data in
  let ch0 := remove_nodes (exit_nodes group update) ch in
  let '(ch1, fresh1, sel) := enter_append "circle" (Some "nodeShape") fresh ch0 data update in
  match run_chain (node_setters unit attributeStats) sel ch1 with
  | (ch2, Some e) => (ch2, fresh1, Some e)
  | (ch2, None) => let '(ch3, fresh2) := append_titles fresh1 (entered fresh sel) ch2 in (ch3, fresh2, None)
  end.

(** A line instruction of edge [i] drawn [w] wide, for the witnesses. *)
Definition witness_line (i : nat) (w : Q) : path_instr :=
  {| pi_id := i; pi_d := Some [PM 0 0; PL 1 0]; pi_stroke := Some (SStr "#feb24c"); pi_fill := None;
     pi_stroke_width := Some (SNum w); pi_stroke_opacity := Some (SNum 1); pi_stroke_dasharray := None;
     pi_stroke_linecap := None; pi_opacity := None |}.

(** * Properties *)

(** What an attribute or style holds after [set_prop]: [null] and
    [undefined] leave none. *)
Definition prop_val (v : option attr) : option attr :=
  match v with Some (AVal SUndef) => None | _ => v end.

(** A path of a line or rectangle layer shows its instruction: its
    [d] attribute and its inline styles are the instruction's fields,
    over the [fill="none"] it entered with. *)
Definition shows_path (p : path_instr) (c : elem) : Prop :=
  e_tag c = "path" ∧ e_datum c = DInstr (IPath p) ∧
  jget "fill" (e_attrs c) = Some (AStr "none") ∧
  jget "d" (e_attrs c) = APath <$> pi_d p ∧
  jget "fill" (e_styles c) = prop_val (AVal <$> pi_fill p) ∧
  jget "fill-opacity" (e_styles c) = None ∧
  jget "opacity" (e_styles c) = prop_val (AVal <$> pi_opacity p) ∧
  jget "stroke" (e_styles c) = prop_val (AVal <$> pi_stroke p) ∧
  jget "stroke-width" (e_styles c) = prop_val (AVal <$> pi_stroke_width p) ∧
  jget "stroke-opacity" (e_styles c) = prop_val (AVal <$> pi_stroke_opacity p) ∧
  jget "stroke-dasharray" (e_styles c) = AStr <$> pi_stroke_dasharray p.

(** The group of a segment layer drawn with [ps]: one path per
    instruction, in order, with distinct identities below [fresh]. *)
Definition drawn_paths (ps : list path_instr) (fresh : nat) (ch : list elem) : Prop :=
  Forall2 shows_path ps ch ∧ NoDup (e_id <$> ch) ∧ Forall (λ c, e_id c < fresh)%nat ch.

(** The keys of data from index [i], as the second pass of [bindKey]
    computes them. *)
Fixpoint keys_at (key : bound_datum → nat → string) (i : nat) (ds : list bound_datum) : list string :=
  match ds with [] => [] | d :: ds' => key d i :: keys_at key (S i) ds' end.

(** The update a list of pure callbacks makes to the element its
    identity selects. *)
Definition sel_apply (fs : list (bound_datum → elem → elem)) (sel : list (nat * bound_datum)) (c : elem) : elem :=
  match jget (e_id c) sel with Some d => foldl (λ e f, f d e) c fs | None => c end.

Definition keeps_id (f : bound_datum → elem → elem) : Prop := ∀ d e, e_id (f d e) = e_id e.

(** The [.attr('fill', 'none')] of an entering path. *)
Definition fill_none : bound_datum → elem → elem := attr_fn "fill" (λ _, Some (AStr "none")).

Section DomLemmas.

Lemma jget_jdel {A} k k' (o : list (string * A)) :
  jget k' (jdel k o) = if decide (k' = k) then None else jget k' o.
Proof.
  unfold jdel. induction o as [|[k0 v] o IH]; [simpl; by case_decide|].
  rewrite filter_cons. cbn [fst]. destruct (decide (k0 ≠ k)) as [Hk|Hk]; simpl.
  - rewrite IH. by repeat case_decide; subst.
  - apply dec_stable in Hk as ->. rewrite IH. by repeat case_decide.
Qed.

Lemma jget_set_prop_eq k v o : jget k (set_prop k v o) = prop_val v.
Proof.
  unfold set_prop, prop_val. destruct v as [[| | [] | | |]|];
    rewrite ?jget_jdel, ?decide_True by done; try apply jget_jset_eq; done.
Qed.

Lemma jget_set_prop_ne k k' v o : k ≠ k' → jget k' (set_prop k v o) = jget k' o.
Proof.
  intros Hne. unfold set_prop. destruct v as [[| | [] | | |]|];
    rewrite ?jget_jdel, ?decide_False by congruence; try (apply jget_jset_ne; congruence); done.
Qed.

Lemma modify_res_pure id f ch : modify_res id (λ c, Ok (f c)) ch = Ok (modify_elem id f ch).
Proof. induction ch as [|c ch IH]; [done|]. simpl. rewrite IH. by case_decide. Qed.

Lemma jget_notin {A} (k : nat) (l : list (nat * A)) : k ∉ l.*1 → jget k l = None.
Proof. apply jget_None_keys. Qed.

(** Modifying the elements of a selection one identity after the other
    is a single pointwise update, the identities being distinct. *)
Lemma fold_modify (f : bound_datum → elem → elem) sel ch :
  NoDup sel.*1 → keeps_id f →
  foldl (λ ch '(id, d), modify_elem id (f d) ch) ch sel = sel_apply [f] sel <$> ch.
Proof.
  intros Hnd Hf. unfold sel_apply; cbn [foldl].
  induction sel as [|[id d] sel IH] in ch, Hnd |- *; simpl.
  { symmetry. apply list_fmap_id. }
  apply NoDup_cons in Hnd as [Hid Hnd]. rewrite IH by done. unfold modify_elem.
  rewrite <- list_fmap_compose. apply list_fmap_ext. intros _ c _. unfold compose. cbn [jget].
  case_decide as Hc; [|done]. by rewrite Hf, Hc, jget_notin.
Qed.

Lemma run_setter_pure f sel ch :
  run_setter (pure f) sel ch = (foldl (λ ch '(id, d), modify_elem id (f d) ch) ch sel, None).
Proof.
  induction sel as [|[id d] sel IH] in ch |- *; [done|]. simpl.
  unfold pure at 1. rewrite modify_res_pure. apply IH.
Qed.

Lemma run_chain_pure fs sel ch :
  NoDup sel.*1 → Forall keeps_id fs →
  run_chain (pure <$> fs) sel ch = (sel_apply fs sel <$> ch, None).
Proof.
  intros Hnd Hfs. induction Hfs as [|f fs Hf Hfs IH] in ch |- *; simpl.
  { unfold sel_apply. f_equal. rewrite <- (list_fmap_id ch) at 1. apply list_fmap_ext.
    intros _ c _. by destruct (jget _ _). }
  rewrite run_setter_pure, fold_modify by done. rewrite IH, <- list_fmap_compose. f_equal.
  apply list_fmap_ext. intros _ c _. unfold sel_apply. cbn [foldl compose].
  destruct (jget (e_id c) sel) as [d|] eqn:E; [|by rewrite E].
  assert (Hid : e_id (f d c) = e_id c) by apply Hf. rewrite Hid, E. done.
Qed.

(** Applying a selection [zip ids data] to elements of identities
    [ids] updates each with its own datum. *)
Lemma sel_apply_zip fs l ds :
  NoDup (e_id <$> l) → List.length ds = List.length l →
  sel_apply fs (zip (e_id <$> l) ds) <$> l = zip_with (λ c d, foldl (λ e f, f d e) c fs) l ds.
Proof.
  intros Hnd Hlen. induction l as [|c l IH] in ds, Hnd, Hlen |- *; [done|].
  destruct ds as [|d ds]; [done|]. simpl in Hnd, Hlen |- *.
  apply NoDup_cons in Hnd as [Hc Hnd]. unfold sel_apply at 1. cbn [jget]. case_decide; [|done].
  f_equal. rewrite <- IH; [|done|lia]. apply list_fmap_ext. intros j c' Hj. unfold sel_apply. cbn [jget].
  rewrite decide_False; [done|]. intros Heq. apply Hc. rewrite <- Heq.
  apply list_elem_of_fmap. exists c'. split; [done|]. by eapply list_elem_of_lookup_2.
Qed.

Lemma jdel_notin {A} k (o : list (string * A)) : k ∉ o.*1 → jdel k o = o.
Proof.
  unfold jdel. induction o as [|[k' v] o IH]; intros Hk; [done|]. simpl in Hk.
  rewrite filter_cons_True by (simpl; set_solver). f_equal. apply IH. set_solver.
Qed.

Lemma zip_fst {A B} (l : list A) (l' : list B) : List.length l = List.length l' → (zip l l').*1 = l.
Proof. intros. by apply fst_zip; lia. Qed.

Section Keyed.
Context (key : bound_datum → nat → string).

Lemma first_by_key_distinct i seen group :
  NoDup (seen.*1 ++ keys_at key i (e_datum <$> group)) →
  first_by_key key i seen group = seen ++ zip (keys_at key i (e_datum <$> group)) group.
Proof.
  induction group as [|n group IH] in i, seen |- *; intros Hnd; simpl; [by rewrite app_nil_r|].
  rewrite jget_None_keys.
  - rewrite IH, <- app_assoc; [done|]. unfold jkeys. rewrite fmap_app, <- app_assoc. done.
  - intros Hk. apply NoDup_app in Hnd as (_ & Hdis & _). apply (Hdis (key (e_datum n) i)); [done|].
    by left.
Qed.

Lemma first_by_key_nil i group :
  NoDup (keys_at key i (e_datum <$> group)) →
  first_by_key key i [] group = zip (keys_at key i (e_datum <$> group)) group.
Proof. intros Hnd. by apply first_by_key_distinct. Qed.

(** When the data's keys are the nodes' keys, in the same order and
    distinct, every datum takes the node at its position. *)
Lemma bind_data_match i ks group ds :
  NoDup ks → List.length ks = List.length group → keys_at key i ds = ks →
  bind_data key i (zip ks group) ds = Some <$> group.
Proof.
  induction ds as [|d ds IH] in i, ks, group |- *; intros Hnd Hlen Hks; simpl in Hks; subst ks.
  { by destruct group. }
  destruct group as [|g group]; [done|]. simpl in Hlen |- *.
  apply NoDup_cons in Hnd as [Hk Hnd]. rewrite decide_True by done. f_equal.
  unfold jdel at 1. rewrite filter_cons_False by (simpl; naive_solver). fold (jdel (key d i) (zip (keys_at key (S i) ds) group)).
  rewrite jdel_notin; [apply IH; [done|lia|done]|]. rewrite zip_fst by lia. done.
Qed.

Lemma bind_data_none i ds : bind_data key i [] ds = (λ _, None) <$> ds.
Proof. induction ds as [|d ds IH] in i |- *; simpl; [done|]. by rewrite IH. Qed.

End Keyed.

Lemma next_update_none {A} (us : list A) : next_update ((λ _, None) <$> us) = None.
Proof. by induction us. Qed.

(** On an empty join every datum enters, appended in order with fresh
    identities. *)
Lemma enter_append_all tag cls fresh ch ds :
  enter_append tag cls fresh ch ds ((λ _, None) <$> ds) =
  (ch ++ zip_with (λ i d, El i tag cls d [] [] []) (seq fresh (List.length ds)) ds,
   fresh + List.length ds, zip (seq fresh (List.length ds)) ds)%nat.
Proof.
  induction ds as [|d ds IH] in fresh, ch |- *; simpl; [by rewrite app_nil_r, Nat.add_0_r|].
  rewrite next_update_none. cbn [insert_at]. rewrite IH, <- app_assoc, Nat.add_succ_r. done.
Qed.

(** When every datum takes a node, the nodes take the data and nothing
    enters. *)
Lemma enter_append_none tag cls fresh ch ds group :
  List.length group = List.length ds →
  enter_append tag cls fresh ch ds (Some <$> group) =
  (foldl (λ ch '(id, d), modify_elem id (set_datum d) ch) ch (zip (e_id <$> group) ds), fresh,
   zip (e_id <$> group) ds).
Proof.
  induction ds as [|d ds IH] in group, ch |- *; intros Hlen; destruct group as [|g group]; try done.
  simpl in Hlen |- *. by rewrite IH by lia.
Qed.

Lemma sel_apply_ids fs sel (l : list elem) : Forall keeps_id fs → e_id <$> (sel_apply fs sel <$> l) = e_id <$> l.
Proof.
  intros Hfs. rewrite <- list_fmap_compose. apply list_fmap_ext. intros _ c _. unfold compose, sel_apply.
  destruct (jget _ _) as [d|]; [|done]. clear -Hfs. induction Hfs as [|f fs Hf _ IH] in c |- *; [done|].
  simpl. by rewrite IH, Hf.
Qed.

Lemma zip_with_new_ids tag cls (ids : list nat) ds :
  List.length ids = List.length ds → e_id <$> zip_with (λ i d, El i tag cls d [] [] []) ids ds = ids.
Proof.
  induction ids as [|i ids IH] in ds |- *; destruct ds; intros Hlen; simpl in *; [done|lia|lia|].
  f_equal. apply IH. lia.
Qed.

Lemma entered_all fresh l : Forall (λ x, fresh ≤ x.1)%nat l → entered fresh l = l.
Proof.
  unfold entered. induction 1 as [|x l Hx _ IH]; [done|]. rewrite filter_cons_True by done. by f_equal.
Qed.

Lemma entered_none fresh l : Forall (λ x, x.1 < fresh)%nat l → entered fresh l = [].
Proof.
  unfold entered. induction 1 as [|x l Hx _ IH]; [done|]. rewrite filter_cons_False by lia. done.
Qed.

Lemma zip_seq_ge fresh n (ds : list bound_datum) : Forall (λ x, fresh ≤ x.1)%nat (zip (seq fresh n) ds).
Proof.
  induction n as [|n IH] in fresh, ds |- *; destruct ds; simpl; constructor; [simpl; lia|].
  eapply Forall_impl; [apply IH|]. simpl. lia.
Qed.

Lemma zip_ids_lt fresh (l : list elem) (ds : list bound_datum) :
  Forall (λ c, e_id c < fresh)%nat l → Forall (λ x, x.1 < fresh)%nat (zip (e_id <$> l) ds).
Proof. induction 1 in ds |- *; destruct ds; simpl; constructor; auto. Qed.

#[global] Instance edge_key_inj : Inj (=) (=) edge_key.
Proof. intros i j H. unfold edge_key in H. apply (String.app_inj "edge-") in H. by apply (inj pretty) in H. Qed.

Lemma keys_at_paths i ps :
  keys_at instr_key i (DInstr ∘ IPath <$> ps) = edge_key <$> (pi_id <$> ps).
Proof. induction ps as [|p ps IH] in i |- *; simpl; [done|]. by rewrite IH. Qed.

Lemma keeps_id_path_fns : Forall keeps_id path_fns.
Proof. repeat constructor. Qed.

Lemma keeps_id_set_datum : keeps_id set_datum.
Proof. done. Qed.

End DomLemmas.

(** Reading back a property one of the setters wrote. *)
Ltac props :=
  cbn [foldl path_fns attr_fn style_fn path_field e_attrs e_styles e_tag e_datum set_attr set_style];
  repeat first [rewrite jget_set_prop_eq | rewrite jget_set_prop_ne by discriminate].

(** The setters of a path make it show its instruction. *)
Lemma shows_path_apply p c :
  e_tag c = "path" → e_datum c = DInstr (IPath p) → jget "fill" (e_attrs c) = Some (AStr "none") →
  shows_path p (foldl (λ e f, f (DInstr (IPath p)) e) c path_fns).
Proof.
  intros Ht Hd Hf. unfold shows_path. props.
  split_and!; try done; [by destruct (pi_d p) | by destruct (pi_stroke_dasharray p)].
Qed.

(** The identities of a drawn group, bounded and distinct. *)
Lemma ids_seq_bounded (l : list elem) fresh n :
  e_id <$> l = seq fresh n → NoDup (e_id <$> l) ∧ Forall (λ c, e_id c < fresh + n)%nat l.
Proof.
  intros Hids. rewrite Hids. split; [apply NoDup_seq|].
  apply Forall_forall. intros c Hc. assert (Hin : e_id c ∈ seq fresh n).
  { rewrite <- Hids. apply list_elem_of_fmap. by exists c. }
  apply elem_of_seq in Hin. lia.
Qed.

(** Two pointwise updates by the same selection compose. *)
Lemma sel_apply2_zip fs1 fs2 l ds :
  NoDup (e_id <$> l) → List.length ds = List.length l → Forall keeps_id fs1 →
  sel_apply fs2 (zip (e_id <$> l) ds) <$> (sel_apply fs1 (zip (e_id <$> l) ds) <$> l) =
  zip_with (λ c d, foldl (λ e f, f d e) c (fs1 ++ fs2)) l ds.
Proof.
  intros Hnd Hlen Hfs. rewrite <- sel_apply_zip by done. rewrite <- list_fmap_compose.
  apply list_fmap_ext. intros _ c _. unfold compose.
  assert (Hid : e_id (sel_apply fs1 (zip (e_id <$> l) ds) c) = e_id c).
  { pose proof (sel_apply_ids fs1 (zip (e_id <$> l) ds) [c] Hfs) as H. by injection H. }
  unfold sel_apply at 1. rewrite Hid. unfold sel_apply. destruct (jget _ _); [|done]. by rewrite foldl_app.
Qed.

Lemma zip_with_foldl_ids fs (l : list elem) ds :
  Forall keeps_id fs → List.length ds = List.length l →
  e_id <$> zip_with (λ c d, foldl (λ e f, f d e) c fs) l ds = e_id <$> l.
Proof.
  intros Hfs. induction l as [|c l IH] in ds |- *; destruct ds; intros Hlen; simpl in *; [done|lia|lia|].
  f_equal; [|apply IH; lia]. clear -Hfs. induction Hfs as [|f fs Hf _ IH] in c |- *; [done|]. simpl. by rewrite IH, Hf.
Qed.

Lemma first_draw_shows fresh ps :
  let ds := DInstr <$> (IPath <$> ps) in
  Forall2 shows_path ps
    (zip_with (λ c d, foldl (λ e f, f d e) c ([fill_none] ++ path_fns))
       (zip_with (λ i d, El i "path" None d [] [] []) (seq fresh (List.length ds)) ds) ds).
Proof.
  induction ps as [|p ps IH] in fresh |- *; simpl; constructor; [|apply IH].
  apply shows_path_apply; unfold fill_none; props; done.
Qed.

(** The first draw of a line or rectangle layer, on an empty group:
    every instruction enters as a new path that shows it. *)
Lemma drawSegments_first m fresh ps :
  m ≠ Some MMatrix →
  ∃ ch, drawSegments m fresh [] (IPath <$> ps) = (ch, fresh + List.length ps, None)%nat ∧
        drawn_paths ps (fresh + List.length ps) ch.
Proof.
  intros Hm. unfold drawSegments. rewrite decide_False by done. cbv zeta.
  set (ds := DInstr <$> (IPath <$> ps)).
  assert (Hlen : List.length ds = List.length ps) by (subst ds; by rewrite !length_fmap).
  assert (Hu : bindKey instr_key (filter is_path []) ds = (λ _, None) <$> ds) by apply bind_data_none.
  rewrite Hu, enter_append_all, app_nil_l.
  set (news := zip_with (λ i d, El i "path" None d [] [] []) (seq fresh (List.length ds)) ds).
  assert (Hids : e_id <$> news = seq fresh (List.length ds)) by (apply zip_with_new_ids; by rewrite length_seq).
  assert (Hnd : NoDup (e_id <$> news)) by (rewrite Hids; apply NoDup_seq).
  assert (Hln : List.length ds = List.length news) by (by rewrite <- (length_fmap e_id news), Hids, length_seq).
  rewrite entered_all by apply zip_seq_ge. rewrite <- Hids.
  assert (Hsel : NoDup (zip (e_id <$> news) ds).*1) by (rewrite zip_fst by (rewrite length_fmap; lia); done).
  unfold attr_of. rewrite run_setter_pure, fold_modify by (done || by intros ??).
  rewrite run_chain_pure by (done || apply keeps_id_path_fns).
  fold fill_none. cbn [fst]. rewrite sel_apply2_zip by first [done | lia | repeat constructor].
  eexists. split; [by rewrite Hlen|]. split; [apply first_draw_shows|].
  rewrite <- Hlen. apply ids_seq_bounded. rewrite zip_with_foldl_ids; [done| |done].
  repeat constructor. all: apply keeps_id_path_fns.
Qed.

Lemma shows_path_datums ps ch : Forall2 shows_path ps ch → e_datum <$> ch = DInstr <$> (IPath <$> ps).
Proof. induction 1 as [|p c ps ch (_ & Hd & _) _ IH]; [done|]. rewrite !fmap_cons, Hd, IH. done. Qed.

Lemma shows_path_filter ps ch : Forall2 shows_path ps ch → filter is_path ch = ch.
Proof.
  induction 1 as [|p c ps ch (Ht & _) _ IH]; [done|].
  rewrite filter_cons_True; [by f_equal|]. unfold is_path. by rewrite bool_decide_true.
Qed.

Lemma redraw_shows ps ps' ch :
  Forall2 shows_path ps ch → List.length ps' = List.length ps →
  Forall2 shows_path ps'
    (zip_with (λ c d, foldl (λ e f, f d e) c ([set_datum] ++ path_fns)) ch (DInstr <$> (IPath <$> ps'))).
Proof.
  intros H. induction H as [|p c ps ch (Ht & _ & Hf & _) _ IH] in ps' |- *;
    destruct ps' as [|p' ps']; intros Hlen; simpl in *; try lia; constructor; [|apply IH; lia].
  by apply shows_path_apply.
Qed.

Lemma Forall_ids_lt fresh (l l' : list elem) :
  e_id <$> l' = e_id <$> l → Forall (λ c, e_id c < fresh)%nat l → Forall (λ c, e_id c < fresh)%nat l'.
Proof.
  intros Hids Hl. apply (Forall_fmap e_id (λ i, i < fresh)%nat). rewrite Hids.
  by apply (Forall_fmap e_id (λ i, i < fresh)%nat).
Qed.

(** A redraw of a drawn line or rectangle layer with instructions of
    the same ids: every path takes its new instruction in place, no
    element is created or removed. *)
Lemma drawSegments_redraw m fresh ch ps ps' :
  m ≠ Some MMatrix → drawn_paths ps fresh ch → pi_id <$> ps' = pi_id <$> ps → NoDup (pi_id <$> ps) →
  ∃ ch', drawSegments m fresh ch (IPath <$> ps') = (ch', fresh, None) ∧
         drawn_paths ps' fresh ch' ∧ e_id <$> ch' = e_id <$> ch.
Proof.
  intros Hm (Hsh & Hnd & Hlt) Hids Hndp. unfold drawSegments. rewrite decide_False by done. cbv zeta.
  set (ds := DInstr <$> (IPath <$> ps')).
  assert (Hlp : List.length ps' = List.length ps) by (rewrite <- (length_fmap pi_id ps'), Hids; apply length_fmap).
  assert (Hlc : List.length ds = List.length ch) by (subst ds; rewrite !length_fmap, Hlp; by eapply Forall2_length).
  assert (Hu : bindKey instr_key (filter is_path ch) ds = Some <$> ch).
  { rewrite (shows_path_filter ps) by done. unfold bindKey.
    rewrite first_by_key_nil; rewrite (shows_path_datums ps ch), <- list_fmap_compose,
      keys_at_paths by done; [|apply (NoDup_fmap_2 edge_key); exact Hndp].
    apply bind_data_match; [apply (NoDup_fmap_2 edge_key); exact Hndp | | ].
    - rewrite !length_fmap. by eapply Forall2_length.
    - subst ds. by rewrite <- list_fmap_compose, keys_at_paths, Hids. }
  assert (Hsel : NoDup (zip (e_id <$> ch) ds).*1) by (rewrite zip_fst by (rewrite length_fmap; lia); done).
  rewrite Hu, enter_append_none by lia. rewrite fold_modify by (done || by intros ??).
  rewrite entered_none by by apply zip_ids_lt. cbn [run_setter fst].
  rewrite run_chain_pure by (done || apply keeps_id_path_fns).
  rewrite sel_apply2_zip by first [done | lia | repeat constructor].
  assert (Hch' : e_id <$> zip_with (λ c d, foldl (λ e f, f d e) c ([set_datum] ++ path_fns)) ch ds = e_id <$> ch).
  { apply zip_with_foldl_ids; [|lia]. repeat constructor. all: apply keeps_id_path_fns. }
  eexists. split; [done|]. split; [|done].
  split_and!; [by apply (redraw_shows ps) | by rewrite Hch' | by eapply Forall_ids_lt].
Qed.

Lemma redraws_drawn m n fresh ch (ps : list path_instr) (rounds : list (list path_instr)) :
  m ≠ Some MMatrix → drawn_paths ps fresh ch → pi_id <$> ps = seq 0 n →
  Forall (λ ps' : list path_instr, pi_id <$> ps' = seq 0 n) rounds →
  ∃ ch', redraws m fresh ch ((λ ps' : list path_instr, IPath <$> ps') <$> rounds) = (ch', fresh, None) ∧
         drawn_paths (default ps (last rounds)) fresh ch'.
Proof.
  intros Hm Hd Hps Hr. induction Hr as [|ps' rounds Hps' _ IH] in ps, ch, Hd, Hps |- *.
  { by eexists. }
  destruct (drawSegments_redraw m fresh ch ps ps') as (ch1 & E & Hd1 & _);
    [done | done | by rewrite Hps, Hps' | rewrite Hps; apply NoDup_seq |].
  simpl. rewrite E. destruct (IH ch1 ps' Hd1 Hps') as (ch' & E' & Hd').
  exists ch'. split; [done|]. destruct rounds as [|l rounds]; [exact Hd'|].
  change (last (ps' :: l :: rounds)) with (last (l :: rounds)).
  destruct (last (l :: rounds)) eqn:El; [exact Hd'|]. by apply last_None in El.
Qed.

(** C18: A line or rectangle layer's group, after its first [redraw()]
    and any number of redraws on [moveend] and [zoomend] (each with the
    [n] instructions [edge-0] to [edge-(n-1)] the builder gives for the
    layer's [n] edges), holds exactly one path per edge, in edge order,
    showing the last instructions drawn: no path is duplicated, lost or
    left stale, and no element is created after the first draw. *)
Theorem segment_redraws_one_path_per_edge m n (rounds : list (list path_instr)) (ps : list path_instr) :
  m ≠ Some MMatrix → Forall (λ ps' : list path_instr, pi_id <$> ps' = seq 0 n) (rounds ++ [ps]) →
  ∃ ch, redraws m 0 [] ((λ ps' : list path_instr, IPath <$> ps') <$> (rounds ++ [ps])) = (ch, n, None) ∧ Forall2 shows_path ps ch.
Proof.
  intros Hm Hall. destruct rounds as [|ps0 rounds].
  - cbn [app] in Hall. rewrite Forall_singleton in Hall.
    destruct (drawSegments_first m 0 ps Hm) as (ch & E & Hd & _).
    assert (Hn : List.length ps = n) by (rewrite <- (length_fmap pi_id ps), Hall; apply length_seq).
    exists ch. simpl. rewrite E, Hn. by split.
  - inversion Hall as [|? ? Hps0 Hrest]; subst. cbv beta in Hps0.
    destruct (drawSegments_first m 0 ps0 Hm) as (ch0 & E0 & Hd0).
    assert (Hn : List.length ps0 = n) by (rewrite <- (length_fmap pi_id ps0), Hps0; apply length_seq).
    rewrite Hn in E0, Hd0. simpl in E0.
    destruct (redraws_drawn m n n ch0 ps0 (rounds ++ [ps])) as (ch & E & Hd); [done..|].
    exists ch. simpl. rewrite E0. split; [exact E|].
    rewrite last_app in Hd. apply Hd.
Qed.

(** The keys [d.id ?? i] of the nodes from position [i]. *)
Lemma keys_at_node i ds : keys_at circle_key i ds = pretty <$> seq i (List.length ds).
Proof. induction ds as [|d ds IH] in i |- *; simpl; [done|]. by rewrite IH. Qed.

Lemma bind_data_node i g ds :
  bind_data circle_key i (zip (pretty <$> seq i (List.length g)) g) ds = bindIndex g ds.
Proof.
  unfold bindIndex. induction ds as [|d ds IH] in i, g |- *; [done|].
  rewrite imap_cons. destruct g as [|g0 g]; cbn [bind_data List.length seq fmap list_fmap zip zip_with jget].
  - f_equal. pose proof (IH (S i) []) as H. cbn in H. rewrite H. by apply imap_ext.
  - change (circle_key d i) with (pretty i). case_decide; [|done]. f_equal.
    unfold jdel at 1. rewrite filter_cons_False by (simpl; naive_solver). fold (jdel (pretty i) (zip (pretty <$> seq (S i) (List.length g)) g)).
    rewrite jdel_notin.
    + rewrite IH. by apply imap_ext.
    + rewrite zip_fst by (by rewrite length_fmap, length_seq). rewrite list_elem_of_fmap.
      intros (j & Hj & Hin). apply (inj pretty) in Hj as ->. apply elem_of_seq in Hin. lia.
Qed.

(** [drawD3Nodes] keys a circle by [d.id ?? i]; the nodes have no [id],
    so its keyed join is d3's join by index. *)
Lemma node_key_join group ds : bindKey circle_key group ds = bindIndex group ds.
Proof.
  unfold bindKey. rewrite first_by_key_nil, keys_at_node, length_fmap; [apply bind_data_node|].
  rewrite keys_at_node. apply NoDup_fmap_2; [apply _|apply NoDup_seq].
Qed.

(** ** Witnesses *)

(** Two edges drawn, then redrawn after a zoom that doubled the widths. *)
Lemma segment_redraws_one_path_per_edge_witness :
  ∃ ch, redraws (Some MLine) 0 []
          ((λ ps' : list path_instr, IPath <$> ps') <$> ([[witness_line 0 1; witness_line 1 2]] ++ [[witness_line 0 2; witness_line 1 4]])) =
        (ch, 2%nat, None) ∧ Forall2 shows_path [witness_line 0 2; witness_line 1 4] ch.
Proof. apply segment_redraws_one_path_per_edge; [discriminate | repeat constructor]. Defined.
