(* ===== verification/DomMatrix.v ===== *)
(** * DomMatrix: the matrix branch of [drawSegments] ([d3Helpers.ts], lines 321-353)

    A matrix layer draws one [g.matrix-edge] group per edge, keyed by
    the instruction's [id], and inside each group one [path] per colour
    band of [dByColor], joined by index ([g.selectAll('path').data(bands)]).
    Unlike the line branch, both joins remove their exit nodes.  This
    file proves what that buys: the index join of [draw_bands] leaves
    exactly one path per band whatever the group held before, and a
    matrix layer's redraws leave one group per edge showing the last
    instructions. *)

From S2P Require Import Prelude Geometry Spec Style Builder Dom.
Open Scope nat_scope.

(** ** What a drawn matrix shows *)

(** A band path shows its band: its [d] and [fill] attributes and the
    [stroke-width] [0]. *)
Definition shows_band (b : css_color * list pathcmd) (c : elem) : Prop :=
  e_tag c = "path" ∧ e_datum c = DBand b.1 b.2 ∧ jget "d" (e_attrs c) = Some (APath b.2) ∧
  jget "fill" (e_attrs c) = Some (AColor b.1) ∧ jget "stroke-width" (e_attrs c) = Some (ANum 0).

(** Distinct identities, all below the drawing's counter. *)
Definition ids_below (fresh : nat) (ch : list elem) : Prop :=
  NoDup (e_id <$> ch) ∧ Forall (λ c, e_id c < fresh) ch.

(** [.attr('transform', d => d.transform)] on one merged group, the
    callback of the transform setter of [drawSegments]. *)
Definition transform_fn : bound_datum → elem → elem := attr_fn "transform" instr_transform.

(** A cell group ready for its bands: a [g.matrix-edge] bound to its
    instruction, with its transform, holding band paths. *)
Definition prepared (fresh : nat) (m : matrix_instr) (c : elem) : Prop :=
  e_tag c = "g" ∧ e_class c = Some "matrix-edge" ∧ e_datum c = DInstr (IMatrix m) ∧
  jget "transform" (e_attrs c) = Some (ATransform (mi_translate m) (mi_rotate m)) ∧
  Forall (λ x, e_tag x = "path") (e_children c) ∧ ids_below fresh (e_children c).

(** A cell group shows its instruction: prepared, with one path per
    colour band. *)
Definition shows_matrix (fresh : nat) (m : matrix_instr) (c : elem) : Prop :=
  prepared fresh m c ∧ Forall2 shows_band (mi_dByColor m) (e_children c).

(** The group of a matrix layer drawn with [ms]. *)
Definition drawn_matrix (ms : list matrix_instr) (fresh : nat) (ch : list elem) : Prop :=
  Forall2 (shows_matrix fresh) ms ch ∧ ids_below fresh ch.

(** A matrix instruction for edge [0] with the given bands, for the
    witness. *)
Definition witness_matrix (bands : assoc css_color (list pathcmd)) : matrix_instr :=
  {| mi_id := 0; mi_dByColor := bands; mi_translate := {| px := 0; py := 0 |}; mi_rotate := 0 |}.

Section MatrixLemmas.

Lemma jget_app {A} (k : nat) (l1 l2 : list (nat * A)) :
  jget k (l1 ++ l2) = match jget k l1 with Some v => Some v | None => jget k l2 end.
Proof. induction l1 as [|[k' v] l1 IH]; [done|]. simpl. by case_decide. Qed.

(** The index join of [ds] on the nodes [ch]: the first nodes are
    matched in order, the data past the nodes enter. *)
Lemma bindIndex_split (ch : list elem) ds :
  bindIndex ch ds = (Some <$> take (List.length ds) ch) ++ ((λ _, None) <$> drop (List.length ch) ds).
Proof.
  unfold bindIndex. induction ds as [|d ds IH] in ch |- *; [by destruct ch|].
  rewrite imap_cons. destruct ch as [|c ch]; cbn [List.length take drop fmap list_fmap app].
  - cbn. f_equal. apply list_eq. intros i.
    rewrite list_lookup_imap, list_lookup_fmap. by destruct (ds !! i).
  - f_equal. rewrite <- IH. by apply imap_ext.
Qed.

(** [enter_append] on a join whose first data take nodes and whose
    other data enter: the nodes take their data in place, the new
    elements are appended in order. *)
Lemma enter_append_split tag cls fresh ch (g1 : list elem) ds1 ds2 :
  List.length g1 = List.length ds1 →
  enter_append tag cls fresh ch (ds1 ++ ds2) ((Some <$> g1) ++ ((λ _, None) <$> ds2)) =
  (foldl (λ ch '(id, d), modify_elem id (set_datum d) ch) ch (zip (e_id <$> g1) ds1)
     ++ zip_with (λ i d, El i tag cls d [] [] []) (seq fresh (List.length ds2)) ds2,
   fresh + List.length ds2, zip (e_id <$> g1) ds1 ++ zip (seq fresh (List.length ds2)) ds2).
Proof.
  induction g1 as [|n g1 IH] in ch, ds1 |- *; destruct ds1 as [|d ds1]; intros Hlen; try done.
  - apply enter_append_all.
  - simpl in Hlen |- *. rewrite IH by lia. done.
Qed.

Lemma keeps_id_band_fns : Forall keeps_id band_fns.
Proof. repeat constructor. Qed.

(** A selection leaves the elements it does not name as they are. *)
Lemma sel_apply_notin fs sel c : e_id c ∉ sel.*1 → sel_apply fs sel c = c.
Proof. intros Hc. unfold sel_apply. by rewrite jget_notin. Qed.

Lemma sel_apply_app_l fs sel1 sel2 c :
  e_id c ∈ sel1.*1 → sel_apply fs (sel1 ++ sel2) c = sel_apply fs sel1 c.
Proof.
  intros Hc. unfold sel_apply. rewrite jget_app.
  destruct (jget (e_id c) sel1) eqn:E; [done|]. exfalso.
  apply list_elem_of_fmap in Hc as ([k v] & Hk & Hin). cbn in Hk. rewrite Hk in E.
  (* a key of [sel1] is found in it *)
  clear -E Hin. induction sel1 as [|[k' v'] sel1 IH]; [by apply not_elem_of_nil in Hin|].
  simpl in E. case_decide; [done|]. apply elem_of_cons in Hin as [[= -> ->]|Hin]; [done|]. by apply IH.
Qed.

Lemma sel_apply_app_r fs sel1 sel2 c :
  e_id c ∉ sel1.*1 → sel_apply fs (sel1 ++ sel2) c = sel_apply fs sel2 c.
Proof. intros Hc. unfold sel_apply. rewrite jget_app, jget_notin by done. done. Qed.

Lemma filter_is_path (ch : list elem) : Forall (λ c, e_tag c = "path") ch → filter is_path ch = ch.
Proof.
  induction 1 as [|c ch Hc _ IH]; [done|].
  rewrite filter_cons_True; [by f_equal|]. unfold is_path. by rewrite bool_decide_true.
Qed.

Lemma filter_Forall_true {A} (P : A → Prop) `{∀ x, Decision (P x)} l : Forall P l → filter P l = l.
Proof. induction 1 as [|x l Hx _ IH]; [done|]. rewrite filter_cons_True by done. by f_equal. Qed.

Lemma filter_Forall_false {A} (P : A → Prop) `{∀ x, Decision (P x)} l : Forall (λ x, ¬ P x) l → filter P l = [].
Proof. induction 1 as [|x l Hx _ IH]; [done|]. by rewrite filter_cons_False by done. Qed.

Lemma omap_some (l : list elem) : omap id (Some <$> l) = l.
Proof. induction l as [|c l IH]; [done|]. simpl. f_equal. exact IH. Qed.

Lemma omap_none {A} (l : list A) : omap id ((λ _, None) <$> l) = ([] : list elem).
Proof. by induction l. Qed.

Lemma sel_apply_frame fs sel (l : list elem) : Forall (λ c, e_id c ∉ sel.*1) l → sel_apply fs sel <$> l = l.
Proof. induction 1 as [|c l Hc _ IH]; [done|]. rewrite fmap_cons, sel_apply_notin, IH by done. done. Qed.

Lemma sel_apply_app_l_list fs sel1 sel2 (l : list elem) :
  Forall (λ c, e_id c ∈ sel1.*1) l → sel_apply fs (sel1 ++ sel2) <$> l = sel_apply fs sel1 <$> l.
Proof. induction 1 as [|c l Hc _ IH]; [done|]. rewrite !fmap_cons, sel_apply_app_l, IH by done. done. Qed.

Lemma sel_apply_app_r_list fs sel1 sel2 (l : list elem) :
  Forall (λ c, e_id c ∉ sel1.*1) l → sel_apply fs (sel1 ++ sel2) <$> l = sel_apply fs sel2 <$> l.
Proof. induction 1 as [|c l Hc _ IH]; [done|]. rewrite !fmap_cons, sel_apply_app_r, IH by done. done. Qed.

(** A property of identities, read on the elements. *)
Lemma Forall_ids (P : nat → Prop) (l : list elem) : (∀ x, x ∈ e_id <$> l → P x) → Forall (λ c, P (e_id c)) l.
Proof. intros HP. apply Forall_forall. intros c Hc. apply HP, list_elem_of_fmap. by exists c. Qed.

(** The setters of a band path make it show its band. *)
Lemma shows_band_apply b c :
  e_tag c = "path" → e_datum c = DBand b.1 b.2 →
  shows_band b (foldl (λ e f, f (DBand b.1 b.2) e) c band_fns).
Proof.
  intros Ht Hd. unfold shows_band.
  cbn [foldl band_fns attr_fn set_attr e_attrs e_tag e_datum].
  repeat first [rewrite jget_set_prop_eq | rewrite jget_set_prop_ne by discriminate]. done.
Qed.

Lemma shows_bands_update (g1 : list elem) bs :
  Forall (λ c, e_tag c = "path") g1 → List.length g1 = List.length bs →
  Forall2 shows_band bs
    (zip_with (λ c d, foldl (λ e f, f d e) c ([set_datum] ++ band_fns)) g1 ((λ b, DBand b.1 b.2) <$> bs)).
Proof.
  intros Hp. induction Hp as [|c g1 Hc _ IH] in bs |- *; destruct bs as [|b bs]; intros Hlen;
    simpl in *; try lia; constructor; [|apply IH; lia].
  by apply shows_band_apply.
Qed.

Lemma shows_bands_new fresh bs :
  let ds := (λ b, DBand b.1 b.2) <$> bs in
  Forall2 shows_band bs
    (zip_with (λ c d, foldl (λ e f, f d e) c band_fns)
       (zip_with (λ i d, El i "path" None d [] [] []) (seq fresh (List.length ds)) ds) ds).
Proof.
  induction bs as [|b bs IH] in fresh |- *; simpl; constructor; [|apply IH].
  by apply shows_band_apply.
Qed.

(** The index join of the bands on a group of band paths: the first
    paths take the first bands, the bands past them enter as new paths,
    the paths past the bands are removed; every path shows its band. *)
Lemma draw_bands_spec fresh g bs :
  Forall (λ c, e_tag c = "path") (e_children g) → ids_below fresh (e_children g) →
  ∃ ch' fresh', draw_bands fresh g bs = (set_children ch' g, fresh') ∧ fresh ≤ fresh' ∧
    Forall2 shows_band bs ch' ∧ ids_below fresh' ch'.
Proof.
  intros Hpath [Hnd Hlt]. unfold draw_bands. set (ch := e_children g) in *.
  set (ds := (λ b, DBand b.1 b.2) <$> bs).
  rewrite filter_is_path, bindIndex_split by done.
  set (g1 := take (List.length ds) ch). set (ch2 := drop (List.length ds) ch).
  set (ds1 := take (List.length ch) ds). set (ds2 := drop (List.length ch) ds).
  assert (Hds : ds = ds1 ++ ds2) by (symmetry; apply take_drop).
  assert (Hch : ch = g1 ++ ch2) by (symmetry; apply take_drop).
  assert (Hlen : List.length g1 = List.length ds1) by (subst g1 ds1; rewrite !length_take; lia).
  assert (He := enter_append_split "path" None fresh ch g1 ds1 ds2 Hlen). rewrite <- Hds in He.
  rewrite He. cbv zeta.
  set (news := zip_with (λ i d, El i "path" None d [] [] []) (seq fresh (List.length ds2)) ds2).
  assert (Hnews : e_id <$> news = seq fresh (List.length ds2)) by (apply zip_with_new_ids; by rewrite length_seq).
  assert (Hnd' := Hnd). rewrite Hch, fmap_app in Hnd'. apply NoDup_app in Hnd' as (Hnd1 & Hdis & Hnd2).
  rewrite Hch in Hlt. apply Forall_app in Hlt as [Hlt1 Hlt2].
  rewrite Hch in Hpath. apply Forall_app in Hpath as [Hp1 _].
  assert (Hk1 : (zip (e_id <$> g1) ds1).*1 = e_id <$> g1) by (apply zip_fst; by rewrite length_fmap).
  assert (Hk2 : (zip (seq fresh (List.length ds2)) ds2).*1 = seq fresh (List.length ds2)) by (apply zip_fst; by rewrite length_seq).
  assert (Hge : ∀ x, x ∈ seq fresh (List.length ds2) → fresh ≤ x) by (intros x Hx; apply elem_of_seq in Hx; lia).
  assert (Hlt1' : ∀ x, x ∈ e_id <$> g1 → x < fresh).
  { intros x (c & -> & Hc)%list_elem_of_fmap. by eapply (Forall_forall (λ c, e_id c < fresh) g1) in Hc. }
  assert (Hlt2' : ∀ x, x ∈ e_id <$> ch2 → x < fresh).
  { intros x (c & -> & Hc)%list_elem_of_fmap. by eapply (Forall_forall (λ c, e_id c < fresh) ch2) in Hc. }
  assert (Hsel : NoDup (zip (e_id <$> g1) ds1 ++ zip (seq fresh (List.length ds2)) ds2).*1).
  { rewrite fmap_app, Hk1, Hk2. apply NoDup_app. split_and!; [done| |apply NoDup_seq].
    intros x Hx1 Hx2. specialize (Hlt1' x Hx1). specialize (Hge x Hx2). lia. }
  rewrite fold_modify by (rewrite ?Hk1; done || by intros ??).
  rewrite run_chain_pure by (done || apply keeps_id_band_fns). cbn [fst].
  assert (Hex : exit_nodes ch ((Some <$> g1) ++ ((λ _, None) <$> ds2)) = ch2).
  { unfold exit_nodes. rewrite omap_app, omap_some, omap_none, app_nil_r, Hch, filter_app.
    rewrite filter_Forall_false, filter_Forall_true; [done| |].
    - apply Forall_forall. intros c Hc Hin. apply (Hdis (e_id c)); [done|]. apply list_elem_of_fmap. by exists c.
    - apply Forall_forall. intros c Hc. intros Hn. apply Hn. apply list_elem_of_fmap. by exists c. }
  rewrite Hex, Hch, !fmap_app.
  rewrite (sel_apply_frame [set_datum] _ ch2).
  2:{ apply Forall_forall. intros c Hc. rewrite Hk1. intros Hin. apply (Hdis (e_id c)); [done|].
      apply list_elem_of_fmap. by exists c. }
  rewrite (sel_apply_frame band_fns _ ch2).
  2:{ apply Forall_forall. intros c Hc. rewrite fmap_app, Hk1, Hk2. intros [Hin|Hin]%elem_of_app.
      - apply (Hdis (e_id c)); [done|]. apply list_elem_of_fmap. by exists c.
      - apply Hge in Hin. assert (e_id c < fresh); [|lia]. apply Hlt2'. apply list_elem_of_fmap. by exists c. }
  assert (Hids1 : e_id <$> (sel_apply [set_datum] (zip (e_id <$> g1) ds1) <$> g1) = e_id <$> g1)
    by (apply sel_apply_ids; repeat constructor).
  rewrite sel_apply_app_l_list.
  2:{ apply (Forall_fmap e_id (λ i, i ∈ _)). rewrite Hids1, Hk1. apply Forall_forall. done. }
  rewrite sel_apply_app_r_list.
  2:{ apply (Forall_ids (λ i, i ∉ _)). rewrite Hnews. intros x Hx Hin. rewrite Hk1 in Hin.
      specialize (Hge x Hx). specialize (Hlt1' x Hin). lia. }
  rewrite sel_apply2_zip by first [done | lia | repeat constructor].
  rewrite <- Hnews, sel_apply_zip.
  2:{ by rewrite Hnews; apply NoDup_seq. }
  2:{ by rewrite <- (length_fmap e_id news), Hnews, length_seq. }
  set (A := zip_with _ g1 ds1). set (B := zip_with _ news ds2).
  assert (HA : e_id <$> A = e_id <$> g1).
  { apply zip_with_foldl_ids; [|lia]. constructor; [done|apply keeps_id_band_fns]. }
  assert (HB : e_id <$> B = e_id <$> news).
  { apply zip_with_foldl_ids; [apply keeps_id_band_fns|]. by rewrite <- (length_fmap e_id news), Hnews, length_seq. }
  assert (Hrm : remove_nodes ch2 ((A ++ ch2) ++ B) = A ++ B).
  { unfold remove_nodes. rewrite !filter_app. rewrite (filter_Forall_false _ ch2), !filter_Forall_true; [by rewrite app_nil_r| | |].
    - apply (Forall_ids (λ i, i ∉ _)). rewrite HB, Hnews. intros x Hx Hin.
      specialize (Hge x Hx). specialize (Hlt2' x Hin). lia.
    - apply (Forall_ids (λ i, i ∉ _)). rewrite HA. intros x Hx Hin. by apply (Hdis x).
    - apply (Forall_ids (λ i, ¬ (i ∉ e_id <$> ch2))). intros x Hx Hn. by apply Hn. }
  rewrite Hrm. exists (A ++ B), (fresh + List.length ds2). split_and!; [done|lia| |].
  - rewrite <- (take_drop (List.length ch) bs). apply Forall2_app.
    + subst A ds1 ds. rewrite <- fmap_take. apply shows_bands_update; [done|].
      subst g1. rewrite !length_take, length_fmap. lia.
    + subst B news ds2 ds. rewrite <- fmap_drop. apply shows_bands_new.
  - split.
    + rewrite fmap_app, HA, HB, Hnews. apply NoDup_app. split_and!; [done| |apply NoDup_seq].
      intros x Hx1 Hx2. specialize (Hlt1' x Hx1). specialize (Hge x Hx2). lia.
    + apply Forall_app. split.
      * apply (Forall_ids (λ i, i < _)). rewrite HA. intros x Hx. specialize (Hlt1' x Hx). lia.
      * apply (Forall_ids (λ i, i < _)). rewrite HB, Hnews. intros x Hx. apply elem_of_seq in Hx. lia.
Qed.

Lemma ids_below_mono f1 f2 ch : f1 ≤ f2 → ids_below f1 ch → ids_below f2 ch.
Proof. intros Hf [Hnd Hlt]. split; [done|]. eapply Forall_impl; [exact Hlt|]. simpl. lia. Qed.

Lemma prepared_mono f1 f2 m c : f1 ≤ f2 → prepared f1 m c → prepared f2 m c.
Proof. intros Hf (? & ? & ? & ? & ? & Hb). split_and!; try done. by eapply ids_below_mono. Qed.

Lemma shows_matrix_mono f1 f2 m c : f1 ≤ f2 → shows_matrix f1 m c → shows_matrix f2 m c.
Proof. intros Hf [Hp Hb]. split; [by eapply prepared_mono|done]. Qed.

Lemma find_elem_mid (pre post : list elem) c :
  NoDup (e_id <$> pre ++ c :: post) → find_elem (e_id c) (pre ++ c :: post) = Some c.
Proof.
  intros Hnd. rewrite fmap_app in Hnd. apply NoDup_app in Hnd as (_ & Hdis & _).
  unfold find_elem. rewrite filter_app, filter_cons_True by done. rewrite filter_Forall_false; [done|].
  apply (Forall_ids (λ i, i ≠ e_id c)). intros x Hx ->. apply (Hdis _ Hx). by left.
Qed.

Lemma modify_elem_frame id f (l : list elem) : Forall (λ x, e_id x ≠ id) l → modify_elem id f l = l.
Proof.
  unfold modify_elem. induction 1 as [|x l Hx _ IH]; [done|]. rewrite fmap_cons, IH, decide_False by done. done.
Qed.

Lemma modify_elem_mid (pre post : list elem) c f :
  NoDup (e_id <$> pre ++ c :: post) → modify_elem (e_id c) f (pre ++ c :: post) = pre ++ f c :: post.
Proof.
  intros Hnd. rewrite fmap_app in Hnd. apply NoDup_app in Hnd as (_ & Hdis & Hnd2).
  rewrite fmap_cons in Hnd2. apply NoDup_cons in Hnd2 as [Hc _].
  assert (Hm : modify_elem (e_id c) f (pre ++ c :: post) =
               modify_elem (e_id c) f pre ++ f c :: modify_elem (e_id c) f post).
  { unfold modify_elem. by rewrite fmap_app, fmap_cons, decide_True. }
  rewrite Hm, !modify_elem_frame; [done| |].
  - apply (Forall_ids (λ i, i ≠ e_id c)). intros x Hx ->. by apply Hc.
  - apply (Forall_ids (λ i, i ≠ e_id c)). intros x Hx ->. apply (Hdis _ Hx). by left.
Qed.

Lemma shows_matrix_bands fresh' m c ch' :
  prepared fresh' m c → Forall2 shows_band (mi_dByColor m) ch' → ids_below fresh' ch' →
  shows_matrix fresh' m (set_children ch' c).
Proof.
  intros (Ht & Hc & Hd & Htr & _ & _) Hb Hids. split; [|done]. unfold prepared. cbn.
  split_and!; try done. clear -Hb. induction Hb as [|b x bs xs (Hx & _) _ IH]; by constructor.
Qed.

(** [.each(...)] draws the bands of every prepared group in turn; the
    groups already drawn stay as they are. *)
Lemma each_matrix_spec fresh (pre post : list elem) (mpre mpost : list matrix_instr) :
  NoDup (e_id <$> pre ++ post) →
  Forall2 (shows_matrix fresh) mpre pre → Forall2 (prepared fresh) mpost post →
  ∃ post' fresh', each_matrix (zip (e_id <$> post) (DInstr <$> (IMatrix <$> mpost))) fresh (pre ++ post) =
                  (pre ++ post', fresh', None) ∧ fresh ≤ fresh' ∧
                  Forall2 (shows_matrix fresh') (mpre ++ mpost) (pre ++ post') ∧ e_id <$> post' = e_id <$> post.
Proof.
  intros Hnd Hpre Hpost.
  induction post as [|c post IH] in fresh, pre, mpre, mpost, Hnd, Hpre, Hpost |- *;
    destruct mpost as [|m mpost]; inversion Hpost as [|? ? ? ? Hc Hpost']; subst.
  { exists [], fresh. rewrite !app_nil_r. split_and!; [done|lia|done|done]. }
  pose proof Hc as (Ht & Hcl & Hd & Htr & Hp & Hb).
  destruct (draw_bands_spec fresh c (mi_dByColor m) Hp Hb) as (ch' & fresh' & Edb & Hle & Hsh & Hids).
  cbn [fmap list_fmap zip zip_with each_matrix]. rewrite find_elem_mid by done. rewrite Edb.
  rewrite modify_elem_mid by done.
  assert (Hnd' : NoDup (e_id <$> (pre ++ [set_children ch' c]) ++ post)) by (rewrite <- app_assoc, !fmap_app; rewrite fmap_app in Hnd; exact Hnd).
  destruct (IH fresh' (pre ++ [set_children ch' c]) (mpre ++ [m]) mpost) as (post' & f'' & E & Hle' & Hsh' & Hid');
    [done| | |].
  - apply Forall2_app; [|constructor; [apply shows_matrix_bands; [by eapply prepared_mono|done|done]|constructor]].
    eapply Forall2_impl; [exact Hpre|]. intros ??. by apply shows_matrix_mono.
  - eapply Forall2_impl; [exact Hpost'|]. intros ??. by apply prepared_mono.
  - exists (set_children ch' c :: post'), f''. rewrite <- !app_assoc in E, Hsh'. cbn [app] in E, Hsh'.
    split_and!; [exact E|lia|exact Hsh'|]. cbn. by rewrite Hid'.
Qed.

Lemma remove_nodes_nil ch : remove_nodes [] ch = ch.
Proof. apply filter_Forall_true, Forall_forall. intros c _. apply not_elem_of_nil. Qed.

Lemma keys_at_matrix i ms :
  keys_at instr_key i (DInstr ∘ IMatrix <$> ms) = edge_key <$> (mi_id <$> ms).
Proof. induction ms as [|m ms IH] in i |- *; simpl; [done|]. by rewrite IH. Qed.

Lemma transform_prepared fresh m c :
  e_tag c = "g" → e_class c = Some "matrix-edge" → e_datum c = DInstr (IMatrix m) →
  Forall (λ x, e_tag x = "path") (e_children c) → ids_below fresh (e_children c) →
  prepared fresh m (transform_fn (DInstr (IMatrix m)) c).
Proof.
  intros Ht Hc Hd Hp Hb. unfold prepared, transform_fn, attr_fn. cbn [e_tag e_class e_datum e_attrs e_children set_attr instr_transform].
  split_and!; try done. by rewrite jget_set_prop_eq.
Qed.

(** The groups a first draw appends, with their transform. *)
Lemma prepared_new f fresh ms :
  let ds := DInstr <$> (IMatrix <$> ms) in
  Forall2 (prepared f) ms
    (zip_with (λ c d, foldl (λ e f, f d e) c [transform_fn])
       (zip_with (λ i d, El i "g" (Some "matrix-edge") d [] [] []) (seq fresh (List.length ds)) ds) ds).
Proof.
  induction ms as [|m ms IH] in fresh |- *; simpl; constructor.
  - apply transform_prepared; try done. split; constructor.
  - exact (IH (S fresh)).
Qed.

(** The first draw of a matrix layer, on an empty group: one new cell
    group per instruction, each with its bands. *)
Lemma drawSegments_matrix_first fresh ms :
  ∃ ch fresh', drawSegments (Some MMatrix) fresh [] (IMatrix <$> ms) = (ch, fresh', None) ∧
               fresh + List.length ms ≤ fresh' ∧ drawn_matrix ms fresh' ch.
Proof.
  unfold drawSegments. rewrite decide_True by done. cbv zeta.
  set (ds := DInstr <$> (IMatrix <$> ms)).
  assert (Hlen : List.length ds = List.length ms) by (subst ds; by rewrite !length_fmap).
  assert (Hu : bindKey instr_key (filter is_matrix_edge []) ds = (λ _, None) <$> ds) by apply bind_data_none.
  rewrite Hu, enter_append_all, app_nil_l.
  set (news := zip_with (λ i d, El i "g" (Some "matrix-edge") d [] [] []) (seq fresh (List.length ds)) ds).
  assert (Hids : e_id <$> news = seq fresh (List.length ds)) by (apply zip_with_new_ids; by rewrite length_seq).
  assert (Hln : List.length ds = List.length news) by (by rewrite <- (length_fmap e_id news), Hids, length_seq).
  assert (Hex : exit_nodes (filter is_matrix_edge []) ((λ _, None) <$> ds) = []) by done.
  rewrite Hex, remove_nodes_nil. rewrite <- Hids.
  assert (Hnd : NoDup (e_id <$> news)) by (rewrite Hids; apply NoDup_seq).
  assert (Hsel : NoDup (zip (e_id <$> news) ds).*1) by (rewrite zip_fst by (rewrite length_fmap; lia); done).
  change [attr_of "transform" instr_transform] with (pure <$> [transform_fn]).
  rewrite run_chain_pure by first [done | repeat constructor]. cbn [fst].
  rewrite sel_apply_zip by (done || lia).
  set (P := zip_with _ news ds).
  assert (HP : e_id <$> P = e_id <$> news) by (apply zip_with_foldl_ids; [repeat constructor|lia]).
  rewrite <- HP.
  destruct (each_matrix_spec (fresh + List.length ds) [] P [] ms) as (P' & f' & E & Hle & Hsh & Hid').
  { rewrite app_nil_l, HP. done. }
  { constructor. }
  { apply (prepared_new _ fresh ms). }
  exists P', f'. split_and!; [exact E|lia|]. split; [exact Hsh|]. split.
  - by rewrite Hid', HP.
  - apply (Forall_ids (λ i, i < f')). rewrite Hid', HP, Hids. intros x Hx. apply elem_of_seq in Hx. lia.
Qed.

Lemma prepared_redraw fresh ms ms' ch :
  Forall2 (shows_matrix fresh) ms ch → List.length ms' = List.length ms →
  Forall2 (prepared fresh) ms'
    (zip_with (λ c d, foldl (λ e f, f d e) c ([set_datum] ++ [transform_fn])) ch (DInstr <$> (IMatrix <$> ms'))).
Proof.
  intros H. induction H as [|m c ms ch ((Ht & Hc & _ & _ & Hp & Hb) & _) _ IH] in ms' |- *;
    destruct ms' as [|m' ms']; intros Hlen; simpl in *; try lia; constructor; [|apply IH; lia].
  by apply transform_prepared.
Qed.

Lemma shows_matrix_datums fresh ms ch :
  Forall2 (shows_matrix fresh) ms ch → e_datum <$> ch = DInstr <$> (IMatrix <$> ms).
Proof. induction 1 as [|m c ms ch ((_ & _ & Hd & _) & _) _ IH]; [done|]. rewrite !fmap_cons, Hd, IH. done. Qed.

Lemma shows_matrix_filter fresh ms ch : Forall2 (shows_matrix fresh) ms ch → filter is_matrix_edge ch = ch.
Proof.
  induction 1 as [|m c ms ch ((Ht & Hc & _) & _) _ IH]; [done|].
  rewrite filter_cons_True; [by f_equal|]. unfold is_matrix_edge. by rewrite bool_decide_true.
Qed.

(** A redraw of a drawn matrix layer with instructions of the same ids:
    every cell group takes its new instruction in place and redraws its
    bands; no group is created or removed. *)
Lemma drawSegments_matrix_redraw fresh ch ms ms' :
  drawn_matrix ms fresh ch → mi_id <$> ms' = mi_id <$> ms → NoDup (mi_id <$> ms) →
  ∃ ch' fresh', drawSegments (Some MMatrix) fresh ch (IMatrix <$> ms') = (ch', fresh', None) ∧
                fresh ≤ fresh' ∧ drawn_matrix ms' fresh' ch' ∧ e_id <$> ch' = e_id <$> ch.
Proof.
  intros (Hsh & Hnd & Hlt) Hids Hndp. unfold drawSegments. rewrite decide_True by done. cbv zeta.
  set (ds := DInstr <$> (IMatrix <$> ms')).
  assert (Hlp : List.length ms' = List.length ms) by (rewrite <- (length_fmap mi_id ms'), Hids; apply length_fmap).
  assert (Hlc : List.length ds = List.length ch) by (subst ds; rewrite !length_fmap, Hlp; by eapply Forall2_length).
  assert (Hu : bindKey instr_key (filter is_matrix_edge ch) ds = Some <$> ch).
  { rewrite (shows_matrix_filter fresh ms) by done. unfold bindKey.
    rewrite first_by_key_nil; rewrite (shows_matrix_datums fresh ms ch), <- list_fmap_compose,
      keys_at_matrix by done; [|apply (NoDup_fmap_2 edge_key); exact Hndp].
    apply bind_data_match; [apply (NoDup_fmap_2 edge_key); exact Hndp | | ].
    - rewrite !length_fmap. by eapply Forall2_length.
    - subst ds. by rewrite <- list_fmap_compose, keys_at_matrix, Hids. }
  assert (Hsel : NoDup (zip (e_id <$> ch) ds).*1) by (rewrite zip_fst by (rewrite length_fmap; lia); done).
  rewrite Hu, enter_append_none by lia. rewrite fold_modify by (done || by intros ??).
  assert (Hex : exit_nodes (filter is_matrix_edge ch) (Some <$> ch) = []).
  { rewrite (shows_matrix_filter fresh ms) by done. unfold exit_nodes. rewrite omap_some.
    apply filter_Forall_false. apply (Forall_ids (λ i, ¬ (i ∉ e_id <$> ch))). intros x Hx Hn. by apply Hn. }
  rewrite Hex, remove_nodes_nil.
  change [attr_of "transform" instr_transform] with (pure <$> [transform_fn]).
  rewrite run_chain_pure by first [done | repeat constructor]. cbn [fst].
  rewrite sel_apply2_zip by first [done | lia | repeat constructor].
  set (P := zip_with _ ch ds).
  assert (HP : e_id <$> P = e_id <$> ch) by (apply zip_with_foldl_ids; [repeat constructor|lia]).
  rewrite <- HP.
  destruct (each_matrix_spec fresh [] P [] ms') as (P' & f' & E & Hle & Hsh' & Hid').
  { rewrite app_nil_l, HP. done. }
  { constructor. }
  { by apply (prepared_redraw fresh ms). }
  exists P', f'. split_and!; [exact E|lia| |by rewrite Hid', HP]. split; [exact Hsh'|]. split.
  - by rewrite Hid', HP.
  - apply (Forall_ids (λ i, i < f')). rewrite Hid', HP. intros x (c & -> & Hc)%list_elem_of_fmap.
    eapply (Forall_forall (λ c, e_id c < fresh)) in Hc; [|exact Hlt]. cbn in Hc. lia.
Qed.

End MatrixLemmas.

Lemma matrix_redraws_drawn n fresh ch (ms : list matrix_instr) (rounds : list (list matrix_instr)) :
  drawn_matrix ms fresh ch → mi_id <$> ms = seq 0 n →
  Forall (λ ms' : list matrix_instr, mi_id <$> ms' = seq 0 n) rounds →
  ∃ ch' fresh', redraws (Some MMatrix) fresh ch ((λ ms' : list matrix_instr, IMatrix <$> ms') <$> rounds) =
                (ch', fresh', None) ∧ drawn_matrix (default ms (last rounds)) fresh' ch'.
Proof.
  intros Hd Hms Hr. induction Hr as [|ms' rounds Hms' _ IH] in ms, ch, fresh, Hd, Hms |- *.
  { by exists ch, fresh. }
  destruct (drawSegments_matrix_redraw fresh ch ms ms') as (ch1 & f1 & E & _ & Hd1 & _);
    [done | by rewrite Hms, Hms' | rewrite Hms; apply NoDup_seq |].
  simpl. rewrite E. destruct (IH f1 ch1 ms' Hd1 Hms') as (ch' & f' & E' & Hd').
  exists ch', f'. split; [done|]. destruct rounds as [|l rounds]; [exact Hd'|].
  change (last (ms' :: l :: rounds)) with (last (l :: rounds)).
  destruct (last (l :: rounds)) eqn:El; [exact Hd'|]. by apply last_None in El.
Qed.

(** C19: A matrix layer's group, after its first [redraw()] and any
    number of redraws on [moveend] and [zoomend] (each with the [n]
    instructions [edge-0] to [edge-(n-1)]), holds exactly one
    [g.matrix-edge] group per edge, in edge order, each showing the last
    instruction drawn: its transform, and exactly one path per colour
    band of its [dByColor], however many bands earlier redraws had
    (the bands no longer present are removed by [paths.exit().remove()]). *)
Theorem matrix_redraws_one_group_per_edge n (rounds : list (list matrix_instr)) (ms : list matrix_instr) :
  Forall (λ ms' : list matrix_instr, mi_id <$> ms' = seq 0 n) (rounds ++ [ms]) →
  ∃ ch fresh, redraws (Some MMatrix) 0 [] ((λ ms' : list matrix_instr, IMatrix <$> ms') <$> (rounds ++ [ms])) =
              (ch, fresh, None) ∧ Forall2 (shows_matrix fresh) ms ch.
Proof.
  intros Hall. destruct rounds as [|ms0 rounds].
  - cbn [app] in Hall. rewrite Forall_singleton in Hall.
    destruct (drawSegments_matrix_first 0 ms) as (ch & f & E & _ & Hsh & _).
    exists ch, f. simpl. by rewrite E.
  - inversion Hall as [|? ? Hms0 Hrest]; subst. cbv beta in Hms0.
    destruct (drawSegments_matrix_first 0 ms0) as (ch0 & f0 & E0 & _ & Hd0).
    destruct (matrix_redraws_drawn n f0 ch0 ms0 (rounds ++ [ms])) as (ch & f & E & Hd); [done..|].
    exists ch, f. simpl. rewrite E0. split; [exact E|].
    rewrite last_app in Hd. apply Hd.
Qed.

(** Edge 0 drawn with two colour bands, then redrawn with one: the
    stale band path is removed. *)
Lemma matrix_redraws_one_group_per_edge_witness :
  ∃ ch fresh, redraws (Some MMatrix) 0 []
      ((λ ms' : list matrix_instr, IMatrix <$> ms') <$>
         ([[witness_matrix [(Gray, [PM 0 0]); (RgbColor (mkRgb 0 0 0), [PM 1 1])]]] ++
          [[witness_matrix [(Gray, [PM 2 2])]]])) = (ch, fresh, None) ∧
    Forall2 (shows_matrix fresh) [witness_matrix [(Gray, [PM 2 2])]] ch.
Proof. apply matrix_redraws_one_group_per_edge with (n := 1). repeat constructor. Defined.
