(* ===== verification/Panes.v ===== *)
(** * Panes: Leaflet's panes and the [svg] containers of the layers ([MapVisualization.tsx], [mapHelpers.ts])

    Every layer draws into a [<g>] group of an [<svg>] container, the
    container of an [L.svg()] renderer added to the map, in a pane: the
    [overlayPane] for centred segment layers and node layers, a pane
    [`${alignment}-${orientation}`] created by [createPaneIfNeeded] for
    the others, and the [mimicStreetPane] the map's initializer creates
    for the mimic streets.

    The state is the map's DOM as these functions change it: the panes
    (their inline [z-index] and their containers in document order), the
    groups of each container, the children of each group (in [Dom]'s
    elements), the renderers on the map ([map.hasLayer]) and
    [currentLayersRef.current].  A renderer removed with
    [map.removeLayer] runs its [onRemove]: Leaflet's removes the
    container from the DOM; the one [renderNodeLayer] installs only
    unbinds the redraw.  d3's [selection.remove()] detaches a container
    without telling Leaflet.  The identities of renderers, containers and
    groups come from one counter. *)

From S2P Require Import Prelude Geometry Spec Style Builder Dom.
Open Scope nat_scope.

(** ** State *)

(** What [map.removeLayer] runs: Leaflet's [Renderer.onRemove], or the
    [onRemove] of [renderNodeLayer] ([map.off] only). *)
Inductive on_remove := OnRemoveLeaflet | OnRemoveUnbindOnly.

#[export] Instance on_remove_eq_dec : EqDecision on_remove.
Proof. solve_decision. Defined.

(** An [L.svg({pane})] renderer; its container has the renderer's id. *)
Record renderer := mkRenderer { r_id : nat; r_pane : string; r_onRemove : on_remove }.

#[export] Instance renderer_eq_dec : EqDecision renderer.
Proof. solve_decision. Defined.

(** A pane: the inline [style.zIndex] and its [svg] children in order. *)
Record pane := mkPane { p_zIndex : option string; p_svgs : list nat }.

Record mapdom := mkMapDom {
  d_panes : gmap string pane;
  d_svg_groups : gmap nat (list nat);
  d_groups : gmap nat (list elem);
  d_layers : list renderer;
  d_current : list renderer;
  d_next : nat
}.

(** The panes [L.map] creates ([_initPanes]); their [z-index] comes
    from Leaflet's stylesheet, not from an inline style. *)
Definition leaflet_panes : gmap string pane :=
  list_to_map ((λ n, (n, mkPane None [])) <$>
    ["mapPane"; "tilePane"; "overlayPane"; "shadowPane"; "markerPane"; "tooltipPane"; "popupPane"]).

(** [L.map(mapContainer)] in [initializeMap]. *)
Definition map_created : mapdom :=
  {| d_panes := leaflet_panes; d_svg_groups := ∅; d_groups := ∅; d_layers := []; d_current := []; d_next := 0 |}.

Definition set_panes (ps : gmap string pane) (d : mapdom) : mapdom :=
  mkMapDom ps (d_svg_groups d) (d_groups d) (d_layers d) (d_current d) (d_next d).

(** [map.createPane(name)] then [map.getPane(name)!.style.zIndex = z]. *)
Definition createPane (name zIndex : string) (d : mapdom) : mapdom :=
  set_panes (<[name := mkPane (Some zIndex) []]> (d_panes d)) d.

(** [createPaneIfNeeded(map, paneName)] *)
Definition createPaneIfNeeded (paneName : string) (d : mapdom) : mapdom :=
  match d_panes d !! paneName with
  | Some _ => d
  | None => createPane paneName "400" d
  end.

(** The map initializer after [initializeMap]:
    [mapInstance.createPane("mimicStreetPane")] with [zIndex = "350"]. *)
Definition map_init_panes (d : mapdom) : mapdom := createPane "mimicStreetPane" "350" d.

(** The mimic effect's [if (!map.getPane('mimicStreetPane'))] with
    [zIndex = '450']. *)
Definition mimic_pane_check (d : mapdom) : mapdom :=
  match d_panes d !! "mimicStreetPane" with
  | Some _ => d
  | None => createPane "mimicStreetPane" "450" d
  end.

(** ** Containers and groups *)

Definition alignment_str (a : option alignment) : string :=
  match a with Some ALeft => "left" | Some ACenter => "center" | Some ARight => "right" | None => "undefined" end.

Definition orientation_str (o : option orientation) : string :=
  match o with
  | Some OParallel => "parallel" | Some OPerpendicular => "perpendicular" | Some OFixed => "fixed"
  | None => "undefined"
  end.

(** [layerSpec.unit.alignment === 'center' ? 'overlayPane'
    : `${layerSpec.unit.alignment}-${layerSpec.unit.orientation}`] *)
Definition segment_pane (u : unit_spec) : string :=
  if decide (u_alignment u = Some ACenter) then "overlayPane"
  else alignment_str (u_alignment u) +:+ "-" +:+ orientation_str (u_orientation u).

Definition update_pane (name : string) (f : pane → pane) (d : mapdom) : mapdom :=
  set_panes (alter f name (d_panes d)) d.

(** [d3.select(map.getPanes()[paneName]).selectAll('svg').remove()] *)
Definition remove_pane_svgs (name : string) (d : mapdom) : mapdom :=
  update_pane name (λ p, mkPane (p_zIndex p) []) d.

(** [L.svg({pane}).addTo(map)]: a renderer whose container is appended
    to the pane, and which the map holds. *)
Definition add_renderer (paneName : string) (d : mapdom) : mapdom * renderer :=
  let r := {| r_id := d_next d; r_pane := paneName; r_onRemove := OnRemoveLeaflet |} in
  let d1 := update_pane paneName (λ p, mkPane (p_zIndex p) (p_svgs p ++ [r_id r])) d in
  (mkMapDom (d_panes d1) (<[r_id r := []]> (d_svg_groups d1)) (d_groups d1) (d_layers d1 ++ [r])
     (d_current d1) (S (d_next d1)), r).

(** [d3.select(pane).select('svg')]: the pane's first container. *)
Definition first_svg (name : string) (d : mapdom) : option nat :=
  d_panes d !! name ≫= λ p, head (p_svgs p).

(** [.append('g')] on a container: a new group at its end. *)
Definition append_group (s : nat) (d : mapdom) : mapdom * nat :=
  let g := d_next d in
  (mkMapDom (d_panes d) (alter (λ gs, gs ++ [g]) s (d_svg_groups d)) (<[g := []]> (d_groups d))
     (d_layers d) (d_current d) (S g), g).

(** [svg.selectAll('g.leaflet-zoom-hide').data([null]).join('g')]: the
    container's first such group, or a new one. *)
Definition join_group (s : nat) (d : mapdom) : mapdom * nat :=
  match d_svg_groups d !! s ≫= head with
  | Some g => (d, g)
  | None => append_group s d
  end.

(** The group's children, as a drawing leaves them. *)
Definition set_group (g : nat) (ch : list elem) (d : mapdom) : mapdom :=
  mkMapDom (d_panes d) (d_svg_groups d) (<[g := ch]> (d_groups d)) (d_layers d) (d_current d) (d_next d).

Definition set_current (rs : list renderer) (d : mapdom) : mapdom :=
  mkMapDom (d_panes d) (d_svg_groups d) (d_groups d) (d_layers d) rs (d_next d).

(** ** The layers' operations *)

(** [renderSegmentLayer] up to [await loadSegmentData]: the pane, its
    containers removed, a new renderer, and the group of the pane's
    first container.  Returns the renderer and the group [redraw] draws
    into. *)
Definition segment_layer_start (u : unit_spec) (d : mapdom) : mapdom * renderer * option nat :=
  let paneName := segment_pane u in
  let d1 := remove_pane_svgs paneName (createPaneIfNeeded paneName d) in
  let '(d2, r) := add_renderer paneName d1 in
  match first_svg paneName d2 with
  | Some s => let '(d3, g) := join_group s d2 in (d3, r, Some g)
  | None => (d2, r, None)
  end.

(** After the load of a segment layer without chart: [redraw()] (its
    drawing, or the exception it threw, which the [catch] swallows
    before the renderer is recorded), then
    [currentLayersRef.current.push(svgLayer)].  A chart layer records
    nothing. *)
Definition segment_layer_loaded (chart : bool) (r : renderer) (g : nat) (redraw : res (list elem))
    (d : mapdom) : mapdom :=
  if chart then d else
  match redraw with
  | Ok ch => set_current (d_current d ++ [r]) (set_group g ch d)
  | Throw _ => d
  end.

(** [renderNodeLayer] after [await loadNodeData]: [L.svg().addTo(map)]
    in the [overlayPane], a new group in the pane's first container,
    [await redraw()] (the group emptied, then drawn), and, when it did
    not throw, the [onRemove] that only unbinds and
    [currentLayersRef.current.push(svgLayer)]. *)
Definition node_layer_loaded (redraw : list elem → list elem * option exn) (d : mapdom) : mapdom :=
  let '(d1, r) := add_renderer "overlayPane" d in
  match first_svg "overlayPane" d1 with
  | Some s =>
      let '(d2, g) := append_group s d1 in
      let '(ch, e) := redraw [] in
      let d3 := set_group g ch d2 in
      match e with
      | None =>
          let r' := {| r_id := r_id r; r_pane := r_pane r; r_onRemove := OnRemoveUnbindOnly |} in
          set_current (d_current d3 ++ [r'])
            (mkMapDom (d_panes d3) (d_svg_groups d3) (d_groups d3)
               ((λ x, if decide (x = r) then r' else x) <$> d_layers d3) (d_current d3) (d_next d3))
      | Some _ => d3
      end
  | None => d1
  end.

(** [map.removeLayer(layer)] when [map.hasLayer(layer)]: the map drops
    it and runs its [onRemove]. *)
Definition map_removeLayer (r : renderer) (d : mapdom) : mapdom :=
  if decide (r ∈ d_layers d) then
    let d1 := mkMapDom (d_panes d) (d_svg_groups d) (d_groups d) (filter (λ x, x ≠ r) (d_layers d))
                (d_current d) (d_next d) in
    match r_onRemove r with
    | OnRemoveLeaflet => update_pane (r_pane r) (λ p, mkPane (p_zIndex p) (filter (λ s, s ≠ r_id r) (p_svgs p))) d1
    | OnRemoveUnbindOnly => d1
    end
  else d.

(** The render effect's cleanup: [map.removeLayer] on every layer of
    [currentLayersRef], then [currentLayersRef.current = []]. *)
Definition render_cleanup (d : mapdom) : mapdom :=
  set_current [] (fold_left (λ d r, map_removeLayer r d) (d_current d) d).

(** ** What is on screen *)

(** A container is on screen when a pane holds it. *)
Definition attached (d : mapdom) (s : nat) : Prop :=
  ∃ name p, d_panes d !! name = Some p ∧ s ∈ p_svgs p.

(** Witness data: a segment unit drawn on the left, parallel to the
    street, and a node layer's redraw that draws one circle. *)
Definition witness_left_unit : unit_spec :=
  {| u_type := USegment; u_density := None; u_method := Some MLine; u_opacity := None; u_color := None;
     u_squiggle := None; u_dash := None; u_width := None; u_height := None; u_chart := None;
     u_rows := None; u_columns := None; u_orientation := Some OParallel; u_alignment := Some ALeft |}.

Definition witness_node_redraw (ch : list elem) : list elem * option exn :=
  (ch ++ [El 0 "circle" (Some "nodeShape") DNull [] [] []], None).

(** The groups of a container. *)
Definition groups_of (d : mapdom) (s : nat) : list nat := default [] (d_svg_groups d !! s).

(** A group is on screen when its container is. *)
Definition displayed (d : mapdom) (g : nat) : Prop := ∃ s, attached d s ∧ g ∈ groups_of d s.

(** ** The DOM operations of a session *)

(** Every change the render code makes to the map's DOM, in any order
    the effects, loads and events interleave them. *)
Inductive dom_step : mapdom → mapdom → Prop :=
  | dstep_segment u d : dom_step d (segment_layer_start u d).1.1
  | dstep_segment_loaded chart r g ch d : r ∈ d_layers d → dom_step d (segment_layer_loaded chart r g ch d)
  | dstep_node_loaded redraw d : dom_step d (node_layer_loaded redraw d)
  | dstep_redraw g ch d : is_Some (d_groups d !! g) → dom_step d (set_group g ch d)
  | dstep_cleanup d : dom_step d (render_cleanup d)
  | dstep_mimic d : dom_step d (mimic_pane_check d).

(** The map once its initializer ran. *)
Definition dom_init : mapdom := map_init_panes map_created.

Definition dom_reachable (d : mapdom) : Prop := rtc dom_step dom_init d.

(** * Properties *)

(** How the DOM may change: the counter grows; a container or group on
    screen later is on screen now or new; a pane keeps its [z-index]. *)
Record dom_le (d d' : mapdom) : Prop := {
  le_next : d_next d ≤ d_next d';
  le_attached : ∀ s, attached d' s → attached d s ∨ (d_next d ≤ s < d_next d');
  le_groups : ∀ s g, g ∈ groups_of d' s → g ∈ groups_of d s ∨ (d_next d ≤ g < d_next d');
  le_panes : ∀ name p, d_panes d !! name = Some p →
             ∃ p', d_panes d' !! name = Some p' ∧ p_zIndex p' = p_zIndex p
}.

(** The identities in use are below the counter. *)
Definition dom_wf (d : mapdom) : Prop :=
  (∀ s, attached d s → s < d_next d) ∧ (∀ s g, g ∈ groups_of d s → g < d_next d).

(** The recorded layers are on the map, under identities in use. *)
Definition layers_wf (d : mapdom) : Prop :=
  (∀ r, r ∈ d_current d → r ∈ d_layers d) ∧ (∀ r, r ∈ d_layers d → r_id r < d_next d).

Section PanesLemmas.

#[local] Instance dom_le_preorder : PreOrder dom_le.
Proof.
  split.
  - intros d. split; [lia | by left | by left | naive_solver].
  - intros d1 d2 d3 [N12 A12 G12 P12] [N23 A23 G23 P23]. split.
    + lia.
    + intros s Hs. destruct (A23 s Hs) as [H|H]; [destruct (A12 s H)|]; [by left | right; lia | right; lia].
    + intros s g Hg. destruct (G23 s g Hg) as [H|H]; [destruct (G12 s g H)|]; [by left | right; lia | right; lia].
    + intros name p Hp. destruct (P12 name p Hp) as (p2 & H2 & Z2). destruct (P23 name p2 H2) as (p3 & H3 & Z3).
      exists p3. by rewrite Z3.
Qed.

Lemma dom_le_same d d' :
  d_next d = d_next d' → d_panes d = d_panes d' → d_svg_groups d = d_svg_groups d' → dom_le d d'.
Proof.
  intros Hn Hp Hs. split; [lia| |intros s g; unfold groups_of; rewrite <- Hs; by left|].
  - intros s (name & p & H & Hin). left. exists name, p. by rewrite Hp.
  - intros name p H. exists p. by rewrite <- Hp.
Qed.

(** A pane changed by [f] that keeps its [z-index] and its containers
    or a subset of them. *)
Lemma update_pane_le name f d :
  (∀ p, p_zIndex (f p) = p_zIndex p) → (∀ p s, s ∈ p_svgs (f p) → s ∈ p_svgs p) →
  dom_le d (update_pane name f d).
Proof.
  intros Hz Hs. unfold update_pane, set_panes. split; cbn; [lia| | by left |].
  - intros s (name' & p' & Hp' & Hin). cbn in Hp'. left. apply lookup_alter_Some in Hp' as [(<- & p & Hp & ->)|(_ & Hp)].
    + exists name, p. split; [done|]. by apply Hs.
    + by exists name', p'.
  - intros name' p Hp. cbn. destruct (decide (name = name')) as [<-|Hne].
    + exists (f p). rewrite lookup_alter_eq, Hp. split; [done|apply Hz].
    + exists p. by rewrite lookup_alter_ne.
Qed.

Lemma createPane_le name z d : d_panes d !! name = None → dom_le d (createPane name z d).
Proof.
  intros Hnone. unfold createPane, set_panes. split; cbn; [lia| | by left |].
  - intros s (name' & p' & Hp' & Hin). cbn in Hp'. apply lookup_insert_Some in Hp' as [(<- & <-)|(_ & Hp)].
    + by apply not_elem_of_nil in Hin.
    + left. by exists name', p'.
  - intros name' p Hp. exists p. rewrite lookup_insert_ne; [done|]. congruence.
Qed.

Lemma createPaneIfNeeded_le name d : dom_le d (createPaneIfNeeded name d).
Proof. unfold createPaneIfNeeded. destruct (d_panes d !! name) eqn:E; [done|]. by apply createPane_le. Qed.

Lemma mimic_pane_check_le d : dom_le d (mimic_pane_check d).
Proof. unfold mimic_pane_check. destruct (d_panes d !! _) eqn:E; [done|]. by apply createPane_le. Qed.

Lemma add_renderer_le name d :
  dom_le d (add_renderer name d).1 ∧ d_next (add_renderer name d).1 = S (d_next d) ∧
  r_id (add_renderer name d).2 = d_next d.
Proof.
  split_and!; [|done|done]. unfold add_renderer, update_pane, set_panes. split; cbn; [lia| | |].
  - intros s (name' & p' & Hp' & Hin). cbn in Hp'. apply lookup_alter_Some in Hp' as [(<- & p & Hp & ->)|(_ & Hp)].
    + simpl in Hin. apply elem_of_app in Hin as [Hin|Hin]; [left; by exists name, p|].
      apply list_elem_of_singleton in Hin as ->. right. lia.
    + left. by exists name', p'.
  - intros s g. unfold groups_of. cbn. rewrite lookup_insert. case_decide; [simpl; set_solver|by left].
  - intros name' p Hp. cbn. destruct (decide (name = name')) as [<-|Hne].
    + exists (mkPane (p_zIndex p) (p_svgs p ++ [d_next d])). by rewrite lookup_alter_eq, Hp.
    + exists p. by rewrite lookup_alter_ne.
Qed.

Lemma append_group_le s d :
  dom_le d (append_group s d).1 ∧ d_next (append_group s d).1 = S (d_next d) ∧ (append_group s d).2 = d_next d.
Proof.
  split_and!; [|done|done]. split; cbn; [lia | intros s' Hs'; left; done | |naive_solver].
  intros s' g. unfold groups_of. cbn. rewrite lookup_alter. case_decide as Hs; [|by left].
  subst s'. destruct (d_svg_groups d !! s) as [gs|]; simpl; [|set_solver].
  rewrite elem_of_app, list_elem_of_singleton. intros [H| ->]; [by left|right; lia].
Qed.

Lemma join_group_le s d : dom_le d (join_group s d).1.
Proof. unfold join_group. destruct (_ ≫= head); [done|]. apply append_group_le. Qed.

Lemma set_group_le g ch d : dom_le d (set_group g ch d).
Proof. by apply dom_le_same. Qed.

Lemma set_current_le rs d : dom_le d (set_current rs d).
Proof. by apply dom_le_same. Qed.

Lemma removeLayer_le r d : dom_le d (map_removeLayer r d).
Proof.
  unfold map_removeLayer. case_decide; [|done]. destruct (r_onRemove r).
  - etrans; [|apply update_pane_le; [done|]]; [by apply dom_le_same|].
    intros p s. cbn. rewrite list_elem_of_filter. naive_solver.
  - by apply dom_le_same.
Qed.

Lemma render_cleanup_le d : dom_le d (render_cleanup d).
Proof.
  unfold render_cleanup. etrans; [|apply set_current_le].
  generalize (d_current d). intros rs. induction rs as [|r rs IH] in d |- *; [done|]. simpl.
  etrans; [apply removeLayer_le|apply IH].
Qed.

Lemma segment_layer_start_le u d : dom_le d (segment_layer_start u d).1.1.
Proof.
  unfold segment_layer_start. cbv zeta.
  set (d1 := remove_pane_svgs _ (createPaneIfNeeded _ d)).
  assert (H1 : dom_le d d1).
  { etrans; [apply createPaneIfNeeded_le|]. apply update_pane_le; [done|]. intros p s. cbn. set_solver. }
  destruct (add_renderer_le (segment_pane u) d1) as (H2 & _).
  destruct (add_renderer _ d1) as [d2 r]. cbn in H2.
  destruct (first_svg _ d2) as [s|]; [|simpl; by etrans].
  pose proof (join_group_le s d2) as H3. destruct (join_group s d2) as [d3 g]. simpl in *. by do 2 (etrans; [eassumption|]).
Qed.

Lemma segment_layer_loaded_le chart r g ch d : dom_le d (segment_layer_loaded chart r g ch d).
Proof.
  unfold segment_layer_loaded. destruct chart; [done|]. destruct ch; [|done].
  etrans; [apply set_group_le|apply set_current_le].
Qed.

Lemma node_layer_loaded_le redraw d : dom_le d (node_layer_loaded redraw d).
Proof.
  unfold node_layer_loaded. destruct (add_renderer_le "overlayPane" d) as (H1 & _).
  destruct (add_renderer _ d) as [d1 r]. cbn in H1.
  destruct (first_svg _ d1) as [s|]; [|done].
  destruct (append_group_le s d1) as (H2 & _). destruct (append_group s d1) as [d2 g]. cbn in H2.
  destruct (redraw []) as [ch [e|]].
  - etrans; [exact H1|]. etrans; [exact H2|]. apply set_group_le.
  - etrans; [exact H1|]. etrans; [exact H2|]. etrans; [apply (set_group_le g ch)|].
    etrans; [|apply set_current_le]. by apply dom_le_same.
Qed.

Lemma dom_step_le d d' : dom_step d d' → dom_le d d'.
Proof.
  destruct 1; try apply segment_layer_loaded_le; auto using segment_layer_start_le, segment_layer_loaded_le, node_layer_loaded_le,
    set_group_le, render_cleanup_le, mimic_pane_check_le.
Qed.

Lemma rtc_dom_step_le d d' : rtc dom_step d d' → dom_le d d'.
Proof. induction 1 as [|d1 d2 d3 H _ IH]; [done|]. etrans; [by apply dom_step_le|done]. Qed.

Lemma dom_le_wf d d' : dom_le d d' → dom_wf d → dom_wf d'.
Proof.
  intros [N A G _] [W1 W2]. split.
  - intros s Hs. destruct (A s Hs) as [H|H]; [specialize (W1 s H)|]; lia.
  - intros s g Hg. destruct (G s g Hg) as [H|H]; [specialize (W2 s g H)|]; lia.
Qed.

Lemma dom_init_panes name p : d_panes dom_init !! name = Some p → p_svgs p = [].
Proof.
  cbn. intros Hp. repeat (apply lookup_insert_Some in Hp as [(_ & <-)|(_ & Hp)]; [done|]).
  by rewrite lookup_empty in Hp.
Qed.

Lemma dom_init_wf : dom_wf dom_init.
Proof.
  split.
  - intros s (name & p & Hp & Hin). rewrite (dom_init_panes name p Hp) in Hin. set_solver.
  - intros s g. unfold groups_of. cbn. rewrite lookup_empty. set_solver.
Qed.

Lemma reachable_le d : dom_reachable d → dom_le dom_init d ∧ dom_wf d.
Proof. intros Hr. apply rtc_dom_step_le in Hr. split; [done|]. by eapply dom_le_wf, dom_init_wf. Qed.

Lemma createPaneIfNeeded_spec name d :
  is_Some (d_panes (createPaneIfNeeded name d) !! name) ∧
  (∀ name', name' ≠ name → d_panes (createPaneIfNeeded name d) !! name' = d_panes d !! name') ∧
  d_next (createPaneIfNeeded name d) = d_next d ∧ d_svg_groups (createPaneIfNeeded name d) = d_svg_groups d.
Proof.
  unfold createPaneIfNeeded. destruct (d_panes d !! name) eqn:E; [rewrite E; by split_and!|].
  unfold createPane, set_panes; cbn [d_panes d_next d_svg_groups]. split_and!; [by rewrite lookup_insert_eq | intros n' Hn; rewrite lookup_insert_ne; [done|congruence] | done | done].
Qed.

(** The synchronous part of a segment layer: its container, numbered
    [d_next d], becomes the only one of its pane, and holds one new
    group; nothing else changes on screen. *)
Lemma segment_layer_start_spec u d d1 r og :
  segment_layer_start u d = (d1, r, og) →
  og = Some (S (d_next d)) ∧ r_id r = d_next d ∧ d_next d1 = S (S (d_next d)) ∧
  (∀ name, name ≠ segment_pane u → d_panes d1 !! name = d_panes d !! name) ∧
  p_svgs <$> d_panes d1 !! segment_pane u = Some [d_next d] ∧
  (∀ s, groups_of d1 s = if decide (s = d_next d) then [S (d_next d)] else groups_of d s).
Proof.
  unfold segment_layer_start. set (P := segment_pane u).
  destruct (createPaneIfNeeded_spec P d) as ([p0 Hp0] & Hother & Hn0 & Hg0).
  set (d0 := createPaneIfNeeded P d) in *. clearbody d0.
  unfold remove_pane_svgs, update_pane, set_panes, add_renderer, first_svg; cbn.
  rewrite !lookup_alter_eq, Hp0. cbn.
  unfold join_group, append_group. cbn. rewrite lookup_insert_eq. cbn.
  intros [= <- <- <-]. cbn. rewrite !Hn0. split_and!; [done|done|done| | |].
  - intros name Hne. rewrite !lookup_alter_ne by done. by apply Hother.
  - by rewrite !lookup_alter_eq, Hp0.
  - intros s. unfold groups_of. cbn. rewrite Hg0, lookup_alter. case_decide as Hs.
    + subst s. rewrite lookup_insert_eq. by rewrite decide_True.
    + rewrite lookup_insert_ne by done. by rewrite decide_False.
Qed.

(** A container off screen stays off screen, and a group that only it
    holds is never shown again. *)
Lemma hidden_forever d d' s g :
  dom_le d d' → s < d_next d → ¬ attached d s → g < d_next d →
  (∀ s', g ∈ groups_of d s' → s' = s) → ¬ displayed d' g.
Proof.
  intros [_ A G _] Hs Hna Hg Hhost (s' & Hatt & Hin).
  destruct (G s' g Hin) as [Hin0|]; [|lia]. apply Hhost in Hin0 as ->.
  destruct (A s Hatt); [done|lia].
Qed.

Lemma attached_of_svgs d name s : p_svgs <$> d_panes d !! name = Some [s] → attached d s.
Proof.
  destruct (d_panes d !! name) as [p|] eqn:E; [|done]. intros [= Hp]. exists name, p. rewrite Hp. set_solver.
Qed.

Lemma removeLayer_fields r d :
  d_svg_groups (map_removeLayer r d) = d_svg_groups d ∧ d_groups (map_removeLayer r d) = d_groups d ∧
  d_next (map_removeLayer r d) = d_next d ∧ d_current (map_removeLayer r d) = d_current d ∧
  (∀ x, x ∈ d_layers (map_removeLayer r d) → x ∈ d_layers d).
Proof.
  unfold map_removeLayer. case_decide; [|done]. destruct (r_onRemove r); cbn; split_and!; try done;
    intros x; rewrite list_elem_of_filter; naive_solver.
Qed.

Lemma removeLayer_keeps r d s :
  attached d s → (r_onRemove r = OnRemoveLeaflet → r_id r ≠ s) → attached (map_removeLayer r d) s.
Proof.
  intros (name & p & Hp & Hin) Hr. unfold map_removeLayer. case_decide; [|by exists name, p].
  destruct (r_onRemove r) eqn:Ek; unfold update_pane, set_panes; cbn; [|by exists name, p].
  destruct (decide (r_pane r = name)) as [<-|Hne].
  - exists (r_pane r). eexists. cbn [d_panes]. rewrite lookup_alter_eq, Hp. split; [reflexivity|]. cbn.
    apply list_elem_of_filter. split; [|done]. intros ->. by apply Hr.
  - exists name, p. cbn [d_panes]. by rewrite lookup_alter_ne.
Qed.

Lemma fold_removeLayer_keeps rs d s :
  attached d s → (∀ r, r ∈ rs → r_onRemove r = OnRemoveLeaflet → r_id r ≠ s) →
  let d' := fold_left (λ d r, map_removeLayer r d) rs d in
  attached d' s ∧ d_svg_groups d' = d_svg_groups d ∧ d_groups d' = d_groups d.
Proof.
  induction rs as [|r rs IH] in d |- *; intros Hs Hrs; [done|]. simpl.
  destruct (removeLayer_fields r d) as (E1 & E2 & _).
  destruct (IH (map_removeLayer r d)) as (H1 & H2 & H3).
  - apply removeLayer_keeps; [done|]. apply Hrs. by left.
  - intros r' Hr'. apply Hrs. by right.
  - rewrite H2, H3, E1, E2. done.
Qed.

(** The cleanup of the render effect leaves on screen every container
    whose recorded layers all have the [onRemove] that only unbinds, with
    its groups and their children. *)
Lemma render_cleanup_keeps d s :
  attached d s → (∀ r, r ∈ d_current d → r_id r = s → r_onRemove r = OnRemoveUnbindOnly) →
  attached (render_cleanup d) s ∧ d_svg_groups (render_cleanup d) = d_svg_groups d ∧
  d_groups (render_cleanup d) = d_groups d.
Proof.
  intros Hs Hr. unfold render_cleanup. apply fold_removeLayer_keeps; [done|].
  intros r Hin Hk Hid. specialize (Hr r Hin Hid). congruence.
Qed.

Lemma segment_layer_start_layers u d d1 r og :
  segment_layer_start u d = (d1, r, og) →
  d_layers d1 = d_layers d ++ [r] ∧ d_current d1 = d_current d ∧ r_id r = d_next d ∧ d_next d < d_next d1.
Proof.
  unfold segment_layer_start. set (P := segment_pane u).
  assert (Hc : d_layers (createPaneIfNeeded P d) = d_layers d ∧ d_current (createPaneIfNeeded P d) = d_current d
               ∧ d_next (createPaneIfNeeded P d) = d_next d).
  { unfold createPaneIfNeeded. by destruct (d_panes d !! P). }
  destruct (createPaneIfNeeded_spec P d) as ([p0 Hp0] & _ & _ & Hg0).
  set (d0 := createPaneIfNeeded P d) in *. clearbody d0. destruct Hc as (E1 & E2 & E3).
  unfold remove_pane_svgs, update_pane, set_panes, add_renderer, first_svg; cbn.
  rewrite !lookup_alter_eq, Hp0. cbn.
  unfold join_group, append_group. cbn. rewrite lookup_insert_eq. cbn.
  intros [= <- <- <-]. cbn. rewrite E1, E2, E3. split_and!; [done|done|done|lia].
Qed.

Lemma render_cleanup_layers d :
  d_current (render_cleanup d) = [] ∧ d_next (render_cleanup d) = d_next d ∧
  (∀ x, x ∈ d_layers (render_cleanup d) → x ∈ d_layers d).
Proof.
  unfold render_cleanup. cbn. generalize (d_current d). intros rs.
  induction rs as [|r rs IH] in d |- *; [done|]. simpl.
  destruct (removeLayer_fields r d) as (_ & _ & En & _ & El). destruct (IH (map_removeLayer r d)) as (_ & E1 & E2).
  split_and!; [done|by rewrite E1|]. intros x Hx. by apply El, E2.
Qed.

Lemma layers_wf_step d d' : dom_step d d' → layers_wf d → layers_wf d'.
Proof.
  intros Hstep [Wc Wl]. destruct Hstep as [u d|chart r g ch d Hr|redraw d|g ch d _|d|d].
  - destruct (segment_layer_start u d) as [[d1 r] og] eqn:E. simpl.
    destruct (segment_layer_start_layers u d d1 r og E) as (E1 & E2 & E3 & E4). split.
    + intros x. rewrite E1, E2, elem_of_app. auto.
    + intros x. rewrite E1, elem_of_app, list_elem_of_singleton. intros [Hx| ->]; [specialize (Wl x Hx)|]; lia.
  - unfold segment_layer_loaded. destruct chart; [done|]. destruct ch; [|done]. split; cbn; [|done].
    intros x. rewrite elem_of_app, list_elem_of_singleton. intros [Hx| ->]; auto.
  - unfold node_layer_loaded, add_renderer, update_pane, set_panes. cbn.
    destruct (first_svg _ _) as [s|]; cbn.
    2:{ split; cbn; [intros x Hx; rewrite elem_of_app; auto|]. intros x. rewrite elem_of_app, list_elem_of_singleton.
        intros [Hx| ->]; [specialize (Wl x Hx)|]; cbn; lia. }
    destruct (redraw []) as [ch [e|]]; cbn.
    + split; cbn; [intros x Hx; rewrite elem_of_app; auto|]. intros x. rewrite elem_of_app, list_elem_of_singleton.
      intros [Hx| ->]; [specialize (Wl x Hx)|]; cbn; lia.
    + split; cbn.
      * intros x. rewrite elem_of_app, list_elem_of_singleton, list_elem_of_fmap. intros [Hx| ->].
        -- exists x. rewrite decide_False; [split; [done|]; apply elem_of_app; auto|].
           intros ->. specialize (Wl _ (Wc _ Hx)). cbn in Wl. lia.
        -- eexists. rewrite decide_True; [split; [done|]; apply elem_of_app; right; by left|done].
      * intros x. rewrite list_elem_of_fmap. intros (y & -> & Hy). apply elem_of_app in Hy as [Hy|Hy].
        -- specialize (Wl y Hy). case_decide; cbn in *; lia.
        -- apply list_elem_of_singleton in Hy as ->. rewrite decide_True by done. cbn. lia.
  - done.
  - destruct (render_cleanup_layers d) as (E1 & E2 & E3). split; [rewrite E1; set_solver|].
    intros x Hx. rewrite E2. by apply Wl, E3.
  - unfold mimic_pane_check. destruct (d_panes d !! _); [done|]. split; cbn; done.
Qed.

Lemma reachable_layers_wf d : dom_reachable d → layers_wf d.
Proof.
  intros Hr. assert (H0 : layers_wf dom_init) by (split; cbn; set_solver).
  induction Hr as [|d1 d2 d3 H _ IH]; [done|]. by apply IH, (layers_wf_step d1).
Qed.

(** The first node layer to reach an empty [overlayPane] draws into a
    group of its own container, recorded with the [onRemove] that only
    unbinds. *)
Lemma node_layer_loaded_spec redraw ch d p :
  d_panes d !! "overlayPane" = Some p → p_svgs p = [] → redraw [] = (ch, None) →
  let d1 := node_layer_loaded redraw d in
  ∃ r', d_groups d1 !! S (d_next d) = Some ch ∧
        d_panes d1 !! "overlayPane" = Some (mkPane (p_zIndex p) [d_next d]) ∧
        groups_of d1 (d_next d) = [S (d_next d)] ∧
        d_current d1 = d_current d ++ [r'] ∧ r_id r' = d_next d ∧ r_onRemove r' = OnRemoveUnbindOnly.
Proof.
  destruct p as [z svgs]. cbn. intros Hp -> Hred.
  unfold node_layer_loaded, add_renderer, update_pane, set_panes, first_svg, append_group.
  cbn. rewrite lookup_alter_eq, Hp. cbn. rewrite Hred. cbn.
  eexists. split_and!; [by rewrite lookup_insert_eq | by rewrite lookup_alter_eq, Hp | | done | done | done].
  unfold groups_of. cbn. by rewrite lookup_alter_eq, lookup_insert_eq.
Qed.

End PanesLemmas.

Section PanesProps.

(** C16: Two segment layers whose panes coincide (the same alignment and
    orientation, or both centred) cannot both be seen: the second one's
    [d3.select(pane).selectAll('svg').remove()] takes the first one's
    container off the DOM while Leaflet still holds it, so the group the
    first layer's [redraw] draws into, shown until then, is never on
    screen again, whatever loads, redraws, applies and layers follow. *)
Theorem same_pane_segment_layers_hide_first u1 u2 d d1 r1 g1 d' :
  dom_reachable d → segment_pane u1 = segment_pane u2 →
  segment_layer_start u1 d = (d1, r1, Some g1) →
  displayed d1 g1 ∧ (rtc dom_step (segment_layer_start u2 d1).1.1 d' → ¬ displayed d' g1).
Proof.
  intros Hr HP E1. destruct (reachable_le d Hr) as [_ [W1 W2]].
  destruct (segment_layer_start_spec u1 d d1 r1 (Some g1) E1) as ([= ->] & _ & Hn1 & Ho1 & Hs1 & Hg1).
  split.
  { exists (d_next d). split; [by eapply attached_of_svgs|]. rewrite Hg1, decide_True by done. set_solver. }
  destruct (segment_layer_start u2 d1) as [[d2 r2] og2] eqn:E2. simpl. intros Hrtc.
  destruct (segment_layer_start_spec u2 d1 d2 r2 og2 E2) as (_ & _ & Hn2 & Ho2 & Hs2 & Hg2).
  rewrite <- HP in Ho2, Hs2. rewrite Hn1 in Hs2, Hg2.
  apply (hidden_forever d2 d' (d_next d)); [by apply rtc_dom_step_le | lia | | lia |].
  - intros (name & p & Hp & Hin). destruct (decide (name = segment_pane u1)) as [->|Hne].
    + rewrite Hp in Hs2. injection Hs2 as Hps. rewrite Hps, list_elem_of_singleton in Hin. lia.
    + rewrite Ho2, Ho1 in Hp by done. assert (Hlt : d_next d < d_next d) by (apply W1; by exists name, p). lia.
  - intros s'. rewrite Hg2, Hg1. case_decide; [set_solver|]. case_decide; [done|].
    intros Hin. specialize (W2 s' _ Hin). lia.
Qed.

(** C17: A node layer's container is never taken off the screen:
    [renderNodeLayer] replaces its renderer's [onRemove] by one that only
    unbinds the redraw, so [map.removeLayer] in the next apply's cleanup
    leaves the container, its group and the circles drawn in it in the
    [overlayPane].  The circles of the previous specification stay on
    the map, no longer redrawn, after the user applies a new one. *)
Theorem node_layer_outlives_cleanup d redraw ch :
  dom_reachable d → first_svg "overlayPane" d = None → redraw [] = (ch, None) →
  let d1 := node_layer_loaded redraw d in
  ∃ g, d_groups d1 !! g = Some ch ∧ displayed d1 g ∧
       displayed (render_cleanup d1) g ∧ d_groups (render_cleanup d1) !! g = Some ch.
Proof.
  intros Hr Hfirst Hred d1. destruct (reachable_le d Hr) as [[_ _ _ P] _].
  destruct (reachable_layers_wf d Hr) as [Wc Wl].
  destruct (P "overlayPane" (mkPane None [])) as (p & Hp & _); [reflexivity|].
  unfold first_svg in Hfirst. rewrite Hp in Hfirst. cbn in Hfirst.
  destruct (p_svgs p) eqn:Es; [|discriminate].
  destruct (node_layer_loaded_spec redraw ch d p Hp Es Hred) as (r' & Hg & Hov & Hgs & Hcur & Hid & Hk).
  fold d1 in Hg, Hov, Hgs, Hcur.
  assert (Hatt : attached d1 (d_next d)) by (exists "overlayPane"; eexists; split; [done|]; set_solver).
  destruct (render_cleanup_keeps d1 (d_next d)) as (Hatt' & Esg & Eg); [done| |].
  { intros r. rewrite Hcur, elem_of_app, list_elem_of_singleton. intros [Hin| ->] Hrid; [|done].
    specialize (Wl r (Wc r Hin)). lia. }
  exists (S (d_next d)). split_and!; [done| | |by rewrite Eg].
  - exists (d_next d). split; [done|]. rewrite Hgs. set_solver.
  - exists (d_next d). split; [done|]. unfold groups_of. rewrite Esg. fold (groups_of d1 (d_next d)). rewrite Hgs. set_solver.
Qed.

(** C22: The [mimicStreetPane] keeps the [z-index] [350] the map's
    initializer gives it: the mimic effect's branch that would create it
    with [450] never runs, since the pane exists from the map's creation
    on and no operation removes a pane. *)
Theorem mimic_pane_keeps_zindex_350 d :
  dom_reachable d →
  mimic_pane_check d = d ∧ p_zIndex <$> d_panes d !! "mimicStreetPane" = Some (Some "350").
Proof.
  intros Hr. destruct (reachable_le d Hr) as [[_ _ _ P] _].
  destruct (P "mimicStreetPane" (mkPane (Some "350") [])) as (p & Hp & Hz); [reflexivity|].
  unfold mimic_pane_check. rewrite Hp. split; [done|]. cbn. by rewrite Hz.
Qed.

End PanesProps.

(** ** Witnesses *)

(** Two left-parallel layers on the map just created. *)
Lemma same_pane_segment_layers_hide_first_witness :
  let d1 := (segment_layer_start witness_left_unit dom_init).1.1 in
  let d2 := (segment_layer_start witness_left_unit d1).1.1 in
  displayed d1 1 ∧ (rtc dom_step d2 d2 → ¬ displayed d2 1).
Proof.
  apply (same_pane_segment_layers_hide_first witness_left_unit witness_left_unit dom_init _
           (segment_layer_start witness_left_unit dom_init).1.2); [apply rtc_refl | reflexivity | vm_compute; reflexivity].
Defined.

(** The first node layer of the map, then the next apply's cleanup. *)
Lemma node_layer_outlives_cleanup_witness :
  let d1 := node_layer_loaded witness_node_redraw dom_init in
  ∃ g, d_groups d1 !! g = Some [El 0 "circle" (Some "nodeShape") DNull [] [] []] ∧ displayed d1 g ∧
       displayed (render_cleanup d1) g ∧ d_groups (render_cleanup d1) !! g = Some [El 0 "circle" (Some "nodeShape") DNull [] [] []].
Proof. apply node_layer_outlives_cleanup; [apply rtc_refl | vm_compute; reflexivity | reflexivity]. Defined.

(** After a left-parallel layer's first steps. *)
Lemma mimic_pane_keeps_zindex_350_witness :
  let d := (segment_layer_start witness_left_unit dom_init).1.1 in
  mimic_pane_check d = d ∧ p_zIndex <$> d_panes d !! "mimicStreetPane" = Some (Some "350").
Proof. apply mimic_pane_keeps_zindex_350. apply rtc_once, dstep_segment. Defined.
