(* ===== verification/Parser.v ===== *)
(** * Parser: reading a specification and applying it ([parser.ts], [App.tsx], [TextEditor.tsx])

    [parseSpecification] parses the editor's text with [JSON.parse]
    (which throws a [SyntaxError] on malformed text), wraps a single
    object into an array, validates the array against the schema with
    Ajv and returns the truthy layers, or [[]] when validation fails.
    The Ajv instance is built with [useDefaults: true]: validating fills
    the schema's defaults into the layer objects in place, and the
    layers returned are those objects.  The JSON grammar, the schema
    ([schema.json], not part of the sources) and Ajv are parameters:
    [json_parse], and [validate], which answers [None] for a document
    the schema rejects and [Some] of the layers with their defaults
    filled in for one it accepts.  The
    schema's ["color-hex"] format is the regular expression registered
    in [parser.ts], modelled as [color_hex_format].

    [App] keeps the layers of the last specification that parsed to a
    non-empty list and shows the map only then; [TextEditor] keeps the
    text typed so far and hands it to [App] on a click on Apply.  The
    two components are one state machine, [app_step]. *)

From Stdlib Require Import Ascii.
From S2P Require Import Prelude Style.
Open Scope Q_scope.

(** ** JSON values *)

(** What [JSON.parse] returns: objects keep their keys in order. *)
Inductive json :=
  | JSNull
  | JSBool (b : bool)
  | JSNum (q : Q)
  | JSStr (s : string)
  | JSArr (l : list json)
  | JSObj (o : list (string * json)).

(** [if (parsedSingleSpec)]: [null], [false], [0] and [""] are falsy,
    every array and object is truthy. *)
Definition json_truthy (j : json) : bool :=
  match j with
  | JSNull => false
  | JSBool b => b
  | JSNum q => negb (bool_decide (q == 0))
  | JSStr s => negb (bool_decide (s = ""%string))
  | JSArr _ | JSObj _ => true
  end.

(** ** [parseSpecification] *)

(** The module's top level: [new Ajv(...)] with [addFormats] and the
    ["color-hex"] format, then [ajv.addSchema(vegaLiteSchemaV5)] and
    [ajv.compile(parsedSpecSchema)], each in a [try] whose [catch]
    throws a new [Error], so that importing the module fails.  Ajv's
    two answers are the arguments; the compiled validator is the
    [validate] of [parseSpecification]. *)
Definition parser_module_init {V : Type} (addSchema : res unit) (compile : res V) : res V :=
  match addSchema with
  | Throw _ => Throw (Error "Failed to configure AJV with Vega-Lite schema.")
  | Ok _ =>
      match compile with
      | Ok validate => Ok validate
      | Throw _ => Throw (Error "Failed to compile JSON schema.")
      end
  end.

Section Parse.
Context (json_parse : string → res json) (validate : list json → option (list json)).

(** [Array.isArray(parsedJson) ? parsedJson : [parsedJson]] *)
Definition layer_specs (parsedJson : json) : list json :=
  match parsedJson with JSArr l => l | j => [j] end.

(** [parseSpecification(specJson)]: a [SyntaxError] of [JSON.parse]
    escapes; an invalid document gives [[]]; otherwise the truthy
    layers, in order, as [validate] left them. *)
Definition parseSpecification (specJson : string) : res (list json) :=
  parsedJson ← json_parse specJson;
  let layerSpecs := layer_specs parsedJson in
  match validate layerSpecs with
  | Some layerSpecs' => mret (filter (λ spec, json_truthy spec = true) layerSpecs')
  | None => mret []
  end.

(** ** [App] and [TextEditor] *)

(** The state of the two components: [inputSpec] of [TextEditor] and
    [parsedSpec] of [App]. *)
Record app_state := mkApp { inputSpec : string; parsedSpec : list json }.

Definition app_init : app_state := {| inputSpec := ""; parsedSpec := [] |}.

(** A keystroke in the text area ([handleInputChange]) or a click on
    Apply ([handleApplyClick] calling [applySpec]). *)
Inductive app_event := InputChange (value : string) | ApplyClick.

(** [applySpec(spec)]: the layers replace the state only when there is
    at least one; a thrown [SyntaxError] leaves the event handler and
    the state as they were. *)
Definition applySpec (st : app_state) (spec : string) : app_state :=
  match parseSpecification spec with
  | Ok parsedLayers =>
      if bool_decide (0 < List.length parsedLayers)%nat
      then {| inputSpec := inputSpec st; parsedSpec := parsedLayers |}
      else st
  | Throw _ => st
  end.

Definition app_step (st : app_state) (ev : app_event) : app_state :=
  match ev with
  | InputChange value => {| inputSpec := value; parsedSpec := parsedSpec st |}
  | ApplyClick => applySpec st (inputSpec st)
  end.

(** [{parsedSpec.length > 0 && <MapVisualization parsedSpec={parsedSpec} />}] *)
Definition shows_map (st : app_state) : bool := bool_decide (parsedSpec st ≠ []).

(** What [App] renders: [TextEditor]'s text area with its controlled
    [value={inputSpec}] (its [onChange] and the Apply button's [onClick]
    are the two [app_event]s), and [MapVisualization] with the layers it
    is given, when it is shown. *)
Record app_view := mkAppView { v_textarea : string; v_map : option (list json) }.

Definition render_app (st : app_state) : app_view :=
  {| v_textarea := inputSpec st; v_map := if shows_map st then Some (parsedSpec st) else None |}.

(** What a state of [App] may hold: nothing yet, or the truthy layers of
    a document the schema accepted, with their defaults. *)
Definition app_inv (st : app_state) : Prop :=
  parsedSpec st = [] ∨
  ∃ layerSpecs layerSpecs', validate layerSpecs = Some layerSpecs' ∧
    parsedSpec st = filter (λ spec, json_truthy spec = true) layerSpecs' ∧ parsedSpec st ≠ [].

End Parse.

(** ** The ["color-hex"] format *)

(** [[A-Fa-f0-9]] *)
Definition is_hex_char (c : ascii) : bool :=
  let n := nat_of_ascii c in
  ((65 <=? n) && (n <=? 70)) || ((97 <=? n) && (n <=? 102)) || ((48 <=? n) && (n <=? 57)).

(** [c{n}] with a character class: every character in the class. *)
Fixpoint string_forallb (p : ascii → bool) (s : string) : bool :=
  match s with
  | EmptyString => true
  | String c s' => p c && string_forallb p s'
  end.

(** [/^#([A-Fa-f0-9]{6}|[A-Fa-f0-9]{3})$/.test(data)] *)
Definition color_hex_format (data : string) : bool :=
  match data with
  | String c rest =>
      bool_decide (c = "#"%char) &&
      ((Nat.eqb (String.length rest) 6 && string_forallb is_hex_char rest) ||
       (Nat.eqb (String.length rest) 3 && string_forallb is_hex_char rest))
  | EmptyString => false
  end.

(** * Properties *)

Lemma is_hex_char_digit c : is_hex_char c = is_hex_digit c.
Proof.
  unfold is_hex_char, is_hex_digit.
  destruct (_ && _), (_ && _), (_ && _); reflexivity.
Qed.

Lemma forallb_all_hex s : string_forallb is_hex_char s = all_hex s.
Proof. induction s as [|c s IH]; [done|]. simpl. by rewrite is_hex_char_digit, IH. Qed.

(** C26: The schema's ["color-hex"] format and the renderer's literal test
    [hexRe] of [getDynamicStyleValue] accept the same strings: a colour
    the schema validates as hex is drawn as that colour, never looked up
    as an attribute name, and a string the schema refuses as a colour is
    never taken for one by the renderer. *)
Theorem color_hex_format_is_hex_color s : color_hex_format s = is_hex_color s.
Proof.
  destruct s as [|c rest]; [done|]. simpl. rewrite forallb_all_hex.
  destruct (bool_decide _); [|done]. simpl.
  destruct (Nat.eqb _ 6), (Nat.eqb _ 3), (all_hex rest); reflexivity.
Qed.

Section ParseProps.
Context (json_parse : string → res json) (validate : list json → option (list json)).

(** [parseSpecification] on every branch: a [SyntaxError] of
    [JSON.parse] escapes; a document the schema rejects gives no layer;
    otherwise the truthy layers, a single object counting as a one-layer
    array. *)
Lemma parseSpecification_spec specJson :
  match json_parse specJson with
  | Throw e => parseSpecification json_parse validate specJson = Throw e
  | Ok j =>
      parseSpecification json_parse validate specJson =
      Ok (match validate (layer_specs j) with
          | Some ls => filter (λ spec, json_truthy spec = true) ls
          | None => []
          end)
  end.
Proof.
  unfold parseSpecification. destruct (json_parse specJson) as [j|e]; simpl; [|done].
  by destruct (validate (layer_specs j)).
Qed.

(** C24: A text that does not parse (the [SyntaxError] of [JSON.parse]
    escapes [parseSpecification] and the click handler), or that the
    schema rejects, leaves [App]'s state as it was: the map keeps
    showing the last accepted specification, nothing is cleared. *)
Theorem applySpec_rejected st spec :
  (∀ j, json_parse spec = Ok j → validate (layer_specs j) = None) →
  applySpec json_parse validate st spec = st.
Proof.
  intros Hrej. unfold applySpec. pose proof (parseSpecification_spec spec) as Hp.
  destruct (json_parse spec) as [j|e]; rewrite Hp; [|done].
  rewrite (Hrej j eq_refl). rewrite bool_decide_false; [done|simpl; lia].
Qed.

Lemma applySpec_inv st spec :
  app_inv validate st → app_inv validate (applySpec json_parse validate st spec).
Proof.
  intros Hinv. unfold applySpec. pose proof (parseSpecification_spec spec) as Hp.
  destruct (json_parse spec) as [j|e]; rewrite Hp; [|done].
  destruct (validate (layer_specs j)) as [ls|] eqn:Hv.
  - case_bool_decide as Hlen; [|done]. right. exists (layer_specs j), ls.
    split_and!; [done | done |]. intros E. simpl in E. rewrite E in Hlen. simpl in Hlen. lia.
  - rewrite bool_decide_false by (simpl; lia). done.
Qed.

(** C25: Whatever the user types and applies, [App] holds either no layer
    or the truthy layers of a document the schema accepted, never an
    empty list after a first success, and it shows the map exactly when
    it holds layers. *)
Theorem app_invariant evs :
  let st := fold_left (app_step json_parse validate) evs (app_init) in
  app_inv validate st ∧ (shows_map st = true ↔ parsedSpec st ≠ []).
Proof.
  intros st. split; [|unfold shows_map; by rewrite bool_decide_eq_true].
  subst st. assert (Hi : app_inv validate app_init) by by left.
  revert Hi. generalize app_init. induction evs as [|ev evs IH]; intros st0 Hi; [done|].
  simpl. apply IH. destruct ev; simpl; [done | by apply applySpec_inv].
Qed.

End ParseProps.

(** ** Witnesses *)

(** A schema that wants every layer to be an object, and fills in an
    absent [name] with the string [layer]. *)
Definition objects_schema (ls : list json) : option (list json) :=
  if forallb (λ j, match j with JSObj _ => true | _ => false end) ls
  then Some ((λ j, match j with
                   | JSObj o => if bool_decide ("name"%string ∈ fst <$> o) then j
                                else JSObj (o ++ [("name"%string, JSStr "layer")])
                   | _ => j end) <$> ls)
  else None.

(** A text that parses to [[1]] and one that does not parse: [App]
    keeps the layer it holds. *)
Lemma applySpec_rejected_witness :
  applySpec (λ _, Ok (JSArr [JSNum 1])) objects_schema
    {| inputSpec := "[1]"; parsedSpec := [JSObj []] |} "[1]" =
  {| inputSpec := "[1]"; parsedSpec := [JSObj []] |} ∧
  applySpec (λ _, Throw (SyntaxError "Unexpected end of JSON input")) objects_schema
    {| inputSpec := "{"; parsedSpec := [JSObj []] |} "{" =
  {| inputSpec := "{"; parsedSpec := [JSObj []] |}.
Proof.
  split; apply applySpec_rejected; [intros j [= <-]; reflexivity | intros j [=]].
Defined.
