(* ===== verification/Events.v ===== *)
(** * Events: the map's listener registry ([map.on], [map.off], [mapHelpers.ts])

    Leaflet keeps, per event type, the listeners in the order they were
    registered and fires them in that order.  [map.on(types, fn)] splits
    [types] at spaces ([L.Util.splitWords]) and ignores a pair already
    present ([_on] returns early on the same function and context);
    [map.off(types)] with one argument drops every listener of those
    types, [map.off(types, fn)] those of [fn].  The registry is modelled
    as the list of (type, handler) pairs in registration order; a
    handler is named by the closure that the component creates, so two
    closures are equal only when the code passes the same one. *)

From Stdlib Require Import Ascii.
From S2P Require Import Prelude.
Open Scope Q_scope.

(** The handlers the component binds. *)
Inductive handler :=
  | HSegRedraw (pass layer : nat)
  | HNodeRedraw (pass layer : nat)
  | HChartMove (pass layer item gen : nat).

#[export] Instance handler_eq_dec : EqDecision handler.
Proof. solve_decision. Defined.

Notation registry := (list (string * handler)).

(** [L.Util.splitWords(types)]: [str.trim().split(/\s+/)]. *)
Fixpoint split_words_from (cur : string) (s : string) : list string :=
  match s with
  | EmptyString => if bool_decide (cur = "") then [] else [cur]
  | String c s' =>
      if bool_decide (c = " "%char) then (if bool_decide (cur = "") then [] else [cur]) ++ split_words_from "" s'
      else split_words_from (cur +:+ String c "") s'
  end.

Definition split_words (s : string) : list string := split_words_from "" s.

(** [map.on(types, fn)]: [_on] returns early on a listener with the same
    function. *)
Definition map_on (types : string) (h : handler) (reg : registry) : registry :=
  fold_left (λ reg t, if bool_decide ((t, h) ∈ reg) then reg else reg ++ [(t, h)]) (split_words types) reg.

(** [map.off(types)] with one argument: [_off(type)] for each type. *)
Definition map_off_all (types : string) (reg : registry) : registry :=
  filter (λ th, th.1 ∉ split_words types) reg.

(** [map.off(types, fn)] *)
Definition map_off (types : string) (h : handler) (reg : registry) : registry :=
  filter (λ th, ¬ (th.1 ∈ split_words types ∧ th.2 = h)) reg.

(** The listeners [fire(type)] calls, in registration order. *)
Definition listeners (t : string) (reg : registry) : list handler :=
  snd <$> filter (λ th, th.1 = t) reg.

(** [bindMapEvents(map, onRedraw)]: [map.on('moveend zoomend', onRedraw)]. *)
Definition bindMapEvents (h : handler) (reg : registry) : registry := map_on "moveend zoomend" h reg.

(** * Properties *)

Lemma split_words_move_zoom : split_words "move zoom" = ["move"; "zoom"].
Proof. reflexivity. Qed.

Lemma split_words_ends : split_words "moveend zoomend" = ["moveend"; "zoomend"].
Proof. reflexivity. Qed.

Lemma split_words_moveend : split_words "moveend" = ["moveend"].
Proof. reflexivity. Qed.

Lemma split_words_zoomend : split_words "zoomend" = ["zoomend"].
Proof. reflexivity. Qed.

#[export] Hint Rewrite split_words_move_zoom split_words_ends split_words_moveend split_words_zoomend : sw_rw.

Lemma elem_of_map_on x ts h reg :
  x ∈ map_on ts h reg ↔ x ∈ reg ∨ (x.1 ∈ split_words ts ∧ x.2 = h).
Proof.
  unfold map_on. generalize (split_words ts) as ws.
  induction ws as [|w ws IH] in reg |- *; simpl; [set_solver|].
  rewrite IH. destruct x as [t h'].
  simpl. case_bool_decide; rewrite ?elem_of_app, ?elem_of_list_singleton, !elem_of_cons, ?elem_of_nil; naive_solver.
Qed.

Lemma NoDup_map_on ts h reg : NoDup reg → NoDup (map_on ts h reg).
Proof.
  unfold map_on. generalize (split_words ts) as ws.
  induction ws as [|w ws IH] in reg |- *; intros Hnd; simpl; [done|].
  apply IH. case_bool_decide as Hin; [done|].
  apply NoDup_app; split_and!; [done| |apply NoDup_singleton]. set_solver.
Qed.

(** [map_on] appends the pairs it adds: what listened before listens in
    the same order. *)
Lemma map_on_app ts h reg : ∃ new, map_on ts h reg = reg ++ new ∧ ∀ x, x ∈ new → x.2 = h.
Proof.
  unfold map_on. generalize (split_words ts) as ws.
  induction ws as [|w ws IH] in reg |- *; simpl; [exists []; rewrite app_nil_r; split; [done|set_solver]|].
  case_bool_decide.
  - apply IH.
  - destruct (IH (reg ++ [(w, h)])) as (new & -> & Hnew). exists ((w, h) :: new).
    rewrite <-app_assoc. split; [done|]. set_solver.
Qed.

Lemma map_on_two_fresh ts t1 t2 h reg :
  split_words ts = [t1; t2] → t1 ≠ t2 → (t1, h) ∉ reg → (t2, h) ∉ reg →
  map_on ts h reg = reg ++ [(t1, h); (t2, h)].
Proof.
  intros Hw Hne H1 H2. unfold map_on. rewrite Hw. simpl.
  rewrite (bool_decide_false ((t1, h) ∈ reg)) by done.
  rewrite bool_decide_false; [by rewrite <-app_assoc|].
  rewrite elem_of_app, list_elem_of_singleton. by intros [|[= ->]].
Qed.

Lemma elem_of_listeners h t reg : h ∈ listeners t reg ↔ (t, h) ∈ reg.
Proof.
  unfold listeners. rewrite list_elem_of_fmap. setoid_rewrite list_elem_of_filter.
  split; [intros ([t' h'] & Hh & Ht & Hin); simpl in *; by subst | intros ?; exists (t, h); naive_solver].
Qed.

Lemma NoDup_listeners t reg : NoDup reg → NoDup (listeners t reg).
Proof.
  intros Hnd. apply NoDup_fmap_2_strong; [|by apply NoDup_filter].
  intros [t1 h1] [t2 h2] [Ht1 _]%list_elem_of_filter [Ht2 _]%list_elem_of_filter. simpl in *. congruence.
Qed.
