(* ===== verification/Session.v ===== *)
(** * Session: the render effect across specifications ([MapVisualization.tsx], [mapHelpers.ts])

    [RenderPass] follows one pass.  This file follows the whole life of
    the map component: the render effect runs again on every applied
    specification, the cleanup of the previous run first; layer loads
    complete in any order, also after a later run started; the user pans
    and zooms.  What connects the passes is what the code shares between
    them: the [alignmentCounters] ref, the [currentLayersRef] ref, the
    [mimicWidth] state and, above all, the map's listener registry, where
    [map.on]/[map.off] add and remove handlers by event type.

    The registry is [Events]'s.  A handler is named by what creates it:
    the [redraw] closure of a segment or node layer of a given pass, or
    the [move zoom] closure a chart placement binds (a new closure at
    every placement, hence its generation number).  Firing an event runs
    the listeners registered when it fires, in order.

    The data a load yields is not modelled here ([Pipeline], [Loader]
    do); a chart layer's number of charts is the parameter
    [chart_count], and whether the drawing code throws on a layer's data
    the parameter [draw_throws] ([RenderPass.segment_throws] adds the
    missing [relation] of a segment layer).  The first [redraw] of a
    layer runs inside the [try] of [renderSegmentLayer] or
    [renderNodeLayer]; when it throws the [catch] logs and the layer is
    neither bound nor pushed. *)

From Stdlib Require Import Ascii.
From S2P Require Import Prelude Geometry Spec Style Builder RenderPass Events.
Open Scope Q_scope.

(** ** The session *)

Inductive layer_kind := KSegment | KNode.

#[export] Instance layer_kind_eq_dec : EqDecision layer_kind.
Proof. solve_decision. Defined.

(** What the component draws: [drawSegments] from a segment [redraw],
    [drawD3Nodes] from a node [redraw], one chart placed or moved by
    [createAndPlaceVegaLiteSVG]. *)
Inductive draw :=
  | DrawSeg (pass layer : nat) (zoom distance : Q)
  | DrawNodes (pass layer : nat) (zoom : Q)
  | PlaceChart (pass layer item : nat) (zoom : Q).

(** The component's state: the specification of every pass (the current
    one last), the [alignmentCounters] ref, the map's zoom, its listener
    registry, [currentLayersRef.current] (the [svg] layers pushed, by pass,
    layer and kind), the loads in flight, the closures created so far
    (for the chart handlers), the [mimicWidth] state, what was drawn. *)
Record session := mkSession {
  s_specs : list (list layer_spec);
  s_counters : counters;
  s_zoom : Q;
  s_registry : registry;
  s_layers : list (nat * nat * layer_kind);
  s_pending : list (nat * nat);
  s_gen : nat;
  s_mimicWidth : Q;
  s_draws : list draw
}.

Definition session_init (zoom : Q) : session :=
  {| s_specs := []; s_counters := {| c_left := 0; c_right := 0 |}; s_zoom := zoom; s_registry := [];
     s_layers := []; s_pending := []; s_gen := 0; s_mimicWidth := 0; s_draws := [] |}.

(** Field updates. *)
Definition set_counters (c : counters) (s : session) : session :=
  mkSession (s_specs s) c (s_zoom s) (s_registry s) (s_layers s) (s_pending s) (s_gen s) (s_mimicWidth s) (s_draws s).
Definition set_pending (pd : list (nat * nat)) (s : session) : session :=
  mkSession (s_specs s) (s_counters s) (s_zoom s) (s_registry s) (s_layers s) pd (s_gen s) (s_mimicWidth s) (s_draws s).
Definition set_registry (reg : registry) (s : session) : session :=
  mkSession (s_specs s) (s_counters s) (s_zoom s) reg (s_layers s) (s_pending s) (s_gen s) (s_mimicWidth s) (s_draws s).
Definition set_zoom (z : Q) (s : session) : session :=
  mkSession (s_specs s) (s_counters s) z (s_registry s) (s_layers s) (s_pending s) (s_gen s) (s_mimicWidth s) (s_draws s).
Definition set_mimicWidth (w : Q) (s : session) : session :=
  mkSession (s_specs s) (s_counters s) (s_zoom s) (s_registry s) (s_layers s) (s_pending s) (s_gen s) w (s_draws s).
Definition add_draws (ds : list draw) (s : session) : session :=
  mkSession (s_specs s) (s_counters s) (s_zoom s) (s_registry s) (s_layers s) (s_pending s) (s_gen s) (s_mimicWidth s) (s_draws s ++ ds).
Definition push_layer (lr : nat * nat * layer_kind) (s : session) : session :=
  mkSession (s_specs s) (s_counters s) (s_zoom s) (s_registry s) (s_layers s ++ [lr]) (s_pending s) (s_gen s) (s_mimicWidth s) (s_draws s).

(** [map.removeLayer(layer)] for a layer of [currentLayersRef]: Leaflet
    calls the layer's [onRemove], which a node layer replaced by
    [map.off("moveend", redraw); map.off("zoomend", redraw)]; a segment
    layer keeps [L.SVG]'s, which unbinds nothing of the component. *)
Definition removeLayer (reg : registry) (lr : nat * nat * layer_kind) : registry :=
  match lr with
  | (p, k, KNode) => map_off "zoomend" (HNodeRedraw p k) (map_off "moveend" (HNodeRedraw p k) reg)
  | (_, _, KSegment) => reg
  end.

(** React keeps the last of the [setMimicWidth] calls of one effect. *)
Definition set_states (v0 : Q) (updates : list Q) : Q := default v0 (last updates).

(** The synchronous part of [renderSegmentLayer] (the counter bump before
    [await loadSegmentData]) and of [renderNodeLayer] (nothing before
    [await loadNodeData]): the load is in flight. *)
Definition render_layer_start (p : nat) (spec : list layer_spec) (s : session) (k : nat) : session :=
  match spec !! k with
  | Some l =>
      let c := if decide (u_type (l_unit l) = USegment) then bump (s_counters s) (u_alignment (l_unit l))
               else s_counters s in
      set_pending (s_pending s ++ [(p, k)]) (set_counters c s)
  | None => s
  end.

(** The cleanup of the previous run ([return () => {...}]):
    [map.off('move zoom')], [map.removeLayer] on each layer of
    [currentLayersRef] ([map.hasLayer] holds, nothing else removes
    them), [currentLayersRef.current = []]. *)
Definition effect_cleanup (s : session) : session :=
  let reg := fold_left removeLayer (s_layers s) (map_off_all "move zoom" (s_registry s)) in
  mkSession (s_specs s) (s_counters s) (s_zoom s) reg [] (s_pending s) (s_gen s) (s_mimicWidth s) (s_draws s).

(** The effect's body on [parsedSpec] (a new pass): the counters reset,
    [setMimicWidth(streetWidth)] when the first layer sets one, then
    [map.off('move zoom')], [setMimicWidth(0)], the removal of the layers
    of [currentLayersRef] outside the mimic pane and
    [currentLayersRef.current = []], then the loop that starts every
    layer. *)
Definition effect_body (parsedSpec : list layer_spec) (s : session) : session :=
  let p := List.length (s_specs s) in
  let w := set_states (s_mimicWidth s)
             (match parsedSpec !! 0%nat ≫= l_street_width with Some sw => [sw] | None => [] end ++ [0]) in
  let reg := fold_left removeLayer (s_layers s) (map_off_all "move zoom" (s_registry s)) in
  let s1 := mkSession (s_specs s ++ [parsedSpec]) {| c_left := 0; c_right := 0 |} (s_zoom s)
              reg [] (s_pending s) (s_gen s) w (s_draws s) in
  fold_left (render_layer_start p parsedSpec) (seq 0 (List.length parsedSpec)) s1.

(** A change of [parsedSpec]: the cleanup of the previous run, then the
    body. *)
Definition effect_run (parsedSpec : list layer_spec) (s : session) : session :=
  effect_body parsedSpec (effect_cleanup s).

Section Session.
Context (chart_count : layer_spec → nat) (draw_throws : layer_spec → bool).

Definition spec_of (s : session) (p k : nat) : option layer_spec := s_specs s !! p ≫= λ spec, spec !! k.

Definition is_chart (l : layer_spec) : bool := bool_decide (is_Some (u_chart (l_unit l))).

(** [drawVegaLiteEdges] / [drawVegaLiteNodes]: one chart placed per
    edge or node, each binding a new [move zoom] closure that places it
    again.  [chart_count l] counts the charts whose first
    [createAndPlaceVegaLiteSVG] resolves: one whose [vegaEmbed] rejects
    never reaches its [map.on].  Each [async] callback binds when its own
    embedding completes; the model binds them all at once, which no
    property here tells apart (only [move] and [zoom] run the closures,
    and they only place charts). *)
Definition place_charts (p k : nat) (l : layer_spec) (s : session) : session :=
  let n := chart_count l in
  let reg := fold_left (λ reg i, map_on "move zoom" (HChartMove p k i (s_gen s)) reg) (seq 0 n) (s_registry s) in
  mkSession (s_specs s) (s_counters s) (s_zoom s) reg (s_layers s) (s_pending s) (S (s_gen s)) (s_mimicWidth s)
    (s_draws s ++ ((λ i, PlaceChart p k i (s_zoom s)) <$> seq 0 n)).

(** A handler run by [fire]: a segment [redraw] reads the counters and
    the zoom now; a node [redraw] draws the nodes or places the charts
    again; a chart's [move zoom] closure moves its chart. *)
Definition run_handler (s : session) (h : handler) : session :=
  match h with
  | HSegRedraw p k =>
      match spec_of s p k with
      | Some l => add_draws [DrawSeg p k (s_zoom s) (dynamicDistance (s_zoom s) (s_counters s) (u_alignment (l_unit l)))] s
      | None => s
      end
  | HNodeRedraw p k =>
      match spec_of s p k with
      | Some l => if is_chart l then place_charts p k l s else add_draws [DrawNodes p k (s_zoom s)] s
      | None => s
      end
  | HChartMove p k i _ => add_draws [PlaceChart p k i (s_zoom s)] s
  end.

(** [map.fire(type)]: the listeners registered when it fires, in order. *)
Definition fire (t : string) (s : session) : session := fold_left run_handler (listeners t (s_registry s)) s.

(** The end of a load of layer [k] of pass [p]: the code after the
    [await] of [renderSegmentLayer] (draw, bind, push, or place the
    charts) or of [renderNodeLayer] (draw, bind both events, push).  A
    first [redraw] that throws ends in the [catch]: nothing drawn, bound
    or pushed.  [drawVegaLiteNodes] and [drawVegaLiteEdges] run their
    work in [async] callbacks of a [forEach] and do not throw to the
    caller. *)
Definition load_complete (p k : nat) (s : session) : session :=
  let s0 := set_pending (filter (λ pk, pk ≠ (p, k)) (s_pending s)) s in
  match spec_of s p k with
  | Some l =>
      if decide (u_type (l_unit l) = USegment) then
        if is_chart l then place_charts p k l s0
        else if segment_throws draw_throws l then s0
        else
          let s1 := run_handler s0 (HSegRedraw p k) in
          push_layer (p, k, KSegment) (set_registry (bindMapEvents (HSegRedraw p k) (s_registry s1)) s1)
      else if negb (is_chart l) && draw_throws l then s0
      else
        let s1 := run_handler s0 (HNodeRedraw p k) in
        push_layer (p, k, KNode)
          (set_registry (map_on "zoomend" (HNodeRedraw p k) (map_on "moveend" (HNodeRedraw p k) (s_registry s1))) s1)
  | None => s0
  end.

(** A pan: Leaflet fires [move] while the map moves, then [moveend]. *)
Definition pan (s : session) : session := fire "moveend" (fire "move" s).

(** A zoom to [z]: [zoom] and [move], then [zoomend] and [moveend]. *)
Definition zoom_to (z : Q) (s : session) : session :=
  fire "moveend" (fire "zoomend" (fire "move" (fire "zoom" (set_zoom z s)))).

(** What may happen within a pass: a load completes, the user pans,
    zooms or moves the width slider ([onChange] calls
    [setMimicWidth(Number(e.target.value))], [min="0" max="100"]). *)
Inductive pass_event_step : session → session → Prop :=
  | step_load s p k : (p, k) ∈ s_pending s → pass_event_step s (load_complete p k s)
  | step_pan s : pass_event_step s (pan s)
  | step_zoom s z : pass_event_step s (zoom_to z s)
  | step_slider s (v : Q) : (0 <= v <= 100)%Q → pass_event_step s (set_mimicWidth v s).

(** What may happen once the map exists: also a new specification. *)
Inductive session_step : session → session → Prop :=
  | step_apply s parsedSpec : session_step s (effect_run parsedSpec s)
  | step_event s s' : pass_event_step s s' → session_step s s'.

Inductive reachable (zoom : Q) : session → Prop :=
  | reach_init : reachable zoom (session_init zoom)
  | reach_step s s' : reachable zoom s → session_step s s' → reachable zoom s'.

End Session.

(** ** Invariant, liveness and the abstract pass *)

Definition handler_pass (h : handler) : nat :=
  match h with HSegRedraw p _ | HNodeRedraw p _ | HChartMove p _ _ _ => p end.

Definition draw_pass (d : draw) : nat :=
  match d with DrawSeg p _ _ _ | DrawNodes p _ _ | PlaceChart p _ _ _ => p end.

(** The events a handler is bound to: a [redraw] to [moveend] and
    [zoomend], a chart's closure to [move] and [zoom]. *)
Definition handler_types (h : handler) : list string :=
  match h with HChartMove _ _ _ _ => ["move"; "zoom"] | _ => ["moveend"; "zoomend"] end.

(** What every reachable state satisfies: each listener is bound to its
    handler's events; a node [redraw] is bound only while its layer is in
    [currentLayersRef]; handlers and loads belong to passes that ran; a
    chart closure was created before; no listener is registered twice. *)
Record session_inv (s : session) : Prop := {
  inv_types : ∀ t h, (t, h) ∈ s_registry s → t ∈ handler_types h;
  inv_nodes : ∀ t p k, (t, HNodeRedraw p k) ∈ s_registry s → (p, k, KNode) ∈ s_layers s;
  inv_pass : ∀ t h, (t, h) ∈ s_registry s → (handler_pass h < List.length (s_specs s))%nat;
  inv_pending : ∀ p k, (p, k) ∈ s_pending s → (p < List.length (s_specs s))%nat;
  inv_gen : ∀ t p k i g, (t, HChartMove p k i g) ∈ s_registry s → (g < s_gen s)%nat;
  inv_draws : ∀ d, d ∈ s_draws s → (draw_pass d < List.length (s_specs s))%nat;
  inv_nodup : NoDup (s_registry s)
}.

(** Liveness in the style of an omnisemantics: [eventually step P s]
    holds when [P] holds now, or [step s mid] holds for a set [mid] of
    successors, every one of which eventually satisfies [P]. *)
Inductive eventually {S} (step : S → (S → Prop) → Prop) (P : S → Prop) (s : S) : Prop :=
  | eventually_done : P s → eventually step P s
  | eventually_step mid : step s mid → (∀ s', mid s' → eventually step P s') → eventually step P s.

Section Loads.
Context (chart_count : layer_spec → nat) (draw_throws : layer_spec → bool).

(** The loads' completions: while one is in flight, the environment
    completes any one of them. *)
Definition loads_step (s : session) (mid : session → Prop) : Prop :=
  s_pending s ≠ [] ∧ ∀ p k, (p, k) ∈ s_pending s → mid (load_complete chart_count draw_throws p k s).

(** A line, rectangle or matrix segment layer: what [renderSegmentLayer]
    binds to the map. *)
Definition drawn_segment (l : layer_spec) : Prop := u_type (l_unit l) = USegment ∧ is_chart l = false.

(** The [move] (or [zoom]) listeners that place the charts of layer [k]
    of pass [p]. *)
Definition chart_listeners (p k : nat) (t : string) (reg : registry) : nat :=
  List.length (filter (λ th, th.1 = t ∧
    match th.2 with HChartMove p' k' _ _ => (p' =? p) && (k' =? k) | _ => false end = true) reg).

(** Every load has completed; every such layer of pass [p] whose first
    [redraw] went through has it bound to [moveend] and [zoomend], and
    one whose first [redraw] threw has it bound to nothing. *)
Definition pass_settled (p : nat) (spec : list layer_spec) (s : session) : Prop :=
  s_pending s = [] ∧
  ∀ k l, spec !! k = Some l → drawn_segment l →
    (l_relation l ≠ None → draw_throws l = false →
       ("moveend", HSegRedraw p k) ∈ s_registry s ∧ ("zoomend", HSegRedraw p k) ∈ s_registry s) ∧
    (l_relation l = None ∨ draw_throws l = true → ∀ t, (t, HSegRedraw p k) ∉ s_registry s).

End Loads.

(** The segment [redraw]s of pass [p] as [RenderPass] records them. *)
Definition seg_draws (p : nat) (ds : list draw) : list (nat * Q * Q) :=
  omap (λ d, match d with DrawSeg p' k z dist => if decide (p' = p) then Some (k, z, dist) else None | _ => None end) ds.

(** The loads of pass [p]'s segment layers, as [RenderPass] keeps them. *)
Definition seg_pending (p : nat) (spec : list layer_spec) (pd : list (nat * nat)) : list nat :=
  omap (λ pk, if decide (pk.1 = p) then
                match spec !! pk.2 with
                | Some l => if decide (u_type (l_unit l) = USegment) then Some pk.2 else None
                | None => None end
              else None) pd.

(** The layers of pass [p] among handlers: those of their segment
    [redraw]s. *)
Definition seg_ks (p : nat) (hs : list handler) : list nat :=
  omap (λ h, match h with HSegRedraw p' k => if decide (p' = p) then Some k else None | _ => None end) hs.

(** The layers of pass [p] whose [redraw] listens to event [t]. *)
Definition seg_bound (p : nat) (t : string) (reg : registry) : list nat := seg_ks p (listeners t reg).

(** The abstraction of the session to the current pass [p] of
    specification [spec]: the pass state of [RenderPass]. *)
Record refines (p : nat) (spec : list layer_spec) (s : session) (a : pass_state) : Prop := {
  ref_spec : s_specs s !! p = Some spec;
  ref_last : List.length (s_specs s) = S p;
  ref_counters : ps_counters a = s_counters s;
  ref_zoom : ps_zoom a = s_zoom s;
  ref_pending : ps_pending a = seg_pending p spec (s_pending s);
  ref_bound_moveend : seg_bound p "moveend" (s_registry s) = ps_bound a;
  ref_bound_zoomend : seg_bound p "zoomend" (s_registry s) = ps_bound a;
  ref_bound_spec : ∀ k, k ∈ ps_bound a → ∃ l, spec !! k = Some l ∧ drawn_segment l;
  ref_disjoint : ∀ k, k ∈ ps_pending a → k ∉ ps_bound a;
  ref_draws : ps_draws a = seg_draws p (s_draws s)
}.

(** A node layer drawn as bar charts, as the witnesses use it. *)
Definition node_chart_layer : layer_spec :=
  {| l_name := None;
     l_unit := {| u_type := UNode; u_density := None; u_method := None; u_opacity := None;
                  u_color := None; u_squiggle := None; u_dash := None; u_width := None;
                  u_height := None; u_chart := Some (Chart "bar"); u_rows := None; u_columns := None;
                  u_orientation := None; u_alignment := None |};
     l_physical_path := "streets.geojson"; l_thematic_path := "sensors.csv";
     l_lat_column := "lat"; l_lon_column := "lon"; l_relation := None; l_zoom := None;
     l_street_color := None; l_street_width := None; l_query_address := None;
     l_query_radius := None |}.

(** A left-aligned line layer without a [relation]: its first [redraw]
    throws on [layerSpec.relation.type]. *)
Definition unrelated_layer : layer_spec :=
  {| l_name := None; l_unit := l_unit left_layer;
     l_physical_path := "streets.geojson"; l_thematic_path := "sensors.csv";
     l_lat_column := "lat"; l_lon_column := "lon"; l_relation := None; l_zoom := None;
     l_street_color := None; l_street_width := None; l_query_address := None;
     l_query_radius := None |}.

(** Two applied specifications: two left-aligned line layers, the first
    of which has loaded, then one left-aligned line layer. *)
Definition two_passes : session :=
  effect_run [left_layer] (load_complete (λ _, 2%nat) (λ _, false) 0 0 (effect_run two_left_layers (session_init 17))).

(** * Properties *)

(** ** Removing layers and placing charts *)

Lemma elem_of_removeLayers x ls reg :
  x ∈ fold_left removeLayer ls reg ↔
  x ∈ reg ∧ ∀ p k, (p, k, KNode) ∈ ls → ¬ (x.2 = HNodeRedraw p k ∧ (x.1 = "moveend" ∨ x.1 = "zoomend")).
Proof.
  induction ls as [|[[p k] []] ls IH] in reg |- *; simpl.
  - set_solver.
  - rewrite IH. set_solver.
  - rewrite IH. unfold map_off. rewrite !list_elem_of_filter. autorewrite with sw_rw.
    destruct x as [t h]. simpl. set_solver.
Qed.

Lemma NoDup_removeLayers ls reg : NoDup reg → NoDup (fold_left removeLayer ls reg).
Proof.
  induction ls as [|[[p k] []] ls IH] in reg |- *; intros Hnd; simpl; [done|by apply IH|].
  apply IH. unfold map_off. by do 2 apply NoDup_filter.
Qed.

Lemma elem_of_chart_fold x p k g its reg :
  x ∈ fold_left (λ reg i, map_on "move zoom" (HChartMove p k i g) reg) its reg ↔
  x ∈ reg ∨ ∃ i, i ∈ its ∧ x.2 = HChartMove p k i g ∧ (x.1 = "move" ∨ x.1 = "zoom").
Proof.
  induction its as [|i its IH] in reg |- *; simpl; [set_solver|].
  rewrite IH, elem_of_map_on. autorewrite with sw_rw. set_solver.
Qed.

Lemma NoDup_chart_fold p k g its reg :
  NoDup reg → NoDup (fold_left (λ reg i, map_on "move zoom" (HChartMove p k i g) reg) its reg).
Proof. induction its as [|i its IH] in reg |- *; intros Hnd; simpl; [done|]. by apply IH, NoDup_map_on. Qed.

(** The counters and loads after the loop of the effect's body: the
    other fields are untouched. *)
Lemma render_layers_start_frame p spec ks s :
  let s' := fold_left (render_layer_start p spec) ks s in
  s_specs s' = s_specs s ∧ s_registry s' = s_registry s ∧ s_layers s' = s_layers s ∧
  s_gen s' = s_gen s ∧ s_draws s' = s_draws s ∧ s_zoom s' = s_zoom s ∧ s_mimicWidth s' = s_mimicWidth s ∧
  s_pending s' = s_pending s ++ omap (λ k, (λ _, (p, k)) <$> spec !! k) ks.
Proof.
  induction ks as [|k ks IH] in s |- *; simpl; [by rewrite app_nil_r|].
  destruct (IH (render_layer_start p spec s k)) as (-> & -> & -> & -> & -> & -> & -> & ->).
  unfold render_layer_start. destruct (spec !! k); simpl; [|done]. by rewrite <-app_assoc.
Qed.

Section SessionProps.
Context (chart_count : layer_spec → nat) (draw_throws : layer_spec → bool).

(** The five ends of a load: charts placed, a segment layer caught or
    bound, a node layer caught or bound. *)
Ltac load_cases l :=
  destruct (decide (u_type (l_unit l) = USegment));
  [destruct (is_chart l) eqn:?; [|destruct (segment_throws draw_throws l) eqn:?]
  |destruct (negb (is_chart l) && draw_throws l) eqn:?]; cbv zeta.

Lemma spec_of_pass s p k l : spec_of s p k = Some l → (p < List.length (s_specs s))%nat.
Proof.
  unfold spec_of. destruct (s_specs s !! p) eqn:E; simpl; [|done].
  intros _. by eapply lookup_lt_Some.
Qed.

(** A change that keeps the registry, the layers, the passes, the loads
    and the closures, and draws only for passes that ran. *)
Lemma session_inv_frame s s' :
  session_inv s → s_registry s' = s_registry s → s_layers s' = s_layers s → s_specs s' = s_specs s →
  s_pending s' = s_pending s → s_gen s' = s_gen s →
  (∀ d, d ∈ s_draws s' → d ∈ s_draws s ∨ (draw_pass d < List.length (s_specs s))%nat) →
  session_inv s'.
Proof.
  intros [] Hr Hl Hs Hp Hg Hd. constructor; rewrite ?Hr, ?Hl, ?Hs, ?Hp, ?Hg; try done.
  intros d Hin. destruct (Hd d Hin); eauto.
Qed.

Lemma place_charts_inv s p k l :
  spec_of s p k = Some l → session_inv s → session_inv (place_charts chart_count p k l s).
Proof.
  intros Hsp%spec_of_pass [Ht Hn Hpass Hpd Hg Hd Hnd]. unfold place_charts.
  constructor; simpl.
  - intros t h [Hin | (i & _ & Hh & Ht')]%elem_of_chart_fold; [by eauto|]. simpl in *. subst h. set_solver.
  - intros t p' k' [Hin | (i & _ & Hh & _)]%elem_of_chart_fold; [by eauto|done].
  - intros t h [Hin | (i & _ & Hh & _)]%elem_of_chart_fold; [by eauto|]. simpl in Hh. by subst h.
  - done.
  - intros t p' k' i g [Hin | (i' & _ & Hh & _)]%elem_of_chart_fold; [specialize (Hg _ _ _ _ _ Hin); lia|].
    simpl in Hh. simplify_eq. lia.
  - intros d [Hin | (i & -> & _)%list_elem_of_fmap]%elem_of_app; [by eauto|done].
  - by apply NoDup_chart_fold.
Qed.

Lemma add_draws_inv s ds :
  session_inv s → (∀ d, d ∈ ds → (draw_pass d < List.length (s_specs s))%nat) → session_inv (add_draws ds s).
Proof. intros Hi Hds. apply (session_inv_frame s); try done. intros d [|]%elem_of_app; eauto. Qed.

Lemma run_handler_frame s h :
  let s' := run_handler chart_count s h in
  s_specs s' = s_specs s ∧ s_counters s' = s_counters s ∧ s_zoom s' = s_zoom s ∧
  s_layers s' = s_layers s ∧ s_pending s' = s_pending s.
Proof. destruct h; simpl; repeat case_match; done. Qed.

Lemma run_handler_inv s h :
  session_inv s → (handler_pass h < List.length (s_specs s))%nat → session_inv (run_handler chart_count s h).
Proof.
  intros Hi Hp. destruct h as [p k|p k|p k i g]; simpl in *.
  - destruct (spec_of s p k) eqn:E; [|done]. apply add_draws_inv; [done|]. set_solver.
  - destruct (spec_of s p k) eqn:E; [|done]. destruct (is_chart l); [by apply place_charts_inv|].
    apply add_draws_inv; [done|]. set_solver.
  - apply add_draws_inv; [done|]. set_solver.
Qed.

Lemma run_handlers_frame hs s :
  let s' := fold_left (run_handler chart_count) hs s in
  s_specs s' = s_specs s ∧ s_counters s' = s_counters s ∧ s_zoom s' = s_zoom s ∧
  s_layers s' = s_layers s ∧ s_pending s' = s_pending s.
Proof.
  induction hs as [|h hs IH] in s |- *; simpl; [done|].
  destruct (IH (run_handler chart_count s h)) as (-> & -> & -> & -> & ->). apply run_handler_frame.
Qed.

Lemma run_handlers_inv hs s :
  session_inv s → (∀ h, h ∈ hs → (handler_pass h < List.length (s_specs s))%nat) →
  session_inv (fold_left (run_handler chart_count) hs s).
Proof.
  induction hs as [|h hs IH] in s |- *; intros Hi Hhs; simpl; [done|].
  apply IH; [apply run_handler_inv; set_solver|].
  destruct (run_handler_frame s h) as (-> & _). set_solver.
Qed.

Lemma fire_inv t s : session_inv s → session_inv (fire chart_count t s).
Proof.
  intros Hi. apply run_handlers_inv; [done|]. intros h Hh%elem_of_listeners. by eapply inv_pass.
Qed.

(** Binding a handler and pushing a layer keeps the invariant when the
    handler listens to its own events and a node [redraw] comes with its
    layer. *)
Lemma register_inv s lr h reg' :
  session_inv s → NoDup reg' →
  (∀ x, x ∈ reg' → x ∈ s_registry s ∨ (x.1 ∈ handler_types h ∧ x.2 = h)) →
  (handler_pass h < List.length (s_specs s))%nat →
  (∀ p k, h = HNodeRedraw p k → lr = (p, k, KNode)) → (∀ p k i g, h ≠ HChartMove p k i g) →
  session_inv (push_layer lr (set_registry reg' s)).
Proof.
  intros [Ht Hn Hpass Hpd Hg Hd Hnd] Hnd' Hreg Hh Hlr Hc. constructor; simpl; try done.
  - intros t h' [Hin | [H1 H2]]%Hreg; [by eauto|]. simpl in *. by subst.
  - intros t p k [Hin | [_ H2]]%Hreg; rewrite elem_of_app; [left; by eauto|].
    simpl in H2. right. rewrite (Hlr p k (eq_sym H2)). set_solver.
  - intros t h' [Hin | [_ H2]]%Hreg; simpl in *; subst; by eauto.
  - intros t p k i g [Hin | [_ Heq]]%Hreg; [by eauto|]. simpl in Heq. by destruct (Hc p k i g).
Qed.

Lemma set_pending_inv s pd :
  session_inv s → (∀ x, x ∈ pd → x ∈ s_pending s) → session_inv (set_pending pd s).
Proof. intros [] Hpd. constructor; simpl; try done. intros p k ?. eauto. Qed.

Lemma load_complete_inv p k s : session_inv s → session_inv (load_complete chart_count draw_throws p k s).
Proof.
  intros Hi. unfold load_complete.
  set (s0 := set_pending (filter (λ pk, pk ≠ (p, k)) (s_pending s)) s).
  assert (Hi0 : session_inv s0).
  { apply set_pending_inv; [done|]. intros x Hx%list_elem_of_filter. naive_solver. }
  destruct (spec_of s p k) as [l|] eqn:E; [|done].
  pose proof (spec_of_pass _ _ _ _ E) as Hp.
  load_cases l; [by apply place_charts_inv|done| |done|].
  - pose proof (run_handler_inv s0 (HSegRedraw p k) Hi0 Hp) as Hi1.
    destruct (run_handler_frame s0 (HSegRedraw p k)) as (Hs1 & _).
    apply register_inv with (h := HSegRedraw p k); [done | by apply NoDup_map_on, inv_nodup | | | |].
    + intros x [|[Hx ->]]%elem_of_map_on; [by left|]. rewrite split_words_ends in Hx. by right.
    + by rewrite Hs1.
    + by intros ?? [=].
    + by intros ???? [=].
  - pose proof (run_handler_inv s0 (HNodeRedraw p k) Hi0 Hp) as Hi1.
    destruct (run_handler_frame s0 (HNodeRedraw p k)) as (Hs1 & _).
    apply register_inv with (h := HNodeRedraw p k); [done | by apply NoDup_map_on, NoDup_map_on, inv_nodup | | | |].
    + intros [t h'] Hx. rewrite !elem_of_map_on in Hx. autorewrite with sw_rw in Hx. simpl in *. set_solver.
    + by rewrite Hs1.
    + by intros ?? [= -> ->].
    + by intros ???? [=].
Qed.

(** What a run of the effect leaves: the new pass's specification, the
    registry without the [move zoom] listeners and the node [redraw]s of
    the removed layers, no layer, the loads of every layer of the new
    pass after those still in flight, the width [0]. *)
Lemma effect_run_fields spec s :
  let s' := effect_run spec s in
  s_specs s' = s_specs s ++ [spec] ∧
  s_registry s' = map_off_all "move zoom" (fold_left removeLayer (s_layers s) (map_off_all "move zoom" (s_registry s))) ∧
  s_layers s' = [] ∧ s_gen s' = s_gen s ∧ s_draws s' = s_draws s ∧ s_zoom s' = s_zoom s ∧
  s_mimicWidth s' = 0 ∧
  s_pending s' = s_pending s ++ omap (λ k, (λ _, (List.length (s_specs s), k)) <$> spec !! k) (seq 0 (List.length spec)).
Proof.
  unfold effect_run, effect_body.
  match goal with |- context [fold_left (render_layer_start ?p ?sp) ?ks ?s0] =>
    destruct (render_layers_start_frame p sp ks s0) as (-> & -> & -> & -> & -> & -> & -> & ->) end.
  simpl. split_and!; try done. unfold set_states. by rewrite last_app.
Qed.

(** A run of the effect keeps exactly the segment [redraw]s: it unbinds
    the chart closures ([map.off('move zoom')]) and the node [redraw]s
    (through the layers' [onRemove]), nothing else. *)
Lemma effect_run_registry spec s x :
  session_inv s → x ∈ s_registry (effect_run spec s) ↔ x ∈ s_registry s ∧ ∃ p k, x.2 = HSegRedraw p k.
Proof.
  intros Hi. destruct (effect_run_fields spec s) as (_ & -> & _).
  unfold map_off_all. rewrite list_elem_of_filter, elem_of_removeLayers, list_elem_of_filter.
  autorewrite with sw_rw. destruct x as [t [p k|p k|p k i g]]; simpl.
  - split; [naive_solver|]. intros [Hin _]. pose proof (inv_types _ Hi _ _ Hin). set_solver.
  - split; [|intros (_ & ? & ? & [=])]. intros (_ & [_ Hin] & Hno). exfalso.
    apply (Hno p k); [by eapply inv_nodes|]. pose proof (inv_types _ Hi _ _ Hin). set_solver.
  - split; [|intros (_ & ? & ? & [=])]. intros (Hmz & [_ Hin] & _).
    pose proof (inv_types _ Hi _ _ Hin). set_solver.
Qed.

Lemma effect_run_inv spec s : session_inv s → session_inv (effect_run spec s).
Proof.
  intros Hi. pose proof (λ x, effect_run_registry spec s x Hi) as Hreg.
  destruct (effect_run_fields spec s) as (Hs & Hr & Hl & Hg & Hd & _ & _ & Hp).
  constructor.
  - intros t h [Hin _]%Hreg. by eapply inv_types.
  - intros t p k [_ (p' & k' & [=])]%Hreg.
  - intros t h [Hin _]%Hreg. rewrite Hs, length_app. pose proof (inv_pass _ Hi _ _ Hin). simpl. lia.
  - intros p k. rewrite Hp, Hs, length_app, elem_of_app. intros [Hin | Hin].
    + pose proof (inv_pending _ Hi _ _ Hin). simpl. lia.
    + apply list_elem_of_omap in Hin as (k' & _ & Hk). destruct (spec !! k'); simplify_eq/=. lia.
  - intros t p k i g [Hin _]%Hreg. rewrite Hg. by eapply inv_gen.
  - intros d. rewrite Hd, Hs, length_app. intros Hin. pose proof (inv_draws _ Hi d Hin). simpl. lia.
  - rewrite Hr. apply NoDup_filter, NoDup_removeLayers, NoDup_filter, (inv_nodup _ Hi).
Qed.

Lemma set_zoom_inv z s : session_inv s → session_inv (set_zoom z s).
Proof. intros Hi. by apply (session_inv_frame s); [..|intros; left]. Qed.

Lemma pass_event_step_inv s s' : session_inv s → pass_event_step chart_count draw_throws s s' → session_inv s'.
Proof.
  intros Hi Hstep. revert Hi. destruct Hstep; intros Hi; unfold pan, zoom_to.
  - by apply load_complete_inv.
  - by do 2 apply fire_inv.
  - by do 4 apply fire_inv; apply set_zoom_inv.
  - by apply (session_inv_frame s); [..|intros; left].
Qed.

Lemma session_step_inv s s' : session_inv s → session_step chart_count draw_throws s s' → session_inv s'.
Proof. intros Hi Hstep. revert Hi. destruct Hstep; intros Hi; [by apply effect_run_inv | by eapply pass_event_step_inv]. Qed.

Lemma session_reachable_inv z s : reachable chart_count draw_throws z s → session_inv s.
Proof.
  induction 1 as [|s s' _ IH Hstep]; [|by eapply session_step_inv].
  constructor; simpl; try set_solver. constructor.
Qed.

(** ** Nothing within a pass unbinds a listener *)

Lemma run_handler_reg_mono s h x : x ∈ s_registry s → x ∈ s_registry (run_handler chart_count s h).
Proof.
  intros Hx. destruct h; simpl; repeat case_match; simpl; try done.
  apply elem_of_chart_fold. by left.
Qed.

Lemma fire_reg_mono t s x : x ∈ s_registry s → x ∈ s_registry (fire chart_count t s).
Proof.
  unfold fire. generalize (listeners t (s_registry s)) as hs.
  intros hs. induction hs as [|h hs IH] in s |- *; intros Hx; simpl; [done|].
  by apply IH, run_handler_reg_mono.
Qed.

Lemma load_complete_reg_mono p k s x : x ∈ s_registry s → x ∈ s_registry (load_complete chart_count draw_throws p k s).
Proof.
  intros Hx. unfold load_complete. destruct (spec_of s p k) as [l|]; [|exact Hx].
  load_cases l; unfold push_layer, set_registry, bindMapEvents; cbn [s_registry]; [|done| |done|].
  - apply elem_of_chart_fold. by left.
  - apply elem_of_map_on. left. by apply run_handler_reg_mono.
  - apply elem_of_map_on. left. apply elem_of_map_on. left. by apply run_handler_reg_mono.
Qed.

Lemma pass_event_step_reg_mono s s' x : pass_event_step chart_count draw_throws s s' → x ∈ s_registry s → x ∈ s_registry s'.
Proof.
  intros []; unfold pan, zoom_to; intros Hx.
  - by apply load_complete_reg_mono.
  - by do 2 apply fire_reg_mono.
  - by do 4 apply fire_reg_mono.
  - done.
Qed.

Lemma session_step_keeps_seg s s' t p k :
  session_inv s → session_step chart_count draw_throws s s' →
  (t, HSegRedraw p k) ∈ s_registry s → (t, HSegRedraw p k) ∈ s_registry s'.
Proof.
  intros Hi Hstep. revert Hi. destruct Hstep; intros Hi; [|by apply pass_event_step_reg_mono]. intros Hin.
  apply effect_run_registry; [done|]. split; [done|]. by exists p, k.
Qed.

(** C10: Once a line, rectangle or matrix segment layer has bound its
    [redraw] to [moveend] or [zoomend] ([bindMapEvents]), the binding
    stays for the rest of the component's life: neither
    [map.off('move zoom')], nor the removal of the layers in
    [currentLayersRef], nor anything else unbinds it, also after any
    number of newly applied specifications.  Every later pan or zoom
    runs the [redraw] of every segment layer ever drawn. *)
Theorem seg_redraw_never_unbound z s s' t p k :
  reachable chart_count draw_throws z s → (t, HSegRedraw p k) ∈ s_registry s →
  rtc (session_step chart_count draw_throws) s s' → (t, HSegRedraw p k) ∈ s_registry s'.
Proof.
  intros Hr Hin Hrtc. pose proof (session_reachable_inv _ _ Hr) as Hi. clear Hr.
  revert Hi Hin. induction Hrtc as [|s1 s2 s3 Hst _ IH]; intros Hi Hin; [done|].
  apply IH; [by eapply session_step_inv | by eapply session_step_keeps_seg].
Qed.

(** C14: Applying a specification leaves in the registry exactly the
    segment [redraw]s bound before: the chart closures and the node
    layers' [redraw]s are all unbound, the segment layers' never. *)
Theorem apply_keeps_only_segment_redraws z s spec t h :
  reachable chart_count draw_throws z s →
  (t, h) ∈ s_registry (effect_run spec s) ↔ (t, h) ∈ s_registry s ∧ ∃ p k, h = HSegRedraw p k.
Proof. intros Hr. apply effect_run_registry. by eapply session_reachable_inv. Qed.

(** ** Every load completes *)

Lemma load_complete_frame p k s :
  let s' := load_complete chart_count draw_throws p k s in
  s_specs s' = s_specs s ∧ s_counters s' = s_counters s ∧ s_zoom s' = s_zoom s ∧
  s_pending s' = filter (λ pk, pk ≠ (p, k)) (s_pending s).
Proof.
  unfold load_complete. destruct (spec_of s p k) as [l|]; [|done].
  load_cases l; [done|done| |done|].
  - destruct (run_handler_frame (set_pending (filter (λ pk, pk ≠ (p, k)) (s_pending s)) s) (HSegRedraw p k))
      as (Hs & Hc & Hz & _ & Hp). split_and!; [exact Hs | exact Hc | exact Hz | exact Hp].
  - destruct (run_handler_frame (set_pending (filter (λ pk, pk ≠ (p, k)) (s_pending s)) s) (HNodeRedraw p k))
      as (Hs & Hc & Hz & _ & Hp). split_and!; [exact Hs | exact Hc | exact Hz | exact Hp].
Qed.

Lemma load_complete_binds p k s l :
  spec_of s p k = Some l → drawn_segment l → segment_throws draw_throws l = false →
  ("moveend", HSegRedraw p k) ∈ s_registry (load_complete chart_count draw_throws p k s) ∧
  ("zoomend", HSegRedraw p k) ∈ s_registry (load_complete chart_count draw_throws p k s).
Proof.
  intros E [Hseg Hc] Ht. unfold load_complete. rewrite E, decide_True, Hc, Ht by done.
  cbv zeta. unfold push_layer, set_registry, bindMapEvents. cbn [s_registry].
  rewrite !elem_of_map_on, split_words_ends. set_solver.
Qed.

Lemma run_handler_seg_reg s h t p k :
  (t, HSegRedraw p k) ∈ s_registry (run_handler chart_count s h) → (t, HSegRedraw p k) ∈ s_registry s.
Proof.
  destruct h; simpl; repeat case_match; simpl; try done.
  by intros [|(? & _ & [=] & _)]%elem_of_chart_fold.
Qed.

(** The only segment [redraw] a load binds is its own layer's, and only
    when its first [redraw] went through. *)
Lemma load_complete_seg_reg p k s t p' k' :
  (t, HSegRedraw p' k') ∈ s_registry (load_complete chart_count draw_throws p k s) →
  (t, HSegRedraw p' k') ∈ s_registry s ∨
  ((p', k') = (p, k) ∧ ∃ l, spec_of s p k = Some l ∧ segment_throws draw_throws l = false).
Proof.
  unfold load_complete. destruct (spec_of s p k) as [l|] eqn:E; [|by left].
  load_cases l; unfold push_layer, set_registry, bindMapEvents; cbn [s_registry]; try (by left).
  - by intros [|(? & _ & [=] & _)]%elem_of_chart_fold; left.
  - intros [Hin%run_handler_seg_reg|[_ [= -> ->]]]%elem_of_map_on; [by left|]. right. eauto.
  - rewrite !elem_of_map_on. intros [[Hin%run_handler_seg_reg|[_ [=]]]|[_ [=]]]. by left.
Qed.

(** A segment layer of pass [p] that is still loading, or whose load
    ended: bound when its first [redraw] went through, never bound when
    it threw. *)
Definition loading_or_bound (p : nat) (spec : list layer_spec) (s : session) : Prop :=
  s_specs s !! p = Some spec ∧
  ∀ k l, spec !! k = Some l → drawn_segment l →
    ((p, k) ∈ s_pending s ∨ segment_throws draw_throws l = true ∨
     (("moveend", HSegRedraw p k) ∈ s_registry s ∧ ("zoomend", HSegRedraw p k) ∈ s_registry s)) ∧
    (segment_throws draw_throws l = true → ∀ t, (t, HSegRedraw p k) ∉ s_registry s).

Lemma loading_or_bound_load_done p spec s p' k' :
  loading_or_bound p spec s → loading_or_bound p spec (load_complete chart_count draw_throws p' k' s).
Proof.
  intros [Hsp Hk]. destruct (load_complete_frame p' k' s) as (Hs & _ & _ & Hp).
  assert (Hso : spec_of s p k' = spec !! k') by (unfold spec_of; by rewrite Hsp).
  split; [by rewrite Hs|]. intros k l Hl Hd. destruct (Hk k l Hl Hd) as [Hb Hn]. split.
  - destruct (decide ((p', k') = (p, k))) as [[= -> ->]|Hne].
    + destruct (segment_throws draw_throws l) eqn:Ht; [by right; left|].
      right; right. apply (load_complete_binds _ _ _ l); [by rewrite Hso|done|done].
    + destruct Hb as [Hin | [Ht | [Hm Hz]]].
      * left. rewrite Hp, list_elem_of_filter. naive_solver.
      * by right; left.
      * right; right. split; by apply load_complete_reg_mono.
  - intros Ht t [Hin | [[= -> ->] (l' & El & Ht')]]%load_complete_seg_reg; [by apply (Hn Ht t)|].
    rewrite Hso, Hl in El. simplify_eq. congruence.
Qed.

Lemma loading_or_bound_settles p spec s :
  loading_or_bound p spec s → eventually (loads_step chart_count draw_throws) (pass_settled draw_throws p spec) s.
Proof.
  remember (List.length (s_pending s)) as n eqn:En.
  induction (lt_wf n) as [n _ IH] in s, En |- *. intros Hlb.
  destruct (s_pending s) as [|pk pd] eqn:Hpd.
  - apply eventually_done. split; [done|]. intros k l Hl Hd.
    destruct (proj2 Hlb k l Hl Hd) as [[Hin|[Ht|Hbd]] Hn]; [rewrite Hpd in Hin; set_solver| |].
    + split; [|intros _; apply (Hn Ht)]. intros Hr Hd'.
      assert (segment_throws draw_throws l = false) by (by apply segment_throws_false). congruence.
    + split; [intros; exact Hbd|]. intros Ht'. assert (Ht : segment_throws draw_throws l = true).
      { apply not_false_iff_true. rewrite segment_throws_false. intros [H1 H2]. destruct Ht'; congruence. }
      destruct (Hn Ht "moveend"). apply Hbd.
  - apply (eventually_step _ _ _ (λ s', loading_or_bound p spec s' ∧
                                      (List.length (s_pending s') < n)%nat)).
    + unfold loads_step. rewrite Hpd. split; [done|]. intros p' k' Hin.
      split; [by apply loading_or_bound_load_done|].
      destruct (load_complete_frame p' k' s) as (_ & _ & _ & ->). rewrite En, Hpd.
      apply length_filter_lt with (p', k'); [done|]. by intros ?.
    + intros s' [Hlb' Hlt]. by apply (IH _ Hlt).
Qed.

(** C12: Liveness of a pass: after a specification is applied, whatever
    the order in which the loads in flight complete (those of the new
    pass and any left from earlier passes), a state is reached in which
    no load is in flight and every line, rectangle or matrix layer of
    the new pass has its [redraw] bound to [moveend] and [zoomend]
    exactly when its first [redraw] did not throw; a layer without a
    [relation], or whose data the drawing code throws on, is never
    bound.  No schedule of completions avoids that state. *)
Theorem pass_loads_complete s spec :
  reachable chart_count draw_throws (s_zoom s) s →
  eventually (loads_step chart_count draw_throws) (pass_settled draw_throws (List.length (s_specs s)) spec)
    (effect_run spec s).
Proof.
  intros Hr. pose proof (session_reachable_inv _ _ Hr) as Hi.
  apply loading_or_bound_settles.
  destruct (effect_run_fields spec s) as (Hs & _ & _ & _ & _ & _ & _ & Hp).
  split; [rewrite Hs; by apply list_lookup_middle|].
  intros k l Hl _. split.
  - left. rewrite Hp, elem_of_app. right. apply list_elem_of_omap.
    exists k. split; [apply elem_of_seq; apply lookup_lt_Some in Hl; lia | by rewrite Hl].
  - intros _ t Hin. apply effect_run_registry in Hin as [Hin _]; [|done].
    apply (inv_pass _ Hi) in Hin. simpl in Hin. lia.
Qed.

(** ** The current pass refines [RenderPass] *)

Lemma seg_ks_app p hs1 hs2 : seg_ks p (hs1 ++ hs2) = seg_ks p hs1 ++ seg_ks p hs2.
Proof. apply omap_app. Qed.

Lemma seg_ks_nil p hs : (∀ h k, h ∈ hs → h ≠ HSegRedraw p k) → seg_ks p hs = [].
Proof.
  induction hs as [|h hs IH]; intros Hh; [done|]. simpl.
  destruct h as [p' k| |]; [|apply IH; set_solver..].
  case_decide; [subst; by destruct (Hh (HSegRedraw p k) k); [left|]|]. apply IH. set_solver.
Qed.

Lemma elem_of_seg_bound p t reg k : k ∈ seg_bound p t reg ↔ (t, HSegRedraw p k) ∈ reg.
Proof.
  unfold seg_bound, seg_ks. rewrite list_elem_of_omap. setoid_rewrite elem_of_listeners.
  split; [intros ([p' k'| |] & Hin & Hk); [case_decide; simplify_eq; done|done|done]|].
  intros Hin. exists (HSegRedraw p k). by rewrite decide_True.
Qed.

Lemma seg_bound_nil p t reg : (∀ k, (t, HSegRedraw p k) ∉ reg) → seg_bound p t reg = [].
Proof.
  intros H. destruct (seg_bound p t reg) as [|k ks] eqn:E; [done|]. exfalso.
  apply (H k), elem_of_seg_bound. rewrite E. left.
Qed.

Lemma seg_draws_app p ds1 ds2 : seg_draws p (ds1 ++ ds2) = seg_draws p ds1 ++ seg_draws p ds2.
Proof. apply omap_app. Qed.

Lemma seg_draws_nil p ds : (∀ d k z dist, d ∈ ds → d ≠ DrawSeg p k z dist) → seg_draws p ds = [].
Proof.
  induction ds as [|d ds IH]; intros Hd; [done|]. simpl.
  destruct d as [p' k z dist| |]; [|apply IH; set_solver..].
  case_decide; [subst; by destruct (Hd (DrawSeg p k z dist) k z dist); [left|]|]. apply IH. set_solver.
Qed.

(** Binding a handler other than a segment [redraw] of pass [p] leaves
    the layers of [p] listening as they were. *)
Lemma seg_bound_map_on_other p t ts h reg :
  (∀ k, h ≠ HSegRedraw p k) → seg_bound p t (map_on ts h reg) = seg_bound p t reg.
Proof.
  intros Hh. destruct (map_on_app ts h reg) as (new & -> & Hnew).
  unfold seg_bound, listeners. rewrite filter_app, fmap_app, seg_ks_app.
  rewrite (seg_ks_nil p (snd <$> filter (λ th, th.1 = t) new)), app_nil_r; [done|].
  intros h' k (x & -> & [_ Hx]%list_elem_of_filter)%list_elem_of_fmap. rewrite (Hnew x Hx). apply Hh.
Qed.

Lemma seg_bound_chart_fold p t p' k' g its reg :
  seg_bound p t (fold_left (λ reg i, map_on "move zoom" (HChartMove p' k' i g) reg) its reg) = seg_bound p t reg.
Proof.
  induction its as [|i its IH] in reg |- *; [done|]. simpl. rewrite IH. by apply seg_bound_map_on_other.
Qed.

(** [bindMapEvents] of a segment [redraw] not yet bound appends it to
    both events' listeners. *)
Lemma bind_fresh h reg :
  ("moveend", h) ∉ reg → ("zoomend", h) ∉ reg → bindMapEvents h reg = reg ++ [("moveend", h); ("zoomend", h)].
Proof. intros Hm Hz. by apply map_on_two_fresh. Qed.

Lemma seg_bound_bind p k t reg :
  ("moveend", HSegRedraw p k) ∉ reg → ("zoomend", HSegRedraw p k) ∉ reg → t = "moveend" ∨ t = "zoomend" →
  seg_bound p t (bindMapEvents (HSegRedraw p k) reg) = seg_bound p t reg ++ [k].
Proof.
  intros Hm Hz Ht. rewrite bind_fresh by done. unfold seg_bound, listeners.
  rewrite filter_app, fmap_app, seg_ks_app. f_equal.
  destruct Ht as [-> | ->];
    [rewrite filter_cons_True, filter_cons_False | rewrite filter_cons_False, filter_cons_True];
    try done; try discriminate; simpl; by rewrite decide_True.
Qed.

Lemma seg_pending_app p spec pd1 pd2 :
  seg_pending p spec (pd1 ++ pd2) = seg_pending p spec pd1 ++ seg_pending p spec pd2.
Proof. apply omap_app. Qed.

Lemma elem_of_seg_pending p spec pd k :
  k ∈ seg_pending p spec pd ↔ (p, k) ∈ pd ∧ ∃ l, spec !! k = Some l ∧ u_type (l_unit l) = USegment.
Proof.
  unfold seg_pending. rewrite list_elem_of_omap. split.
  - intros ([p' k'] & Hin & Hk). simpl in Hk. case_decide; [subst|done].
    destruct (spec !! k') eqn:E; [|done]. case_decide; simplify_eq. eauto.
  - intros (Hin & l & Hl & Hs). exists (p, k). simpl. by rewrite decide_True, Hl, decide_True.
Qed.

(** Completing load [(p, k)] removes [k] from the loads of pass [p];
    completing a load of another pass leaves them. *)
Lemma seg_pending_filter p spec pd p' k :
  seg_pending p spec (filter (λ pk, pk ≠ (p', k)) pd) =
  if decide (p' = p) then filter (λ k', k' ≠ k) (seg_pending p spec pd) else seg_pending p spec pd.
Proof.
  unfold seg_pending. case_decide as Hp.
  - apply omap_filter. intros [p0 k0] y. simpl. case_decide; [|done]. repeat case_match; naive_solver.
  - rewrite (omap_filter _ _ (λ _, True)), filter_Forall_id; [done|by apply Forall_true|].
    intros [p0 k0] y. simpl. case_decide; [|done]. naive_solver.
Qed.

Lemma place_charts_seg p p' k l s :
  seg_draws p (s_draws (place_charts chart_count p' k l s)) = seg_draws p (s_draws s) ∧
  ∀ t, seg_bound p t (s_registry (place_charts chart_count p' k l s)) = seg_bound p t (s_registry s).
Proof.
  unfold place_charts. cbn [s_draws s_registry]. split; [|intros t; apply seg_bound_chart_fold].
  rewrite seg_draws_app, (seg_draws_nil p (_ <$> _)), app_nil_r; [done|].
  by intros d k' z dist (i & -> & _)%list_elem_of_fmap.
Qed.

(** A handler adds to the [redraw]s of pass [p] only when it is one of
    its segment [redraw]s, and then draws at the current zoom with the
    current counters; it never changes which layers of [p] listen. *)
Lemma run_handler_seg p spec s h :
  s_specs s !! p = Some spec → (∀ k, h = HSegRedraw p k → is_Some (spec !! k)) →
  seg_draws p (s_draws (run_handler chart_count s h)) =
    seg_draws p (s_draws s) ++
    ((λ k, (k, s_zoom s, dynamicDistance (s_zoom s) (s_counters s) (layer_alignment spec k))) <$> seg_ks p [h]) ∧
  ∀ t, seg_bound p t (s_registry (run_handler chart_count s h)) = seg_bound p t (s_registry s).
Proof.
  intros Hsp Hk. destruct h as [p' k|p' k|p' k i g]; unfold run_handler, seg_ks; cbn [omap list_omap].
  - unfold spec_of. destruct (decide (p' = p)) as [->|Hne].
    + destruct (Hk k eq_refl) as [l Hl]. rewrite Hsp. simpl. rewrite Hl.
      unfold add_draws. cbn [s_draws s_registry]. rewrite seg_draws_app. simpl.
      rewrite ?decide_True by done. unfold layer_alignment. rewrite Hl. by split.
    + rewrite ?decide_False by done. simpl.
      destruct (s_specs s !! p' ≫= _); [|by rewrite app_nil_r].
      unfold add_draws. cbn [s_draws s_registry]. rewrite seg_draws_app. simpl.
      rewrite ?decide_False by done. by rewrite ?app_nil_r.
  - rewrite app_nil_r. destruct (spec_of s p' k) as [l|]; [destruct (is_chart l)|]; [apply place_charts_seg| |done].
    unfold add_draws. cbn [s_draws s_registry]. rewrite seg_draws_app. by rewrite app_nil_r.
  - rewrite app_nil_r. unfold add_draws. cbn [s_draws s_registry]. rewrite seg_draws_app. by rewrite app_nil_r.
Qed.

Lemma run_handlers_seg p spec hs s :
  s_specs s !! p = Some spec → (∀ k, k ∈ seg_ks p hs → is_Some (spec !! k)) →
  seg_draws p (s_draws (fold_left (run_handler chart_count) hs s)) =
    seg_draws p (s_draws s) ++
    ((λ k, (k, s_zoom s, dynamicDistance (s_zoom s) (s_counters s) (layer_alignment spec k))) <$> seg_ks p hs) ∧
  ∀ t, seg_bound p t (s_registry (fold_left (run_handler chart_count) hs s)) = seg_bound p t (s_registry s).
Proof.
  induction hs as [|h hs IH] in s |- *; intros Hsp Hk; [by rewrite app_nil_r|]. cbn [fold_left].
  change (h :: hs) with ([h] ++ hs) in Hk |- *. rewrite seg_ks_app in Hk |- *.
  destruct (run_handler_seg p spec s h) as [Hd Hb]; [done| |].
  { intros k ->. apply Hk. simpl. rewrite decide_True by done. set_solver. }
  destruct (run_handler_frame s h) as (Hs & Hc & Hz & _).
  destruct (IH (run_handler chart_count s h)) as [Hd' Hb']; [by rewrite Hs| set_solver |].
  rewrite Hd', Hd, Hz, Hc, fmap_app, app_assoc. split; [done|]. intros t. by rewrite Hb', Hb.
Qed.

Lemma fire_seg p spec t s :
  s_specs s !! p = Some spec → (∀ k, k ∈ seg_bound p t (s_registry s) → is_Some (spec !! k)) →
  seg_draws p (s_draws (fire chart_count t s)) =
    seg_draws p (s_draws s) ++
    ((λ k, (k, s_zoom s, dynamicDistance (s_zoom s) (s_counters s) (layer_alignment spec k))) <$>
       seg_bound p t (s_registry s)) ∧
  ∀ t', seg_bound p t' (s_registry (fire chart_count t s)) = seg_bound p t' (s_registry s).
Proof. intros Hsp Hk. by apply run_handlers_seg. Qed.

(** Only chart closures listen to [move] and [zoom]. *)
Lemma seg_bound_move p t s :
  session_inv s → t = "move" ∨ t = "zoom" → seg_bound p t (s_registry s) = [].
Proof.
  intros Hi Ht. apply seg_bound_nil. intros k Hin%(inv_types _ Hi). simpl in Hin. set_solver.
Qed.

Lemma seg_pending_nil p spec pd : (∀ k, (p, k) ∉ pd) → seg_pending p spec pd = [].
Proof.
  intros H. destruct (seg_pending p spec pd) as [|k ks] eqn:E; [done|]. exfalso.
  apply (H k), (elem_of_seg_pending p spec). rewrite E. left.
Qed.

Lemma render_layers_start_refine p spec ks s a :
  s_counters s = ps_counters a → seg_pending p spec (s_pending s) = ps_pending a →
  s_counters (fold_left (render_layer_start p spec) ks s) = ps_counters (fold_left (RenderPass.start_layer spec) ks a) ∧
  seg_pending p spec (s_pending (fold_left (render_layer_start p spec) ks s)) =
    ps_pending (fold_left (RenderPass.start_layer spec) ks a) ∧
  ps_zoom (fold_left (RenderPass.start_layer spec) ks a) = ps_zoom a.
Proof.
  induction ks as [|k ks IH] in s, a |- *; intros Hc Hp; [done|]. cbn [fold_left].
  assert (Hk : s_counters (render_layer_start p spec s k) = ps_counters (RenderPass.start_layer spec a k) ∧
               seg_pending p spec (s_pending (render_layer_start p spec s k)) = ps_pending (RenderPass.start_layer spec a k) ∧
               ps_zoom (RenderPass.start_layer spec a k) = ps_zoom a).
  { unfold render_layer_start, RenderPass.start_layer. destruct (spec !! k) as [l|] eqn:E; [|done].
    simpl. rewrite seg_pending_app, Hp. unfold seg_pending. simpl.
    destruct (decide (p = p)) as [_|]; [|done]. rewrite E.
    case_decide; simpl; rewrite ?app_nil_r; by rewrite ?Hc. }
  destruct Hk as (Hc1 & Hp1 & Hz1). destruct (IH _ _ Hc1 Hp1) as (? & ? & ->). done.
Qed.

(** A new pass starts related to [RenderPass]'s [start_pass]: nothing of
    the earlier passes counts for it. *)
Lemma refines_start s spec :
  session_inv s → refines (List.length (s_specs s)) spec (effect_run spec s) (start_pass spec (s_zoom s)).
Proof.
  intros Hi. set (p := List.length (s_specs s)).
  pose proof (λ x, effect_run_registry spec s x Hi) as Hreg.
  destruct (effect_run_fields spec s) as (Hs & _ & _ & _ & Hd & Hz & _ & _).
  destruct (start_pass_draws spec (s_zoom s)) as [Had Hab].
  assert (Hcp : s_counters (effect_run spec s) = ps_counters (start_pass spec (s_zoom s)) ∧
                seg_pending p spec (s_pending (effect_run spec s)) = ps_pending (start_pass spec (s_zoom s)) ∧
                ps_zoom (start_pass spec (s_zoom s)) = s_zoom s).
  { unfold effect_run, effect_body, start_pass. apply render_layers_start_refine; [done|]. simpl.
    apply seg_pending_nil. intros k Hin%(inv_pending _ Hi). lia. }
  destruct Hcp as (Hc & Hp & Hz').
  assert (Hnone : ∀ t k, (t, HSegRedraw p k) ∉ s_registry (effect_run spec s)).
  { intros t k [Hin _]%Hreg. apply (inv_pass _ Hi) in Hin. simpl in Hin. lia. }
  constructor.
  - rewrite Hs. by apply list_lookup_middle.
  - rewrite Hs, length_app. simpl. lia.
  - done.
  - by rewrite Hz.
  - done.
  - rewrite Hab. by apply seg_bound_nil.
  - rewrite Hab. by apply seg_bound_nil.
  - rewrite Hab. set_solver.
  - rewrite Hab. set_solver.
  - rewrite Had, Hd. symmetry. apply seg_draws_nil. intros d k z dist Hin ->.
    apply (inv_draws _ Hi) in Hin. simpl in Hin. lia.
Qed.

Lemma seg_ks_other p h : (∀ k, h ≠ HSegRedraw p k) → seg_ks p [h] = [].
Proof. intros Hh. apply seg_ks_nil. intros h' k ->%list_elem_of_singleton. apply Hh. Qed.

(** A load that does not bind a segment [redraw] of pass [p] leaves
    what [p] drew and which of its layers listen as they were. *)
Lemma load_complete_quiet p spec p' k' s :
  s_specs s !! p = Some spec →
  ¬ (p' = p ∧ ∃ l, spec_of s p' k' = Some l ∧ drawn_segment l) →
  seg_draws p (s_draws (load_complete chart_count draw_throws p' k' s)) = seg_draws p (s_draws s) ∧
  ∀ t, seg_bound p t (s_registry (load_complete chart_count draw_throws p' k' s)) = seg_bound p t (s_registry s).
Proof.
  intros Hsp Hq. unfold load_complete.
  set (s0 := set_pending (filter (λ pk, pk ≠ (p', k')) (s_pending s)) s).
  destruct (spec_of s p' k') as [l|] eqn:E; [|done].
  load_cases l; [exact (place_charts_seg p p' k' l s0)|done| |done|].
  - assert (Hne : p' ≠ p) by (intros ->; apply Hq; split; [done|]; by exists l).
    destruct (run_handler_seg p spec s0 (HSegRedraw p' k')) as [Hd Hb]; [done|by intros ? [=]|].
    rewrite seg_ks_other in Hd by congruence. rewrite app_nil_r in Hd.
    split; [exact Hd|]. intros t. unfold push_layer, set_registry, bindMapEvents. cbn [s_registry].
    rewrite seg_bound_map_on_other by congruence. apply Hb.
  - destruct (run_handler_seg p spec s0 (HNodeRedraw p' k')) as [Hd Hb]; [done|by intros ? [=]|].
    rewrite seg_ks_other, app_nil_r in Hd by congruence.
    split; [exact Hd|]. intros t. unfold push_layer, set_registry. cbn [s_registry].
    rewrite !seg_bound_map_on_other by congruence. apply Hb.
Qed.

Lemma refines_frame p spec s s' a a' :
  refines p spec s a →
  s_specs s' = s_specs s → s_counters s' = s_counters s → s_zoom s' = s_zoom s →
  ps_counters a' = ps_counters a → ps_zoom a' = ps_zoom a →
  ps_pending a' = seg_pending p spec (s_pending s') →
  seg_bound p "moveend" (s_registry s') = ps_bound a' → seg_bound p "zoomend" (s_registry s') = ps_bound a' →
  (∀ k, k ∈ ps_bound a' → ∃ l, spec !! k = Some l ∧ drawn_segment l) →
  (∀ k, k ∈ ps_pending a' → k ∉ ps_bound a') →
  ps_draws a' = seg_draws p (s_draws s') → refines p spec s' a'.
Proof.
  intros [] Hs Hc Hz Hc' Hz' **. constructor; try done; congruence.
Qed.

Lemma load_complete_seg p k s l :
  spec_of s p k = Some l → drawn_segment l → segment_throws draw_throws l = false →
  s_registry (load_complete chart_count draw_throws p k s) = bindMapEvents (HSegRedraw p k) (s_registry s) ∧
  s_draws (load_complete chart_count draw_throws p k s) =
    s_draws s ++ [DrawSeg p k (s_zoom s) (dynamicDistance (s_zoom s) (s_counters s) (u_alignment (l_unit l)))] ∧
  s_layers (load_complete chart_count draw_throws p k s) = s_layers s ++ [(p, k, KSegment)].
Proof.
  intros E [Hs Hc] Ht. unfold load_complete. rewrite E, decide_True, Hc, Ht by done. cbv zeta. unfold run_handler.
  change (spec_of (set_pending ?pd s) p k) with (spec_of s p k). by rewrite E.
Qed.

Lemma refines_load p spec s a p' k' :
  refines p spec s a → (p', k') ∈ s_pending s →
  ∃ a', rtc (pass_step spec draw_throws) a a' ∧ refines p spec (load_complete chart_count draw_throws p' k' s) a'.
Proof.
  intros Hr Hin. destruct (load_complete_frame p' k' s) as (Hs & Hc & Hz & Hp).
  pose proof (ref_spec _ _ _ _ Hr) as Hsp.
  assert (Hso : ∀ k, spec_of s p k = spec !! k) by (intros k; unfold spec_of; by rewrite Hsp).
  assert (Hquiet : ¬ (p' = p ∧ ∃ l, spec_of s p' k' = Some l ∧ drawn_segment l) →
                   (p' = p → ∀ l, spec !! k' = Some l → u_type (l_unit l) = USegment → False) →
                   refines p spec (load_complete chart_count draw_throws p' k' s) a).
  { intros Hq Hns. destruct (load_complete_quiet p spec p' k' s Hsp Hq) as [Hd Hb].
    apply (refines_frame p spec s _ a a Hr); try done.
    - rewrite Hp, seg_pending_filter, (ref_pending _ _ _ _ Hr). case_decide; [subst|done].
      symmetry. apply filter_neq_notin. intros (_ & l & Hl & Hl')%elem_of_seg_pending. by apply (Hns eq_refl l).
    - rewrite Hb. apply Hr.
    - rewrite Hb. apply Hr.
    - apply Hr.
    - apply Hr.
    - rewrite Hd. apply Hr. }
  destruct (decide (p' = p)) as [->|Hne]; [|exists a; split; [done|] ; apply Hquiet; naive_solver].
  destruct (spec !! k') as [l|] eqn:El; [|exists a; split; [done|]; apply Hquiet; rewrite ?Hso; naive_solver].
  destruct (decide (u_type (l_unit l) = USegment)) as [Hseg|Hseg];
    [|exists a; split; [done|]; apply Hquiet; rewrite ?Hso, ?El; unfold drawn_segment; naive_solver].
  assert (Hk : k' ∈ ps_pending a) by (rewrite (ref_pending _ _ _ _ Hr), elem_of_seg_pending; eauto).
  destruct (is_chart l) eqn:Hch.
  - eexists. split; [apply rtc_once, (load_done_chart spec draw_throws a k' Hk); unfold has_chart; by rewrite El|].
    destruct (load_complete_quiet p spec p k' s Hsp) as [Hd Hb].
    { rewrite Hso, El. intros (_ & l' & [= <-] & _ & Hc'). congruence. }
    apply (refines_frame p spec s _ a _ Hr); try done; cbn [ps_pending ps_bound ps_draws].
    + by rewrite Hp, seg_pending_filter, decide_True, (ref_pending _ _ _ _ Hr).
    + rewrite Hb. apply Hr.
    + rewrite Hb. apply Hr.
    + apply Hr.
    + intros k [_ Hk']%list_elem_of_filter. by apply (ref_disjoint _ _ _ _ Hr).
    + rewrite Hd. apply Hr.
  - assert (Hsl : spec_of s p k' = Some l) by by rewrite Hso.
    destruct (segment_throws draw_throws l) eqn:Ht.
    { eexists. split; [apply rtc_once, (load_caught spec draw_throws a k' Hk);
                       unfold has_chart, redraw_throws; by rewrite El|].
      assert (Hq : load_complete chart_count draw_throws p k' s =
                   set_pending (filter (λ pk, pk ≠ (p, k')) (s_pending s)) s).
      { unfold load_complete. by rewrite Hsl, decide_True, Hch, Ht. }
      apply (refines_frame p spec s _ a _ Hr); try done; cbn [ps_pending ps_bound ps_draws].
      + by rewrite Hp, seg_pending_filter, decide_True, (ref_pending _ _ _ _ Hr).
      + rewrite Hq. apply Hr.
      + rewrite Hq. apply Hr.
      + apply Hr.
      + intros k [_ Hk']%list_elem_of_filter. by apply (ref_disjoint _ _ _ _ Hr).
      + rewrite Hq. apply Hr. }
    eexists. split; [apply rtc_once, (RenderPass.load_done spec draw_throws a k' Hk);
                     unfold has_chart, redraw_throws; by rewrite El|].
    destruct (load_complete_seg p k' s l Hsl) as (Hreg & Hd & _); [done|done|].
    assert (Hnb : k' ∉ ps_bound a) by by apply (ref_disjoint _ _ _ _ Hr).
    assert (Hnm : ∀ t, t = "moveend" ∨ t = "zoomend" → (t, HSegRedraw p k') ∉ s_registry s).
    { intros t [-> | ->] Hreg'%elem_of_seg_bound; apply Hnb;
        [rewrite <-(ref_bound_moveend _ _ _ _ Hr) | rewrite <-(ref_bound_zoomend _ _ _ _ Hr)]; done. }
    apply (refines_frame p spec s _ a _ Hr); try done; cbn [ps_pending ps_bound ps_draws].
    + by rewrite Hp, seg_pending_filter, decide_True, (ref_pending _ _ _ _ Hr).
    + rewrite Hreg, seg_bound_bind by auto. by rewrite (ref_bound_moveend _ _ _ _ Hr).
    + rewrite Hreg, seg_bound_bind by auto. by rewrite (ref_bound_zoomend _ _ _ _ Hr).
    + intros k [Hk'| ->%list_elem_of_singleton]%elem_of_app; [by apply Hr|]. by exists l.
    + intros k [Hne Hk']%list_elem_of_filter [Hb| ->%list_elem_of_singleton]%elem_of_app; [|done].
      by apply (ref_disjoint _ _ _ _ Hr k).
    + rewrite Hd, seg_draws_app, <-(ref_draws _ _ _ _ Hr). simpl. rewrite decide_True by done.
      unfold redraw, layer_alignment. rewrite El, (ref_zoom _ _ _ _ Hr), (ref_counters _ _ _ _ Hr). done.
Qed.

Lemma refines_fire_quiet p spec s a t :
  refines p spec s a → session_inv s → t = "move" ∨ t = "zoom" → refines p spec (fire chart_count t s) a.
Proof.
  intros Hr Hi Ht. pose proof (seg_bound_move p t s Hi Ht) as Hnil.
  destruct (fire_seg p spec t s) as [Hd Hb]; [apply Hr|rewrite Hnil; set_solver|].
  destruct (run_handlers_frame (listeners t (s_registry s)) s) as (Hs & Hc & Hz & _ & Hp).
  apply (refines_frame p spec s _ a a Hr); try done.
  - rewrite (ref_pending _ _ _ _ Hr). f_equal. symmetry. exact Hp.
  - rewrite Hb. apply Hr.
  - rewrite Hb. apply Hr.
  - apply Hr.
  - apply Hr.
  - rewrite Hd, Hnil, app_nil_r. apply Hr.
Qed.

(** Firing [moveend] or [zoomend] is [RenderPass]'s [map_moved] at the
    current zoom. *)
Lemma refines_fire_redraw p spec s a t :
  refines p spec s a → t = "moveend" ∨ t = "zoomend" →
  refines p spec (fire chart_count t s)
    {| ps_counters := ps_counters a; ps_zoom := ps_zoom a; ps_pending := ps_pending a;
       ps_bound := ps_bound a; ps_draws := ps_draws a ++ (redraw spec a <$> ps_bound a) |}.
Proof.
  intros Hr Ht.
  assert (Hbt : seg_bound p t (s_registry s) = ps_bound a)
    by (destruct Ht as [-> | ->]; [apply (ref_bound_moveend _ _ _ _ Hr) | apply (ref_bound_zoomend _ _ _ _ Hr)]).
  destruct (fire_seg p spec t s) as [Hd Hb]; [apply Hr| |].
  { rewrite Hbt. intros k (l & Hl & _)%(ref_bound_spec _ _ _ _ Hr). by exists l. }
  destruct (run_handlers_frame (listeners t (s_registry s)) s) as (Hs & Hc & Hz & _ & Hp).
  apply (refines_frame p spec s _ a _ Hr); try done; cbn [ps_pending ps_bound ps_draws].
  - rewrite (ref_pending _ _ _ _ Hr). f_equal. symmetry. exact Hp.
  - rewrite Hb. apply Hr.
  - rewrite Hb. apply Hr.
  - apply Hr.
  - apply Hr.
  - rewrite Hd, Hbt, <-(ref_draws _ _ _ _ Hr). f_equal. apply list_fmap_ext. intros i k _.
    unfold redraw. by rewrite (ref_zoom _ _ _ _ Hr), (ref_counters _ _ _ _ Hr).
Qed.

Lemma refines_event p spec s a s' :
  refines p spec s a → session_inv s → pass_event_step chart_count draw_throws s s' →
  ∃ a', rtc (pass_step spec draw_throws) a a' ∧ refines p spec s' a'.
Proof.
  intros Hr Hi Hstep. revert Hr Hi. destruct Hstep as [s p' k' Hin|s|s z|s v _]; intros Hr Hi.
  - by apply refines_load.
  - exists {| ps_counters := ps_counters a; ps_zoom := ps_zoom a; ps_pending := ps_pending a;
              ps_bound := ps_bound a; ps_draws := ps_draws a ++ (redraw spec a <$> ps_bound a) |}.
    split; [apply rtc_once; exact (map_moved spec draw_throws a (ps_zoom a))|].
    unfold pan. apply refines_fire_redraw; [|by left]. apply refines_fire_quiet; [done|done|by left].
  - set (az := {| ps_counters := ps_counters a; ps_zoom := z; ps_pending := ps_pending a;
                  ps_bound := ps_bound a; ps_draws := ps_draws a |}).
    set (a1 := {| ps_counters := ps_counters az; ps_zoom := ps_zoom az; ps_pending := ps_pending az;
                  ps_bound := ps_bound az; ps_draws := ps_draws az ++ (redraw spec az <$> ps_bound az) |}).
    exists {| ps_counters := ps_counters a1; ps_zoom := ps_zoom a1; ps_pending := ps_pending a1;
              ps_bound := ps_bound a1; ps_draws := ps_draws a1 ++ (redraw spec a1 <$> ps_bound a1) |}.
    split.
    { eapply rtc_l; [exact (map_moved spec draw_throws a z)|]. apply rtc_once. exact (map_moved spec draw_throws a1 (ps_zoom a1)). }
    assert (Hz : refines p spec (set_zoom z s) az) by (destruct Hr; constructor; done).
    pose proof (set_zoom_inv z s Hi) as Hi1.
    unfold zoom_to. apply refines_fire_redraw; [|by left]. apply refines_fire_redraw; [|by right].
    apply refines_fire_quiet; [|by apply fire_inv|by left]. by apply refines_fire_quiet; [..|right].
  - exists a. split; [done|]. by destruct Hr; constructor.
Qed.

Lemma pass_reachable_rtc spec z a a' :
  RenderPass.reachable spec draw_throws z a → rtc (pass_step spec draw_throws) a a' → RenderPass.reachable spec draw_throws z a'.
Proof. intros Ha Hrtc. induction Hrtc as [|a1 a2 a3 Hst _ IH]; [done|]. apply IH. by eapply RenderPass.reach_step. Qed.

(** The simulation: every run of events within pass [p] from a state
    related to [a] is matched by a run of [RenderPass] from [a]. *)
Lemma pass_events_refine p spec z0 s1 s2 a :
  session_inv s1 → refines p spec s1 a → RenderPass.reachable spec draw_throws z0 a →
  rtc (pass_event_step chart_count draw_throws) s1 s2 →
  ∃ a', RenderPass.reachable spec draw_throws z0 a' ∧ refines p spec s2 a'.
Proof.
  intros Hi Hr Ha Hrtc. revert a Hi Hr Ha.
  induction Hrtc as [s1|s1 s2 s3 Hst _ IH]; intros a Hi1 Hr1 Ha; [by exists a|].
  destruct (refines_event _ _ _ _ _ Hr1 Hi1 Hst) as (a' & Hrtc' & Hr2).
  apply (IH a'); [by eapply pass_event_step_inv | done | by eapply pass_reachable_rtc].
Qed.

(** Refinement: from any reachable state, once a specification is
    applied, whatever then happens within the pass (loads completing in
    any order, also those left from earlier passes, pans, zooms, the
    width slider) is matched by a run of [RenderPass]'s one-pass model
    started at the current zoom: the same counters and zoom, the same
    loads pending, the same layers bound to [moveend] and to [zoomend],
    and the same [redraw]s, in the same order, at the same zoom and
    offset.  A zoom is two of [RenderPass]'s map moves, since a bound
    [redraw] runs on [zoomend] and again on [moveend]. *)
Theorem session_refines_render_pass z s spec s' :
  reachable chart_count draw_throws z s → rtc (pass_event_step chart_count draw_throws) (effect_run spec s) s' →
  ∃ a, RenderPass.reachable spec draw_throws (s_zoom s) a ∧ refines (List.length (s_specs s)) spec s' a.
Proof.
  intros Hr Hrtc. pose proof (session_reachable_inv _ _ Hr) as Hi.
  apply (pass_events_refine _ _ _ (effect_run spec s) _ (start_pass spec (s_zoom s)));
    [by apply effect_run_inv | by apply refines_start | constructor | done].
Qed.

(** The counters' effect seen on the real session: whenever a
    left-aligned segment layer of the current pass is drawn, at any zoom
    and after any events of the pass, its offset is the zoom's offset
    times the number of left-aligned segment layers of the
    specification, the same for all of them. *)
Theorem session_left_layers_share_offset z s spec s' k z' d :
  reachable chart_count draw_throws z s → rtc (pass_event_step chart_count draw_throws) (effect_run spec s) s' →
  DrawSeg (List.length (s_specs s)) k z' d ∈ s_draws s' → layer_alignment spec k = Some ALeft →
  d = getOffsetDistance {| getZoom := z'; latLngToLayerPoint := λ _ _, {| px := 0; py := 0 |} |} *
      inject_Z (Z.of_nat (count_aligned spec ALeft)).
Proof.
  intros Hr Hrtc Hin Ha. pose proof (session_reachable_inv _ _ Hr) as Hi.
  destruct (pass_events_refine (List.length (s_specs s)) spec (s_zoom s) (effect_run spec s) s' (start_pass spec (s_zoom s)))
    as (a & Hra & Href); [by apply effect_run_inv | by apply refines_start | constructor | done |].
  assert (Hk : (k, z', d) ∈ ps_draws a).
  { rewrite (ref_draws _ _ _ _ Href). apply list_elem_of_omap. exists (DrawSeg (List.length (s_specs s)) k z' d).
    split; [done|]. by rewrite decide_True. }
  destruct (RenderPass.reachable_inv spec draw_throws (s_zoom s) a Hra) as [Hc Hd].
  rewrite (Hd k z' d Hk), Hc, start_pass_counters, Ha. unfold dynamicDistance. by rewrite decide_True.
Qed.

(** ** Node chart layers leak [move] listeners *)

Lemma chart_listeners_app p k t reg new :
  chart_listeners p k t (reg ++ new) = (chart_listeners p k t reg + chart_listeners p k t new)%nat.
Proof. unfold chart_listeners. by rewrite filter_app, length_app. Qed.

(** Placing [n] charts of layer [(p', k')] with fresh closures adds [n]
    [move] listeners to that layer and none to another. *)
Lemma chart_fold_count p k p' k' g its reg :
  NoDup its → (∀ t i, i ∈ its → (t, HChartMove p' k' i g) ∉ reg) →
  chart_listeners p k "move" (fold_left (λ reg i, map_on "move zoom" (HChartMove p' k' i g) reg) its reg) =
  (chart_listeners p k "move" reg + if (p' =? p) && (k' =? k) then List.length its else 0)%nat.
Proof.
  induction its as [|i its IH] in reg |- *; intros Hnd Hf; simpl; [destruct (_ && _); lia|].
  apply NoDup_cons in Hnd as [Hi Hnd].
  rewrite (map_on_two_fresh _ "move" "zoom"); [|done|discriminate|apply Hf; left..].
  rewrite IH; [|done|].
  - rewrite chart_listeners_app. unfold chart_listeners at 2.
    destruct ((p' =? p) && (k' =? k)) eqn:E.
    + rewrite filter_cons_True, filter_cons_False; simpl; rewrite ?E; try lia; try done.
      intros [? _]; discriminate.
    + rewrite !filter_cons_False; simpl; rewrite ?E; try lia; intros [? ?]; discriminate.
  - intros t i' Hi' Hin. apply elem_of_app in Hin as [Hin|Hin]; [by apply (Hf t i'); [right|]|].
    rewrite elem_of_cons, list_elem_of_singleton in Hin. destruct Hin as [[= _ ->]|[= _ ->]]; set_solver.
Qed.
Lemma run_handler_chart_count p k l s h :
  session_inv s → spec_of s p k = Some l → is_chart l = true →
  chart_listeners p k "move" (s_registry (run_handler chart_count s h)) =
  (chart_listeners p k "move" (s_registry s) + if bool_decide (h = HNodeRedraw p k) then chart_count l else 0)%nat.
Proof.
  intros Hi Hsp Hc. destruct h as [p' k'|p' k'|p' k' i g]; unfold run_handler.
  - destruct (spec_of s p' k'); simpl; lia.
  - destruct (spec_of s p' k') as [l'|] eqn:E; [destruct (is_chart l') eqn:Hc'|].
    + unfold place_charts. cbn [s_registry]. rewrite chart_fold_count; [|apply NoDup_seq|].
      * rewrite length_seq. case_bool_decide as Heq.
        { simplify_eq. rewrite !Nat.eqb_refl. simpl. lia. }
        destruct (Nat.eqb_spec p' p), (Nat.eqb_spec k' k); subst; simpl; [congruence|lia..].
      * intros t i _ Hin. apply (inv_gen _ Hi) in Hin. lia.
    + case_bool_decide; [simplify_eq; congruence|]. simpl. lia.
    + case_bool_decide; [simplify_eq; congruence|]. simpl. lia.
  - simpl. lia.
Qed.

Lemma run_handlers_chart_count p k l hs s :
  session_inv s → spec_of s p k = Some l → is_chart l = true →
  (∀ h, h ∈ hs → (handler_pass h < List.length (s_specs s))%nat) →
  chart_listeners p k "move" (s_registry (fold_left (run_handler chart_count) hs s)) =
  (chart_listeners p k "move" (s_registry s) +
     List.length (filter (λ h, h = HNodeRedraw p k) hs) * chart_count l)%nat.
Proof.
  induction hs as [|h hs IH] in s |- *; intros Hi Hsp Hc Hp; simpl; [lia|].
  destruct (run_handler_frame s h) as (Hs & _).
  rewrite IH; [| apply run_handler_inv; [done | apply Hp; left]
             | unfold spec_of in *; by rewrite Hs | done | rewrite Hs; intros; apply Hp; by right].
  rewrite (run_handler_chart_count p k l s h) by done.
  rewrite filter_cons. case_bool_decide; case_decide; simpl; try done; lia.
Qed.

(** Firing [move] only moves charts: no listener is added. *)
Lemma fire_move_registry s : session_inv s → s_registry (fire chart_count "move" s) = s_registry s.
Proof.
  intros Hi. unfold fire.
  assert (Hch : ∀ h, h ∈ listeners "move" (s_registry s) → ∃ p k i g, h = HChartMove p k i g).
  { intros [] Hin%elem_of_listeners; apply (inv_types _ Hi) in Hin; simpl in Hin; [set_solver..|eauto]. }
  revert Hch. generalize (listeners "move" (s_registry s)) as hs.
  intros hs. induction hs as [|h hs IH] in s |- *; intros Hch; [done|]. simpl.
  destruct (Hch h) as (p & k & i & g & ->); [left|]. rewrite IH; [done|]. set_solver.
Qed.

(** C11: A listener leak of node chart layers: every pan adds, to a node
    layer drawn as charts, one new [move] listener per node.  Its
    [redraw] (bound to [moveend]) calls [drawVegaLiteNodes] again, which
    binds a new [move zoom] closure for each node, and nothing unbinds
    the previous ones before the next specification is applied; each
    later [move] re-embeds every chart once per pan so far. *)
Theorem node_chart_listeners_grow z s p k l :
  reachable chart_count draw_throws z s → spec_of s p k = Some l → is_chart l = true →
  ("moveend", HNodeRedraw p k) ∈ s_registry s →
  chart_listeners p k "move" (s_registry (pan chart_count s)) =
  (chart_listeners p k "move" (s_registry s) + chart_count l)%nat.
Proof.
  intros Hr Hsp Hc Hin. pose proof (session_reachable_inv _ _ Hr) as Hi. unfold pan.
  pose proof (fire_move_registry s Hi) as Hreg.
  destruct (run_handlers_frame (listeners "move" (s_registry s)) s) as (Hs & _).
  unfold fire at 1. rewrite (run_handlers_chart_count p k l); [| by apply fire_inv
    | unfold spec_of; unfold spec_of in Hsp; unfold fire; by rewrite Hs | done
    | intros h Hh%elem_of_listeners; apply (inv_pass _ (fire_inv _ _ Hi)) in Hh; exact Hh].
  rewrite Hreg, length_filter_eq_NoDup; [lia| apply NoDup_listeners, (inv_nodup _ Hi)|].
  by apply elem_of_listeners.
Qed.

(** C13: Loads are not cancelled by a new specification: a segment layer
    of an earlier pass whose data arrives after the next specification
    was applied, and whose first [redraw] does not throw, still draws
    at the current zoom with the new pass's counters, binds its [redraw]
    to the map for good and pushes its [svg] layer onto the new pass's
    [currentLayersRef]. *)
Theorem stale_load_draws_after_apply z s spec p k l :
  reachable chart_count draw_throws z s → (p, k) ∈ s_pending s → spec_of s p k = Some l → drawn_segment l →
  l_relation l ≠ None → draw_throws l = false →
  let s' := load_complete chart_count draw_throws p k (effect_run spec s) in
  ("moveend", HSegRedraw p k) ∈ s_registry s' ∧ (p, k, KSegment) ∈ s_layers s' ∧
  ∃ d, DrawSeg p k (s_zoom s) d ∈ s_draws s'.
Proof.
  intros Hr Hin Hsp Hd Hrel Hdt. cbv zeta. pose proof (session_reachable_inv _ _ Hr) as Hi.
  assert (Ht : segment_throws draw_throws l = false) by by apply segment_throws_false.
  destruct (effect_run_fields spec s) as (Hs & _ & _ & _ & _ & Hz & _).
  assert (Hsp' : spec_of (effect_run spec s) p k = Some l).
  { unfold spec_of in *. rewrite Hs, lookup_app_l; [done|]. by apply (inv_pending _ Hi) in Hin. }
  destruct (load_complete_seg p k _ l Hsp' Hd Ht) as (Hreg & Hdr & Hl).
  rewrite Hreg, Hdr, Hl, Hz. split_and!; [|set_solver|eexists; apply elem_of_app; right; by apply list_elem_of_singleton].
  unfold bindMapEvents. rewrite elem_of_map_on, split_words_ends. right. split; [set_solver|done].
Qed.

End SessionProps.

(** ** Witnesses *)

Lemma reachable_first_load :
  reachable (λ _, 2%nat) (λ _, false) 17 (load_complete (λ _, 2%nat) (λ _, false) 0 0 (effect_run two_left_layers (session_init 17))).
Proof.
  eapply reach_step; [eapply reach_step; [apply reach_init | apply step_apply]|].
  apply step_event, step_load. wdecide.
Qed.

(** The first pass's [redraw] is still bound after the second
    specification was applied and the map panned. *)
Lemma seg_redraw_never_unbound_witness :
  ("moveend", HSegRedraw 0 0) ∈ s_registry (pan (λ _, 2%nat) two_passes).
Proof.
  apply (seg_redraw_never_unbound (λ _, 2%nat) (λ _, false) 17
           (load_complete (λ _, 2%nat) (λ _, false) 0 0 (effect_run two_left_layers (session_init 17))));
    [apply reachable_first_load | wdecide |].
  eapply rtc_l; [apply step_apply|]. apply rtc_once, step_event, step_pan.
Defined.

(** The segment [redraw] of the first pass survives the second apply;
    the node [redraw] of a loaded node chart layer does not. *)
Lemma apply_keeps_only_segment_redraws_witness :
  ("moveend", HSegRedraw 0 0) ∈ s_registry two_passes ∧
  ("moveend", HNodeRedraw 0 0) ∉ s_registry (effect_run [left_layer]
     (load_complete (λ _, 2%nat) (λ _, false) 0 0 (effect_run [node_chart_layer] (session_init 17)))).
Proof.
  split.
  - apply (apply_keeps_only_segment_redraws (λ _, 2%nat) (λ _, false) 17); [apply reachable_first_load|].
    split; [wdecide | by exists 0%nat, 0%nat].
  - intros Hin. apply (apply_keeps_only_segment_redraws (λ _, 2%nat) (λ _, false) 17) in Hin as [_ (p & k & [=])].
    eapply reach_step; [eapply reach_step; [apply reach_init | apply step_apply]|].
    apply step_event, step_load. wdecide.
Defined.

(** The first pass of [two_left_layers], its first layer loaded and the
    map panned, is a state of [RenderPass]. *)
Lemma session_refines_render_pass_witness :
  ∃ a, RenderPass.reachable two_left_layers (λ _, false) (s_zoom (session_init 17)) a ∧
       refines (List.length (s_specs (session_init 17))) two_left_layers
         (pan (λ _, 2%nat) (load_complete (λ _, 2%nat) (λ _, false) 0 0 (effect_run two_left_layers (session_init 17)))) a.
Proof.
  apply (session_refines_render_pass (λ _, 2%nat) (λ _, false) 17); [apply reach_init|].
  eapply rtc_l; [apply (step_load (λ _, 2%nat) (λ _, false) _ 0 0); wdecide|]. apply rtc_once, step_pan.
Defined.

(** That state drew the first layer at [15 = 7.5 * 2] at zoom 17. *)
Lemma session_left_layers_share_offset_witness :
  DrawSeg 0 0 17 (30 # 2) ∈ s_draws (load_complete (λ _, 2%nat) (λ _, false) 0 0 (effect_run two_left_layers (session_init 17))) ∧
  30 # 2 = getOffsetDistance {| getZoom := 17; latLngToLayerPoint := λ _ _, {| px := 0; py := 0 |} |} *
           inject_Z (Z.of_nat (count_aligned two_left_layers ALeft)).
Proof.
  split; [vm_compute; left|].
  apply (session_left_layers_share_offset (λ _, 2%nat) (λ _, false) 17 (session_init 17) two_left_layers
           (load_complete (λ _, 2%nat) (λ _, false) 0 0 (effect_run two_left_layers (session_init 17))) 0%nat 17);
    [apply reach_init | apply rtc_once, step_load; wdecide | vm_compute; left | reflexivity].
Defined.

(** A node layer of two bar charts: two [move] listeners after its load,
    four after one pan. *)
Lemma node_chart_listeners_grow_witness :
  chart_listeners 0 0 "move" (s_registry (load_complete (λ _, 2%nat) (λ _, false) 0 0 (effect_run [node_chart_layer] (session_init 17)))) = 2%nat ∧
  chart_listeners 0 0 "move"
    (s_registry (pan (λ _, 2%nat) (load_complete (λ _, 2%nat) (λ _, false) 0 0 (effect_run [node_chart_layer] (session_init 17))))) = 4%nat.
Proof.
  split; [vm_compute; reflexivity|].
  rewrite (node_chart_listeners_grow (λ _, 2%nat) (λ _, false) 17 _ 0 0 node_chart_layer); [vm_compute; reflexivity| | reflexivity | reflexivity | wdecide].
  eapply reach_step; [eapply reach_step; [apply reach_init | apply step_apply]|].
  apply step_event, step_load. wdecide.
Defined.

(** The second layer of the first pass loads after the second
    specification was applied: it is drawn and bound all the same. *)
Lemma stale_load_draws_after_apply_witness :
  let s' := load_complete (λ _, 2%nat) (λ _, false) 0 1 (effect_run [left_layer] (effect_run two_left_layers (session_init 17))) in
  ("moveend", HSegRedraw 0 1) ∈ s_registry s' ∧ (0%nat, 1%nat, KSegment) ∈ s_layers s' ∧
  ∃ d, DrawSeg 0 1 (s_zoom (effect_run two_left_layers (session_init 17))) d ∈ s_draws s'.
Proof.
  apply (stale_load_draws_after_apply (λ _, 2%nat) (λ _, false) 17 _ [left_layer] 0 1 left_layer);
    [eapply reach_step; [apply reach_init | apply step_apply] | wdecide | reflexivity | split; reflexivity
    | discriminate | reflexivity].
Defined.

(** A pass of a line layer with a relation and one without: every
    schedule of the two loads settles with the first bound and the
    second never bound. *)
Lemma pass_loads_complete_witness :
  eventually (loads_step (λ _, 2%nat) (λ _, false))
    (pass_settled (λ _, false) 0 [left_layer; unrelated_layer])
    (effect_run [left_layer; unrelated_layer] (session_init 17)).
Proof. apply (pass_loads_complete (λ _, 2%nat) (λ _, false) (session_init 17)). apply reach_init. Defined.

(** Both loads done, in either order: the layer without a relation drew
    nothing and listens to nothing. *)
Example unrelated_layer_not_bound :
  let s0 := effect_run [left_layer; unrelated_layer] (session_init 17) in
  let s := load_complete (λ _, 2%nat) (λ _, false) 0 0 (load_complete (λ _, 2%nat) (λ _, false) 0 1 s0) in
  ("moveend", HSegRedraw 0 0) ∈ s_registry s ∧ ("moveend", HSegRedraw 0 1) ∉ s_registry s ∧
  s_layers s = [(0%nat, 0%nat, KSegment)] ∧ List.length (s_draws s) = 1%nat.
Proof. split_and!; [wdecide|wdecide|reflexivity|reflexivity]. Qed.
