(* ===== verification/Mimic.v ===== *)
(** * Mimic: the map's set-up and the mimic street layer ([MapVisualization.tsx], [mapHelpers.ts])

    Before any layer is drawn, [MapVisualization] creates the map at the
    first edge of the first layer's street file, with the zoom of the
    first layer ([parsedSpec[0]?.zoom?.[0] ?? 17]) and a tile layer
    chosen by [initializeMap].  It then draws the street file again as a
    GeoJSON layer of its own, the "mimic" streets, whose line weight is
    the [mimicWidth] state for the streets near the geocoded address of
    the query and the specification's [streetWidth] for the others.

    The GeoJSON layer is modelled by the features it is built from (in
    [Loader]'s [feature] type, which keeps the geometry: the
    [Bearing]/[Length] properties are written but never read); its
    styling by the style each street gets.  Turf's
    [pointToLineDistance] and the geocoder's answer are parameters. *)

From S2P Require Import Prelude Geometry Spec Loader RenderPass Events Session.
Open Scope Q_scope.

(** ** Creating the map *)

(** [useState(parsedSpec[0]?.zoom?.[0] ?? 17)] *)
Definition initial_zoom (parsedSpec : list layer_spec) : Q :=
  default 17 ((parsedSpec !! 0%nat ≫= l_zoom) ≫= λ z, Some z.1).

(** [physData[0].point0.lat, physData[0].point0.lon]: on an empty street
    file, reading [point0] of [undefined] throws inside the async
    initializer and no map is ever created. *)
Definition map_center (physData : list edge) : res (Q * Q) :=
  match physData with
  | e :: _ => Ok (lat (point0 e), lon (point0 e))
  | [] => Throw (TypeError "Cannot read properties of undefined (reading 'point0')")
  end.

(** [initializeMap]'s tile layer: the URL and [maxZoom] for the
    background. *)
Definition tile_layer (backgroundValue : string) : string * nat :=
  if bool_decide (backgroundValue = "dark") then
    ("https://{s}.basemaps.cartocdn.com/dark_nolabels/{z}/{x}/{y}{r}.png", 19%nat)
  else ("https://{s}.basemaps.cartocdn.com/light_nolabels/{z}/{x}/{y}{r}.png", 20%nat).

(** ** The mimic street layer *)

(** [data.map(edge => ({type: 'Feature', geometry: {type: 'LineString',
    coordinates: [[lon0, lat0], [lon1, lat1]]}, ...}))] *)
Definition mimic_feature (e : edge) : feature :=
  {| f_geometry := Some {| g_type := "LineString";
                           g_coordinates := Some [(lon (point0 e), lat (point0 e)); (lon (point1 e), lat (point1 e))] |} |}.

Definition mimic_features (data : list edge) : list feature := mimic_feature <$> data.

(** The style [setStyle] gives one mimic street. *)
Record mimic_style := mkStyle { ms_color : string; ms_weight : option Q; ms_opacity : Q }.

Section Styling.
(** [turf.pointToLineDistance(addressPoint, lineFeature, {units: "meters"})] *)
Context (pointToLineDistance : position → list position → Q).

(** [shouldUpdate]: without geocoded coordinates every street; with
    them, those not farther than [Number(parsedSpec[0]?.query?.radius)]
    from the address.  A missing radius is [NaN], and [distance > NaN]
    is false. *)
Definition shouldUpdate (spec0 : option layer_spec) (addressCoords : option coord) (line : list position) : bool :=
  match addressCoords with
  | Some c =>
      let distance := pointToLineDistance (lon c, lat c) line in
      match spec0 ≫= l_query_radius with
      | Some r => negb (bool_decide (r < distance))
      | None => true
      end
  | None => true
  end.

(** [parsedSpec[0]?.map?.streetColor || '#d3d3d6'] *)
Definition street_color (spec0 : option layer_spec) : string :=
  match spec0 ≫= l_street_color with
  | Some c => if bool_decide (c = "") then "#d3d3d6" else c
  | None => "#d3d3d6"
  end.

(** The body of [mimicLayerRef.current.eachLayer(layer => ...)]. *)
Definition mimic_setStyle (spec0 : option layer_spec) (addressCoords : option coord) (mimicWidth : Q)
    (line : list position) : mimic_style :=
  {| ms_color := street_color spec0;
     ms_weight := if shouldUpdate spec0 addressCoords line then Some mimicWidth else spec0 ≫= l_street_width;
     ms_opacity := 8 # 10 |}.

(** The styling effect on every street of the layer. *)
Definition mimic_styles (parsedSpec : list layer_spec) (addressCoords : option coord) (mimicWidth : Q)
    (features : list feature) : list mimic_style :=
  (λ f, mimic_setStyle (parsedSpec !! 0%nat) addressCoords mimicWidth
          (default [] (f_geometry f ≫= g_coordinates))) <$> features.

End Styling.

(** ** Geocoding the query's address *)

(** The answer of the geocoder: [None] when the request failed, else
    the parsed [lat]/[lon] of the results. *)
Definition geocode_answer := option (list coord).

(** The address effect: with no address the coordinates are reset; with
    one, the first result is taken unless the effect was cleaned up
    ([cancelled]) before the answer came, or there was none. *)
Definition address_effect (address : option string) (answer : geocode_answer) (cancelled : bool)
    (addressCoords : option coord) : option coord :=
  match address with
  | Some a =>
      if bool_decide (a = "") then None
      else match answer with
           | Some (c :: _) => if cancelled then addressCoords else Some c
           | _ => addressCoords
           end
  | None => None
  end.

(** * Properties *)

(** ** The width slider *)

(** The value an [<input type="range" min="0" max="100">] holds for the
    number it is given: clamped to [[0, 100]], then the nearest multiple
    of the default [step] 1, the greater one on a tie (HTML's value
    sanitization of range inputs). *)
Definition range_sanitize (v : Q) : Q :=
  if decide (v < 0) then 0 else if decide (100 < v) then 100 else inject_Z (Qfloor (v + (1 # 2))).

(** The slider box: the label [Street Width: {mimicWidth}] and the
    position of the thumb ([value={mimicWidth}], as the browser
    sanitizes it). *)
Definition width_slider (mimicWidth : Q) : Q * Q := (mimicWidth, range_sanitize mimicWidth).

(** [onChange={(e) => setMimicWidth(Number(e.target.value))}]: the thumb
    dragged to [raw] reports the sanitized value. *)
Definition slider_onChange (raw : Q) (s : session) : session := set_mimicWidth (range_sanitize raw) s.

Section MimicProps.
Context `{Turf}.

Lemma mimic_feature_edges a b : feature_edges (mimic_feature (segment_edge a b)) = [segment_edge a b].
Proof.
  destruct a as [x0 y0], b as [x1 y1]. unfold feature_edges, mimic_feature. cbn [f_geometry g_type g_coordinates].
  rewrite decide_True by done. rewrite decide_True by (simpl; lia). reflexivity.
Qed.

(** C28: Roundtrip: the mimic layer's features, read back as a street
    file, give exactly the edges they were built from: the mimic layer
    draws every street of the layers' file, each once, in order, with
    the same end points, bearing and length. *)
Theorem mimic_features_roundtrip g :
  loadPhysicalData_core (Some (FeatureCollection (Some (mimic_features (loadPhysicalData_core g))))) =
  loadPhysicalData_core g.
Proof.
  pose proof (loadPhysicalData_core_elem g) as Hel. revert Hel.
  generalize (loadPhysicalData_core g) as data. intros data Hel.
  unfold loadPhysicalData_core at 1, mimic_features.
  induction data as [|e data IH]; [done|]. rewrite !fmap_cons. cbn [concat].
  destruct (Hel e) as (a & b & ->); [left|]. rewrite mimic_feature_edges. cbn [app]. f_equal.
  apply IH. intros e' He'. apply Hel. by right.
Qed.

(** C29: A street file without a line of at least two positions gives no
    edge, and the map's initializer then throws a [TypeError] on
    [physData[0].point0]: no map is created and nothing is ever drawn. *)
Theorem map_init_fails_without_lines fs :
  Forall (λ f, ∀ geom coords, f_geometry f = Some geom → g_type geom = "LineString" →
                 g_coordinates geom = Some coords → (List.length coords < 2)%nat) fs →
  ∃ e, map_center (loadPhysicalData_core (Some (FeatureCollection (Some fs)))) = Throw e.
Proof.
  intros Hfs. enough (Hnil : loadPhysicalData_core (Some (FeatureCollection (Some fs))) = []).
  { rewrite Hnil. by eexists. }
  unfold loadPhysicalData_core. induction Hfs as [|f fs Hf _ IH]; [done|].
  rewrite fmap_cons. cbn [concat]. rewrite IH, app_nil_r.
  unfold feature_edges. destruct (f_geometry f) as [geom|] eqn:Eg; [|done].
  case_decide as Ht; [|done]. destruct (g_coordinates geom) as [coords|] eqn:Ec; [|done].
  rewrite decide_False; [done|]. specialize (Hf geom coords eq_refl Ht Ec). lia.
Qed.

(** The floor of [x + 1/2] lies in [[0, 100]] when [x] does. *)
Lemma round_half_up_range x : 0 <= x → x <= 100 → (0 <= Qfloor (x + (1 # 2)) <= 100)%Z.
Proof.
  intros H0 H1. pose proof (Qfloor_le (x + (1 # 2))) as Hle. pose proof (Qlt_floor (x + (1 # 2))) as Hlt.
  set (z := Qfloor (x + (1 # 2))) in *. rewrite inject_Z_plus in Hlt.
  split; apply Z.nlt_ge; intros Hz.
  - assert (z + 1 <= 0)%Z as Hz' by lia. rewrite Zle_Qle, inject_Z_plus in Hz'. qlra.
  - assert (101 <= z)%Z as Hz' by lia. rewrite Zle_Qle in Hz'. change (inject_Z 101) with (101 # 1) in Hz'. qlra.
Qed.

(** Every value the slider reports lies in [[0, 100]]. *)
Lemma range_sanitize_bounds v : 0 <= range_sanitize v <= 100.
Proof.
  unfold range_sanitize. case_decide; [qlra|]. case_decide; [qlra|].
  destruct (round_half_up_range v) as [Hl Hu]; [qlra|qlra|].
  rewrite Zle_Qle in Hl, Hu. split; [exact Hl|exact Hu].
Qed.

(** A drag of the slider is a step of the component: the composition of
    the slider with [Session]'s [pass_event_step]. *)
Lemma slider_onChange_step (chart_count : layer_spec → nat) (draw_throws : layer_spec → bool) raw s :
  pass_event_step chart_count draw_throws s (slider_onChange raw s).
Proof. apply step_slider, range_sanitize_bounds. Qed.

End MimicProps.

Section StylingProps.
Context (pointToLineDistance : position → list position → Q).

(** C27: [shouldUpdate] on every branch: a street takes the slider's
    width when no address was geocoded, or when the query has no radius
    ([Number(undefined)] is [NaN], to which no distance compares
    greater: the radius filter is silently off), or when the street is
    within the radius of the address. *)
Theorem shouldUpdate_spec spec0 addressCoords line :
  shouldUpdate pointToLineDistance spec0 addressCoords line = true ↔
  addressCoords = None ∨ spec0 ≫= l_query_radius = None ∨
  ∃ c r, addressCoords = Some c ∧ spec0 ≫= l_query_radius = Some r ∧
         pointToLineDistance (lon c, lat c) line <= r.
Proof.
  unfold shouldUpdate. destruct addressCoords as [c|]; [|naive_solver].
  destruct (spec0 ≫= l_query_radius) as [r|]; [|naive_solver].
  rewrite negb_true_iff, bool_decide_eq_false. split.
  - intros Hlt. right; right. exists c, r. split_and!; [done|done|]. by apply Qnot_lt_le.
  - intros [|[|(c' & r' & [= <-] & [= <-] & Hle)]]; [done|done|]. by apply Qle_not_lt.
Qed.

(** C23: Applying a specification resets the slider's width: the effect
    calls [setMimicWidth(streetWidth)] and then [setMimicWidth(0)], and
    React keeps the last.  Every street the address filter selects is
    then drawn with weight [0], whatever [streetWidth] the
    specification sets, while the others get [streetWidth]: the
    specification's width never reaches the selected streets. *)
Theorem applied_spec_resets_mimic_width s spec addressCoords line :
  ms_weight (mimic_setStyle pointToLineDistance (spec !! 0%nat) addressCoords
               (s_mimicWidth (effect_run spec s)) line) =
  if shouldUpdate pointToLineDistance (spec !! 0%nat) addressCoords line then Some 0
  else spec !! 0%nat ≫= l_street_width.
Proof. destruct (effect_run_fields spec s) as (_ & _ & _ & _ & _ & _ & -> & _). done. Qed.

End StylingProps.

(** ** Witnesses *)

(** A street file with a single point: no edge, no map. *)
Lemma map_init_fails_without_lines_witness :
  ∃ e, map_center (@loadPhysicalData_core planar_turf
         (Some (FeatureCollection (Some [{| f_geometry := Some {| g_type := "Point"; g_coordinates := Some [(1, 2)] |} |}])))) = Throw e.
Proof.
  apply map_init_fails_without_lines. apply Forall_singleton.
  intros g0 c0 Hg Ht. injection Hg as <-. discriminate.
Defined.
