(* ===== verification/MimicLayer.v ===== *)
(** * MimicLayer: the lifetimes of the map and of the mimic street layer ([MapVisualization.tsx])

    Two effects of [MapVisualization] create Leaflet objects after an
    [await]:

    - the map's initializer (run once, on mount) awaits the street file,
      then creates the map unless its cleanup ran first ([cancelled]);
      its cleanup removes the map it created;
    - the mimic effect (run on every new [map] or [parsedSpec]) removes
      the previous mimic layer, awaits the street file of the first
      layer, then adds a new GeoJSON layer to the map and keeps it in
      [mimicLayerRef]; its cleanup removes the layer the ref holds.  It
      has no [cancelled] flag.

    The styling effect (on [mimicWidth], [parsedSpec] or [addressCoords])
    restyles the layer the ref holds, if any.  The state keeps the layers
    on the map with the specification each shows and the inputs of the
    styling last applied to it ([None]: the style it was created with,
    weight [0]); a load in flight is the specification version it was
    started for.  Every interleaving of effect runs, load completions and
    restylings is a run of the step relation. *)

From S2P Require Import Prelude Geometry Spec Loader Mimic.
Open Scope nat_scope.

(** ** The map's initializer *)

(** One run of the initializer: its [cancelled] flag, whether its
    continuation after the [await] ran, and the map it created
    ([mapInstance]). *)
Record init_run := mkInitRun { ir_cancelled : bool; ir_resumed : bool; ir_map : option nat }.

(** The runs by number (React may mount, unmount and mount again), the
    maps alive, and the next map's number. *)
Record init_state := mkInitState { is_runs : list init_run; is_maps : list nat; is_next : nat }.

Definition init_start : init_state := {| is_runs := []; is_maps := []; is_next := 0 |}.

(** The effect's body up to [await loadPhysicalData(...)]. *)
Definition init_mount (s : init_state) : init_state :=
  mkInitState (is_runs s ++ [mkInitRun false false None]) (is_maps s) (is_next s).

(** After the await of run [k]: [if (cancelled) return;], then
    [mapInstance = initializeMap(...)], which reads the first edge of
    the street file ([Mimic.map_center]: a street file without edge
    throws and no map is created). *)
Definition init_loaded (k : nat) (physData : list edge) (s : init_state) : init_state :=
  match is_runs s !! k with
  | Some run =>
      if ir_resumed run then s else
      let s1 := mkInitState (<[k := mkInitRun (ir_cancelled run) true None]> (is_runs s)) (is_maps s) (is_next s) in
      if ir_cancelled run then s1 else
      match map_center physData with
      | Ok _ =>
          mkInitState (<[k := mkInitRun false true (Some (is_next s))]> (is_runs s))
            (is_maps s ++ [is_next s]) (S (is_next s))
      | Throw _ => s1
      end
  | None => s
  end.

(** The cleanup of run [k]:
    [cancelled = true; if (mapInstance) mapInstance.remove();] *)
Definition init_cleanup (k : nat) (s : init_state) : init_state :=
  match is_runs s !! k with
  | Some run =>
      mkInitState (<[k := mkInitRun true (ir_resumed run) (ir_map run)]> (is_runs s))
        (match ir_map run with Some m => filter (λ m', m' ≠ m) (is_maps s) | None => is_maps s end)
        (is_next s)
  | None => s
  end.

Inductive init_step : init_state → init_state → Prop :=
  | istep_mount s : init_step s (init_mount s)
  | istep_loaded k physData s : init_step s (init_loaded k physData s)
  | istep_cleanup k s : init_step s (init_cleanup k s).

(** ** The mimic layer *)

(** The inputs of [setStyle] last applied to a layer: the first layer's
    specification, the geocoded address, the slider's width. *)
Record style_inputs := mkStyleInputs { si_spec0 : option layer_spec; si_address : option coord; si_width : Q }.

(** A GeoJSON layer on the map: its number, the specification version
    whose street file it shows, and its styling ([None]: the
    [style: {weight: 0, ...}] it was created with). *)
Record mimic_layer := mkMimicLayer { ml_id : nat; ml_spec : nat; ml_style : option style_inputs }.

Record mimic_state := mkMimicState {
  ms_layers : list mimic_layer;
  ms_ref : option nat;
  ms_pending : list nat;
  ms_next : nat
}.

Definition mimic_start : mimic_state := {| ms_layers := []; ms_ref := None; ms_pending := []; ms_next := 0 |}.

(** [map.removeLayer(mimicLayerRef.current); mimicLayerRef.current = null;]
    when the ref holds a layer. *)
Definition remove_ref_layer (s : mimic_state) : mimic_state :=
  match ms_ref s with
  | Some l => mkMimicState (filter (λ x, ml_id x ≠ l) (ms_layers s)) None (ms_pending s) (ms_next s)
  | None => s
  end.

(** The cleanup of the mimic effect. *)
Definition mimic_cleanup (s : mimic_state) : mimic_state := remove_ref_layer s.

(** The effect's body up to [await loadPhysicalData(...)] for the
    specification version [v]: the same removal, then the load in
    flight. *)
Definition mimic_body (v : nat) (s : mimic_state) : mimic_state :=
  let s1 := remove_ref_layer s in
  mkMimicState (ms_layers s1) (ms_ref s1) (ms_pending s1 ++ [v]) (ms_next s1).

(** A new [parsedSpec] (version [v]): the previous run's cleanup, then
    the body. *)
Definition mimic_effect_run (v : nat) (s : mimic_state) : mimic_state := mimic_body v (mimic_cleanup s).

(** One load of version [v] leaves the loads in flight: two runs of the
    effect for the same version are two loads. *)
Fixpoint remove_one (v : nat) (l : list nat) : list nat :=
  match l with
  | [] => []
  | x :: l' => if decide (x = v) then l' else x :: remove_one v l'
  end.

(** The load of version [v] completes:
    [mimicLayerRef.current = L.geoJSON(geojson, {style: {weight: 0, ...}}).addTo(map)],
    whatever the ref held. *)
Definition mimic_loaded (v : nat) (s : mimic_state) : mimic_state :=
  if decide (v ∈ ms_pending s) then
    let l := {| ml_id := ms_next s; ml_spec := v; ml_style := None |} in
    mkMimicState (ms_layers s ++ [l]) (Some (ms_next s)) (remove_one v (ms_pending s)) (S (ms_next s))
  else s.

(** The styling effect: [if (!mimicLayerRef.current) return;], else
    [setStyle] on every street of the layer the ref holds. *)
Definition mimic_restyle (inputs : style_inputs) (s : mimic_state) : mimic_state :=
  match ms_ref s with
  | Some l =>
      mkMimicState ((λ x, if decide (ml_id x = l) then mkMimicLayer (ml_id x) (ml_spec x) (Some inputs) else x)
                      <$> ms_layers s) (ms_ref s) (ms_pending s) (ms_next s)
  | None => s
  end.

Inductive mimic_step : mimic_state → mimic_state → Prop :=
  | mstep_run v s : mimic_step s (mimic_effect_run v s)
  | mstep_loaded v s : mimic_step s (mimic_loaded v s)
  | mstep_restyle i s : mimic_step s (mimic_restyle i s).

(** The weight a street of a mimic layer is drawn with: the creation
    style's [0], or the weight of the last [setStyle]. *)
Definition layer_weight (pointToLineDistance : position → list position → Q) (l : mimic_layer)
    (line : list position) : option Q :=
  match ml_style l with
  | None => Some 0%Q
  | Some i => ms_weight (mimic_setStyle pointToLineDistance (si_spec0 i) (si_address i) (si_width i) line)
  end.

(** A street file of one edge, for the witnesses. *)
Definition witness_street : list edge :=
  [{| point0 := {| lat := 0; lon := 0 |}; point1 := {| lat := 1; lon := 1 |};
      bearing := 45; length := 1; attributes := None |}].

(** React's StrictMode: mount, cleanup, mount again, then both loads
    complete. *)
Definition strict_mode_trace : init_state :=
  init_loaded 1 witness_street (init_loaded 0 witness_street (init_mount (init_cleanup 0 (init_mount init_start)))).

(** * Properties *)

(** The maps alive are those of the runs not cleaned up; maps are
    numbered below the counter, each by one run; a run not yet resumed
    has no map. *)
Definition init_inv (s : init_state) : Prop :=
  (∀ m, m ∈ is_maps s ↔ ∃ k r, is_runs s !! k = Some r ∧ ir_map r = Some m ∧ ir_cancelled r = false) ∧
  (∀ k r m, is_runs s !! k = Some r → ir_map r = Some m → m < is_next s) ∧
  (∀ k1 k2 r1 r2 m, is_runs s !! k1 = Some r1 → is_runs s !! k2 = Some r2 →
     ir_map r1 = Some m → ir_map r2 = Some m → k1 = k2) ∧
  (∀ k r, is_runs s !! k = Some r → ir_resumed r = false → ir_map r = None).

(** A layer left on the map that the ref no longer holds: no cleanup
    will remove it. *)
Definition orphan (l : mimic_layer) (s : mimic_state) : Prop :=
  l ∈ ms_layers s ∧ ms_ref s ≠ Some (ml_id l) ∧ ml_id l < ms_next s.

Section MimicLayerLemmas.

Lemma init_inv_start : init_inv init_start.
Proof.
  split_and!; cbn; try done. intros m. split; [by intros ?%not_elem_of_nil|].
  intros (k & r & Hk & _). by rewrite lookup_nil in Hk.
Qed.

Lemma init_inv_mount s : init_inv s → init_inv (init_mount s).
Proof.
  intros (H1 & H2 & H3 & H4). cbn.
  assert (Hl : ∀ k r, (is_runs s ++ [mkInitRun false false None]) !! k = Some r →
                 is_runs s !! k = Some r ∨ r = mkInitRun false false None).
  { intros k r Hk. apply lookup_app_Some in Hk as [Hk|(_ & Hk)]; [by left|]. right.
    by apply list_lookup_singleton_Some in Hk as [_ <-]. }
  split_and!.
  - intros m. rewrite H1. split; intros (k & r & Hk & Hm & Hc).
    + exists k, r. split_and!; [by apply lookup_app_l_Some|done|done].
    + destruct (Hl k r Hk) as [Hk'| ->]; [by exists k, r|done].
  - intros k r m Hk Hm. destruct (Hl k r Hk) as [Hk'| ->]; [exact (H2 k r m Hk' Hm)|done].
  - intros k1 k2 r1 r2 m Hk1 Hk2 Hm1 Hm2.
    destruct (Hl k1 r1 Hk1) as [Hk1'| ->]; [|done]. destruct (Hl k2 r2 Hk2) as [Hk2'| ->]; [|done].
    exact (H3 k1 k2 r1 r2 m Hk1' Hk2' Hm1 Hm2).
  - intros k r Hk. destruct (Hl k r Hk) as [Hk'| ->]; [by apply (H4 k)|done].
Qed.

Lemma lookup_runs_insert (rs : list init_run) k k' run' r :
  <[k := run']> rs !! k' = Some r → (k' = k ∧ r = run') ∨ (k' ≠ k ∧ rs !! k' = Some r).
Proof. rewrite list_lookup_insert_Some. naive_solver. Qed.

(** Replacing a run that has no map by another without map. *)
Lemma init_inv_replace_none s k run run' :
  init_inv s → is_runs s !! k = Some run → ir_map run = None → ir_map run' = None →
  init_inv (mkInitState (<[k := run']> (is_runs s)) (is_maps s) (is_next s)).
Proof.
  intros (H1 & H2 & H3 & H4) Hk Hm Hm'. unfold init_inv. cbn [is_runs is_maps is_next].
  assert (Hl : is_Some (is_runs s !! k)) by (by eexists). apply lookup_lt_is_Some in Hl.
  split_and!.
  - intros m. rewrite H1. split; intros (k' & r & Hk' & Hr & Hc).
    + destruct (decide (k' = k)) as [->|Hne]; [congruence|].
      exists k', r. cbn [is_runs]; by rewrite list_lookup_insert_ne.
    + apply lookup_runs_insert in Hk' as [(-> & ->)|(_ & Hk')]; [congruence|]. by exists k', r.
  - intros k' r m Hk' Hr. apply lookup_runs_insert in Hk' as [(-> & ->)|(_ & Hk')]; [congruence|].
    exact (H2 k' r m Hk' Hr).
  - intros k1 k2 r1 r2 m Hk1 Hk2 Hr1 Hr2.
    apply lookup_runs_insert in Hk1 as [(-> & ->)|(_ & Hk1)]; [congruence|].
    apply lookup_runs_insert in Hk2 as [(-> & ->)|(_ & Hk2)]; [congruence|].
    exact (H3 k1 k2 r1 r2 m Hk1 Hk2 Hr1 Hr2).
  - intros k' r Hk' Hres. apply lookup_runs_insert in Hk' as [(-> & ->)|(_ & Hk')]; [done|].
    exact (H4 k' r Hk' Hres).
Qed.

(** A run without map creates the map numbered [is_next s]. *)
Lemma init_inv_create s k run :
  init_inv s → is_runs s !! k = Some run → ir_map run = None →
  init_inv (mkInitState (<[k := mkInitRun false true (Some (is_next s))]> (is_runs s))
              (is_maps s ++ [is_next s]) (S (is_next s))).
Proof.
  intros (H1 & H2 & H3 & H4) Hk Hm. unfold init_inv. cbn [is_runs is_maps is_next].
  split_and!.
  - intros m. rewrite elem_of_app, list_elem_of_singleton, H1. split.
    + intros [(k' & r & Hk' & Hr & Hc)| ->].
      * destruct (decide (k' = k)) as [->|Hne]; [congruence|]. exists k', r. cbn [is_runs]; by rewrite list_lookup_insert_ne.
      * exists k. eexists. rewrite list_lookup_insert_eq; [done|]. apply lookup_lt_is_Some. by eexists.
    + intros (k' & r & Hk' & Hr & Hc). apply lookup_runs_insert in Hk' as [(-> & ->)|(_ & Hk')].
      * right. by injection Hr.
      * left. by exists k', r.
  - intros k' r m Hk' Hr. apply lookup_runs_insert in Hk' as [(-> & ->)|(_ & Hk')].
    + injection Hr as <-. lia.
    + specialize (H2 k' r m Hk' Hr). lia.
  - intros k1 k2 r1 r2 m Hk1 Hk2 Hr1 Hr2.
    apply lookup_runs_insert in Hk1 as [(-> & ->)|(Hne1 & Hk1)];
      apply lookup_runs_insert in Hk2 as [(-> & ->)|(Hne2 & Hk2)]; try done.
    + injection Hr1 as <-. specialize (H2 k2 r2 _ Hk2 Hr2). lia.
    + injection Hr2 as <-. specialize (H2 k1 r1 _ Hk1 Hr1). lia.
    + exact (H3 k1 k2 r1 r2 m Hk1 Hk2 Hr1 Hr2).
  - intros k' r Hk' Hres. apply lookup_runs_insert in Hk' as [(-> & ->)|(_ & Hk')]; [done|].
    exact (H4 k' r Hk' Hres).
Qed.

Lemma init_inv_cleanup s k : init_inv s → init_inv (init_cleanup k s).
Proof.
  intros Hi. unfold init_cleanup. destruct (is_runs s !! k) as [run|] eqn:Hk; [|done].
  destruct Hi as (H1 & H2 & H3 & H4). unfold init_inv. cbn [is_runs is_maps is_next]. split_and!.
  - intros m. destruct (ir_map run) as [m0|] eqn:Hm.
    + rewrite list_elem_of_filter, H1. split.
      * intros [Hne (k' & r & Hk' & Hr & Hc)]. exists k', r. destruct (decide (k' = k)) as [->|Hne'].
        -- rewrite Hk in Hk'. injection Hk' as ->. congruence.
        -- cbn [is_runs]; by rewrite list_lookup_insert_ne.
      * intros (k' & r & Hk' & Hr & Hc). apply lookup_runs_insert in Hk' as [(-> & ->)|(Hne & Hk')]; [done|].
        split; [|by exists k', r]. intros ->. by specialize (H3 k' k r run m0 Hk' Hk Hr Hm).
    + rewrite H1. split; intros (k' & r & Hk' & Hr & Hc).
      * destruct (decide (k' = k)) as [->|Hne]; [congruence|]. exists k', r. cbn [is_runs]; by rewrite list_lookup_insert_ne.
      * apply lookup_runs_insert in Hk' as [(-> & ->)|(_ & Hk')]; [done|]. by exists k', r.
  - intros k' r m Hk' Hr. apply lookup_runs_insert in Hk' as [(-> & ->)|(_ & Hk')].
    + exact (H2 k run m Hk Hr).
    + exact (H2 k' r m Hk' Hr).
  - intros k1 k2 r1 r2 m Hk1 Hk2 Hr1 Hr2.
    apply lookup_runs_insert in Hk1 as [(-> & ->)|(_ & Hk1)];
      apply lookup_runs_insert in Hk2 as [(-> & ->)|(_ & Hk2)]; try done.
    + exact (H3 k k2 run r2 m Hk Hk2 Hr1 Hr2).
    + exact (H3 k1 k r1 run m Hk1 Hk Hr1 Hr2).
    + exact (H3 k1 k2 r1 r2 m Hk1 Hk2 Hr1 Hr2).
  - intros k' r Hk' Hres. apply lookup_runs_insert in Hk' as [(-> & ->)|(_ & Hk')].
    + exact (H4 k run Hk Hres).
    + exact (H4 k' r Hk' Hres).
Qed.

Lemma init_inv_loaded s k physData : init_inv s → init_inv (init_loaded k physData s).
Proof.
  intros Hi. unfold init_loaded. destruct (is_runs s !! k) as [run|] eqn:Hk; [|done].
  destruct (ir_resumed run) eqn:Hres; [done|].
  assert (Hm : ir_map run = None) by (destruct Hi as (_ & _ & _ & H4); exact (H4 k run Hk Hres)).
  destruct (ir_cancelled run); [by eapply init_inv_replace_none|].
  destruct (map_center physData); [by eapply init_inv_create|by eapply init_inv_replace_none].
Qed.

Lemma init_inv_step s s' : init_step s s' → init_inv s → init_inv s'.
Proof. destruct 1; auto using init_inv_mount, init_inv_loaded, init_inv_cleanup. Qed.

End MimicLayerLemmas.

Section MimicLayerProps.

(** C21: Whatever the interleaving of mounts, cleanups and load
    completions, the maps alive are exactly those created by runs of the
    initializer whose cleanup has not run: a run cleaned up before its
    load completes creates no map, and the cleanup of a run removes the
    map it created. *)
Theorem init_maps_of_live_runs s :
  rtc init_step init_start s →
  ∀ m, m ∈ is_maps s ↔ ∃ k r, is_runs s !! k = Some r ∧ ir_map r = Some m ∧ ir_cancelled r = false.
Proof.
  intros Hrtc. assert (Hi : init_inv s).
  { revert s Hrtc. apply (rtc_ind_r init_inv); [apply init_inv_start|].
    intros y z _ Hstep. exact (init_inv_step y z Hstep). }
  by destruct Hi as (H1 & _).
Qed.

Lemma pending_effect_run v s : ms_pending (mimic_effect_run v s) = ms_pending s ++ [v].
Proof.
  unfold mimic_effect_run, mimic_body, mimic_cleanup, remove_ref_layer.
  destruct (ms_ref s) eqn:Er; cbn; [|rewrite Er]; done.
Qed.

Lemma ref_effect_run v s : ms_ref (mimic_effect_run v s) = None.
Proof.
  unfold mimic_effect_run, mimic_body, mimic_cleanup, remove_ref_layer.
  destruct (ms_ref s) eqn:Er; cbn; [|rewrite Er]; done.
Qed.

Lemma restyle_no_ref i s : ms_ref s = None → mimic_restyle i s = s.
Proof. unfold mimic_restyle. by intros ->. Qed.

Lemma mimic_loaded_pending v s :
  v ∈ ms_pending s →
  mimic_loaded v s = mkMimicState (ms_layers s ++ [mkMimicLayer (ms_next s) v None]) (Some (ms_next s))
                       (remove_one v (ms_pending s)) (S (ms_next s)).
Proof. intros Hv. unfold mimic_loaded. by rewrite decide_True. Qed.

Lemma remove_one_elem v x l : x ≠ v → x ∈ l → x ∈ remove_one v l.
Proof.
  induction l as [|y l IH]; intros Hne Hx; simpl; [set_solver|].
  case_decide; apply elem_of_cons in Hx as [->|Hx]; [congruence|done|left|right; by apply IH].
Qed.

Lemma orphan_remove l s : orphan l s → orphan l (remove_ref_layer s).
Proof.
  intros Ho. unfold remove_ref_layer. destruct (ms_ref s) as [r|] eqn:Er; [|done].
  destruct Ho as (Hin & Href & Hlt). split_and!; cbn; [|done|done]. rewrite list_elem_of_filter. split; [|done]. intros Heq. congruence.
Qed.

Lemma orphan_step l s s' : mimic_step s s' → orphan l s → orphan l s'.
Proof.
  intros Hstep Ho. destruct Hstep as [v s|v s|i s].
  - unfold mimic_effect_run, mimic_body, mimic_cleanup.
    destruct (orphan_remove l _ (orphan_remove l s Ho)) as (? & ? & ?). by split_and!.
  - destruct Ho as (Hin & Href & Hlt). unfold mimic_loaded. case_decide; [|done]. cbn. split_and!; cbn; [set_solver | intros [= ?]; lia | lia].
  - unfold mimic_restyle. destruct (ms_ref s) as [r|] eqn:Er; [|done].
    destruct Ho as (Hin & Href & Hlt). cbn. split_and!; [|cbn; congruence|cbn; done].
    cbn. apply list_elem_of_fmap. exists l. split; [|done]. rewrite decide_False; [by destruct l|].
    intros <-. by apply Href.
Qed.

(** C15: The mimic effect has no [cancelled] flag: when a new
    specification is applied while the previous one's street file is
    still loading, both loads add a GeoJSON layer and the ref keeps only
    the second.  The first layer stays on the map for good: no cleanup,
    apply, load or restyling that follows ever removes or restyles it. *)
Theorem mimic_overlapping_loads_leave_orphan v1 v2 s :
  v1 ≠ v2 →
  let s1 := mimic_loaded v2 (mimic_loaded v1 (mimic_effect_run v2 (mimic_effect_run v1 s))) in
  ∃ l, ml_spec l = v1 ∧ ∀ s', rtc mimic_step s1 s' → l ∈ ms_layers s' ∧ ms_ref s' ≠ Some (ml_id l).
Proof.
  intros Hne s1.
  set (s0 := mimic_effect_run v2 (mimic_effect_run v1 s)).
  assert (Hp : v1 ∈ ms_pending s0 ∧ v2 ∈ ms_pending s0).
  { subst s0. rewrite !pending_effect_run. set_solver. }
  destruct Hp as [Hp1 Hp2].
  exists {| ml_id := ms_next s0; ml_spec := v1; ml_style := None |}. split; [done|].
  assert (Ho : orphan {| ml_id := ms_next s0; ml_spec := v1; ml_style := None |} s1).
  { subst s1. rewrite (mimic_loaded_pending v1) by done.
    rewrite mimic_loaded_pending by (cbn; apply remove_one_elem; [congruence|done]).
    split_and!; cbn; [set_solver | intros [= ?]; lia | lia]. }
  intros s' Hrtc. induction Hrtc as [x|x y z Hstep _ IH].
  - by destruct Ho as (? & ? & _).
  - by apply IH, (orphan_step _ x).
Qed.

(** The ref ends with the layer of the load that completed last, which
    need not be the last specification's. *)
Lemma mimic_last_load_wins v1 v2 s :
  v1 ≠ v2 →
  let s1 := mimic_loaded v1 (mimic_loaded v2 (mimic_effect_run v2 (mimic_effect_run v1 s))) in
  ∃ l, l ∈ ms_layers s1 ∧ ms_ref s1 = Some (ml_id l) ∧ ml_spec l = v1.
Proof.
  intros Hne s1. set (s0 := mimic_effect_run v2 (mimic_effect_run v1 s)).
  assert (Hp : v1 ∈ ms_pending s0 ∧ v2 ∈ ms_pending s0).
  { subst s0. rewrite !pending_effect_run. set_solver. }
  destruct Hp as [Hp1 Hp2]. subst s1. rewrite (mimic_loaded_pending v2) by done.
  rewrite mimic_loaded_pending by (cbn; apply remove_one_elem; [congruence|done]).
  exists {| ml_id := S (ms_next s0); ml_spec := v1; ml_style := None |}. split_and!; cbn; [set_solver|done|done].
Qed.

Context (pointToLineDistance : position → list position → Q).

(** C20: After a specification is applied, the styling effect runs while
    the new mimic layer is still loading ([mimicLayerRef] was emptied by
    the cleanup), so it styles nothing; the layer that then arrives keeps
    the style it was created with and draws every street with weight
    [0], the streets outside the query's radius included, until the
    slider or the geocoded address changes. *)
Theorem applied_mimic_layer_keeps_creation_style v s inputs :
  let s1 := mimic_loaded v (mimic_restyle inputs (mimic_effect_run v s)) in
  ∃ l, ms_ref s1 = Some (ml_id l) ∧ l ∈ ms_layers s1 ∧ ml_spec l = v ∧
       ∀ line, layer_weight pointToLineDistance l line = Some 0%Q.
Proof.
  intros s1. subst s1. rewrite (restyle_no_ref inputs) by apply ref_effect_run. rewrite mimic_loaded_pending by (rewrite pending_effect_run; set_solver).
  exists (mkMimicLayer (ms_next (mimic_effect_run v s)) v None). split_and!; cbn; [done|set_solver|done|done].
Qed.

End MimicLayerProps.

Lemma init_maps_of_live_runs_witness :
  is_maps strict_mode_trace = [0] ∧
  (0 ∈ is_maps strict_mode_trace ↔ ∃ k r, is_runs strict_mode_trace !! k = Some r ∧ ir_map r = Some 0 ∧ ir_cancelled r = false).
Proof.
  split; [reflexivity|]. apply init_maps_of_live_runs. unfold strict_mode_trace.
  eapply rtc_r; [|apply istep_loaded]. eapply rtc_r; [|apply istep_loaded].
  eapply rtc_r; [|apply istep_mount]. eapply rtc_r; [|apply istep_cleanup].
  eapply rtc_r; [|apply istep_mount]. apply rtc_refl.
Defined.

Lemma mimic_overlapping_loads_leave_orphan_witness :
  0 ≠ 1 ∧
  let s1 := mimic_loaded 1 (mimic_loaded 0 (mimic_effect_run 1 (mimic_effect_run 0 mimic_start))) in
  ∃ l, ml_spec l = 0 ∧ ∀ s', rtc mimic_step s1 s' → l ∈ ms_layers s' ∧ ms_ref s' ≠ Some (ml_id l).
Proof. split; [lia|]. apply (mimic_overlapping_loads_leave_orphan 0 1 mimic_start). lia. Defined.
